(** * Supercode: agent orchestration and workflow execution engine

    A shallow embedding of the orchestration core of the repository:
    - [Js]: the JavaScript values that contexts, results and payloads hold;
    - [Todo]: the planner tasks of [TodoManagerAgent] and its dependency
      scheduler [autoScheduleTasks] (src/agents/todoManagerAgent.ts);
    - [Agent]: the lifecycle and the correlated request of [BaseAgent]
      (src/agents/baseAgent.ts);
    - [Supervisor]: registration, start/stop sweeps and routing of
      [SupervisorAgent] (src/agents/supervisorAgent.ts);
    - [Workflow]: the step loop of [WorkflowPlannerAgent]
      (src/agents/workflowPlannerAgent.ts);
    - [Bus] and [Logger]: the history of the event bus and the log of the
      logger (src/utils/eventBus.ts, src/utils/logger.ts);
    - [Messaging] and [Metrics]: the answers of [handleMessage] and the
      counters of [BaseAgent];
    - [Supervision]: the table, the queue and the broadcast of
      [SupervisorAgent];
    - [Control]: the management of workflows and executions and the
      resolution of parameters of [WorkflowPlannerAgent];
    - [TodoList] and [Planner]: the todo list and the queries on the planner
      tasks of [TodoManagerAgent].

    Objects of a class or interface are records; a [Map] or [Set] whose
    iteration order matters and a [Record<string, unknown>] are lists in
    insertion order, the others [gmap]s and [gset]s; a promise is the way it
    settles; what the event loop brings is an explicit list of happenings;
    the listeners of the event bus are a parameter of the methods that emit
    an event. The definitions come first, module by module, then the
    proofs. *)

From Stdlib Require Import ZArith Relations Permutation Sorted Ascii String.
From stdpp Require Import base strings pretty gmap sorting list.

Local Open Scope string_scope.
Local Open Scope nat_scope.
Local Open Scope list_scope.
Local Open Scope stdpp_scope.

(** ** Outcome of running a method

    [Returns a]: the method returns [a], or its promise resolves with [a];
    [Throws msg]: it throws, or its promise is rejected, with an error of
    message [msg]; [OutOfFuel]: the bound given to a loop of the model was
    too small to see the loop finish, or an awaited promise never settles. *)

Inductive Run (A : Type) : Type :=
  | Returns (a : A)
  | Throws (msg : string)
  | OutOfFuel.
Arguments Returns {A} a.
Arguments Throws {A} msg.
Arguments OutOfFuel {A}.

(** ** The state and exception monad of the methods

    A method runs on a state [S] (the object it belongs to, or the part of
    the world it touches) and returns, throws or fails to terminate. What it
    wrote before throwing stays written. *)

Definition M (S A : Type) : Type := S → Run A * S.

Definition ret {S A} (a : A) : M S A := λ s, (Returns a, s).

Definition bind {S A B} (m : M S A) (k : A → M S B) : M S B :=
  λ s,
    match m s with
    | (Returns a, s') => k a s'
    | (Throws msg, s') => (Throws msg, s')
    | (OutOfFuel, s') => (OutOfFuel, s')
    end.

Definition throw {S A} (msg : string) : M S A := λ s, (Throws msg, s).
Definition diverge {S A} : M S A := λ s, (OutOfFuel, s).
Definition gets {S A} (f : S → A) : M S A := λ s, (Returns (f s), s).
Definition modify {S} (f : S → S) : M S unit := λ s, (Returns tt, f s).

(** [try { m } catch (error) { h error.message }] *)
Definition try_catch {S A} (m : M S A) (h : string → M S A) : M S A :=
  λ s,
    match m s with
    | (Throws msg, s') => h msg s'
    | r => r
    end.

Notation "'let!' x ':=' m 'in' k" := (bind m (λ x, k))
  (at level 10, x name, m at level 100, k at level 200, only parsing).
Notation "m ;;; k" := (bind m (λ _, k))
  (at level 100, k at level 200, right associativity, only parsing).

(** * The planner tasks and the dependency scheduler
      (src/agents/todoManagerAgent.ts) *)

Module Todo.

Inductive TodoStatus := pending | in_progress | completed | cancelled.
Inductive TodoPriority := low | medium | high | critical.
Inductive PlannerTaskType := code | review | test | deploy | document | other.

#[global] Instance TodoStatus_eq_dec : EqDecision TodoStatus.
Proof. solve_decision. Defined.

Record TodoItem := {
  todo_id : string;
  todo_title : string;
  todo_priority : TodoPriority;
  todo_status : TodoStatus;
  todo_tags : list string;
}.

Record PlannerTask := {
  task_id : string;
  task_name : string;
  task_type : PlannerTaskType;
  task_files : list string;
  dependencies : list string;
  estimatedTime : option Z;
  actualTime : option Z;
  task_status : TodoStatus;
  task_priority : TodoPriority;
}.

(** The agent's two stores. [tasks] is a [Map<string, PlannerTask>]: a list
    in insertion order; every writer stores a task under its own [id]
    ([addPlannerTask], [updatePlannerTask], [loadTodos]), so the key of an
    entry is the [task_id] of its record. *)
Record TodoManagerAgent := {
  todos : list TodoItem;
  tasks : list PlannerTask;
}.

(** [Map.prototype.set]: an existing key keeps its place in the order. *)
Fixpoint map_set (t : PlannerTask) (l : list PlannerTask) : list PlannerTask :=
  match l with
  | [] => [t]
  | u :: l' =>
      if String.eqb (task_id u) (task_id t) then t :: l' else u :: map_set t l'
  end.

Definition map_get (i : string) (l : list PlannerTask) : option PlannerTask :=
  List.find (λ t, String.eqb (task_id t) i) l.

(** [this.tasks.values()], [this.tasks.get(id)] and [this.tasks.set(id, t)]. *)
Definition tasks_values : M TodoManagerAgent (list PlannerTask) := gets tasks.
Definition tasks_get (i : string) : M TodoManagerAgent (option PlannerTask) :=
  gets (λ self, map_get i (tasks self)).
Definition tasks_set (t : PlannerTask) : M TodoManagerAgent unit :=
  modify (λ self, {| todos := todos self; tasks := map_set t (tasks self) |}).

(** [addPlannerTask] with every field given ([saveTask] writes to the
    database only, which is not part of the state modelled here). *)
Definition addPlannerTask (t : PlannerTask) : M TodoManagerAgent PlannerTask :=
  tasks_set t ;;; ret t.

(** *** A JavaScript [Set] of strings, in insertion order *)

Definition JsSet := list string.

Fixpoint set_of_list (l : list string) (acc : JsSet) : JsSet :=
  match l with
  | [] => acc
  | x :: l' => set_of_list l' (if bool_decide (x ∈ acc) then acc else acc ++ [x])
  end.
Definition set_has (x : string) (s : JsSet) : bool := bool_decide (x ∈ s).
Definition set_delete (x : string) (s : JsSet) : JsSet := filter (λ a, a ≠ x) s.
Definition set_size (s : JsSet) : nat := length s.

(** *** [autoScheduleTasks] *)

(** [dep?.status === 'completed'] *)
Definition is_completed (dep : option PlannerTask) : bool :=
  match dep with
  | Some d => bool_decide (task_status d = completed)
  | None => false
  end.

(** [task.dependencies.every(depId => ...)] *)
Fixpoint depsComplete (deps : list string) (pendingSet : JsSet) : M TodoManagerAgent bool :=
  match deps with
  | [] => ret true
  | depId :: deps' =>
      let! dep := tasks_get depId in
      if is_completed dep || negb (set_has depId pendingSet)
      then depsComplete deps' pendingSet
      else ret false
  end.

(** The body of [for (const taskId of pending)]. The set is iterated while
    it is modified, but the only deletion is that of the entry being
    visited, so the entries visited are those of the set when the pass
    starts, in insertion order: the list [iter]. The accumulator holds the
    locals [pending], [scheduled] and [foundReady]. *)
Fixpoint schedulePass (iter : list string)
    (acc : JsSet * list PlannerTask * bool)
  : M TodoManagerAgent (JsSet * list PlannerTask * bool) :=
  match iter with
  | [] => ret acc
  | taskId :: iter' =>
      let '(pendingSet, scheduled, foundReady) := acc in
      let! otask := tasks_get taskId in
      match otask with
      | None => throw "TypeError: Cannot read properties of undefined (reading 'dependencies')"
      | Some task =>
          let! ready := depsComplete (dependencies task) pendingSet in
          if ready
          then schedulePass iter' (set_delete taskId pendingSet, scheduled ++ [task], true)
          else schedulePass iter' (pendingSet, scheduled, foundReady)
      end
  end.

(** [while (pending.size > 0) { ... if (!foundReady) break; }] *)
Fixpoint scheduleLoop (fuel : nat) (pendingSet : JsSet) (scheduled : list PlannerTask)
  : M TodoManagerAgent (list PlannerTask) :=
  match fuel with
  | O => diverge
  | S fuel' =>
      if bool_decide (0 < set_size pendingSet)
      then
        let! acc := schedulePass pendingSet (pendingSet, scheduled, false) in
        let '(pendingSet', scheduled', foundReady) := acc in
        if foundReady
        then scheduleLoop fuel' pendingSet' scheduled'
        else ret scheduled'
      else ret scheduled
  end.

Definition initialPending (ts : list PlannerTask) : JsSet :=
  set_of_list
    (map task_id (filter (λ t, task_status t = pending) ts)) [].

Definition autoScheduleTasks_fuel (fuel : nat) : M TodoManagerAgent (list PlannerTask) :=
  let! ts := tasks_values in
  scheduleLoop fuel (initialPending ts) [].

(** Every pass that goes on removes an entry, so one more round than
    there are pending tasks is enough for the loop to leave. *)
Definition autoScheduleTasks : M TodoManagerAgent (list PlannerTask) :=
  let! ts := tasks_values in
  scheduleLoop (S (set_size (initialPending ts))) (initialPending ts) [].

(** *** Example stores *)

Definition mkTask (i : string) (deps : list string) (st : TodoStatus) : PlannerTask :=
  {| task_id := i; task_name := i; task_type := code; task_files := [];
     dependencies := deps; estimatedTime := None; actualTime := None;
     task_status := st; task_priority := medium |}.

Definition store (ts : list PlannerTask) : TodoManagerAgent :=
  {| todos := []; tasks := ts |}.

(** c depends on b, b on a; stored in the order c, b, a. *)
Definition chain3 : TodoManagerAgent :=
  store [mkTask "c" ["b"] pending; mkTask "b" ["a"] pending; mkTask "a" [] pending].

(** One completed task and nothing else. *)
Definition oneCompleted : TodoManagerAgent :=
  store [mkTask "a" [] completed].

(** a (pending) depends on b, b (completed) depends on a. *)
Definition cycleThroughCompleted : TodoManagerAgent :=
  store [mkTask "a" ["b"] pending; mkTask "b" ["a"] completed].

(** a and b depend on each other, c is free. *)
Definition cycle2 : TodoManagerAgent :=
  store [mkTask "a" ["b"] pending; mkTask "b" ["a"] pending; mkTask "c" [] pending].

Definition order (r : Run (list PlannerTask) * TodoManagerAgent) : Run (list string) :=
  match fst r with
  | Returns l => Returns (map task_id l)
  | Throws m => Throws m
  | OutOfFuel => OutOfFuel
  end.

(** *** The dependency graph of a store *)

(** [depends ts x y]: the task with id [x] of the store lists the task
    with id [y] of the store among its dependencies. *)
Definition depends (ts : list PlannerTask) (x y : string) : Prop :=
  ∃ tx ty, tx ∈ ts ∧ ty ∈ ts ∧ task_id tx = x ∧ task_id ty = y
           ∧ y ∈ dependencies tx.

(** The same edge, between two tasks that both are [pending]. *)
Definition pending_depends (ts : list PlannerTask) (x y : string) : Prop :=
  ∃ tx ty, tx ∈ ts ∧ ty ∈ ts ∧ task_id tx = x ∧ task_id ty = y
           ∧ y ∈ dependencies tx
           ∧ task_status tx = pending ∧ task_status ty = pending.

Definition has_cycle (ts : list PlannerTask) : Prop :=
  ∃ x, clos_trans _ (depends ts) x x.
Definition has_pending_cycle (ts : list PlannerTask) : Prop :=
  ∃ x, clos_trans _ (pending_depends ts) x x.

Definition pending_tasks (ts : list PlannerTask) : list PlannerTask :=
  filter (λ t, task_status t = pending) ts.

(** [respects_dependencies l]: no task of [l] comes before one of its
    dependencies. *)
Definition respects_dependencies (l : list PlannerTask) : Prop :=
  ∀ i j t d, l !! i = Some t → l !! j = Some d →
             task_id d ∈ dependencies t → j < i.

(** The store is a [Map] keyed by task id. *)
Definition keyed (ts : list PlannerTask) : Prop := NoDup (map task_id ts).

(** The invariant of the loop, [Inv self pendingSet scheduled]: the scheduled tasks and the pending set
    partition the tasks that were pending at the start; each scheduled
    task is a stored pending task whose initially pending dependencies
    were all scheduled before it; no task of a cycle was scheduled. *)
Record Inv (self : TodoManagerAgent) (pendingSet : JsSet) (scheduled : list PlannerTask)
  : Prop := {
  inv_partition : map task_id scheduled ++ pendingSet ≡ₚ map task_id (pending_tasks (tasks self));
  inv_scheduled : ∀ i t, scheduled !! i = Some t →
      t ∈ tasks self ∧ task_status t = pending
      ∧ ∀ d, d ∈ dependencies t → d ∈ map task_id (pending_tasks (tasks self)) → d ∈ map task_id (take i scheduled);
  inv_cycles : ∀ x, clos_trans _ (pending_depends (tasks self)) x x → x ∈ pendingSet;
}.

(** No task of the pending set is ready: each waits for another one. *)
Definition stuck (ts : list PlannerTask) (pf : JsSet) : Prop :=
  pf ≠ [] ∧ ∀ x, x ∈ pf → ∃ d, d ∈ pf ∧ pending_depends ts x d.

(** *** The order, as the specification words it

    [order_as_specified size self]: for an acyclic store the order has [size]
    entries and respects the dependencies; for a store with a dependency
    cycle it has fewer than [size] entries. [size] is the "input size". *)
Definition order_as_specified (size : list PlannerTask → nat) (self : TodoManagerAgent) : Prop :=
  ∃ l, fst (autoScheduleTasks self) = Returns l
       ∧ (¬ has_cycle (tasks self) →
            length l = size (tasks self) ∧ respects_dependencies l)
       ∧ (has_cycle (tasks self) → length l < size (tasks self)).

End Todo.

(** * JavaScript values *)

Module Js.

(** The values that contexts, results, configurations and message
    payloads hold. Numbers are the integers; an object is the list of its
    own properties in insertion order, each key once. JavaScript
    enumerates the keys that are array indices before the others, in
    ascending order, and an assignment to the key [__proto__] makes no own
    property: the list keeps every key where it was inserted, so that
    reading a key other than [__proto__] is as in JavaScript, and the
    order of the keys as well when none of them is an array index. *)
#[warnings="-register-all"]
Inductive JsVal : Type :=
  | VUndefined
  | VNull
  | VBool (b : bool)
  | VNum (n : Z)
  | VStr (s : string)
  | VArr (items : list JsVal)
  | VObj (fields : list (string * JsVal)).

Definition JsObj : Type := list (string * JsVal).

(** Truthiness, as [if (v)], [v || w] and [v ? a : b] test it. *)
Definition truthy (v : JsVal) : bool :=
  match v with
  | VUndefined | VNull => false
  | VBool b => b
  | VNum n => negb (n =? 0)%Z
  | VStr s => negb (String.eqb s "")
  | VArr _ | VObj _ => true
  end.

Fixpoint obj_get (k : string) (o : JsObj) : option JsVal :=
  match o with
  | [] => None
  | (k', v) :: o' => if String.eqb k' k then Some v else obj_get k o'
  end.

(** [o[k] = v]: an existing property keeps its place. *)
Fixpoint obj_set (k : string) (v : JsVal) (o : JsObj) : JsObj :=
  match o with
  | [] => [(k, v)]
  | (k', v') :: o' =>
      if String.eqb k' k then (k, v) :: o' else (k', v') :: obj_set k v o'
  end.

(** [o[k]] as an expression: a missing property reads [undefined]. *)
Definition obj_read (k : string) (o : JsObj) : JsVal :=
  default VUndefined (obj_get k o).

Definition digit_of (c : ascii) : option nat :=
  let n := nat_of_ascii c in
  if (48 <=? n) && (n <=? 57) then Some (n - 48) else None.

Fixpoint digits (s : string) (acc : nat) : option nat :=
  match s with
  | EmptyString => Some acc
  | String c s' =>
      match digit_of c with
      | Some d => digits s' (10 * acc + d)
      | None => None
      end
  end.

(** A property name that is an array index: decimal, no leading zero. *)
Definition array_index (s : string) : option nat :=
  match s with
  | EmptyString => None
  | String c s' =>
      if Ascii.eqb c "0"%char
      then (if String.eqb s' "" then Some 0 else None)
      else digits s 0
  end.

Definition chars (s : string) : list JsVal :=
  map (λ c, VStr (String c EmptyString)) (list_ascii_of_string s).

(** [value[part]] for a value that passed [value && typeof value ===
    'object'], that is an object or an array. Of an array the own
    properties are read: its elements and [length]. *)
Definition get_prop (v : JsVal) (part : string) : JsVal :=
  match v with
  | VObj fields => obj_read part fields
  | VArr items =>
      if String.eqb part "length" then VNum (Z.of_nat (length items))
      else match array_index part with
           | Some i => default VUndefined (items !! i)
           | None => VUndefined
           end
  | _ => VUndefined
  end.

(** [null] and [undefined]: reading a property of them throws. *)
Definition nullish (v : JsVal) : bool :=
  match v with
  | VUndefined | VNull => true
  | _ => false
  end.

(** A string that is there and not empty: what [if (s)] and [s || d] let
    through of a value that is a string or [undefined]. *)
Definition present (s : option string) : option string :=
  match s with
  | Some x => if String.eqb x "" then None else Some x
  | None => None
  end.

(** The conversion to string of a template literal and of [String(v)]. *)
Fixpoint js_string (v : JsVal) : string :=
  match v with
  | VUndefined => "undefined"
  | VNull => "null"
  | VBool true => "true"
  | VBool false => "false"
  | VNum n => pretty n
  | VStr s => s
  | VArr items =>
      (fix join (l : list JsVal) : string :=
         let element x :=
           match x with
           | VUndefined | VNull => ""
           | _ => js_string x
           end in
         match l with
         | [] => ""
         | [x] => element x
         | x :: l' => element x +:+ "," +:+ join l'
         end) items
  | VObj _ => "[object Object]"
  end.

(** The message of the [TypeError] that reading [property] of [v] throws
    when [v] is [null] or [undefined], in the words of V8. *)
Definition cannot_read (v : JsVal) (property : string) : string :=
  "Cannot read properties of " +:+ js_string v +:+ " (reading '" +:+ property +:+ "')".

(** [Object.entries(v)]: the own properties of an object, the elements of
    an array and the characters of a string under their index. *)
Definition entries (v : JsVal) : list (string * JsVal) :=
  match v with
  | VObj fields => fields
  | VArr items => imap (λ i x, (pretty i, x)) items
  | VStr s => imap (λ i x, (pretty i, x)) (chars s)
  | _ => []
  end.

(** The values that [for (const x of v)] visits; [None] when [v] is not
    iterable. *)
Definition iterate (v : JsVal) : option (list JsVal) :=
  match v with
  | VArr items => Some items
  | VStr s => Some (chars s)
  | _ => None
  end.

Definition is_object (v : JsVal) : bool :=
  match v with
  | VObj _ | VArr _ => true
  | _ => false
  end.

(** [path.split('.')] *)
Fixpoint split_dot (s : string) (cur : string) : list string :=
  match s with
  | EmptyString => [cur]
  | String c s' =>
      if Ascii.eqb c "."%char then cur :: split_dot s' ""
      else split_dot s' (cur +:+ String c EmptyString)
  end.

End Js.

(** * The agent runtime (src/agents/baseAgent.ts) *)

Module Agent.
Import Js.

Inductive AgentStatus := idle | running | error | stopped.

#[global] Instance AgentStatus_eq_dec : EqDecision AgentStatus.
Proof. solve_decision. Defined.

Record AgentMetrics := {
  tasksCompleted : Z;
  tasksInProgress : Z;
  errorCount : Z;
  lastActivity : Z;
  uptime : Z;
}.

Record BaseAgentConfig := {
  enabled : bool;
  config_priority : Z;
  maxConcurrency : Z;
}.

Record BaseAgent := {
  agent_id : string;
  agent_name : string;
  status : AgentStatus;
  config : BaseAgentConfig;
  metrics : AgentMetrics;
  startTime : option Z;
}.

Inductive LogLevel := debug | info | warn | error_level | fatal.

#[global] Instance LogLevel_eq_dec : EqDecision LogLevel.
Proof. solve_decision. Defined.

Inductive SuperCodeEvent :=
  | agent_started (agentId : string)
  | agent_stopped (agentId : string)
  | agent_error (agentId : string) (err : string)
  | workflow_started (workflowId executionId : string)
  | workflow_completed (workflowId executionId : string)
  | workflow_failed (workflowId executionId : string) (err : string).

#[global] Instance SuperCodeEvent_eq_dec : EqDecision SuperCodeEvent.
Proof. solve_decision. Defined.

(** What a method does to the world outside the agent, in the order in which
    it does it: a call of the logger, an event given to [eventBus.emitEvent],
    and the entry into a method or hook of the agent [agentId]. *)
Inductive Effect :=
  | Log (level : LogLevel) (source message : string)
  | Emit (e : SuperCodeEvent)
  | Invoke (agentId method : string).

#[global] Instance Effect_eq_dec : EqDecision Effect.
Proof. solve_decision. Defined.

Record AgentWorld := {
  self : BaseAgent;
  trace : list Effect;
}.

Definition set_status (st : AgentStatus) (a : BaseAgent) : BaseAgent :=
  {| agent_id := agent_id a; agent_name := agent_name a; status := st;
     config := config a; metrics := metrics a; startTime := startTime a |}.

Definition set_startTime (t : Z) (a : BaseAgent) : BaseAgent :=
  {| agent_id := agent_id a; agent_name := agent_name a; status := status a;
     config := config a; metrics := metrics a; startTime := Some t |}.

Definition update_self (f : BaseAgent → BaseAgent) : M AgentWorld unit :=
  modify (λ w, {| self := f (self w); trace := trace w |}).

Definition effect (e : Effect) : M AgentWorld unit :=
  modify (λ w, {| self := self w; trace := trace w ++ [e] |}).

(** [logger.<level>(this.name, message)] *)
Definition log (level : LogLevel) (message : string) : M AgentWorld unit :=
  let! name := gets (λ w, agent_name (self w)) in
  effect (Log level name message).

(** The listeners of the event bus, as [eventBus.emitEvent] meets them: what
    they do with an event, one after the other, up to the return of the
    call. They run inside [emitEvent], which catches nothing: when one of
    them throws, [emitEvent] throws. *)
Definition Subscribers : Type := SuperCodeEvent → M AgentWorld unit.

(** A bus without listeners. *)
Definition nobody : Subscribers := λ _, ret tt.

(** [eventBus.emitEvent(e)]: the event is given to the bus, which hands it
    to its listeners. *)
Definition emitEvent (hear : Subscribers) (e : SuperCodeEvent) : M AgentWorld unit :=
  effect (Emit e) ;;; hear e.

Definition enter (method : string) : M AgentWorld unit :=
  let! i := gets (λ w, agent_id (self w)) in
  effect (Invoke i method).

(** [await this.<hook>()]: the hook of the subclass is entered and ends the
    way [outcome] says. No hook of the repository writes [this.status]. *)
Definition hook (method : string) (outcome : Run unit) : M AgentWorld unit :=
  enter method ;;; (λ w, (outcome, w)).

(** [start()]; [initialize] is the outcome of the [initialize] hook, [hear]
    the listeners of the bus and [now] the value of [new Date()]. Both calls
    of [emitEvent] can throw: the one in the [try] block into the [catch]
    block, the one in the [catch] block out of the method. *)
Definition start (initialize : Run unit) (hear : Subscribers) (now : Z)
  : M AgentWorld unit :=
  enter "start" ;;;
  let! st := gets (λ w, status (self w)) in
  if bool_decide (st = running)
  then log warn "Agent is already running"
  else
    try_catch
      (log info "Starting agent..." ;;;
       update_self (set_status running) ;;;
       update_self (set_startTime now) ;;;
       hook "initialize" initialize ;;;
       let! i := gets (λ w, agent_id (self w)) in
       emitEvent hear (agent_started i) ;;;
       log info "Agent started successfully")
      (λ errorMsg,
         update_self (set_status error) ;;;
         log error_level ("Failed to start agent: " +:+ errorMsg) ;;;
         let! i := gets (λ w, agent_id (self w)) in
         emitEvent hear (agent_error i errorMsg) ;;;
         throw errorMsg).

(** [stop()] up to its [await]: the [shutdown] hook is called unless the
    agent is stopped. The result says whether it was called. *)
Definition stop_enters : M AgentWorld bool :=
  enter "stop" ;;;
  let! st := gets (λ w, status (self w)) in
  if bool_decide (st = stopped)
  then log warn "Agent is already stopped" ;;; ret false
  else log info "Stopping agent..." ;;; enter "shutdown" ;;; ret true.

(** [stop()] from its [await] on: the promise of the hook settles the way
    [shutdown] says. The call of [emitEvent] is in the [try] block: a
    listener that throws is caught like a hook that throws, after the
    status was written. *)
Definition stop_resumes (shutdown : Run unit) (hear : Subscribers) : M AgentWorld unit :=
  try_catch
    ((λ w, (shutdown, w)) ;;;
     update_self (set_status stopped) ;;;
     let! i := gets (λ w, agent_id (self w)) in
     emitEvent hear (agent_stopped i) ;;;
     log info "Agent stopped successfully")
    (λ errorMsg,
       log error_level ("Error stopping agent: " +:+ errorMsg)).

(** [stop()]; [shutdown] is the outcome of the [shutdown] hook and [hear]
    the listeners of the bus. *)
Definition stop (shutdown : Run unit) (hear : Subscribers) : M AgentWorld unit :=
  let! entered := stop_enters in
  if entered then stop_resumes shutdown hear else ret tt.

(** [getStatus()] *)
Definition getStatus (a : BaseAgent) : AgentStatus := status a.

(** The hook ends by returning or by throwing. *)
Definition settles (outcome : Run unit) : Prop := outcome ≠ OutOfFuel.

(** What the specification says of [stop()]: a warning and nothing else on
    an agent that is stopped; otherwise the hook is entered, the call
    returns, the agent is stopped and the stopped event is emitted, however
    the hook ends. *)
Definition stop_as_specified (shutdown : Run unit) (hear : Subscribers) (w : AgentWorld)
  : Prop :=
  let i := agent_id (self w) in
  let r := stop shutdown hear w in
  if bool_decide (status (self w) = stopped)
  then r = (Returns tt,
            {| self := self w;
               trace := trace w ++ [Invoke i "stop";
                                    Log warn (agent_name (self w)) "Agent is already stopped"] |})
  else fst r = Returns tt
       ∧ status (self (snd r)) = stopped
       ∧ Invoke i "shutdown" ∈ trace (snd r)
       ∧ Emit (agent_stopped i) ∈ trace (snd r).

(** *** Messages and the correlated request *)

Inductive MessageType := request | response | event | error_message.

#[global] Instance MessageType_eq_dec : EqDecision MessageType.
Proof. solve_decision. Defined.

Record AgentMessage := {
  msg_id : string;
  msg_from : string;
  msg_to : string;
  msg_type : MessageType;
  content : JsVal;
  timestamp : Z;
}.

(** The functions registered with the event bus: the [handleMessage] bound
    by the constructor of an agent, and the [handler] closure of one
    [sendRequest], told apart by its request id. *)
Inductive Listener :=
  | HandleMessage (agentId : string)
  | RequestHandler (requestId : string).

#[global] Instance Listener_eq_dec : EqDecision Listener.
Proof. solve_decision. Defined.

Inductive Timer := Armed (deadline : Z) | Cleared | Fired.
Inductive Promise := Pending | Resolved (data : JsVal) | Rejected (message : string).

(** What one call of [sendRequest] holds in its closure: the addressee, the
    timer made by [setTimeout] and the promise it returned. *)
Record Request := {
  req_to : string;
  timer : Timer;
  promise : Promise;
}.

(** The part of the world the requests of one agent touch: the listeners of
    the event bus (event name, function), the messages given to
    [eventBus.sendMessage], the requests made so far by their id, and the
    clock in milliseconds. *)
Record RequestWorld := {
  listeners : list (string * Listener);
  outbox : list AgentMessage;
  requests : gmap string Request;
  clock : Z;
}.

Definition channel (agentId : string) : string := "message:" +:+ agentId.

(** [resolve] and [reject] settle a promise once. *)
Definition settle (new : Promise) (p : Promise) : Promise :=
  match p with
  | Pending => new
  | _ => p
  end.

(** [clearTimeout(timeout)] *)
Definition clearTimeout (t : Timer) : Timer :=
  match t with
  | Armed _ => Cleared
  | _ => t
  end.

(** [eventBus.off(event, fn)] *)
Definition off (ev : string) (fn : Listener) (ls : list (string * Listener))
  : list (string * Listener) :=
  filter (λ l, l ≠ (ev, fn)) ls.

Definition timeout_message (to : string) : string :=
  "Request to " +:+ to +:+ " timed out".

(** [new Error(payload.error).message]: the empty string when
    [payload.error] is [undefined], its conversion to a string otherwise. *)
Definition error_text (v : JsVal) : string :=
  match v with
  | VUndefined => ""
  | _ => js_string v
  end.

(** [payload.requestId === requestId]. Reading a property of [null] or
    [undefined] throws: the handler ends there, without effect on its
    request, and the exception goes to the caller of
    [eventBus.sendMessage], where this world does not follow it (a
    [sendRequest] with such a content is rejected by it at once when a
    handler is on the channel of the receiver; the round trip below is
    stated for the other contents). *)
Definition matches (requestId : string) (payload : JsVal) : bool :=
  match payload with
  | VObj fields =>
      match obj_read "requestId" fields with
      | VStr r => String.eqb r requestId
      | _ => false
      end
  | _ => false
  end.

(** What the handler does to its own request once the ids agree. *)
Definition answer (message : AgentMessage) (r : Request) : Request :=
  {| req_to := req_to r;
     timer := clearTimeout (timer r);
     promise :=
       settle
         (if bool_decide (msg_type message = error_message)
          then Rejected (error_text (get_prop (content message) "error"))
          else Resolved (get_prop (content message) "data"))
         (promise r) |}.

(** The [handler] closure of the request [requestId] of agent [selfId]. *)
Definition handler (selfId requestId : string) (message : AgentMessage)
    (w : RequestWorld) : RequestWorld :=
  if matches requestId (content message)
  then
    {| listeners := off (channel selfId) (RequestHandler requestId) (listeners w);
       outbox := outbox w;
       requests := alter (answer message) requestId (requests w);
       clock := clock w |}
  else w.

(** What happens next: a message is emitted on the bus, or time passes. *)
Inductive Happening :=
  | Deliver (message : AgentMessage)
  | Advance (now : Z).

(** [eventBus.sendMessage(message)] by anyone: the listeners of
    [message:<to>] run in the order in which they were registered, those
    registered when the message is emitted. The request handlers are the
    closures of this agent; only they act on this world. *)
Definition dispatch (selfId : string) (message : AgentMessage) (w : RequestWorld)
    (l : string * Listener) : RequestWorld :=
  match l with
  | (ev, RequestHandler r) =>
      if String.eqb ev (channel (msg_to message))
      then handler selfId r message w
      else w
  | _ => w
  end.

Definition deliver (selfId : string) (message : AgentMessage) (w : RequestWorld)
  : RequestWorld :=
  foldl (dispatch selfId message) w (listeners w).

(** The request message of [sendRequest]. *)
Definition request_message (selfId to : string) (body : JsVal) (requestId : string)
    (now : Z) : AgentMessage :=
  {| msg_id := requestId; msg_from := selfId; msg_to := to; msg_type := request;
     content := body; timestamp := now |}.

(** [sendRequest(to, content)] up to the point where the promise is handed
    back; [requestId] is the value of [uuidv4()]. The timer is set, the
    handler is registered, and the request is given to
    [eventBus.sendMessage], which runs the listeners of [message:<to>]:
    those of this world when the agent addresses itself. *)
Definition sendRequest (selfId to : string) (body : JsVal) (requestId : string)
    (w : RequestWorld) : RequestWorld :=
  let message := request_message selfId to body requestId (clock w) in
  deliver selfId message
    {| listeners := listeners w ++ [(channel selfId, RequestHandler requestId)];
       outbox := outbox w ++ [message];
       requests :=
         <[requestId := {| req_to := to; timer := Armed (clock w + 30000);
                           promise := Pending |}]> (requests w);
       clock := clock w |}.

(** The callback of [setTimeout] runs for a timer that is due and was not
    cleared. *)
Definition fire (now : Z) (r : Request) : Request :=
  match timer r with
  | Armed deadline =>
      if (deadline <=? now)%Z
      then {| req_to := req_to r; timer := Fired;
              promise := settle (Rejected (timeout_message (req_to r))) (promise r) |}
      else r
  | _ => r
  end.

Definition advance (now : Z) (w : RequestWorld) : RequestWorld :=
  {| listeners := listeners w; outbox := outbox w;
     requests := fire now <$> requests w; clock := now |}.

Definition react (selfId : string) (h : Happening) (w : RequestWorld) : RequestWorld :=
  match h with
  | Deliver message => deliver selfId message w
  | Advance now => advance now w
  end.

Definition run (selfId : string) (hs : list Happening) (w : RequestWorld) : RequestWorld :=
  foldl (λ w' h, react selfId h w') w hs.

(** The handler of the request is among the listeners of the bus. *)
Definition registered (selfId requestId : string) (w : RequestWorld) : Prop :=
  (channel selfId, RequestHandler requestId) ∈ listeners w.

(** The state of the promise of a request. *)
Definition outcome (requestId : string) (w : RequestWorld) : option Promise :=
  promise <$> requests w !! requestId.

(** What a message that answers a request settles its promise with. *)
Definition answer_of (m : AgentMessage) : Promise :=
  if bool_decide (msg_type m = error_message)
  then Rejected (error_text (get_prop (content m) "error"))
  else Resolved (get_prop (content m) "data").

(** A request that was not answered is waiting for its timer, or was
    rejected by it. *)
Definition unanswered (rid to : string) (d : Z) (w : RequestWorld) : Prop :=
  ∃ r, requests w !! rid = Some r ∧ req_to r = to
       ∧ ((timer r = Armed d ∧ promise r = Pending)
          ∨ (timer r = Fired ∧ promise r = Rejected (timeout_message to))).

(** The request is there and its promise is pending. *)
Definition waiting (rid : string) (w : RequestWorld) : Prop :=
  ∃ q, requests w !! rid = Some q ∧ promise q = Pending.

(** The request was settled by the message [m] and its handler is off the
    bus. *)
Definition answered (selfId rid : string) (m : AgentMessage) (w : RequestWorld) : Prop :=
  ¬ registered selfId rid w ∧ outcome rid w = Some (answer_of m).

(** The request is there and, while its promise is pending, its timer is
    armed for [d]. *)
Definition live (rid : string) (d : Z) (w : RequestWorld) : Prop :=
  ∃ q, requests w !! rid = Some q
       ∧ ((timer q = Armed d ∧ promise q = Pending) ∨ promise q ≠ Pending).

(** *** Example agents and worlds *)

Definition mkAgent (i name : string) (st : AgentStatus) : BaseAgent :=
  {| agent_id := i; agent_name := name; status := st;
     config := {| enabled := true; config_priority := 5; maxConcurrency := 1 |};
     metrics := {| tasksCompleted := 0; tasksInProgress := 0; errorCount := 0;
                   lastActivity := 0; uptime := 0 |};
     startTime := None |}.

Definition world (a : BaseAgent) : AgentWorld := {| self := a; trace := [] |}.

(** The bus when agent "me" was constructed and nothing else happened. *)
Definition quiet : RequestWorld :=
  {| listeners := [(channel "me", HandleMessage "me")]; outbox := [];
     requests := ∅; clock := 0 |}.

Definition reply (to requestId : string) (ty : MessageType) (k : string) (v : JsVal)
  : AgentMessage :=
  {| msg_id := "m"; msg_from := "ghost"; msg_to := to; msg_type := ty;
     content := VObj [("requestId", VStr requestId); (k, v)]; timestamp := 0 |}.

End Agent.

(** * The orchestrator (src/agents/supervisorAgent.ts) *)

Module Supervisor.
Import Js Agent.

Record SubAgentInfo := {
  agent : BaseAgent;
  attached : bool;
  priority : Z;
}.

(** The task object as [processTask] and [routeTask] read it. *)
Record Task := {
  task_type : option string;
  task_agentId : option string;
  task_data : JsVal;
}.

(** The supervisor: [subAgents] is a [Map<string, SubAgentInfo>], a list in
    insertion order whose entries are stored under the id of their agent
    ([registerAgent] is its only writer); [log] is what the methods did to
    the logger and the event bus. *)
Record SupervisorAgent := {
  base : BaseAgent;
  subAgents : list SubAgentInfo;
  taskQueue : list Task;
  isProcessing : bool;
  log : list Effect;
}.

Definition with_subAgents (f : list SubAgentInfo → list SubAgentInfo)
    (s : SupervisorAgent) : SupervisorAgent :=
  {| base := base s; subAgents := f (subAgents s); taskQueue := taskQueue s;
     isProcessing := isProcessing s; log := log s |}.

Definition with_log (f : list Effect → list Effect) (s : SupervisorAgent)
  : SupervisorAgent :=
  {| base := base s; subAgents := subAgents s; taskQueue := taskQueue s;
     isProcessing := isProcessing s; log := f (log s) |}.

Definition key (info : SubAgentInfo) : string := agent_id (agent info).

(** [Map.prototype.get], [set], [delete], [clear] on [subAgents]. *)
Definition sub_get (i : string) (l : list SubAgentInfo) : option SubAgentInfo :=
  List.find (λ info, String.eqb (key info) i) l.

Fixpoint sub_set (info : SubAgentInfo) (l : list SubAgentInfo) : list SubAgentInfo :=
  match l with
  | [] => [info]
  | x :: l' =>
      if String.eqb (key x) (key info) then info :: l' else x :: sub_set info l'
  end.

Definition sub_delete (i : string) (l : list SubAgentInfo) : list SubAgentInfo :=
  filter (λ info, key info ≠ i) l.

(** A field written through the reference [info] held by the map. *)
Definition sub_update (i : string) (f : SubAgentInfo → SubAgentInfo)
    (l : list SubAgentInfo) : list SubAgentInfo :=
  map (λ info, if String.eqb (key info) i then f info else info) l.

Definition set_attached (b : bool) (info : SubAgentInfo) : SubAgentInfo :=
  {| agent := agent info; attached := b; priority := priority info |}.

Definition set_agent (a : BaseAgent) (info : SubAgentInfo) : SubAgentInfo :=
  {| agent := a; attached := attached info; priority := priority info |}.

(** [logger.<level>(this.name, message)] *)
Definition say (level : LogLevel) (message : string) : M SupervisorAgent unit :=
  modify (λ s, with_log (λ l, l ++ [Log level (agent_name (base s)) message]) s).

(** [registerAgent(agent, priority = 5)] *)
Definition registerAgent (a : BaseAgent) (p : option Z) : M SupervisorAgent unit :=
  let p' := default 5%Z p in
  modify (with_subAgents (sub_set {| agent := a; attached := true; priority := p' |})) ;;;
  say info ("Registered sub-agent: " +:+ agent_name a +:+ " (priority: " +:+ pretty p' +:+ ")").

(** [unregisterAgent(agentId)] *)
Definition unregisterAgent (i : string) : M SupervisorAgent unit :=
  let! found := gets (λ s, sub_get i (subAgents s)) in
  match found with
  | Some entry =>
      modify (with_subAgents (sub_delete i)) ;;;
      say info ("Unregistered sub-agent: " +:+ agent_name (agent entry))
  | None => ret tt
  end.

(** [attachAgent(agentId)] and [detachAgent(agentId)] *)
Definition attachAgent (i : string) : M SupervisorAgent bool :=
  let! found := gets (λ s, sub_get i (subAgents s)) in
  match found with
  | Some entry =>
      modify (with_subAgents (sub_update i (set_attached true))) ;;;
      say info ("Attached sub-agent: " +:+ agent_name (agent entry)) ;;;
      ret true
  | None => ret false
  end.

Definition detachAgent (i : string) : M SupervisorAgent bool :=
  let! found := gets (λ s, sub_get i (subAgents s)) in
  match found with
  | Some entry =>
      modify (with_subAgents (sub_update i (set_attached false))) ;;;
      say info ("Detached sub-agent: " +:+ agent_name (agent entry)) ;;;
      ret true
  | None => ret false
  end.

(** [Array.prototype.sort(compare)]: stable, [compare(a, b) <= 0] keeps [a]
    before [b]. *)
Fixpoint sort_insert {A} (compare : A → A → Z) (x : A) (l : list A) : list A :=
  match l with
  | [] => [x]
  | y :: l' =>
      if (compare x y <=? 0)%Z then x :: l else y :: sort_insert compare x l'
  end.

Definition sort {A} (compare : A → A → Z) (l : list A) : list A :=
  foldr (sort_insert compare) [] l.

(** What the supervisor does not decide: the outcome of the [initialize]
    and of the [shutdown] hook of each agent, by agent id; the number of
    times that the [initialize] hook of the supervisor has run, each of
    which put its three listeners on the bus; and the other listeners of
    the bus (in the repository the listener of all events that the
    observability agent installs): the error that one of them throws on an
    event, if one does, after what has happened so far. *)
Record Hooks := {
  initialize_of : string → Run unit;
  shutdown_of : string → Run unit;
  subscriptions : nat;
  bystanders : list Effect → SuperCodeEvent → option string;
}.

(** [await agent.<method>()] for an agent of the table: the method runs on
    the agent object, and what it wrote is seen through the table. *)
Definition on_agent (a : BaseAgent) (m : M AgentWorld unit) : M SupervisorAgent unit :=
  λ s,
    let '(r, w) := m {| self := a; trace := log s |} in
    (r, with_log (λ _, trace w)
          (with_subAgents (sub_update (agent_id a) (set_agent (self w))) s)).

Fixpoint for_each {S A} (l : list A) (body : A → M S unit) : M S unit :=
  match l with
  | [] => ret tt
  | x :: l' => body x ;;; for_each l' body
  end.

(** [m], [n] times over, and the results of [n] runs of [m]. *)
Fixpoint times {S} (n : nat) (m : M S unit) : M S unit :=
  match n with
  | O => ret tt
  | S n' => m ;;; times n' m
  end.

Fixpoint collect {S A} (n : nat) (m : M S A) : M S (list A) :=
  match n with
  | O => ret []
  | S n' => let! x := m in let! l := collect n' m in ret (x :: l)
  end.

(** The other listeners of the bus: they run after those of the
    supervisor, which were registered for the type of the event. *)
Definition bystander (hooks : Hooks) (e : SuperCodeEvent) : M AgentWorld unit :=
  λ w, (match bystanders hooks (trace w) e with
        | Some message => Throws message
        | None => Returns tt
        end, w).

(** The listeners of [agent:started] and of [agent:stopped] that
    [initialize()] of the supervisor named [sup] installs, one of each for
    every time it ran, and the other listeners after them. *)
Definition announces (hooks : Hooks) (sup : string) : Subscribers :=
  λ e,
    match e with
    | agent_started i =>
        times (subscriptions hooks) (effect (Log info sup ("Sub-agent started: " +:+ i)))
    | agent_stopped i =>
        times (subscriptions hooks) (effect (Log info sup ("Sub-agent stopped: " +:+ i)))
    | _ => ret tt
    end ;;;
    bystander hooks e.

(** One listener of [agent:error], for an agent that the table holds under
    its id, up to the first [await] of [handleAgentError]: the error and
    the attempt are logged and [stop()] of the agent is called, which runs
    up to its own [await]. *)
Definition recovery_begins (sup i message : string) : M AgentWorld bool :=
  effect (Log error_level sup ("Sub-agent error: " +:+ i +:+ " - " +:+ message)) ;;;
  let! name := gets (λ w, agent_name (self w)) in
  effect (Log warn sup ("Attempting to recover agent: " +:+ name)) ;;;
  stop_enters.

(** The listeners of the bus when an agent of the table emits an event.
    On [agent:error] each listener of the supervisor begins a recovery;
    then the other listeners run; the calls of [stop()] that the
    recoveries made go on when the promise of the [shutdown] hook settles,
    in the order of the calls. That promise is taken to be settled when
    [stop()] awaits it, as it is for a hook that awaits nothing itself:
    the calls of [stop()] are then over before the caller of [start()]
    goes on, to whom an error that the other listeners threw goes. (A
    hook that waits for input and output lets that caller go on first.)
    What [handleAgentError] does after [stop()], waiting one second and
    calling [start()], comes after the sweep and is not part of it. *)
Definition hears (hooks : Hooks) (sup : string) : Subscribers :=
  λ e,
    match e with
    | agent_error i message =>
        let! entered := collect (subscriptions hooks) (recovery_begins sup i message) in
        let! thrown := gets (λ w, bystanders hooks (trace w) e) in
        for_each entered
          (λ called,
             if called : bool
             then stop_resumes (shutdown_of hooks i) (announces hooks sup)
             else ret tt) ;;;
        match thrown with
        | Some message' => throw message'
        | None => ret tt
        end
    | _ => announces hooks sup e
    end.

(** [startAllAgents()] *)
Definition startAllAgents (hooks : Hooks) (now : Z) : M SupervisorAgent unit :=
  say info "🚀 Starting all sub-agents..." ;;;
  let! agents :=
    gets (λ s, sort (λ a b, priority b - priority a)%Z
                 (filter (λ a, attached a = true) (subAgents s))) in
  let! sup := gets (λ s, agent_name (base s)) in
  for_each agents
    (λ i,
       try_catch
         (on_agent (agent i) (start (initialize_of hooks (key i)) (hears hooks sup) now))
         (λ _, say error_level ("Failed to start " +:+ agent_name (agent i)))) ;;;
  say info ("✅ Started " +:+ pretty (length agents) +:+ " sub-agents").

(** [shutdown()], the hook that [stop()] of the supervisor runs. *)
Definition shutdown (hooks : Hooks) : M SupervisorAgent unit :=
  say info "Shutting down all sub-agents..." ;;;
  let! agents :=
    gets (λ s, sort (λ a b, priority a - priority b)%Z (subAgents s)) in
  let! sup := gets (λ s, agent_name (base s)) in
  for_each agents
    (λ i,
       try_catch
         (on_agent (agent i) (stop (shutdown_of hooks (key i)) (hears hooks sup)))
         (λ _, say error_level ("Error stopping " +:+ agent_name (agent i)))) ;;;
  modify (with_subAgents (λ _, [])) ;;;
  say info "All sub-agents stopped".

(** The [typeToAgent] table of [routeTask]. A type that names an inherited
    property of the object literal reads a value that is no string, equal to
    no agent name, and so routes like a type without entry. *)
Definition typeToAgent (ty : string) : option string :=
  if String.eqb ty "model" then Some "ModelRouterAgent"
  else if String.eqb ty "tool" then Some "ToolsManagerAgent"
  else if String.eqb ty "function" then Some "FunctionsAgent"
  else if String.eqb ty "memory" then Some "MemoryAgent"
  else if String.eqb ty "knowledge" then Some "KnowledgeAgent"
  else if String.eqb ty "workflow" then Some "WorkflowPlannerAgent"
  else if String.eqb ty "todo" then Some "TodoManagerAgent"
  else if String.eqb ty "chat" then Some "ChatSessionManagerAgent"
  else if String.eqb ty "observe" then Some "ObservabilityAgent"
  else if String.eqb ty "personalize" then Some "PersonalizationAgent"
  else if String.eqb ty "security" then Some "SecurityAgent"
  else if String.eqb ty "integrate" then Some "IntegrationAgent"
  else None.

(** [routeTask(task)] *)
Definition routeTask (task : Task) (l : list SubAgentInfo) : option SubAgentInfo :=
  let agentName :=
    match present (task_type task) with
    | Some ty => typeToAgent ty
    | None => None
    end in
  let byName :=
    match present agentName with
    | Some name =>
        List.find (λ i, String.eqb (agent_name (agent i)) name && attached i) l
    | None => None
    end in
  match byName with
  | Some i => Some i
  | None =>
      List.find (λ i, attached i && bool_decide (getStatus (agent i) = running)) l
  end.

(** [processTask(task)]: the request made with [sendRequest], whose promise
    the method returns, or the error thrown. *)
Inductive Routed := SendRequest (to : string) (body : JsVal).

Definition processTask (task : Task) : M SupervisorAgent Routed :=
  match present (task_agentId task) with
  | Some agentId =>
      let! agentInfo := gets (λ s, sub_get agentId (subAgents s)) in
      match agentInfo with
      | Some i =>
          if attached i then ret (SendRequest agentId (task_data task))
          else throw ("Agent " +:+ agentId +:+ " not found or not attached")
      | None => throw ("Agent " +:+ agentId +:+ " not found or not attached")
      end
  | None =>
      let! targetAgent := gets (λ s, routeTask task (subAgents s)) in
      match targetAgent with
      | Some i => ret (SendRequest (agent_id (agent i)) (task_data task))
      | None => throw "No suitable agent found for task"
      end
  end.

(** The ids of the agents on which [method] was entered, in order. *)
Definition invoked (method : string) (l : list Effect) : list string :=
  omap (λ e, match e with
             | Invoke i m => if String.eqb m method then Some i else None
             | _ => None
             end) l.

(** [m] adds to the trace without entering [method], leaves the id of the
    agent as it is, and ends. *)
Definition aside {A} (method : string) (m : M AgentWorld A) : Prop :=
  ∀ w, ∃ new, trace (snd (m w)) = trace w ++ new
              ∧ invoked method new = []
              ∧ agent_id (self (snd (m w))) = agent_id (self w)
              ∧ fst (m w) ≠ OutOfFuel.

(** The ids of the agents that a sweep run on [s] started, or stopped, in
    order: read off what the sweep added to the log. *)
Definition start_order (hooks : Hooks) (now : Z) (s : SupervisorAgent) : list string :=
  invoked "start" (drop (length (log s)) (log (snd (startAllAgents hooks now s)))).

Definition stop_order (hooks : Hooks) (s : SupervisorAgent) : list string :=
  invoked "stop" (drop (length (log s)) (log (snd (shutdown hooks s)))).

(** Every hook ends, by returning or by throwing. *)
Definition hooks_settle (hooks : Hooks) : Prop :=
  ∀ i, settles (initialize_of hooks i) ∧ settles (shutdown_of hooks i).

(** [sweep ids l by_priority]: the agents of [ids] are those of [l], each
    once, ordered by [by_priority]. *)
Definition sweep (ids : list string) (l : list SubAgentInfo)
    (by_priority : Z → Z → Prop) : Prop :=
  ∃ agents, ids = map key agents ∧ agents ≡ₚ l
            ∧ StronglySorted (λ a b, by_priority (priority a) (priority b)) agents.

(** [in_turn ids l by_priority]: [sweep], and the agents of one priority
    come in the order they have in [l]. *)
Definition in_turn (ids : list string) (l : list SubAgentInfo)
    (by_priority : Z → Z → Prop) : Prop :=
  ∃ agents, ids = map key agents ∧ agents ≡ₚ l
            ∧ StronglySorted (λ a b, by_priority (priority a) (priority b)) agents
            ∧ ∀ p, filter (λ a, priority a = p) agents = filter (λ a, priority a = p) l.

(** No listener of the bus other than those of the supervisor throws. *)
Definition bystanders_return (hooks : Hooks) : Prop :=
  ∀ done e, bystanders hooks done e = None.

(** What the specification says of the two sweeps. *)
Definition sweeps_as_specified (hooks : Hooks) (now : Z) (s : SupervisorAgent) : Prop :=
  sweep (start_order hooks now s) (filter (λ a, attached a = true) (subAgents s)) Z.ge
  ∧ sweep (stop_order hooks s) (subAgents s) Z.le
  ∧ subAgents (snd (shutdown hooks s)) = []
  ∧ stop_order hooks s = reverse (start_order hooks now s).

(** [x] is the first entry of [l] with [P]. *)
Definition first_such {A} (P : A → Prop) (l : list A) (x : A) : Prop :=
  ∃ l1 l2, l = l1 ++ x :: l2 ∧ P x ∧ ∀ y, y ∈ l1 → ¬ P y.

(** One round of a sweep: the method of the agent, its failure caught and
    logged. *)
Definition guarded (m : M AgentWorld unit) (complaint : string) (i : SubAgentInfo)
  : M SupervisorAgent unit :=
  try_catch (on_agent (agent i) m) (λ _, say error_level (complaint +:+ agent_name (agent i))).

(** The name that [routeTask] looks for. *)
Definition agentName (task : Task) : option string :=
  present (match present (task_type task) with
           | Some ty => typeToAgent ty
           | None => None
           end).

(** The agent is attached and bears the name that [typeToAgent] gives for
    the type of the task. *)
Definition wanted (task : Task) (i : SubAgentInfo) : Prop :=
  ∃ ty name, task_type task = Some ty ∧ typeToAgent ty = Some name
             ∧ agent_name (agent i) = name ∧ attached i = true.

(** The agent is attached and running. *)
Definition available (i : SubAgentInfo) : Prop :=
  attached i = true ∧ status (agent i) = running.

(** *** Example supervisors *)

Definition supervisor (l : list SubAgentInfo) : SupervisorAgent :=
  {| base := mkAgent "sup" "SupervisorAgent" running; subAgents := l;
     taskQueue := []; isProcessing := false; log := [] |}.

Definition fresh : SupervisorAgent := supervisor [].

Definition after {A} (m : M SupervisorAgent A) (s : SupervisorAgent) : SupervisorAgent :=
  snd (m s).

(** The first agents that src/index.ts registers, in its order: the
    observability and the security agent with priority 10, the model router
    with priority 9. *)
Definition three : SupervisorAgent :=
  after (registerAgent (mkAgent "mod" "ModelRouterAgent" idle) (Some 9%Z))
    (after (registerAgent (mkAgent "sec" "SecurityAgent" idle) (Some 10%Z))
       (after (registerAgent (mkAgent "obs" "ObservabilityAgent" idle) (Some 10%Z)) fresh)).

(** "sec" was detached and its priority was 10. *)
Definition secDetached : SupervisorAgent := after (detachAgent "sec") three.

(** The hooks return, the supervisor ran [initialize()] once, as in
    src/index.ts, and no other listener throws. *)
Definition calm : Hooks :=
  {| initialize_of := λ _, Returns tt; shutdown_of := λ _, Returns tt;
     subscriptions := 1; bystanders := λ _ _, None |}.

(** The [initialize] hook of "obs" throws; its [shutdown] hook, which
    awaits nothing, returns. *)
Definition rough : Hooks :=
  {| initialize_of := λ i, if String.eqb i "obs" then Throws "no database" else Returns tt;
     shutdown_of := λ _, Returns tt;
     subscriptions := 1; bystanders := λ _ _, None |}.

End Supervisor.


(** * The workflow engine (src/agents/workflowPlannerAgent.ts) *)

Module Workflow.
Import Js.

Inductive StepType :=
  | tool_step
  | function_step
  | agent_step
  | condition_step
  | loop_step
  | unknown_step (type : string).

(** [next?: string | string[]] *)
Inductive Next :=
  | next_absent
  | next_id (i : string)
  | next_pair (ids : list string).

Record WorkflowStep := {
  step_id : string;
  step_name : string;
  step_type : StepType;
  config : JsObj;
  next : Next;
  condition : option string;
}.

Record WorkflowDefinition := {
  wf_id : string;
  wf_name : string;
  description : string;
  version : string;
  attached : bool;
  enabled : bool;
  steps : list WorkflowStep;
}.

Inductive WorkflowStatus := pending | running | completed | failed | paused.

#[global] Instance WorkflowStatus_eq_dec : EqDecision WorkflowStatus.
Proof. solve_decision. Defined.

Record WorkflowExecution := {
  exec_id : string;
  workflowId : string;
  status : WorkflowStatus;
  currentStep : option string;
  startTime : Z;
  endTime : option Z;
  context : JsObj;
  results : JsObj;
  errors : list string;
}.

(** The agent. [objects] holds the execution objects by id: the loop that
    runs an execution and the map [executions] refer to the same object.
    [executions] is the set of keys of the map of that name, which stores an
    execution under its id. [emitted] holds the events that the methods
    gave to the bus and what they gave to the logger, in order; what the
    rounds of the step loop give to the logger (each step at level debug,
    each failure at level error) is left out. *)
Record WorkflowPlannerAgent := {
  workflows : gmap string WorkflowDefinition;
  objects : gmap string WorkflowExecution;
  executions : gset string;
  runningExecutions : gset string;
  emitted : list Agent.Effect;
}.

(** What the engine does not decide: the value of [new
Function('context', 'results', `return ${source}`)(context, results)],
[None] when making or calling the function throws; and how the promise
of [this.sendRequest(to, content)] settles. *)
Record Env := {
  jsEval : string → JsObj → JsObj → option JsVal;
  request : string → JsVal → Run JsVal;
}.

(** *** Writing the fields of an execution *)

Definition set_status (st : WorkflowStatus) (e : WorkflowExecution) : WorkflowExecution :=
  {| exec_id := exec_id e; workflowId := workflowId e; status := st;
     currentStep := currentStep e; startTime := startTime e; endTime := endTime e;
     context := context e; results := results e; errors := errors e |}.

Definition set_currentStep (i : string) (e : WorkflowExecution) : WorkflowExecution :=
  {| exec_id := exec_id e; workflowId := workflowId e; status := status e;
     currentStep := Some i; startTime := startTime e; endTime := endTime e;
     context := context e; results := results e; errors := errors e |}.

Definition set_endTime (t : Z) (e : WorkflowExecution) : WorkflowExecution :=
  {| exec_id := exec_id e; workflowId := workflowId e; status := status e;
     currentStep := currentStep e; startTime := startTime e; endTime := Some t;
     context := context e; results := results e; errors := errors e |}.

Definition set_context (k : string) (v : JsVal) (e : WorkflowExecution) : WorkflowExecution :=
  {| exec_id := exec_id e; workflowId := workflowId e; status := status e;
     currentStep := currentStep e; startTime := startTime e; endTime := endTime e;
     context := obj_set k v (context e); results := results e; errors := errors e |}.

Definition set_result (k : string) (v : JsVal) (e : WorkflowExecution) : WorkflowExecution :=
  {| exec_id := exec_id e; workflowId := workflowId e; status := status e;
     currentStep := currentStep e; startTime := startTime e; endTime := endTime e;
     context := context e; results := obj_set k v (results e); errors := errors e |}.

Definition push_error (msg : string) (e : WorkflowExecution) : WorkflowExecution :=
  {| exec_id := exec_id e; workflowId := workflowId e; status := status e;
     currentStep := currentStep e; startTime := startTime e; endTime := endTime e;
     context := context e; results := results e; errors := errors e ++ [msg] |}.

(** *** Conditions and parameters *)

(** [evaluateCondition(condition, execution)] *)
Definition evaluateCondition (env : Env) (source : string) (e : WorkflowExecution) : JsVal :=
  match jsEval env source (context e) (results e) with
  | Some v => v
  | None => VBool false
  end.

Fixpoint walk (parts : list string) (value : JsVal) : JsVal :=
  match parts with
  | [] => value
  | part :: parts' =>
      if truthy value && is_object value then walk parts' (get_prop value part)
      else VUndefined
  end.

(** [resolveValue(path, execution)] *)
Definition resolveValue (path : string) (e : WorkflowExecution) : JsVal :=
  walk (split_dot path "")
    (VObj [("context", VObj (context e)); ("results", VObj (results e))]).

(** [resolveParams(params, execution)] *)
Definition resolveParams (params : JsVal) (e : WorkflowExecution) : JsObj :=
  foldl
    (λ resolved kv,
       match kv with
       | (k, VStr s) =>
           if String.prefix "context." s then obj_set k (resolveValue s e) resolved
           else obj_set k (VStr s) resolved
       | (k, v) => obj_set k v resolved
       end)
    [] (entries params).

(** [v || {}] *)
Definition or_empty (v : JsVal) : JsVal := if truthy v then v else VObj [].

(** *** Steps *)

Definition executeToolStep (env : Env) (step : WorkflowStep) : M WorkflowExecution JsVal :=
  let! params := gets (resolveParams (or_empty (obj_read "params" (config step)))) in
  λ e, (request env "ToolsManagerAgent"
          (VObj [("action", VStr "execute");
                 ("toolId", obj_read "toolId" (config step));
                 ("params", VObj params)]), e).

Definition executeFunctionStep (env : Env) (step : WorkflowStep) : M WorkflowExecution JsVal :=
  let! input := gets (resolveParams (or_empty (obj_read "input" (config step)))) in
  λ e, (request env "FunctionsAgent"
          (VObj [("action", VStr "execute");
                 ("functionId", obj_read "functionId" (config step));
                 ("input", VObj input)]), e).

(** The result holds the context as it is when the step runs. (The code
    puts the context object itself into the result, so that what a later
    step writes to the context shows in this result as well; no statement
    below reads the context out of a result.) *)
Definition executeAgentStep (step : WorkflowStep) : M WorkflowExecution JsVal :=
  let! ctx := gets context in
  ret (VObj [("task", obj_read "task" (config step)); ("context", VObj ctx)]).

(** [steps.find(s => s.id === step.config.stepId)] *)
Definition find_step (i : JsVal) (l : list WorkflowStep) : option WorkflowStep :=
  match i with
  | VStr x => List.find (λ s, String.eqb (step_id s) x) l
  | _ => None
  end.

(** The body of [for (const item of items)] in [executeLoopStep]; [exec] is
    [executeStep]. *)
Fixpoint loopItems (exec : WorkflowStep → M WorkflowExecution JsVal)
    (wfs : gmap string WorkflowDefinition) (step : WorkflowStep)
    (items : list JsVal) (acc : list JsVal) : M WorkflowExecution (list JsVal) :=
  match items with
  | [] => ret acc
  | item :: items' =>
      modify (set_context "currentItem" item) ;;;
      let! wid := gets workflowId in
      let innerStep :=
        match wfs !! wid with
        | Some w => find_step (obj_read "stepId" (config step)) (steps w)
        | None => None
        end in
      match innerStep with
      | Some inner =>
          let! result := exec inner in
          loopItems exec wfs step items' (acc ++ [result])
      | None => loopItems exec wfs step items' acc
      end
  end.

Definition executeLoopStep (exec : WorkflowStep → M WorkflowExecution JsVal)
    (wfs : gmap string WorkflowDefinition) (step : WorkflowStep)
  : M WorkflowExecution JsVal :=
  match obj_read "items" (config step) with
  | VStr path =>
      let! items := gets (resolveValue path) in
      match iterate items with
      | Some l =>
          let! collected := loopItems exec wfs step l [] in
          ret (VArr collected)
      | None => throw "items is not iterable"
      end
  | VUndefined | VNull =>
      throw (cannot_read (obj_read "items" (config step)) "split")
  | _ => throw "path.split is not a function"
  end.

(** [executeStep(step, execution)]; [depth] bounds the nesting of loop steps
    (a loop step may name itself as its inner step). *)
Fixpoint executeStep (depth : nat) (env : Env) (wfs : gmap string WorkflowDefinition)
    (step : WorkflowStep) : M WorkflowExecution JsVal :=
  match depth with
  | O => diverge
  | S depth' =>
      match step_type step with
      | tool_step => executeToolStep env step
      | function_step => executeFunctionStep env step
      | agent_step => executeAgentStep step
      | condition_step =>
          gets (evaluateCondition env (js_string (obj_read "condition" (config step))))
      | loop_step => executeLoopStep (executeStep depth' env wfs) wfs step
      | unknown_step t => throw ("Unknown step type: " +:+ t)
      end
  end.

(** *** The step loop of [runWorkflow] *)

(** [new Map(steps.map(s => [s.id, s])).get(id)]: of the steps that share an
    id the last one is kept. *)
Definition stepMap_get (l : list WorkflowStep) (i : string) : option WorkflowStep :=
  List.find (λ s, String.eqb (step_id s) i) (reverse l).

(** The head of the loop and the lines before the [try]: the step to run,
    or [None] when the loop is left. *)
Definition beginStep (l : list WorkflowStep) (currentStepId : option string)
    (e : WorkflowExecution) : option (WorkflowStep * WorkflowExecution) :=
  match present currentStepId with
  | Some i =>
      if bool_decide (status e = running)
      then match stepMap_get l i with
           | Some step => Some (step, set_currentStep i e)
           | None => None
           end
      else None
  | None => None
  end.

Inductive Control :=
  | Continue (currentStepId : option string)
  | Break.

(** What follows [await this.executeStep(step, execution)], in the [try]
    block when it returned and in the [catch] block when it threw. *)
Definition afterStep (env : Env) (step : WorkflowStep) (outcome : Run JsVal)
  : M WorkflowExecution Control :=
  match outcome with
  | Returns result =>
      modify (set_result (step_id step) result) ;;;
      match next step with
      | next_pair ids =>
          let source := default "true" (present (condition step)) in
          let! conditionResult := gets (evaluateCondition env source) in
          ret (Continue (if truthy conditionResult then ids !! 0 else ids !! 1))
      | next_id i =>
          if String.eqb i "" then ret Break else ret (Continue (Some i))
      | next_absent => ret Break
      end
  | Throws errorMsg =>
      modify (push_error ("Step " +:+ step_name step +:+ ": " +:+ errorMsg)) ;;;
      match next step with
      | next_id i =>
          if String.eqb i ""
          then modify (set_status failed) ;;; ret Break
          else ret (Continue (Some i))
      | _ => modify (set_status failed) ;;; ret Break
      end
  | OutOfFuel => diverge
  end.

(** The [while] loop; [fuel] bounds its rounds. *)
Fixpoint stepLoop (fuel depth : nat) (env : Env) (wfs : gmap string WorkflowDefinition)
    (l : list WorkflowStep) (currentStepId : option string)
  : M WorkflowExecution unit :=
  match fuel with
  | O => diverge
  | S fuel' =>
      λ e,
        match beginStep l currentStepId e with
        | Some (step, e1) =>
            let '(outcome, e2) := executeStep depth env wfs step e1 in
            (let! control := afterStep env step outcome in
             match control with
             | Continue currentStepId' => stepLoop fuel' depth env wfs l currentStepId'
             | Break => ret tt
             end) e2
        | None => (Returns tt, e)
        end
  end.

(** *** The methods of the agent *)

Definition with_objects (f : gmap string WorkflowExecution → gmap string WorkflowExecution)
    (s : WorkflowPlannerAgent) : WorkflowPlannerAgent :=
  {| workflows := workflows s; objects := f (objects s); executions := executions s;
     runningExecutions := runningExecutions s; emitted := emitted s |}.

Definition with_executions (f : gset string → gset string)
    (s : WorkflowPlannerAgent) : WorkflowPlannerAgent :=
  {| workflows := workflows s; objects := objects s; executions := f (executions s);
     runningExecutions := runningExecutions s; emitted := emitted s |}.

Definition with_running (f : gset string → gset string)
    (s : WorkflowPlannerAgent) : WorkflowPlannerAgent :=
  {| workflows := workflows s; objects := objects s; executions := executions s;
     runningExecutions := f (runningExecutions s); emitted := emitted s |}.

Definition with_workflows
    (f : gmap string WorkflowDefinition → gmap string WorkflowDefinition)
    (s : WorkflowPlannerAgent) : WorkflowPlannerAgent :=
  {| workflows := f (workflows s); objects := objects s; executions := executions s;
     runningExecutions := runningExecutions s; emitted := emitted s |}.

Definition effect (x : Agent.Effect) : M WorkflowPlannerAgent unit :=
  modify (λ s, {| workflows := workflows s; objects := objects s;
                  executions := executions s;
                  runningExecutions := runningExecutions s;
                  emitted := emitted s ++ [x] |}).

Definition say (level : Agent.LogLevel) (message : string) : M WorkflowPlannerAgent unit :=
  effect (Agent.Log level "WorkflowPlannerAgent" message).

(** A method of the loop runs on the execution object [i]. *)
Definition on_execution {A} (i : string) (m : M WorkflowExecution A)
  : M WorkflowPlannerAgent A :=
  λ s,
    match objects s !! i with
    | Some e => let '(r, e') := m e in (r, with_objects <[i := e']> s)
    | None => (Throws "no such execution object", s)
    end.

(** [this.executions.get(executionId)] *)
Definition executions_get (i : string) (s : WorkflowPlannerAgent) : option WorkflowExecution :=
  if bool_decide (i ∈ executions s) then objects s !! i else None.

(** [registerWorkflow(workflow)] *)
Definition registerWorkflow (w : WorkflowDefinition) : M WorkflowPlannerAgent unit :=
  modify (with_workflows <[wf_id w := w]>) ;;;
  say Agent.debug ("Registered workflow: " +:+ wf_name w).

(** [runWorkflow(workflow, execution)], the execution given by its id. *)
Definition runWorkflow (fuel depth : nat) (env : Env) (now : Z)
    (w : WorkflowDefinition) (i : string) : M WorkflowPlannerAgent unit :=
  let! wfs := gets workflows in
  on_execution i (stepLoop fuel depth env wfs (steps w) (step_id <$> head (steps w))) ;;;
  let! st := on_execution i (gets status) in
  (if bool_decide (st = running)
   then on_execution i (modify (set_status completed)) ;;;
        effect (Agent.Emit (Agent.workflow_completed (wf_id w) i))
   else ret tt) ;;;
  on_execution i (modify (set_endTime now)) ;;;
  modify (with_running (λ r, r ∖ {[i]})) ;;;
  let! st' := on_execution i (gets status) in
  say Agent.info ("Workflow " +:+ match st' with
                                  | pending => "pending"
                                  | running => "running"
                                  | completed => "completed"
                                  | failed => "failed"
                                  | paused => "paused"
                                  end +:+ ": " +:+ wf_name w).

(** [executeWorkflow(workflowId, context)] up to the call of
    [runWorkflow], with the workflow and the execution that the call is
    given; [uuid] is the value of [uuidv4()]. What the method has done when
    it returns is [Control.executeWorkflow_returns]. *)
Definition executeWorkflow (uuid : string) (now : Z) (wid : string) (ctx : JsObj)
  : M WorkflowPlannerAgent (WorkflowDefinition * WorkflowExecution) :=
  let! found := gets (λ s, workflows s !! wid) in
  match found with
  | None => throw ("Workflow not found: " +:+ wid)
  | Some w =>
      if negb (attached w) || negb (enabled w)
      then throw ("Workflow not available: " +:+ wid)
      else
        let execution :=
          {| exec_id := uuid; workflowId := wid; status := running;
             currentStep := step_id <$> head (steps w); startTime := now;
             endTime := None; context := ctx; results := []; errors := [] |} in
        modify (with_objects <[uuid := execution]>) ;;;
        modify (with_executions (λ x, {[uuid]} ∪ x)) ;;;
        modify (with_running (λ x, {[uuid]} ∪ x)) ;;;
        effect (Agent.Emit (Agent.workflow_started wid uuid)) ;;;
        say Agent.info ("Started workflow: " +:+ wf_name w +:+ " (" +:+ uuid +:+ ")") ;;;
        ret (w, execution)
  end.

(** [executeWorkflow] and the run it launches, with its [catch], when
    nothing else happens in between. *)
Definition executeWorkflow_run (fuel depth : nat) (env : Env) (uuid : string)
    (now later : Z) (wid : string) (ctx : JsObj) : M WorkflowPlannerAgent unit :=
  let! started := executeWorkflow uuid now wid ctx in
  let '(w, _) := started in
  try_catch (runWorkflow fuel depth env later w uuid)
    (λ message,
       on_execution uuid (modify (set_status failed)) ;;;
       on_execution uuid (modify (push_error message)) ;;;
       on_execution uuid (modify (set_endTime later)) ;;;
       modify (with_running (λ r, r ∖ {[uuid]})) ;;;
       effect (Agent.Emit (Agent.workflow_failed wid uuid message))).

(** [cancelExecution(executionId)] *)
Definition cancelExecution (i : string) (now : Z) : M WorkflowPlannerAgent bool :=
  let! found := gets (executions_get i) in
  match found with
  | Some e =>
      if bool_decide (status e = running)
      then
        on_execution i (modify (set_status failed)) ;;;
        on_execution i (modify (push_error "Cancelled by user")) ;;;
        on_execution i (modify (set_endTime now)) ;;;
        modify (with_running (λ r, r ∖ {[i]})) ;;;
        say Agent.info ("Cancelled execution: " +:+ i) ;;;
        ret true
      else ret false
  | None => ret false
  end.

(** [pauseExecution(executionId)] *)
Definition pauseExecution (i : string) : M WorkflowPlannerAgent bool :=
  let! found := gets (executions_get i) in
  match found with
  | Some e =>
      if bool_decide (status e = running)
      then
        on_execution i (modify (set_status paused)) ;;;
        say Agent.info ("Paused execution: " +:+ i) ;;;
        ret true
      else ret false
  | None => ret false
  end.

(** The execution [e] with the context [c]. *)
Definition with_context (c : JsObj) (e : WorkflowExecution) : WorkflowExecution :=
  {| exec_id := exec_id e; workflowId := workflowId e; status := status e;
     currentStep := currentStep e; startTime := startTime e; endTime := endTime e;
     context := c; results := results e; errors := errors e |}.

(** The method writes to the context of the execution and to nothing else
    of it. *)
Definition context_only {A} (m : M WorkflowExecution A) : Prop :=
  ∀ e, ∃ c, snd (m e) = with_context c e.

(** The execution that [executeWorkflow] makes. *)
Definition newExecution (uuid : string) (now : Z) (w : WorkflowDefinition) (wid : string)
    (ctx : JsObj) : WorkflowExecution :=
  {| exec_id := uuid; workflowId := wid; status := running;
     currentStep := step_id <$> head (steps w); startTime := now;
     endTime := None; context := ctx; results := []; errors := [] |}.

(** What [cancelExecution] writes to an execution. *)
Definition cancelled (now : Z) (e : WorkflowExecution) : WorkflowExecution :=
  set_endTime now (push_error "Cancelled by user" (set_status failed e)).

(** The step, which the loop made the current one of [e], ends the way
    [outcome] says and leaves the execution [e']. *)
Definition step_run (depth : nat) (env : Env) (wfs : gmap string WorkflowDefinition)
    (step : WorkflowStep) (e : WorkflowExecution) (outcome : Run JsVal)
    (e' : WorkflowExecution) : Prop :=
  executeStep depth env wfs step (set_currentStep (step_id step) e) = (outcome, e').

(** The step succeeds whenever it is run. *)
Definition succeeds (depth : nat) (env : Env) (wfs : gmap string WorkflowDefinition)
    (step : WorkflowStep) : Prop :=
  ∀ e, ∃ v, fst (executeStep depth env wfs step e) = Returns v.

(** *** Example workflows and environments *)

Definition mkStep (i name : string) (ty : StepType) (cfg : JsObj) (nx : Next) : WorkflowStep :=
  {| step_id := i; step_name := name; step_type := ty; config := cfg; next := nx;
     condition := None |}.

(** The "git-operations" workflow of [loadBuiltInWorkflows]. *)
Definition gitOperations : WorkflowDefinition :=
  {| wf_id := "git-operations";
     wf_name := "Git Operations Workflow";
     description := "Automated git operations";
     version := "1.0.0";
     attached := true;
     enabled := true;
     steps :=
       [mkStep "status" "Check Status" tool_step
          [("toolId", VStr "git-status")] (next_id "check");
        mkStep "check" "Check for Changes" condition_step
          [("condition", VStr "context.status.length > 0")] (next_pair ["diff"; "done"]);
        mkStep "diff" "Get Diff" tool_step
          [("toolId", VStr "git-diff")] (next_id "done");
        mkStep "done" "Complete" function_step
          [("functionId", VStr "object-merge")] next_absent] |}.

(** An agent that has loaded this workflow and nothing else. *)
Definition planner : WorkflowPlannerAgent :=
  {| workflows := {[ "git-operations" := gitOperations ]}; objects := ∅;
     executions := ∅; runningExecutions := ∅; emitted := [] |}.

(** An evaluator that knows the two sources at work in "git-operations":
    the literal ["true"], and the comparison stored in its condition step,
    which throws when [context.status] is missing. *)
Definition gitEval (source : string) (ctx res : JsObj) : option JsVal :=
  if String.eqb source "true" then Some (VBool true)
  else if String.eqb source "context.status.length > 0"
  then match obj_get "status" ctx with
       | Some (VStr x) => Some (VBool (bool_decide (0 < String.length x)))
       | Some (VArr x) => Some (VBool (bool_decide (0 < length x)))
       | Some VUndefined | Some VNull | None => None
       | Some _ => Some (VBool false)
       end
  else None.

(** Every request is answered with [{ success: true }]. *)
Definition obliging : Env :=
  {| jsEval := gitEval;
     request := λ _ _, Returns (VObj [("success", VBool true)]) |}.

(** No request is answered: each one times out. *)
Definition deaf : Env :=
  {| jsEval := gitEval;
     request := λ to _, Throws (Agent.timeout_message to) |}.

(** Requests to the tools agent time out, the others are answered. *)
Definition toolless : Env :=
  {| jsEval := gitEval;
     request := λ to _, if String.eqb to "ToolsManagerAgent"
                        then Throws (Agent.timeout_message to)
                        else Returns (VObj [("success", VBool true)]) |}.

(** A workflow A -> B -> C in which B is a tool step. *)
Definition abc : WorkflowDefinition :=
  {| wf_id := "abc"; wf_name := "A then B then C"; description := "";
     version := "1.0.0"; attached := true; enabled := true;
     steps :=
       [mkStep "A" "First" agent_step [("task", VStr "a")] (next_id "B");
        mkStep "B" "Second" tool_step [("toolId", VStr "b")] (next_id "C");
        mkStep "C" "Third" function_step [("functionId", VStr "c")] next_absent] |}.

Definition abcPlanner : WorkflowPlannerAgent :=
  {| workflows := {[ "abc" := abc ]}; objects := ∅;
     executions := ∅; runningExecutions := ∅; emitted := [] |}.

(** The execution object [i] after a method ran on [s]. *)
Definition execution_after {A} (m : M WorkflowPlannerAgent A) (i : string)
    (s : WorkflowPlannerAgent) : option WorkflowExecution :=
  objects (snd (m s)) !! i.

End Workflow.

(** * The event bus and the logger (src/utils/eventBus.ts, src/utils/logger.ts) *)

Module Bus.

(** [Array.prototype.slice(start)] for an integer [start]: a negative
    [start] counts from the end. *)
Definition slice {A} (start : Z) (l : list A) : list A :=
  let len := Z.of_nat (length l) in
  let k := if (start <? 0)%Z then Z.max (len + start) 0 else Z.min start len in
  drop (Z.to_nat k) l.

(** [Array.prototype.shift()], its result dropped. *)
Definition shift {A} (l : list A) : list A := drop 1 l.

Section EventBus.
Context {Event : Type}.

(** The bus: its history, and the calls of [EventEmitter.emit] it made, each
    with the name of the event and the payload. *)
Record EventBus := {
  eventHistory : list Event;
  wire : list (string * Event);
}.

Definition maxHistorySize : nat := 1000.

Definition with_history (f : list Event → list Event) (b : EventBus) : EventBus :=
  {| eventHistory := f (eventHistory b); wire := wire b |}.

(** What does not belong to the bus: the name under which an event is
    emitted, and the way the listeners of a name end on a payload (all of
    them returning, or one of them throwing). *)
Variable type_of : Event → string.
Variable listeners : string → Event → Run unit.

(** [this.emit(name, payload)] *)
Definition emit (name : string) (payload : Event) : M EventBus unit :=
  modify (λ b, {| eventHistory := eventHistory b; wire := wire b ++ [(name, payload)] |}) ;;;
  (λ b, (listeners name payload, b)).

(** [emitEvent(event)] *)
Definition emitEvent (event : Event) : M EventBus unit :=
  modify (with_history (λ h, h ++ [event])) ;;;
  let! n := gets (λ b, length (eventHistory b)) in
  (if bool_decide (maxHistorySize < n) then modify (with_history shift) else ret tt) ;;;
  emit (type_of event) event ;;;
  emit "*" event.

(** [getHistory(limit?)], the limit an integer when it is given. *)
Definition getHistory (limit : option Z) (b : EventBus) : list Event :=
  let history := eventHistory b in
  match limit with
  | Some n => if (n =? 0)%Z then history else slice (- n) history
  | None => history
  end.

(** The bus after the events [es] were emitted one after the other,
    whatever became of each call. *)
Definition emitAll (es : list Event) (b : EventBus) : EventBus :=
  foldl (λ b' e, snd (emitEvent e b')) b es.

End EventBus.

Arguments EventBus Event : clear implicits.

End Bus.

Module Logger.
Import Js Agent.

Record LogEntry := {
  entry_id : string;
  level : LogLevel;
  source : string;
  message : string;
  data : JsVal;
  timestamp : Z;
  entry_traceId : option string;
}.

(** The logger; what it prints to the console is not part of it. *)
Record Logger := {
  logLevel : LogLevel;
  logs : list LogEntry;
  traceId : option string;
}.

Definition maxLogs : nat := Z.to_nat 10000.
Arguments maxLogs : simpl never.

Definition levels : list LogLevel := [debug; info; warn; error_level; fatal].

(** [Array.prototype.indexOf] *)
Fixpoint indexOf {A} `{EqDecision A} (x : A) (l : list A) : Z :=
  match l with
  | [] => -1
  | y :: l' =>
      if decide (y = x) then 0
      else let r := indexOf x l' in if (r <? 0)%Z then -1 else (r + 1)%Z
  end.

Definition with_logs (f : list LogEntry → list LogEntry) (g : Logger) : Logger :=
  {| logLevel := logLevel g; logs := f (logs g); traceId := traceId g |}.

(** [shouldLog(level)] *)
Definition shouldLog (l : LogLevel) (g : Logger) : bool :=
  (indexOf (logLevel g) levels <=? indexOf l levels)%Z.

(** One call of the logger: the level, the source, the message and the
    data, with the values of [uuidv4()] and [new Date()] of that call. *)
Record Call := {
  call_level : LogLevel;
  call_source : string;
  call_message : string;
  call_data : JsVal;
  call_uuid : string;
  call_now : Z;
}.

(** The entry that a call makes, [t] being the trace id of the logger. *)
Definition entry_of (t : option string) (c : Call) : LogEntry :=
  {| entry_id := call_uuid c; level := call_level c; source := call_source c;
     message := call_message c; data := call_data c; timestamp := call_now c;
     entry_traceId := t |}.

(** [log(level, source, message, data)], which [debug], [info], [warn],
    [error] and [fatal] call with their level. *)
Definition log (c : Call) : M Logger unit :=
  let! wanted := gets (shouldLog (call_level c)) in
  if negb wanted then ret tt
  else
    let! t := gets traceId in
    modify (with_logs (λ l, l ++ [entry_of t c])) ;;;
    let! n := gets (λ g, length (logs g)) in
    if bool_decide (maxLogs < n) then modify (with_logs Bus.shift) else ret tt.

Record Options := {
  opt_level : option LogLevel;
  opt_source : option string;
  opt_limit : option Z;
}.

(** [getLogs(options?)]; no options are options without fields. *)
Definition getLogs (options : Options) (g : Logger) : list LogEntry :=
  let filtered := logs g in
  let filtered :=
    match opt_level options with
    | Some l => filter (λ e, level e = l) filtered
    | None => filtered
    end in
  let filtered :=
    match present (opt_source options) with
    | Some s => filter (λ e, source e = s) filtered
    | None => filtered
    end in
  match opt_limit options with
  | Some n => if (n =? 0)%Z then filtered else Bus.slice (- n) filtered
  | None => filtered
  end.

Definition logAll (cs : list Call) (g : Logger) : Logger :=
  foldl (λ g' c, snd (log c g')) g cs.

(** A logger at level [info] with an empty log, and a call. *)
Definition blank : Logger := {| logLevel := info; logs := []; traceId := None |}.

Definition mkCall (l : LogLevel) (m : string) : Call :=
  {| call_level := l; call_source := "test"; call_message := m; call_data := VUndefined;
     call_uuid := m; call_now := 0 |}.

(** The entry is one that the options ask for. *)
Definition asked (options : Options) (e : LogEntry) : Prop :=
  (∀ l, opt_level options = Some l → level e = l)
  ∧ (∀ s, opt_source options = Some s → s ≠ "" → source e = s).

(** The levels from the least to the most severe. *)
Definition severity (l : LogLevel) : nat :=
  match l with
  | debug => 0
  | info => 1
  | warn => 2
  | error_level => 3
  | fatal => 4
  end.

End Logger.

(** * Answering requests and counting tasks (src/agents/baseAgent.ts) *)

Module Messaging.
Import Js Agent.

(** [sendResponse(to, requestId, content)] and [sendError(to, requestId,
    error)] of the agent [a]: the message they give to
    [eventBus.sendMessage]; [uuid] and [now] are the values of [uuidv4()]
    and of [new Date()]. *)
Definition sendResponse (a : BaseAgent) (to requestId : string) (data : JsVal)
    (uuid : string) (now : Z) : AgentMessage :=
  {| msg_id := uuid; msg_from := agent_id a; msg_to := to; msg_type := response;
     content := VObj [("requestId", VStr requestId); ("data", data)];
     timestamp := now |}.

Definition sendError (a : BaseAgent) (to requestId : string) (err : string)
    (uuid : string) (now : Z) : AgentMessage :=
  {| msg_id := uuid; msg_from := agent_id a; msg_to := to; msg_type := error_message;
     content := VObj [("requestId", VStr requestId); ("error", VStr err)];
     timestamp := now |}.

(** [handleMessage(message)]: the message that the agent sends in
    return, if it sends one. [processTask] is the method of the subclass. *)
Definition handleMessage (processTask : JsVal → M AgentWorld JsVal) (uuid : string)
    (now : Z) (message : AgentMessage) : M AgentWorld (option AgentMessage) :=
  log debug ("Received message from " +:+ msg_from message) ;;;
  if bool_decide (msg_type message = request)
  then
    try_catch
      (let! result := processTask (content message) in
       let! a := gets self in
       ret (Some (sendResponse a (msg_from message) (msg_id message) result uuid now)))
      (λ errorMsg,
         let! a := gets self in
         ret (Some (sendError a (msg_from message) (msg_id message) errorMsg uuid now)))
  else ret None.

(** What a request is settled with when the agent that receives it
    answers: the result of its [processTask], or the message of the error
    that [processTask] threw. *)
Definition settlement (r : Run JsVal) : option Promise :=
  match r with
  | Returns v => Some (Resolved v)
  | Throws msg => Some (Rejected msg)
  | OutOfFuel => None
  end.

End Messaging.

Module Metrics.
Import Agent.

Definition with_metrics (f : AgentMetrics → AgentMetrics) (a : BaseAgent) : BaseAgent :=
  {| agent_id := agent_id a; agent_name := agent_name a; status := status a;
     config := config a; metrics := f (metrics a); startTime := startTime a |}.

(** [taskStarted()], [taskCompleted()] and [taskFailed()]; [now] is the
    value of [new Date()]. *)
Definition taskStarted (now : Z) : BaseAgent → BaseAgent :=
  with_metrics (λ m,
    {| tasksCompleted := tasksCompleted m; tasksInProgress := tasksInProgress m + 1;
       errorCount := errorCount m; lastActivity := now; uptime := uptime m |}).

Definition taskCompleted (now : Z) : BaseAgent → BaseAgent :=
  with_metrics (λ m,
    {| tasksCompleted := tasksCompleted m + 1; tasksInProgress := tasksInProgress m - 1;
       errorCount := errorCount m; lastActivity := now; uptime := uptime m |}).

Definition taskFailed (now : Z) : BaseAgent → BaseAgent :=
  with_metrics (λ m,
    {| tasksCompleted := tasksCompleted m; tasksInProgress := tasksInProgress m - 1;
       errorCount := errorCount m + 1; lastActivity := now; uptime := uptime m |}).

(** The three counting methods, as calls. *)
Inductive Counting := Started | Completed | Failed.

#[global] Instance Counting_eq_dec : EqDecision Counting.
Proof. solve_decision. Defined.

Definition count (c : Counting) (now : Z) : BaseAgent → BaseAgent :=
  match c with
  | Started => taskStarted now
  | Completed => taskCompleted now
  | Failed => taskFailed now
  end.

(** The agent after the calls [cs], each with its value of [new Date()]. *)
Definition countAll (cs : list (Counting * Z)) (a : BaseAgent) : BaseAgent :=
  foldl (λ a' c, count c.1 c.2 a') a cs.

(** The number of calls of [c] among [cs]. *)
Definition calls (c : Counting) (cs : list (Counting * Z)) : Z :=
  Z.of_nat (length (filter (λ x, x.1 = c) cs)).

End Metrics.

(** * The table, the queue and the broadcast of the orchestrator
      (src/agents/supervisorAgent.ts) *)

Module Supervision.
Import Js Agent Supervisor.

(** [getAgent(agentId)] *)
Definition getAgent (i : string) (s : SupervisorAgent) : option BaseAgent :=
  agent <$> sub_get i (subAgents s).

(** [getSummary()] *)
Record Summary := {
  totalAgents : nat;
  attachedAgents : nat;
  runningAgents : nat;
  totalTasks : Z;
  queuedTasks : nat;
}.

Definition getSummary (s : SupervisorAgent) : Summary :=
  let agents := subAgents s in
  {| totalAgents := length agents;
     attachedAgents := length (filter (λ a, attached a = true) agents);
     runningAgents := length (filter (λ a, getStatus (agent a) = running) agents);
     totalTasks := tasksCompleted (metrics (base s));
     queuedTasks := length (taskQueue s) |}.

Definition with_queue (f : list Task → list Task) (s : SupervisorAgent) : SupervisorAgent :=
  {| base := base s; subAgents := subAgents s; taskQueue := f (taskQueue s);
     isProcessing := isProcessing s; log := log s |}.

Definition with_processing (b : bool) (s : SupervisorAgent) : SupervisorAgent :=
  {| base := base s; subAgents := subAgents s; taskQueue := taskQueue s;
     isProcessing := b; log := log s |}.

(** The object [{ ...task, agentId }]: the field [agentId] is written
    whether the argument was given or not. *)
Definition addressed (task : Task) (agentId : option string) : Task :=
  {| task_type := task_type task; task_agentId := agentId; task_data := task_data task |}.

(** [queueTask(task, agentId?)]; the promise it returns is settled by the
    processor. *)
Definition queueTask (task : Task) (agentId : option string) : M SupervisorAgent unit :=
  modify (with_queue (λ q, q ++ [addressed task agentId])).

(** The callback that [startTaskProcessor] hands to [setInterval], run to
    its end: the entry it took from the queue and the way it settled the
    promise of that entry, or [None] when it took none. [request] is the way
    the promise of [sendRequest] settles. *)
Definition tick (request : string → JsVal → Run JsVal)
  : M SupervisorAgent (option (Task * Promise)) :=
  let! busy := gets isProcessing in
  let! queue := gets taskQueue in
  if busy || bool_decide (length queue = 0) then ret None
  else
    modify (with_processing true) ;;;
    modify (with_queue Bus.shift) ;;;
    let! settled :=
      match head queue with
      | Some task =>
          try_catch
            (let! routed := processTask task in
             let 'SendRequest to body := routed in
             let! result := (λ s, (request to body, s)) in
             ret (Some (task, Resolved result)))
            (λ message, ret (Some (task, Rejected message)))
      | None => ret None
      end in
    modify (with_processing false) ;;;
    ret settled.

(** [n] runs of the callback, one after the other: what each one settled. *)
Fixpoint ticks (n : nat) (request : string → JsVal → Run JsVal)
  : M SupervisorAgent (list (Task * Promise)) :=
  match n with
  | O => ret []
  | S n' =>
      let! settled := tick request in
      let! rest := ticks n' request in
      ret (option_list settled ++ rest)
  end.

(** The way the processor settles the promise of a queued task on the
    table of [s]. *)
Definition verdict (request : string → JsVal → Run JsVal) (s : SupervisorAgent)
    (task : Task) : Promise :=
  match fst (processTask task s) with
  | Returns (SendRequest to body) =>
      match request to body with
      | Returns result => Resolved result
      | Throws message => Rejected message
      | OutOfFuel => Pending
      end
  | Throws message => Rejected message
  | OutOfFuel => Pending
  end.

(** The messages that [broadcast(message)] makes, one for each attached
    agent in the order of the table; [uuid k] is the value of the call
    number [k] of [crypto.randomUUID()] and [now] that of [new Date()]. *)
Definition announcements (message : JsVal) (uuid : nat → string) (now : Z)
    (s : SupervisorAgent) : list AgentMessage :=
  imap (λ k info,
          {| msg_id := uuid k; msg_from := agent_id (base s);
             msg_to := agent_id (agent info); msg_type := event;
             content := message; timestamp := now |})
       (filter (λ info, attached info = true) (subAgents s)).

(** The loop of [broadcast]: the messages that were given to
    [eventBus.sendMessage], in order, and the way the loop ends.
    [sendMessage] runs the listeners of the channel of the addressee and
    catches nothing. The first of them is [handleMessage] of the
    addressee, an [async] method, which does not throw to its caller. The
    others are the handlers of the requests that the addressee made and
    that are waiting, or were left on the bus by a timeout: [holding i]
    says whether the agent [i] has one. Such a handler reads [requestId]
    of the content, which throws when the content is [null] or
    [undefined]. *)
Fixpoint send_each (holding : string → bool) (messages : list AgentMessage)
  : Run unit * list AgentMessage :=
  match messages with
  | [] => (Returns tt, [])
  | m :: rest =>
      if nullish (content m) && holding (msg_to m)
      then (Throws (cannot_read (content m) "requestId"), [m])
      else let '(r, sent) := send_each holding rest in (r, m :: sent)
  end.

(** [broadcast(message)] *)
Definition broadcast (holding : string → bool) (message : JsVal) (uuid : nat → string)
    (now : Z) (s : SupervisorAgent) : Run unit * list AgentMessage :=
  send_each holding (announcements message uuid now s).

(** The agent of an attached entry once the start sweep of the supervisor
    named [sup] went over it. *)
Definition started (hooks : Hooks) (sup : string) (now : Z) (info : SubAgentInfo)
  : BaseAgent :=
  self (snd (start (initialize_of hooks (key info)) (hears hooks sup) now
               (world (agent info)))).

(** The table once the start sweep wrote the agent that it started for the
    entry [i]. *)
Definition written (hooks : Hooks) (sup : string) (now : Z) (t : list SubAgentInfo)
    (i : SubAgentInfo) : list SubAgentInfo :=
  sub_update (key i) (set_agent (started hooks sup now i)) t.

(** The table is a [Map]: no two entries under the same id. *)
Definition keyed (s : SupervisorAgent) : Prop := NoDup (map key (subAgents s)).

End Supervision.

(** * Managing workflows and executions (src/agents/workflowPlannerAgent.ts) *)

Module Control.
Import Js Workflow.

Definition set_attached (b : bool) (w : WorkflowDefinition) : WorkflowDefinition :=
  {| wf_id := wf_id w; wf_name := wf_name w; description := description w;
     version := version w; attached := b; enabled := enabled w; steps := steps w |}.

(** [unregisterWorkflow(workflowId)] *)
Definition unregisterWorkflow (wid : string) : M WorkflowPlannerAgent bool :=
  let! found := gets (λ s, workflows s !! wid) in
  modify (with_workflows (delete wid)) ;;;
  ret (bool_decide (is_Some found)).

(** [getWorkflow(workflowId)] *)
Definition getWorkflow (wid : string) (s : WorkflowPlannerAgent) : option WorkflowDefinition :=
  workflows s !! wid.

(** [attachWorkflow(workflowId)] and [detachWorkflow(workflowId)] *)
Definition attachWorkflow (wid : string) : M WorkflowPlannerAgent bool :=
  let! found := gets (getWorkflow wid) in
  match found with
  | Some _ => modify (with_workflows (alter (set_attached true) wid)) ;;; ret true
  | None => ret false
  end.

Definition detachWorkflow (wid : string) : M WorkflowPlannerAgent bool :=
  let! found := gets (getWorkflow wid) in
  match found with
  | Some _ => modify (with_workflows (alter (set_attached false) wid)) ;;; ret true
  | None => ret false
  end.

(** [resumeExecution(executionId)] up to the launch of [runWorkflow]: what
    it returns, and the workflow it launches when there is one. *)
Definition resumeExecution (i : string)
  : M WorkflowPlannerAgent (bool * option WorkflowDefinition) :=
  let! found := gets (executions_get i) in
  match found with
  | Some e =>
      if bool_decide (status e = paused)
      then
        on_execution i (modify (set_status running)) ;;;
        say Agent.info ("Resumed execution: " +:+ i) ;;;
        let! workflow := gets (getWorkflow (workflowId e)) in
        ret (true, workflow)
      else ret (false, None)
  | None => ret (false, None)
  end.

(** [resumeExecution] and the run it launches, when nothing else happens in
    between. *)
Definition resumeExecution_run (fuel depth : nat) (env : Env) (later : Z) (i : string)
  : M WorkflowPlannerAgent bool :=
  let! resumed := resumeExecution i in
  match resumed with
  | (b, Some w) => runWorkflow fuel depth env later w i ;;; ret b
  | (b, None) => ret b
  end.

(** [runWorkflow] after its loop. *)
Definition finish (later : Z) (w : WorkflowDefinition) (i : string)
  : M WorkflowPlannerAgent unit :=
  let! st := on_execution i (gets status) in
  (if bool_decide (st = running)
   then on_execution i (modify (set_status completed)) ;;;
        effect (Agent.Emit (Agent.workflow_completed (wf_id w) i))
   else ret tt) ;;;
  on_execution i (modify (set_endTime later)) ;;;
  modify (with_running (λ r, r ∖ {[i]})) ;;;
  let! st' := on_execution i (gets status) in
  say Agent.info ("Workflow " +:+ match st' with
                                  | pending => "pending"
                                  | running => "running"
                                  | completed => "completed"
                                  | failed => "failed"
                                  | paused => "paused"
                                  end +:+ ": " +:+ wf_name w).

(** What [executeStep] writes to the execution before its first [await].
    Only a loop step writes: it puts the current item into the context,
    for the first item when there is an inner step, whose own beginning
    follows, and for every item when there is none, as the loop then never
    waits. A step that throws its error before it waits has written
    nothing. [depth] bounds the nesting of loop steps. *)
Fixpoint stepBegins (depth : nat) (wfs : gmap string WorkflowDefinition)
    (step : WorkflowStep) : M WorkflowExecution unit :=
  match depth with
  | O => diverge
  | S depth' =>
      match step_type step with
      | loop_step =>
          match obj_read "items" (config step) with
          | VStr path =>
              let! items := gets (resolveValue path) in
              match iterate items with
              | Some l =>
                  let! wid := gets workflowId in
                  let innerStep :=
                    match wfs !! wid with
                    | Some w => find_step (obj_read "stepId" (config step)) (steps w)
                    | None => None
                    end in
                  match innerStep with
                  | Some inner =>
                      match l with
                      | item :: _ =>
                          modify (set_context "currentItem" item) ;;;
                          stepBegins depth' wfs inner
                      | [] => ret tt
                      end
                  | None =>
                      Supervisor.for_each l (λ item, modify (set_context "currentItem" item))
                  end
              | None => ret tt
              end
          | _ => ret tt
          end
      | _ => ret tt
      end
  end.

(** The part of [runWorkflow] that runs before its caller goes on: the
    method is called without [await], so it runs up to its first [await].
    When the loop is not entered that is all of it; otherwise it is the
    head of the first round and the beginning of its step. *)
Definition launch (depth : nat) (later : Z) (w : WorkflowDefinition) (i : string)
  : M WorkflowPlannerAgent unit :=
  let! wfs := gets workflows in
  let! begun := on_execution i (gets (beginStep (steps w) (step_id <$> head (steps w)))) in
  match begun with
  | Some (step, e1) => on_execution i (modify (λ _, e1) ;;; stepBegins depth wfs step)
  | None => finish later w i
  end.

(** [executeWorkflow(workflowId, context)] up to its [return]: the
    execution object it returns, as it is then. [later] is the value of
    [new Date()] in [runWorkflow]. (A caller that awaits the promise of
    the method goes on after the microtasks that the run had queued by
    then, and can find the run further on.) *)
Definition executeWorkflow_returns (depth : nat) (uuid : string) (now later : Z)
    (wid : string) (ctx : JsObj) : M WorkflowPlannerAgent WorkflowExecution :=
  let! started := executeWorkflow uuid now wid ctx in
  launch depth later (fst started) uuid ;;;
  on_execution uuid (gets (λ e, e)).

(** A workflow without steps. *)
Definition idle : WorkflowDefinition :=
  {| wf_id := "idle"; wf_name := "Idle"; description := ""; version := "1.0.0";
     attached := true; enabled := true; steps := [] |}.

(** The parts of a path, put together with dots. *)
Fixpoint join_dot (parts : list string) : string :=
  match parts with
  | [] => ""
  | [p] => p
  | p :: ps => p +:+ "." +:+ join_dot ps
  end.

(** The value at the end of a path through own properties of objects. *)
Fixpoint own_path (parts : list string) (v : JsVal) : option JsVal :=
  match parts with
  | [] => Some v
  | p :: ps =>
      match v with
      | VObj fields =>
          match obj_get p fields with
          | Some x => own_path ps x
          | None => None
          end
      | _ => None
      end
  end.

Definition dot_free (s : string) : Prop :=
  Forall (λ c, c ≠ "."%char) (list_ascii_of_string s).

(** What [resolveParams] makes of one value. *)
Definition resolved (e : WorkflowExecution) (v : JsVal) : JsVal :=
  match v with
  | VStr s => if String.prefix "context." s then resolveValue s e else VStr s
  | _ => v
  end.

(** A workflow of one step that names itself as the next one. *)
Definition again : WorkflowDefinition :=
  {| wf_id := "again"; wf_name := "Again"; description := ""; version := "1.0.0";
     attached := true; enabled := true;
     steps := [mkStep "A" "Once more" agent_step [("task", VStr "a")] (next_id "A")] |}.



(** The agent [abcPlanner] with an execution of "abc" that was paused. *)
Definition pausedAbc : WorkflowPlannerAgent :=
  snd (pauseExecution "x1" (snd (executeWorkflow "x1" 0 "abc" [] abcPlanner))).

End Control.

(** * The todo list and the queries on the planner tasks
      (src/agents/todoManagerAgent.ts) *)

Module TodoList.
Import Todo.

(** A todo with every field of the interface [TodoItem]; dates are
    milliseconds, a field that may be missing is an option. ([Todo.TodoItem]
    holds only the fields that the scheduler needs to type its state.) *)
Record TodoItem := {
  item_id : string;
  title : string;
  description : option string;
  priority : TodoPriority;
  status : TodoStatus;
  tags : list string;
  files : option (list string);
  dueDate : option Z;
  reminder : option Z;
  createdAt : Z;
  updatedAt : Z;
  completedAt : option Z;
  parentId : option string;
  subtasks : option (list string);
}.

(** A [Partial<TodoItem>]: for each field, [None] when the object has no
    such property. An optional field that is there may hold [undefined],
    which is the inner [None]. *)
Record Partial := {
  p_id : option string;
  p_title : option string;
  p_description : option (option string);
  p_priority : option TodoPriority;
  p_status : option TodoStatus;
  p_tags : option (list string);
  p_files : option (option (list string));
  p_dueDate : option (option Z);
  p_reminder : option (option Z);
  p_createdAt : option Z;
  p_updatedAt : option Z;
  p_completedAt : option (option Z);
  p_parentId : option (option string);
  p_subtasks : option (option (list string));
}.

(** The object [{}]. *)
Definition nothing : Partial :=
  {| p_id := None; p_title := None; p_description := None; p_priority := None;
     p_status := None; p_tags := None; p_files := None; p_dueDate := None;
     p_reminder := None; p_createdAt := None; p_updatedAt := None;
     p_completedAt := None; p_parentId := None; p_subtasks := None |}.

(** The part of the agent that the todo methods touch: the map [todos], a
    list in insertion order that holds each todo under its own id, and what
    the methods gave to the logger. *)
Record TodoWorld := {
  todos : list TodoItem;
  log : list Agent.Effect;
}.

Definition with_todos (f : list TodoItem → list TodoItem) (w : TodoWorld) : TodoWorld :=
  {| todos := f (todos w); log := log w |}.

(** [logger.info(this.name, message)] *)
Definition say (message : string) : M TodoWorld unit :=
  modify (λ w, {| todos := todos w;
                  log := log w ++ [Agent.Log Agent.info "TodoManagerAgent" message] |}).

(** [Map.prototype.get], [set] and [delete] on [todos]. *)
Definition todo_get (i : string) (l : list TodoItem) : option TodoItem :=
  List.find (λ t, String.eqb (item_id t) i) l.

Fixpoint todo_set (t : TodoItem) (l : list TodoItem) : list TodoItem :=
  match l with
  | [] => [t]
  | u :: l' =>
      if String.eqb (item_id u) (item_id t) then t :: l' else u :: todo_set t l'
  end.

Definition todo_delete (i : string) (l : list TodoItem) : list TodoItem :=
  filter (λ t, item_id t ≠ i) l.

(** The todo that [addTodo(item)] makes; [uuid] and [now] are the values of
    [uuidv4()] and of [new Date()]. *)
Definition made (item : Partial) (uuid : string) (now : Z) : TodoItem :=
  {| item_id := default uuid (Js.present (p_id item));
     title := default "Untitled" (Js.present (p_title item));
     description := mjoin (p_description item);
     priority := default medium (p_priority item);
     status := default pending (p_status item);
     tags := default [] (p_tags item);
     files := mjoin (p_files item);
     dueDate := mjoin (p_dueDate item);
     reminder := mjoin (p_reminder item);
     createdAt := now;
     updatedAt := now;
     completedAt := None;
     parentId := mjoin (p_parentId item);
     subtasks := mjoin (p_subtasks item) |}.

(** [addTodo(item)]. What [saveTodo] writes to the database is not part of
    the world. *)
Definition addTodo (item : Partial) (uuid : string) (now : Z) : M TodoWorld TodoItem :=
  let todo := made item uuid now in
  modify (with_todos (todo_set todo)) ;;;
  say ("Added todo: " +:+ title todo) ;;;
  ret todo.

(** The object [{ ...existing, ...updates, id, updatedAt: new Date() }]. *)
Definition merged (existing : TodoItem) (updates : Partial) (i : string) (now : Z)
  : TodoItem :=
  {| item_id := i;
     title := default (title existing) (p_title updates);
     description := default (description existing) (p_description updates);
     priority := default (priority existing) (p_priority updates);
     status := default (status existing) (p_status updates);
     tags := default (tags existing) (p_tags updates);
     files := default (files existing) (p_files updates);
     dueDate := default (dueDate existing) (p_dueDate updates);
     reminder := default (reminder existing) (p_reminder updates);
     createdAt := default (createdAt existing) (p_createdAt updates);
     updatedAt := now;
     completedAt := default (completedAt existing) (p_completedAt updates);
     parentId := default (parentId existing) (p_parentId updates);
     subtasks := default (subtasks existing) (p_subtasks updates) |}.

(** [updateTodo(id, updates)]; [None] is [null]. *)
Definition updateTodo (i : string) (updates : Partial) (now : Z)
  : M TodoWorld (option TodoItem) :=
  let! existing := gets (λ w, todo_get i (todos w)) in
  match existing with
  | None => ret None
  | Some existing =>
      let updated := merged existing updates i now in
      modify (with_todos (todo_set updated)) ;;;
      say ("Updated todo: " +:+ title updated) ;;;
      ret (Some updated)
  end.

(** [deleteTodo(id)] *)
Definition deleteTodo (i : string) : M TodoWorld bool :=
  let! found := gets (λ w, todo_get i (todos w)) in
  modify (with_todos (todo_delete i)) ;;;
  ret (bool_decide (is_Some found)).

(** The object [{ status: 'completed', completedAt: new Date() }]. *)
Definition completion (date : Z) : Partial :=
  {| p_id := None; p_title := None; p_description := None; p_priority := None;
     p_status := Some completed; p_tags := None; p_files := None; p_dueDate := None;
     p_reminder := None; p_createdAt := None; p_updatedAt := None;
     p_completedAt := Some (Some date); p_parentId := None; p_subtasks := None |}.

(** [completeTodo(id)]; [date] is the value of the [new Date()] of the
    method and [now] that of [updateTodo]. *)
Definition completeTodo (i : string) (date now : Z) : M TodoWorld (option TodoItem) :=
  updateTodo i (completion date) now.

Record Filters := {
  f_status : option TodoStatus;
  f_priority : option TodoPriority;
  f_tag : option string;
}.

#[global] Instance TodoPriority_eq_dec : EqDecision TodoPriority.
Proof. solve_decision. Defined.

(** The three filters of [getTodos], one after the other. *)
Definition select (filters : Filters) (l : list TodoItem) : list TodoItem :=
  let results := l in
  let results :=
    match f_status filters with
    | Some s => filter (λ t, status t = s) results
    | None => results
    end in
  let results :=
    match f_priority filters with
    | Some p => filter (λ t, priority t = p) results
    | None => results
    end in
  match Js.present (f_tag filters) with
  | Some tag => filter (λ t, tag ∈ tags t) results
  | None => results
  end.

(** [priorityOrder] *)
Definition priorityOrder (p : TodoPriority) : Z :=
  match p with
  | critical => 0
  | high => 1
  | medium => 2
  | low => 3
  end.

(** The comparison function of the sort in [getTodos]. *)
Definition compare (a b : TodoItem) : Z :=
  let priorityDiff := (priorityOrder (priority a) - priorityOrder (priority b))%Z in
  if negb (priorityDiff =? 0)%Z then priorityDiff
  else
    match dueDate a, dueDate b with
    | Some x, Some y => (x - y)%Z
    | Some _, None => (-1)%Z
    | None, Some _ => 1%Z
    | None, None => 0%Z
    end.

(** [getTodos(filters?)]; no filters are filters without fields. *)
Definition getTodos (filters : Filters) (w : TodoWorld) : list TodoItem :=
  Supervisor.sort compare (select filters (todos w)).

(** [getPendingTodos()] *)
Definition getPendingTodos (w : TodoWorld) : list TodoItem :=
  getTodos {| f_status := Some pending; f_priority := None; f_tag := None |} w.

(** The callback of the filter in [getTodayTodos]; [today] and [tomorrow]
    are the two dates that the method makes, the start of the day and the
    start of the next. *)
Definition due_today (today tomorrow : Z) (t : TodoItem) : bool :=
  match dueDate t with
  | Some d => (today <=? d)%Z && (d <? tomorrow)%Z
  | None => false
  end.

(** [getTodayTodos()] *)
Definition getTodayTodos (today tomorrow : Z) (w : TodoWorld) : list TodoItem :=
  filter (λ t, due_today today tomorrow t = true) (todos w).

(** The callback of the filter in [getOverdueTodos]; [now] is the value of
    [new Date()]. *)
Definition is_overdue (now : Z) (t : TodoItem) : bool :=
  match dueDate t with
  | Some d => bool_decide (status t ≠ completed) && (d <? now)%Z
  | None => false
  end.

(** [getOverdueTodos()] *)
Definition getOverdueTodos (now : Z) (w : TodoWorld) : list TodoItem :=
  filter (λ t, is_overdue now t = true) (todos w).

(** The objects [{ ...subtask, parentId }] and [{ subtasks: ids }]. *)
Definition under (parent_id : string) (subtask : Partial) : Partial :=
  {| p_id := p_id subtask; p_title := p_title subtask;
     p_description := p_description subtask; p_priority := p_priority subtask;
     p_status := p_status subtask; p_tags := p_tags subtask;
     p_files := p_files subtask; p_dueDate := p_dueDate subtask;
     p_reminder := p_reminder subtask; p_createdAt := p_createdAt subtask;
     p_updatedAt := p_updatedAt subtask; p_completedAt := p_completedAt subtask;
     p_parentId := Some (Some parent_id); p_subtasks := p_subtasks subtask |}.

Definition with_subtasks (ids : list string) : Partial :=
  {| p_id := None; p_title := None; p_description := None; p_priority := None;
     p_status := None; p_tags := None; p_files := None; p_dueDate := None;
     p_reminder := None; p_createdAt := None; p_updatedAt := None;
     p_completedAt := None; p_parentId := None; p_subtasks := Some (Some ids) |}.

(** [addSubtask(parentId, subtask)]; [now] is the value of [new Date()] in
    [addTodo] and [later] that in [updateTodo]. The array of the parent is
    extended by the id of the new todo and written back with [updateTodo];
    [parent] is the object that was read before [addTodo] ran. Each array of
    subtasks is taken to be held by one todo of the map. *)
Definition addSubtask (parent_id : string) (subtask : Partial) (uuid : string)
    (now later : Z) : M TodoWorld (option TodoItem) :=
  let! parent := gets (λ w, todo_get parent_id (todos w)) in
  match parent with
  | None => ret None
  | Some parent =>
      let! newSubtask := addTodo (under parent_id subtask) uuid now in
      let ids := default [] (subtasks parent) ++ [item_id newSubtask] in
      updateTodo parent_id (with_subtasks ids) later ;;;
      ret (Some newSubtask)
  end.

(** [getSubtasks(parentId)] *)
Definition getSubtasks (parent_id : string) (w : TodoWorld) : list TodoItem :=
  match todo_get parent_id (todos w) with
  | Some parent =>
      match subtasks parent with
      | Some ids => omap (λ i, todo_get i (todos w)) ids
      | None => []
      end
  | None => []
  end.

(** The object [{ reminder: undefined }]. *)
Definition no_reminder : Partial :=
  {| p_id := None; p_title := None; p_description := None; p_priority := None;
     p_status := None; p_tags := None; p_files := None; p_dueDate := None;
     p_reminder := Some None; p_createdAt := None; p_updatedAt := None;
     p_completedAt := None; p_parentId := None; p_subtasks := None |}.

(** The body of the loop of [checkReminders] for one todo of the map. *)
Definition remind (now stamp : Z) (todo : TodoItem) : M TodoWorld unit :=
  match reminder todo with
  | Some r =>
      if bool_decide (status todo ≠ completed) && (r <=? now)%Z
      then
        say ("⏰ Reminder: " +:+ title todo) ;;;
        updateTodo (item_id todo) no_reminder stamp ;;;
        ret tt
      else ret tt
  | None => ret tt
  end.

(** [checkReminders()]; [now] is the value of its [new Date()] and [stamp]
    that of the calls of [updateTodo]. The loop goes over the values the map
    holds; the only writes are to the entry that is being visited. *)
Definition checkReminders (now stamp : Z) : M TodoWorld unit :=
  let! values := gets todos in
  Supervisor.for_each values (remind now stamp).

(** [getStats()] *)
Record Stats := {
  total : nat;
  byStatus : TodoStatus → nat;
  byPriority : TodoPriority → nat;
  overdue : nat;
  dueToday : nat;
  completedToday : nat;
}.

Definition bump {K} `{EqDecision K} (k : K) (f : K → nat) : K → nat :=
  λ x, if decide (x = k) then S (f x) else f x.

(** The body of the loop of [getStats]. *)
Definition tally (today tomorrow : Z) (acc : Stats) (todo : TodoItem) : Stats :=
  let '(o, d) :=
    match dueDate todo with
    | Some due =>
        if bool_decide (status todo ≠ completed)
        then if (due <? today)%Z then (S (overdue acc), dueToday acc)
             else if (due <? tomorrow)%Z then (overdue acc, S (dueToday acc))
                  else (overdue acc, dueToday acc)
        else (overdue acc, dueToday acc)
    | None => (overdue acc, dueToday acc)
    end in
  {| total := total acc;
     byStatus := bump (status todo) (byStatus acc);
     byPriority := bump (priority todo) (byPriority acc);
     overdue := o;
     dueToday := d;
     completedToday :=
       match completedAt todo with
       | Some c =>
           if (today <=? c)%Z && (c <? tomorrow)%Z
           then S (completedToday acc) else completedToday acc
       | None => completedToday acc
       end |}.

Definition getStats (today tomorrow : Z) (w : TodoWorld) : Stats :=
  foldl (tally today tomorrow)
    {| total := length (todos w); byStatus := λ _, 0; byPriority := λ _, 0;
       overdue := 0; dueToday := 0; completedToday := 0 |}
    (todos w).

(** The todo was completed on the day from [today] to [tomorrow]. *)
Definition completed_on (today tomorrow : Z) (t : TodoItem) : bool :=
  match completedAt t with
  | Some c => (today <=? c)%Z && (c <? tomorrow)%Z
  | None => false
  end.

(** The map holds no two todos under one id. *)
Definition keyed (w : TodoWorld) : Prop := NoDup (map item_id (todos w)).

(** The todo is one that the filters ask for. *)
Definition asked (filters : Filters) (t : TodoItem) : Prop :=
  (∀ s, f_status filters = Some s → status t = s)
  ∧ (∀ p, f_priority filters = Some p → priority t = p)
  ∧ (∀ tag, f_tag filters = Some tag → tag ≠ "" → tag ∈ tags t).

(** The order of the result of [getTodos]: the more urgent priority first;
    within one priority the earlier due date first, and a todo with a due
    date before one without. *)
Definition before (a b : TodoItem) : Prop :=
  (priorityOrder (priority a) < priorityOrder (priority b))%Z
  ∨ (priority a = priority b
     ∧ match dueDate a, dueDate b with
       | Some x, Some y => (x <= y)%Z
       | Some _, None => True
       | None, Some _ => False
       | None, None => True
       end).

(** The reminder of the todo is due and the todo is not completed. *)
Definition due (now : Z) (t : TodoItem) : Prop :=
  status t ≠ completed ∧ ∃ r, reminder t = Some r ∧ (r <= now)%Z.

#[global] Instance due_dec (now : Z) (t : TodoItem) : Decision (due now t).
Proof.
  unfold due. destruct (reminder t) as [r|].
  - destruct (decide (status t ≠ completed)) as [Hs|Hs].
    + destruct (decide (r <= now)%Z) as [Hr|Hr].
      * left. split; [done|]. by exists r.
      * right. intros [_ (r' & [= <-] & ?)]. done.
    + right. by intros [? _].
  - right. by intros [_ (r' & ? & _)].
Defined.

(** What [checkReminders] makes of a todo. *)
Definition reminded (now stamp : Z) (t : TodoItem) : TodoItem :=
  if decide (due now t)
  then
    {| item_id := item_id t; title := title t; description := description t;
       priority := priority t; status := status t; tags := tags t; files := files t;
       dueDate := dueDate t; reminder := None; createdAt := createdAt t;
       updatedAt := stamp; completedAt := completedAt t; parentId := parentId t;
       subtasks := subtasks t |}
  else t.

(** What [checkReminders] gives to the logger for a todo. *)
Definition announced (now : Z) (t : TodoItem) : list Agent.Effect :=
  if decide (due now t)
  then [Agent.Log Agent.info "TodoManagerAgent" ("⏰ Reminder: " +:+ title t);
        Agent.Log Agent.info "TodoManagerAgent" ("Updated todo: " +:+ title t)]
  else [].

(** Example todos. *)
Definition mkTodo (i : string) (p : TodoPriority) (st : TodoStatus) (d r : option Z)
  : TodoItem :=
  {| item_id := i; title := i; description := None; priority := p; status := st;
     tags := []; files := None; dueDate := d; reminder := r; createdAt := 0;
     updatedAt := 0; completedAt := None; parentId := None; subtasks := None |}.

Definition desk : TodoWorld :=
  {| todos := [mkTodo "write" medium pending (Some 50%Z) (Some 10%Z);
               mkTodo "ship" critical pending None None;
               mkTodo "read" medium completed (Some 5%Z) (Some 10%Z)];
     log := [] |}.

End TodoList.

Module Planner.
Import Todo.

(** A [Partial<PlannerTask>], as [TodoList.Partial]. *)
Record Partial := {
  p_id : option string;
  p_name : option string;
  p_type : option PlannerTaskType;
  p_files : option (list string);
  p_dependencies : option (list string);
  p_estimatedTime : option (option Z);
  p_actualTime : option (option Z);
  p_status : option TodoStatus;
  p_priority : option TodoPriority;
}.

(** The object [{ ...existing, ...updates, id }]. *)
Definition merged (existing : PlannerTask) (updates : Partial) (i : string) : PlannerTask :=
  {| task_id := i;
     task_name := default (task_name existing) (p_name updates);
     task_type := default (task_type existing) (p_type updates);
     task_files := default (task_files existing) (p_files updates);
     dependencies := default (dependencies existing) (p_dependencies updates);
     estimatedTime := default (estimatedTime existing) (p_estimatedTime updates);
     actualTime := default (actualTime existing) (p_actualTime updates);
     task_status := default (task_status existing) (p_status updates);
     task_priority := default (task_priority existing) (p_priority updates) |}.

(** [updatePlannerTask(id, updates)]; [None] is [null]. *)
Definition updatePlannerTask (i : string) (updates : Partial)
  : M TodoManagerAgent (option PlannerTask) :=
  let! existing := tasks_get i in
  match existing with
  | None => ret None
  | Some existing =>
      let updated := merged existing updates i in
      tasks_set updated ;;;
      ret (Some updated)
  end.

(** [getTaskDependencies(taskId)] *)
Definition getTaskDependencies (taskId : string) (self : TodoManagerAgent)
  : list PlannerTask :=
  match map_get taskId (tasks self) with
  | Some task => omap (λ i, map_get i (tasks self)) (dependencies task)
  | None => []
  end.

(** [getDependentTasks(taskId)] *)
Definition getDependentTasks (taskId : string) (self : TodoManagerAgent)
  : list PlannerTask :=
  filter (λ t, taskId ∈ dependencies t) (tasks self).

(** The status [completed], as an update. *)
Definition done : Partial :=
  {| p_id := None; p_name := None; p_type := None; p_files := None;
     p_dependencies := None; p_estimatedTime := None; p_actualTime := None;
     p_status := Some completed; p_priority := None |}.

End Planner.

(** * Proofs *)

(** ** Shared list facts *)

Section ListFacts.
Context {A : Type} `{EqDecision A}.

(** A finite, non-empty set in which every element has a successor inside
    the set contains a cycle. *)
Lemma successor_closed_cycle (n : nat) :
  ∀ (R : relation A) (l : list A),
    length l ≤ n → l ≠ [] →
    (∀ x, x ∈ l → ∃ y, y ∈ l ∧ R x y) →
    ∃ x, x ∈ l ∧ clos_trans A R x x.
Proof.
  induction n as [|n IH]; intros R l Hlen Hne Hsucc.
  - destruct l; [done | simpl in Hlen; lia].
  - destruct l as [|x l]; [done|].
    destruct (Hsucc x) as (y & Hy & Hxy); [left|].
    destruct (decide (y = x)) as [->|Hyx].
    { exists x. split; [left | by apply t_step]. }
    set (l' := filter (λ a, a ≠ x) (x :: l)).
    set (R' := λ a b, R a b ∨ (R a x ∧ R x b)).
    assert (Hy' : y ∈ l') by (apply list_elem_of_filter; done).
    destruct (IH R' l') as (z & Hz & Hcyc).
    + subst l'. rewrite filter_cons_False by (intros ?; done).
      pose proof (length_filter (λ a, a ≠ x) l). simpl in Hlen. lia.
    + intros E. rewrite E in Hy'. by apply elem_of_nil in Hy'.
    + intros a Ha. apply list_elem_of_filter in Ha as [Hax Ha].
      destruct (Hsucc a Ha) as (b & Hb & Hab).
      destruct (decide (b = x)) as [->|Hbx].
      * exists y. split; [done|]. unfold R'. right. by split.
      * exists b. split; [apply list_elem_of_filter; done | unfold R'; by left].
    + exists z. split.
      * by apply list_elem_of_filter in Hz as [_ Hz].
      * assert (Hsub : ∀ a b, clos_trans A R' a b → clos_trans A R a b);
          [|by apply Hsub].
        clear. intros a b Hab'. unfold R' in Hab'.
        induction Hab' as [a b [Hab|[Hax Hxb]]|a b c _ IH1 _ IH2].
        -- by apply t_step.
        -- eapply t_trans; apply t_step; eassumption.
        -- eapply t_trans; eassumption.
Qed.

Lemma delete_absent (x : A) (l : list A) :
  x ∉ l → filter (λ a, a ≠ x) l = l.
Proof.
  induction l as [|a l IH]; intros Hx; [done|].
  apply not_elem_of_cons in Hx as [Hxa Hx].
  rewrite filter_cons_True by (intros ->; done). by rewrite IH.
Qed.

Lemma delete_present_perm (x : A) (l : list A) :
  NoDup l → x ∈ l → l ≡ₚ x :: filter (λ a, a ≠ x) l.
Proof.
  induction 1 as [|a l Hnotin Hnd IH]; intros Hin.
  - by apply elem_of_nil in Hin.
  - destruct (decide (a = x)) as [->|Hne].
    + rewrite filter_cons_False by (intros ?; done).
      by rewrite delete_absent.
    + rewrite filter_cons_True by done.
      apply elem_of_cons in Hin as [->|Hin]; [done|].
      rewrite (IH Hin) at 1. apply perm_swap.
Qed.
End ListFacts.

Module TodoProofs.
Import Todo.

Lemma clos_trans_first {A} (R : relation A) (x z : A) :
  clos_trans A R x z → ∃ y, R x y ∧ (y = z ∨ clos_trans A R y z).
Proof.
  intros H. apply clos_trans_t1n in H.
  destruct H as [y Hxy | y z Hxy Hyz].
  - exists y. auto.
  - exists y. split; [done|]. right. by apply clos_t1n_trans.
Qed.

Lemma cycle_successor {A} (R : relation A) (x : A) :
  clos_trans A R x x → ∃ y, R x y ∧ clos_trans A R y y.
Proof.
  intros H. destruct (clos_trans_first R x x H) as (y & Hxy & [->|Hyx]).
  - exists x. split; [done | by apply t_step].
  - exists y. split; [done|]. eapply t_trans; [exact Hyx | by apply t_step].
Qed.

Lemma set_of_list_nodup (l acc : list string) :
  NoDup (acc ++ l) → set_of_list l acc = acc ++ l.
Proof.
  revert acc. induction l as [|x l IH]; intros acc Hnd; simpl.
  - by rewrite app_nil_r.
  - assert (x ∉ acc).
    { apply NoDup_app in Hnd as (_ & Hdisj & _). intros Hx.
      apply (Hdisj x Hx). left. }
    rewrite bool_decide_eq_false_2 by done.
    rewrite IH; rewrite <- app_assoc; done.
Qed.

Lemma map_get_elem (i : string) (ts : list PlannerTask) (t : PlannerTask) :
  map_get i ts = Some t → t ∈ ts ∧ task_id t = i.
Proof.
  unfold map_get. intros H. apply List.find_some in H as [Hin Heq].
  split; [by apply list_elem_of_In | by apply String.eqb_eq].
Qed.

Lemma map_get_keyed (ts : list PlannerTask) (t : PlannerTask) :
  keyed ts → t ∈ ts → map_get (task_id t) ts = Some t.
Proof.
  unfold keyed, map_get. induction ts as [|u ts IH]; intros Hk Hin.
  - by apply elem_of_nil in Hin.
  - simpl in *. apply NoDup_cons in Hk as [Hu Hk].
    apply elem_of_cons in Hin as [->|Hin].
    + by rewrite String.eqb_refl.
    + destruct (String.eqb_spec (task_id u) (task_id t)) as [E|_]; [|auto].
      exfalso. apply Hu. rewrite E. apply list_elem_of_fmap. eauto.
Qed.

Lemma map_get_in (ts : list PlannerTask) (i : string) :
  i ∈ map task_id ts → is_Some (map_get i ts).
Proof.
  unfold map_get. induction ts as [|u ts IH]; simpl; intros Hin.
  - by apply elem_of_nil in Hin.
  - destruct (String.eqb_spec (task_id u) i) as [E|Hne]; [eauto|].
    apply elem_of_cons in Hin as [->|Hin]; [done | auto].
Qed.

(** *** Invariant of the scheduling loop *)

Section Scheduler.
Variable self : TodoManagerAgent.
Hypothesis Hkeyed : keyed (tasks self).

Local Abbreviation ts := (tasks self).
Local Abbreviation P0 := (map task_id (pending_tasks ts)).

Lemma elem_of_P0 (x : string) :
  x ∈ P0 ↔ ∃ t, t ∈ ts ∧ task_id t = x ∧ task_status t = pending.
Proof.
  rewrite list_elem_of_fmap. unfold pending_tasks. split.
  - intros (t & -> & Ht). apply list_elem_of_filter in Ht as [? ?]. eauto.
  - intros (t & Ht & <- & Hs). exists t. split; [done|].
    by apply list_elem_of_filter.
Qed.

Lemma NoDup_P0 : NoDup P0.
Proof.
  eapply sublist_NoDup; [exact Hkeyed|].
  apply fmap_sublist, sublist_filter.
Qed.

Lemma initialPending_keyed : initialPending ts = P0.
Proof. unfold initialPending. apply (set_of_list_nodup _ []), NoDup_P0. Qed.

(** A task of the pending set is stored, pending, and not completed. *)
Lemma P0_not_completed (d : string) :
  d ∈ P0 → is_completed (map_get d ts) = false.
Proof.
  intros (t & Ht & <- & Hs)%elem_of_P0.
  rewrite (map_get_keyed _ _ Hkeyed Ht). simpl.
  apply bool_decide_eq_false_2. by rewrite Hs.
Qed.

Lemma pending_depends_intro (x d : string) (t : PlannerTask) :
  x ∈ P0 → d ∈ P0 → map_get x ts = Some t → d ∈ dependencies t →
  pending_depends ts x d.
Proof.
  intros (tx & Htx & <- & Hsx)%elem_of_P0 (td & Htd & <- & Hsd)%elem_of_P0 Hget Hd.
  rewrite (map_get_keyed _ _ Hkeyed Htx) in Hget. injection Hget as <-.
  exists tx, td. done.
Qed.

Lemma pending_depends_elim (x d : string) :
  pending_depends ts x d →
  x ∈ P0 ∧ d ∈ P0 ∧ ∃ t, map_get x ts = Some t ∧ d ∈ dependencies t.
Proof.
  intros (tx & td & Htx & Htd & <- & <- & Hd & Hsx & Hsd).
  split; [apply elem_of_P0; eauto|]. split; [apply elem_of_P0; eauto|].
  exists tx. split; [by apply map_get_keyed | done].
Qed.

Lemma Inv_init : Inv self P0 [].
Proof.
  split.
  - done.
  - intros i t Hi. by rewrite lookup_nil in Hi.
  - intros x Hx. apply clos_trans_first in Hx as (y & Hxy & _).
    by apply pending_depends_elim in Hxy as (? & _).
Qed.

Lemma Inv_NoDup ps sch : Inv self ps sch → NoDup ps ∧ NoDup (map task_id sch).
Proof.
  intros [Hp _ _]. pose proof NoDup_P0 as Hnd. rewrite <- Hp in Hnd.
  apply NoDup_app in Hnd as (? & _ & ?). done.
Qed.

Lemma Inv_subset ps sch x : Inv self ps sch → x ∈ ps → x ∈ P0.
Proof. intros [Hp _ _] Hx. rewrite <- Hp. apply elem_of_app. by right. Qed.

Lemma Inv_length ps sch : Inv self ps sch → length sch + length ps = length P0.
Proof.
  intros [Hp _ _]. rewrite <- Hp, length_app. by rewrite length_fmap.
Qed.

(** *** [depsComplete] *)

Lemma depsComplete_spec (deps : list string) (ps : JsSet) :
  ∃ b, depsComplete deps ps self = (Returns b, self)
       ∧ (b = true → ∀ d, d ∈ deps → is_completed (map_get d ts) = true ∨ d ∉ ps)
       ∧ (b = false → ∃ d, d ∈ deps ∧ is_completed (map_get d ts) = false ∧ d ∈ ps).
Proof.
  induction deps as [|d deps IH]; simpl.
  - exists true. split; [done|]. split; [|done].
    intros _ d Hd. by apply elem_of_nil in Hd.
  - unfold bind, tasks_get, gets. simpl.
    destruct (is_completed (map_get d ts)) eqn:Hc; simpl.
    + destruct IH as (b & -> & Ht & Hf). exists b. split; [done|]. split.
      * intros Hb d' [->|Hd']%elem_of_cons; [by left | by apply Ht].
      * intros Hb. destruct (Hf Hb) as (d' & ? & ?). exists d'.
        split; [by right | done].
    + unfold set_has. destruct (decide (d ∈ ps)) as [Hin|Hnin].
      * rewrite bool_decide_eq_true_2 by done. simpl. exists false.
        split; [done|]. split; [done|]. intros _. exists d.
        split; [left | done].
      * rewrite bool_decide_eq_false_2 by done. simpl.
        destruct IH as (b & -> & Ht & Hf). exists b. split; [done|]. split.
        -- intros Hb d' [->|Hd']%elem_of_cons; [by right | by apply Ht].
        -- intros Hb. destruct (Hf Hb) as (d' & ? & ?). exists d'.
           split; [by right | done].
Qed.

(** *** One pass *)

Lemma set_delete_length (x : string) (ps : JsSet) :
  NoDup ps → x ∈ ps → S (length (set_delete x ps)) = length ps.
Proof.
  intros Hnd Hx. by rewrite (Permutation_length (delete_present_perm x ps Hnd Hx)).
Qed.

Lemma Inv_schedule (ps : JsSet) (sch : list PlannerTask) taskId task :
  Inv self ps sch → taskId ∈ ps → map_get taskId ts = Some task →
  (∀ d, d ∈ dependencies task → is_completed (map_get d ts) = true ∨ d ∉ ps) →
  Inv self (set_delete taskId ps) (sch ++ [task]).
Proof.
  intros HI Hin Hget Hready.
  destruct (Inv_NoDup _ _ HI) as [Hndp _].
  destruct (map_get_elem _ _ _ Hget) as [Htask Hid].
  assert (HP0 : taskId ∈ P0) by (by eapply Inv_subset).
  split.
  - rewrite fmap_app, <- app_assoc. simpl. rewrite Hid.
    rewrite <- (inv_partition _ _ _ HI). apply Permutation_app_head. symmetry.
    by apply delete_present_perm.
  - intros i t [[Hlt Hi]|[-> <-]]%lookup_snoc_Some.
    + rewrite take_app_le by lia. by apply (inv_scheduled _ _ _ HI).
    + rewrite take_app_length. split; [done|]. split.
      * apply elem_of_P0 in HP0 as (t' & Ht' & Hid' & Hs').
        rewrite <- Hid' in Hget.
        rewrite (map_get_keyed _ _ Hkeyed Ht') in Hget. by injection Hget as <-.
      * intros d Hd HdP. destruct (Hready d Hd) as [Hc|Hnin].
        { by rewrite (P0_not_completed d HdP) in Hc. }
        rewrite <- (inv_partition _ _ _ HI) in HdP.
        apply elem_of_app in HdP as [?|?]; done.
  - intros x Hx. apply list_elem_of_filter. split; [|by apply (inv_cycles _ _ _ HI)].
    intros ->. apply cycle_successor in Hx as (y & Hxy & Hy).
    apply (inv_cycles _ _ _ HI) in Hy.
    apply pending_depends_elim in Hxy as (_ & HyP & t & Hget' & Hdep).
    rewrite Hget in Hget'. injection Hget' as <-.
    destruct (Hready y Hdep) as [Hc|Hnin]; [|done].
    by rewrite (P0_not_completed y HyP) in Hc.
Qed.

Lemma schedulePass_spec (iter : list string) :
  ∀ ps sch found,
    NoDup iter → (∀ x, x ∈ iter → x ∈ ps) → Inv self ps sch →
    ∃ ps' sch' found',
      schedulePass iter (ps, sch, found) self = (Returns (ps', sch', found'), self)
      ∧ Inv self ps' sch'
      ∧ (found' = false →
           found = false ∧ ps' = ps ∧ sch' = sch
           ∧ ∀ x, x ∈ iter → ∃ d, d ∈ ps ∧ pending_depends ts x d)
      ∧ (found' = true → found = true ∨ length ps' < length ps)
      ∧ length ps' ≤ length ps.
Proof.
  induction iter as [|taskId iter IH]; intros ps sch found Hnd Hsub HI.
  - exists ps, sch, found. split; [done|]. split; [done|]. split.
    + intros ->. repeat split. intros x Hx. by apply elem_of_nil in Hx.
    + split; [auto | lia].
  - apply NoDup_cons in Hnd as [Hfresh Hnd].
    assert (Hin : taskId ∈ ps) by (apply Hsub; left).
    assert (HP0 : taskId ∈ P0) by (by eapply Inv_subset).
    destruct (map_get_in ts taskId) as [task Hget].
    { apply list_elem_of_fmap in HP0 as (t & -> & Ht).
      apply list_elem_of_fmap. exists t. split; [done|].
      by apply list_elem_of_filter in Ht as [_ ?]. }
    simpl. unfold bind at 1. unfold tasks_get, gets at 1. rewrite Hget.
    unfold bind at 1.
    destruct (depsComplete_spec (dependencies task) ps) as (b & -> & Ht & Hf).
    destruct (Inv_NoDup _ _ HI) as [Hndp _].
    destruct b.
    + destruct (IH (set_delete taskId ps) (sch ++ [task]) true Hnd)
        as (ps' & sch' & found' & Hrun & HI' & Hfalse & Htrue & Hlen).
      * intros x Hx. apply list_elem_of_filter. split.
        -- intros ->. done.
        -- apply Hsub. by right.
      * apply Inv_schedule; auto.
      * exists ps', sch', found'. split; [done|]. split; [done|].
        pose proof (set_delete_length taskId ps Hndp Hin).
        split; [|split].
        -- intros Hf'. by destruct (Hfalse Hf') as [? _].
        -- intros _. right. lia.
        -- lia.
    + destruct (IH ps sch found Hnd) as (ps' & sch' & found' & Hrun & HI' & Hfalse & Htrue & Hlen).
      * intros x Hx. apply Hsub. by right.
      * done.
      * exists ps', sch', found'. split; [done|]. split; [done|].
        split; [|split; done].
        intros Hf'. destruct (Hfalse Hf') as (? & ? & ? & Hstuck).
        repeat split; try done.
        intros x [->|Hx]%elem_of_cons; [|by apply Hstuck].
        destruct (Hf eq_refl) as (d & Hd & Hnc & Hdin).
        exists d. split; [done|].
        apply (pending_depends_intro _ d task);
          [done | by apply (Inv_subset ps sch) | done | done].
Qed.

(** *** The loop *)

Lemma scheduleLoop_spec (fuel : nat) :
  ∀ ps sch, Inv self ps sch → length ps < fuel →
    ∃ final pf, scheduleLoop fuel ps sch self = (Returns final, self)
                ∧ Inv self pf final ∧ (pf = [] ∨ stuck ts pf).
Proof.
  induction fuel as [|fuel IH]; intros ps sch HI Hfuel; [lia|].
  simpl. unfold set_size. case_bool_decide as Hsize.
  - destruct (Inv_NoDup _ _ HI) as [Hnd _].
    destruct (schedulePass_spec ps ps sch false Hnd) as
      (ps' & sch' & found' & Hrun & HI' & Hfalse & Htrue & Hlen); [done..|].
    unfold bind. rewrite Hrun. destruct found'.
    + destruct (Htrue eq_refl) as [?|Hlt]; [done|]. apply IH; [done | lia].
    + destruct (Hfalse eq_refl) as (_ & -> & -> & Hstuck).
      exists sch, ps. split; [done|]. split; [done|]. right. split; [|done].
      intros ->. simpl in Hsize. lia.
  - exists sch, ps. split; [done|]. split; [done|]. left.
    apply nil_length_inv. lia.
Qed.

Lemma autoScheduleTasks_spec :
  ∃ final pf, autoScheduleTasks self = (Returns final, self)
              ∧ Inv self pf final ∧ (pf = [] ∨ stuck ts pf).
Proof.
  unfold autoScheduleTasks, bind, tasks_values, gets. rewrite initialPending_keyed.
  apply scheduleLoop_spec; [apply Inv_init | unfold set_size; lia].
Qed.

(** A stuck pending set holds a cycle of pending tasks. *)
Lemma stuck_cycle (pf : JsSet) : stuck ts pf → has_pending_cycle ts.
Proof.
  intros [Hne Hsucc].
  destruct (successor_closed_cycle (length pf) (pending_depends ts) pf)
    as (x & _ & Hx); [done..|].
  by exists x.
Qed.

Lemma Inv_respects (pf : JsSet) (final : list PlannerTask) :
  Inv self pf final → respects_dependencies final.
Proof.
  intros HI i j t d Hi Hj Hdep.
  destruct (inv_scheduled _ _ _ HI i t Hi) as (_ & _ & Hbefore).
  destruct (inv_scheduled _ _ _ HI j d Hj) as (Hd & Hsd & _).
  assert (HdP : task_id d ∈ P0) by (apply elem_of_P0; eauto).
  specialize (Hbefore _ Hdep HdP).
  apply list_elem_of_fmap in Hbefore as (y & Hy & Hbefore).
  apply elem_of_take in Hbefore as (k & Hk & Hlt).
  destruct (Inv_NoDup _ _ HI) as [_ Hnd].
  assert (Hj' : (map task_id final) !! j = Some (task_id d)).
  { rewrite list_lookup_fmap, Hj. done. }
  assert (Hk' : (map task_id final) !! k = Some (task_id d)).
  { rewrite list_lookup_fmap, Hk, Hy. done. }
  by rewrite (NoDup_lookup _ _ _ _ Hnd Hj' Hk').
Qed.

End Scheduler.

(** *** The scheduler only reads the store *)

Lemma depsComplete_frame (deps : list string) (ps : JsSet) (self : TodoManagerAgent) :
  snd (depsComplete deps ps self) = self.
Proof.
  induction deps as [|d deps IH]; simpl; [done|].
  unfold bind, tasks_get, gets.
  destruct (is_completed (map_get d (tasks self)) || negb (set_has d ps)); done.
Qed.

Lemma schedulePass_frame (iter : list string) :
  ∀ acc self, snd (schedulePass iter acc self) = self.
Proof.
  induction iter as [|taskId iter IH]; intros [[ps sch] found] self; simpl; [done|].
  unfold bind at 1. unfold tasks_get, gets at 1.
  destruct (map_get taskId (tasks self)) as [task|]; [|done].
  unfold bind.
  pose proof (depsComplete_frame (dependencies task) ps self) as Hf.
  destruct (depsComplete (dependencies task) ps self) as [[[]| |] self'];
    simpl in Hf; subst self'; auto.
Qed.

Lemma scheduleLoop_frame (fuel : nat) :
  ∀ ps sch self, snd (scheduleLoop fuel ps sch self) = self.
Proof.
  induction fuel as [|fuel IH]; intros ps sch self; simpl; [done|].
  case_bool_decide; [|done].
  unfold bind.
  pose proof (schedulePass_frame ps (ps, sch, false) self) as Hf.
  destruct (schedulePass ps (ps, sch, false) self) as [[[[ps' sch'] []]| |] self'];
    simpl in Hf; subst self'; auto.
Qed.

(** The orders of the example stores. *)
Example order_chain3 : order (autoScheduleTasks chain3) = Returns ["a"; "b"; "c"].
Proof. by vm_compute. Qed.

Example order_cycle2 : order (autoScheduleTasks cycle2) = Returns ["c"].
Proof. by vm_compute. Qed.

(** By contrast [addPlannerTask] does write to the store. *)
Example addPlannerTask_writes :
  tasks (snd (addPlannerTask (mkTask "d" [] pending) chain3)) ≠ tasks chain3.
Proof. vm_compute. discriminate. Qed.

(** C4 (as amended). On a store keyed by task id, [autoScheduleTasks]
    returns an order in which no task comes before one of its dependencies;
    when the dependencies among the pending tasks have no cycle the order
    has as many entries as there are pending tasks; when they have a cycle
    it has strictly fewer. *)
Theorem autoScheduleTasks_pending_order (self : TodoManagerAgent) :
  keyed (tasks self) →
  ∃ l, fst (autoScheduleTasks self) = Returns l
       ∧ (∀ t, t ∈ l → t ∈ pending_tasks (tasks self))
       ∧ respects_dependencies l
       ∧ (¬ has_pending_cycle (tasks self) →
            length l = length (pending_tasks (tasks self)))
       ∧ (has_pending_cycle (tasks self) →
            length l < length (pending_tasks (tasks self))).
Proof.
  intros Hk.
  destruct (autoScheduleTasks_spec self Hk) as (final & pf & Hrun & HI & Hend).
  exists final. split; [by rewrite Hrun|]. split.
  { intros t [i Hi]%list_elem_of_lookup.
    destruct (inv_scheduled self _ _ HI i t Hi) as (? & ? & _).
    by apply list_elem_of_filter. }
  split; [by eapply Inv_respects|].
  pose proof (Inv_length self _ _ HI) as Hlen. rewrite length_fmap in Hlen.
  split.
  - intros Hacyclic. destruct Hend as [->|Hstuck].
    + simpl in Hlen. lia.
    + destruct Hacyclic. by eapply stuck_cycle.
  - intros [x Hx]. apply (inv_cycles self _ _ HI) in Hx.
    destruct pf; [by apply elem_of_nil in Hx|]. simpl in Hlen. lia.
Qed.

Lemma autoScheduleTasks_pending_order_witness :
  keyed (tasks chain3)
  ∧ ∃ l, fst (autoScheduleTasks chain3) = Returns l
         ∧ (∀ t, t ∈ l → t ∈ pending_tasks (tasks chain3))
         ∧ respects_dependencies l
         ∧ (¬ has_pending_cycle (tasks chain3) →
              length l = length (pending_tasks (tasks chain3)))
         ∧ (has_pending_cycle (tasks chain3) →
              length l < length (pending_tasks (tasks chain3))).
Proof.
  assert (Hk : keyed (tasks chain3)).
  { apply (bool_decide_unpack _). vm_compute. exact I. }
  split; [exact Hk|].
  exact (autoScheduleTasks_pending_order chain3 Hk).
Defined.

Lemma no_cycle_oneCompleted : ¬ has_cycle (tasks oneCompleted).
Proof.
  intros [x Hx]. apply clos_trans_first in Hx as (y & Hxy & _).
  destruct Hxy as (tx & ty & Htx & _ & _ & _ & Hdep).
  apply list_elem_of_singleton in Htx as ->. simpl in Hdep.
  by apply elem_of_nil in Hdep.
Qed.

Lemma cycle_cycleThroughCompleted : has_cycle (tasks cycleThroughCompleted).
Proof.
  exists "a". apply t_trans with "b"; apply t_step.
  - exists (mkTask "a" ["b"] pending), (mkTask "b" ["a"] completed).
    simpl. repeat split; set_solver.
  - exists (mkTask "b" ["a"] completed), (mkTask "a" ["b"] pending).
    simpl. repeat split; set_solver.
Qed.

(** C4 (as worded) fails. With the input size read as the number of stored
    tasks, a store holding one completed task is acyclic and yields an
    empty order. With the input size read as the number of pending tasks,
    a dependency cycle that runs through a completed task does not shorten
    the order. *)
Lemma order_as_specified_counterexample :
  ¬ order_as_specified (λ ts, length ts) oneCompleted
  ∧ ¬ order_as_specified (λ ts, length (pending_tasks ts)) cycleThroughCompleted.
Proof.
  split.
  - intros (l & Hrun & Hacyclic & _).
    destruct (Hacyclic no_cycle_oneCompleted) as [Hlen _].
    vm_compute in Hrun. injection Hrun as <-. simpl in Hlen. lia.
  - intros (l & Hrun & _ & Hcyclic).
    specialize (Hcyclic cycle_cycleThroughCompleted).
    vm_compute in Hrun. injection Hrun as <-. vm_compute in Hcyclic. lia.
Qed.

(** C9. [autoScheduleTasks] leaves the agent's state as it found it: every
    stored task record, and so its status, is the same after the call,
    whatever the store holds and whatever bound the loop is given. *)
Theorem autoScheduleTasks_frame (self : TodoManagerAgent) :
  snd (autoScheduleTasks self) = self
  ∧ (∀ fuel, snd (autoScheduleTasks_fuel fuel self) = self)
  ∧ (∀ i, map_get i (tasks (snd (autoScheduleTasks self))) = map_get i (tasks self))
  ∧ (∀ i, task_status <$> map_get i (tasks (snd (autoScheduleTasks self)))
          = task_status <$> map_get i (tasks self)).
Proof.
  assert (H : snd (autoScheduleTasks self) = self).
  { unfold autoScheduleTasks, bind, tasks_values, gets. apply scheduleLoop_frame. }
  split; [done|]. split.
  - intros fuel. unfold autoScheduleTasks_fuel, bind, tasks_values, gets.
    apply scheduleLoop_frame.
  - by rewrite H.
Qed.

End TodoProofs.

Module AgentProofs.
Import Js Agent.

(** *** [stop] *)

(** C3 (as worded) fails: a running agent whose [shutdown] hook throws is
    still running after [stop()], and no stopped event was emitted, whether
    or not the bus has listeners. *)
Lemma stop_as_specified_counterexample :
  settles (Throws "boom")
  ∧ ¬ stop_as_specified (Throws "boom") nobody (world (mkAgent "a1" "A" running)).
Proof.
  split; [done|].
  unfold stop_as_specified. simpl. intros (_ & Hst & _). discriminate Hst.
Qed.

(** C3 (as amended). [stop()] on a stopped agent logs a warning and does
    nothing else. On any other agent it enters the [shutdown] hook once and,
    when the hook and the listeners of the bus end, returns without
    throwing. When the hook returns, the agent becomes stopped and the
    stopped event is given to the bus, whose listeners run; when they
    return, the success is logged; when one of them throws, that failure is
    logged as the failure of the stop, and the agent stays as the listeners
    left it. When the hook throws, the failure is logged, the agent keeps
    the status it had and no stopped event is emitted. *)
Theorem stop_outcomes (w : AgentWorld) (shutdown : Run unit) (hear : Subscribers) :
  let i := agent_id (self w) in
  let n := agent_name (self w) in
  let r := stop shutdown hear w in
  if bool_decide (status (self w) = stopped)
  then r = (Returns tt,
            {| self := self w;
               trace := trace w ++ [Invoke i "stop"; Log warn n "Agent is already stopped"] |})
  else match shutdown with
       | Returns _ =>
           let heard :=
             hear (agent_stopped i)
                  {| self := set_status stopped (self w);
                     trace := trace w ++ [Invoke i "stop"; Log info n "Stopping agent...";
                                          Invoke i "shutdown"; Emit (agent_stopped i)] |} in
           let w' := snd heard in
           let n' := agent_name (self w') in
           match fst heard with
           | Returns _ =>
               r = (Returns tt,
                    {| self := self w';
                       trace := trace w' ++ [Log info n' "Agent stopped successfully"] |})
           | Throws msg =>
               r = (Returns tt,
                    {| self := self w';
                       trace := trace w'
                                ++ [Log error_level n' ("Error stopping agent: " +:+ msg)] |})
           | OutOfFuel => fst r = OutOfFuel
           end
       | Throws msg =>
           r = (Returns tt,
                {| self := self w;
                   trace := trace w ++ [Invoke i "stop"; Log info n "Stopping agent...";
                                        Invoke i "shutdown";
                                        Log error_level n ("Error stopping agent: " +:+ msg)] |})
       | OutOfFuel => fst r = OutOfFuel
       end.
Proof.
  destruct w as [a tr]. simpl.
  unfold stop, stop_enters, stop_resumes, enter, log, hook, emitEvent, effect, update_self,
    try_catch, bind, ret, gets, modify. simpl.
  case_bool_decide as Hst; simpl.
  - by rewrite <- !app_assoc.
  - destruct shutdown as [[]|msg|]; simpl; [| |done].
    + rewrite <- !app_assoc. simpl.
      destruct (hear _ _) as [[[]|msg|] w']; simpl; done.
    + by rewrite <- !app_assoc.
Qed.

(** *** [sendRequest] *)

Section Request.
Variables selfId rid : string.

Lemma handler_other (r : string) (m : AgentMessage) (w : RequestWorld) :
  matches rid (content m) = false →
  registered selfId rid w →
  registered selfId rid (handler selfId r m w)
  ∧ requests (handler selfId r m w) !! rid = requests w !! rid.
Proof.
  intros Hno Hreg. unfold handler.
  destruct (matches r (content m)) eqn:Hm; [|done].
  assert (r ≠ rid) by (intros ->; congruence).
  simpl. split.
  - apply list_elem_of_filter. split; [congruence | done].
  - by apply lookup_alter_ne.
Qed.

Lemma dispatch_other (m : AgentMessage) (ls : list (string * Listener)) :
  matches rid (content m) = false →
  ∀ w, registered selfId rid w →
       registered selfId rid (foldl (dispatch selfId m) w ls)
       ∧ requests (foldl (dispatch selfId m) w ls) !! rid = requests w !! rid.
Proof.
  intros Hno. induction ls as [|[ev l] ls IH]; intros w Hreg; [done|].
  simpl. destruct l as [a|r]; simpl.
  - by apply IH.
  - destruct (String.eqb ev (channel (msg_to m))); [|by apply IH].
    destruct (handler_other r m w Hno Hreg) as [Hreg' Heq].
    destruct (IH _ Hreg') as [? Heq']. split; [done|]. by rewrite Heq'.
Qed.

Lemma deliver_other (m : AgentMessage) (w : RequestWorld) :
  matches rid (content m) = false →
  registered selfId rid w →
  registered selfId rid (deliver selfId m w)
  ∧ requests (deliver selfId m w) !! rid = requests w !! rid.
Proof. intros Hno. by apply dispatch_other. Qed.

Lemma react_unanswered (to : string) (d : Z) (h : Happening) (w : RequestWorld) :
  (∀ m, h = Deliver m → matches rid (content m) = false) →
  registered selfId rid w → unanswered rid to d w →
  registered selfId rid (react selfId h w) ∧ unanswered rid to d (react selfId h w).
Proof.
  intros Hno Hreg (r & Hr & Hto & Hstate). destruct h as [m|now]; simpl.
  - destruct (deliver_other m w (Hno m eq_refl) Hreg) as [? Heq].
    split; [done|]. exists r. by rewrite Heq.
  - split; [done|]. exists (fire now r). unfold advance. simpl.
    rewrite lookup_fmap, Hr. split; [done|]. unfold fire.
    destruct Hstate as [[Ht Hp]|[Ht Hp]]; rewrite Ht.
    + destruct (d <=? now)%Z; simpl; [|auto].
      split; [done|]. right. by rewrite Hp, Hto.
    + auto.
Qed.

Lemma run_unanswered (to : string) (d : Z) (hs : list Happening) :
  ∀ w, (∀ m, Deliver m ∈ hs → matches rid (content m) = false) →
       registered selfId rid w → unanswered rid to d w →
       registered selfId rid (run selfId hs w) ∧ unanswered rid to d (run selfId hs w).
Proof.
  induction hs as [|h hs IH]; intros w Hno Hreg Hun; [done|].
  simpl. destruct (react_unanswered to d h w) as [Hreg' Hun']; [|done..|].
  - intros m ->. apply Hno. left.
  - apply IH; [|done..]. intros m Hm. apply Hno. by right.
Qed.

(** Once settled, the promise of a request stays as it is. *)
Lemma handler_settled (r : string) (m : AgentMessage) (w : RequestWorld) (p : Promise) :
  p ≠ Pending → outcome rid w = Some p → outcome rid (handler selfId r m w) = Some p.
Proof.
  intros Hp Hw. unfold handler. destruct (matches r (content m)); [|done].
  unfold outcome in *. simpl.
  destruct (decide (r = rid)) as [->|Hne]; [|by rewrite lookup_alter_ne].
  rewrite lookup_alter_eq. destruct (requests w !! rid) as [q|]; [|done].
  simpl in *. injection Hw as <-. by destruct (promise q).
Qed.

Lemma dispatch_settled (m : AgentMessage) (ls : list (string * Listener)) (p : Promise) :
  p ≠ Pending →
  ∀ w, outcome rid w = Some p → outcome rid (foldl (dispatch selfId m) w ls) = Some p.
Proof.
  intros Hp. induction ls as [|[ev l] ls IH]; intros w Hw; [done|].
  simpl. apply IH. destruct l as [a|r]; simpl; [done|].
  destruct (String.eqb ev (channel (msg_to m))); [|done].
  by apply handler_settled.
Qed.

Lemma react_settled (h : Happening) (w : RequestWorld) (p : Promise) :
  p ≠ Pending → outcome rid w = Some p → outcome rid (react selfId h w) = Some p.
Proof.
  intros Hp Hw. destruct h as [m|now]; simpl.
  - by apply dispatch_settled.
  - unfold outcome in *. simpl. rewrite lookup_fmap.
    destruct (requests w !! rid) as [q|]; [|done].
    simpl in *. injection Hw as <-. unfold fire.
    destruct (timer q); [|done..]. destruct (_ <=? _)%Z; [|done]. simpl.
    by destruct (promise q).
Qed.

Lemma run_settled (hs : list Happening) (p : Promise) :
  p ≠ Pending →
  ∀ w, outcome rid w = Some p → outcome rid (run selfId hs w) = Some p.
Proof.
  intros Hp. induction hs as [|h hs IH]; intros w Hw; [done|].
  simpl. apply IH. by apply react_settled.
Qed.

(** While a promise is pending its timer is armed. *)
Lemma handler_live (d : Z) (r : string) (m : AgentMessage) (w : RequestWorld) :
  live rid d w → live rid d (handler selfId r m w).
Proof.
  intros (q & Hq & Hst). unfold handler.
  destruct (matches r (content m)); [|by exists q].
  destruct (decide (r = rid)) as [->|Hne].
  - exists (answer m q). simpl. rewrite lookup_alter_eq, Hq. split; [done|].
    right. simpl. destruct (promise q); [|done..]. simpl. by case_bool_decide.
  - exists q. simpl. by rewrite lookup_alter_ne.
Qed.

Lemma react_live (d : Z) (h : Happening) (w : RequestWorld) :
  live rid d w → live rid d (react selfId h w).
Proof.
  destruct h as [m|now]; simpl.
  - unfold deliver. generalize (listeners w). intros ls. revert w.
    induction ls as [|[ev l] ls IH]; intros w Hw; [done|].
    simpl. apply IH. destruct l as [a|r]; simpl; [done|].
    destruct (String.eqb ev (channel (msg_to m))); [|done]. by apply handler_live.
  - intros (q & Hq & Hst). exists (fire now q). simpl.
    rewrite lookup_fmap, Hq. split; [done|]. unfold fire.
    destruct Hst as [[Htm Hp]|Hp].
    + rewrite Htm. destruct (d <=? now)%Z; [|auto]. right. simpl. by rewrite Hp.
    + destruct (timer q); [|auto..]. destruct (_ <=? _)%Z; [|auto]. right. simpl.
      by destruct (promise q).
Qed.

Lemma run_live (d : Z) (hs : list Happening) :
  ∀ w, live rid d w → live rid d (run selfId hs w).
Proof.
  induction hs as [|h hs IH]; intros w Hw; [done|].
  simpl. apply IH. by apply react_live.
Qed.

End Request.

(** After [sendRequest] the handler is registered and the request waits,
    unless the request carries its own id and answers itself. *)
Lemma sendRequest_posted (selfId rid to : string) (body : JsVal) (w : RequestWorld) :
  matches rid body = false →
  registered selfId rid (sendRequest selfId to body rid w)
  ∧ requests (sendRequest selfId to body rid w) !! rid
    = Some {| req_to := to; timer := Armed (clock w + 30000); promise := Pending |}
  ∧ unanswered rid to (clock w + 30000) (sendRequest selfId to body rid w).
Proof.
  intros Hbody. unfold sendRequest.
  set (message := request_message selfId to body rid (clock w)).
  set (w0 := {| listeners := _; outbox := _; requests := _; clock := _ |}).
  destruct (deliver_other selfId rid message w0) as [Hreg Hreq]; [done| |].
  { unfold registered. simpl. apply elem_of_app. right. left. }
  assert (Hw0 : requests w0 !! rid
                = Some {| req_to := to; timer := Armed (clock w + 30000);
                          promise := Pending |}).
  { simpl. by rewrite lookup_insert_eq. }
  split; [done|]. split; [by rewrite Hreq|].
  eexists. rewrite Hreq. split; [exact Hw0|]. split; [done|]. by left.
Qed.

Lemma sendRequest_live (selfId rid to : string) (body : JsVal) (w : RequestWorld) :
  live rid (clock w + 30000) (sendRequest selfId to body rid w).
Proof.
  unfold sendRequest.
  apply (react_live selfId rid _ (Deliver _)).
  eexists. simpl. rewrite lookup_insert_eq. split; [done|]. by left.
Qed.

Lemma matches_unique (r r' : string) (payload : JsVal) :
  matches r payload = true → matches r' payload = true → r = r'.
Proof.
  unfold matches. destruct payload as [| | | | |items|fields]; try done.
  destruct (obj_read "requestId" fields); try done.
  intros ->%String.eqb_eq ->%String.eqb_eq. done.
Qed.

Section Answered.
Variables (selfId rid : string) (m : AgentMessage).
Hypothesis Hto : msg_to m = selfId.
Hypothesis Hm : matches rid (content m) = true.

Lemma handler_answers (w : RequestWorld) :
  waiting rid w → answered selfId rid m (handler selfId rid m w).
Proof.
  intros (q & Hq & Hp). unfold handler. rewrite Hm. split.
  - unfold registered. simpl. intros [Hne _]%list_elem_of_filter. done.
  - unfold outcome. simpl. rewrite lookup_alter_eq, Hq. simpl.
    by rewrite Hp.
Qed.

Lemma handler_answered (r : string) (w : RequestWorld) :
  answered selfId rid m w → answered selfId rid m (handler selfId r m w).
Proof.
  intros [Hreg Hout]. split.
  - unfold handler. destruct (matches r (content m)); [|done].
    unfold registered. simpl. intros [_ ?]%list_elem_of_filter. done.
  - apply handler_settled; [|done]. unfold answer_of. by case_bool_decide.
Qed.

Lemma dispatch_answered (ls : list (string * Listener)) :
  ∀ w, answered selfId rid m w → answered selfId rid m (foldl (dispatch selfId m) w ls).
Proof.
  induction ls as [|[ev l] ls IH]; intros w Hw; [done|].
  simpl. apply IH. destruct l as [a|r]; simpl; [done|].
  destruct (String.eqb ev (channel (msg_to m))); [|done].
  by apply handler_answered.
Qed.

Lemma dispatch_answers (ls : list (string * Listener)) :
  (channel selfId, RequestHandler rid) ∈ ls →
  ∀ w, waiting rid w → answered selfId rid m (foldl (dispatch selfId m) w ls).
Proof.
  induction ls as [|[ev l] ls IH]; intros Hin w Hw.
  - by apply elem_of_nil in Hin.
  - simpl. apply elem_of_cons in Hin as [[= <- <-]|Hin].
    + apply dispatch_answered. simpl. rewrite Hto, String.eqb_refl.
      by apply handler_answers.
    + destruct l as [a|r]; simpl; [by apply IH|].
      destruct (String.eqb ev (channel (msg_to m))); [|by apply IH].
      destruct (decide (r = rid)) as [->|Hne].
      * apply dispatch_answered. by apply handler_answers.
      * apply IH; [done|]. unfold handler.
        destruct (matches r (content m)) eqn:Hr; [|done].
        destruct Hne. by eapply matches_unique.
Qed.

(** A message for this agent that carries the id of the request settles the
    promise, with the data of a response or the error of an error message,
    and takes the handler off the bus. *)
Lemma sendRequest_answered (to : string) (body : JsVal) (w : RequestWorld) :
  matches rid body = false →
  answered selfId rid m (run selfId [Deliver m] (sendRequest selfId to body rid w)).
Proof.
  intros Hbody. simpl. unfold deliver.
  destruct (sendRequest_posted selfId rid to body w Hbody) as (Hreg & Hreq & _).
  apply dispatch_answers; [exact Hreg|]. eexists. split; [exact Hreq | done].
Qed.

End Answered.

(** Whatever is delivered, the promise is settled when the 30 seconds are
    over, and it is settled in one of the three ways. *)
Lemma sendRequest_settles (selfId to rid : string) (body : JsVal)
    (w : RequestWorld) (hs : list Happening) (t : Z) :
  (clock w + 30000 ≤ t)%Z →
  ∃ p, outcome rid (run selfId (hs ++ [Advance t]) (sendRequest selfId to body rid w))
       = Some p
       ∧ ((∃ data, p = Resolved data) ∨ (∃ msg, p = Rejected msg)).
Proof.
  intros Ht. set (d := (clock w + 30000)%Z).
  unfold run. rewrite foldl_app. simpl.
  destruct (run_live selfId rid d hs (sendRequest selfId to body rid w)) as (q & Hq & Hst).
  { apply sendRequest_live. }
  unfold outcome, advance. simpl. unfold run in Hq. rewrite lookup_fmap, Hq. simpl.
  eexists. split; [done|]. unfold fire.
  destruct Hst as [[Htm Hp]|Hp].
  - rewrite Htm. rewrite (proj2 (Z.leb_le d t)) by done. simpl. rewrite Hp. simpl. eauto.
  - assert (Hq' : ∀ q' : Request, promise q' = promise q →
               (∃ data, promise q' = Resolved data) ∨ (∃ msg, promise q' = Rejected msg)).
    { intros q' ->. destruct (promise q); [done|eauto..]. }
    destruct (timer q); [|by apply Hq'..].
    destruct (_ <=? _)%Z; [|by apply Hq']. apply Hq'. simpl. by destruct (promise q).
Qed.

(** C2 (the part the code breaks). When no message carrying the id of the
    request is delivered (the request itself does not carry it either), the
    promise is rejected with the timeout failure once 30 seconds have
    passed, and the handler of the request is still registered on the bus
    afterwards. *)
Theorem sendRequest_timeout_keeps_listener (selfId to rid : string) (body : JsVal)
    (w : RequestWorld) (hs : list Happening) (t : Z) :
  matches rid body = false →
  (∀ m, Deliver m ∈ hs → matches rid (content m) = false) →
  (clock w + 30000 ≤ t)%Z →
  let w' := run selfId (hs ++ [Advance t]) (sendRequest selfId to body rid w) in
  outcome rid w' = Some (Rejected (timeout_message to))
  ∧ registered selfId rid w'.
Proof.
  intros Hbody Hno Ht. simpl.
  destruct (sendRequest_posted selfId rid to body w Hbody) as (Hreg0 & _ & Hun0).
  destruct (run_unanswered selfId rid to (clock w + 30000) (hs ++ [Advance t])
              (sendRequest selfId to body rid w)) as [Hreg (q & Hq & Hto & Hst)].
  - intros m [Hm|Hm]%elem_of_app; [by apply Hno|].
    by apply list_elem_of_singleton in Hm.
  - exact Hreg0.
  - exact Hun0.
  - split; [|done]. unfold outcome. rewrite Hq. simpl.
    destruct Hst as [[Htm Hp]|[_ ->]]; [|done].
    exfalso. unfold run in Hq. rewrite foldl_app in Hq. simpl in Hq.
    unfold advance in Hq. simpl in Hq. rewrite lookup_fmap in Hq.
    destruct (requests _ !! rid) as [q0|]; [|done]. simpl in Hq.
    injection Hq as <-. unfold fire in Htm.
    destruct (timer q0) as [d0| |] eqn:E; [|by rewrite E in Htm..].
    destruct (d0 <=? t)%Z eqn:Hle; [done|]. rewrite E in Htm.
    injection Htm as ->. apply Z.leb_gt in Hle. lia.
Qed.

Lemma sendRequest_timeout_keeps_listener_witness :
  outcome "r1" (run "me" ([] ++ [Advance 30000])
                  (sendRequest "me" "ghost" (VStr "hi") "r1" quiet))
    = Some (Rejected (timeout_message "ghost"))
  ∧ registered "me" "r1" (run "me" ([] ++ [Advance 30000])
                             (sendRequest "me" "ghost" (VStr "hi") "r1" quiet)).
Proof.
  apply (sendRequest_timeout_keeps_listener "me" "ghost" "r1" (VStr "hi") quiet [] 30000).
  - reflexivity.
  - intros m Hm. by apply elem_of_nil in Hm.
  - simpl. lia.
Defined.

End AgentProofs.

Module SupervisorProofs.
Import Js Agent Supervisor.

(** *** Sorting *)

Section Sorting.
Context {A : Type} (compare : A → A → Z) (rank : A → Z).
Hypothesis compare_rank : ∀ x y, (compare x y <= 0)%Z ↔ (rank x <= rank y)%Z.

Local Abbreviation ranked := (λ x y : A, (rank x <= rank y)%Z).

Lemma sort_insert_perm (x : A) (l : list A) : sort_insert compare x l ≡ₚ x :: l.
Proof.
  induction l as [|y l IH]; simpl; [done|].
  destruct (compare x y <=? 0)%Z; [done|].
  rewrite IH. apply perm_swap.
Qed.

Lemma sort_perm (l : list A) : sort compare l ≡ₚ l.
Proof.
  induction l as [|x l IH]; simpl; [done|].
  rewrite sort_insert_perm. by rewrite IH.
Qed.

Lemma sort_insert_sorted (x : A) (l : list A) :
  StronglySorted ranked l → StronglySorted ranked (sort_insert compare x l).
Proof.
  induction 1 as [|y l Hl IH Hy]; simpl.
  - repeat constructor.
  - destruct (compare x y <=? 0)%Z eqn:Hc.
    + apply Z.leb_le, compare_rank in Hc. constructor; [by constructor|].
      constructor; [done|]. eapply Forall_impl; [exact Hy|]. simpl. intros. lia.
    + apply Z.leb_gt in Hc.
      assert (rank y <= rank x)%Z.
      { destruct (Z.le_gt_cases (rank x) (rank y)) as [Hle|?]; [|lia].
        apply compare_rank in Hle. lia. }
      constructor; [done|].
      rewrite sort_insert_perm. by constructor.
Qed.

Lemma sort_sorted (l : list A) : StronglySorted ranked (sort compare l).
Proof.
  induction l as [|x l IH]; simpl; [constructor | by apply sort_insert_sorted].
Qed.

(** The sort is stable: the entries of one rank keep their order. *)
Lemma sort_insert_stable (p : Z) (x : A) (l : list A) :
  filter (λ y, rank y = p) (sort_insert compare x l) = filter (λ y, rank y = p) (x :: l).
Proof.
  induction l as [|y l IH]; simpl; [done|].
  destruct (compare x y <=? 0)%Z eqn:Hc; [done|].
  apply Z.leb_gt in Hc.
  assert (Hxy : ¬ (rank x <= rank y)%Z).
  { intros Hle. apply compare_rank in Hle. lia. }
  rewrite (filter_cons _ y), IH, !(filter_cons _ x), (filter_cons _ y).
  destruct (decide (rank y = p)), (decide (rank x = p)); try done. lia.
Qed.

Lemma sort_stable (p : Z) (l : list A) :
  filter (λ y, rank y = p) (sort compare l) = filter (λ y, rank y = p) l.
Proof.
  induction l as [|x l IH]; simpl; [done|].
  by rewrite sort_insert_stable, !filter_cons, IH.
Qed.

End Sorting.

Lemma descending_stable (p : Z) (l : list SubAgentInfo) :
  filter (λ a, priority a = p) (sort (λ a b, priority b - priority a)%Z l)
  = filter (λ a, priority a = p) l.
Proof.
  rewrite (list_filter_iff (λ a, priority a = p) (λ a, (- priority a)%Z = (- p)%Z))
    by (intros a; lia).
  rewrite (list_filter_iff (λ a, priority a = p) (λ a, (- priority a)%Z = (- p)%Z) l)
    by (intros a; lia).
  apply (sort_stable _ (λ a, (- priority a)%Z)). intros x y. lia.
Qed.

Lemma ascending_stable (p : Z) (l : list SubAgentInfo) :
  filter (λ a, priority a = p) (sort (λ a b, priority a - priority b)%Z l)
  = filter (λ a, priority a = p) l.
Proof. apply (sort_stable _ priority). intros x y. lia. Qed.

(** A list without repetition that reads the same in both directions has
    at most one entry. *)
Lemma reverse_self_short {A} (l : list A) : NoDup l → l = reverse l → length l ≤ 1.
Proof.
  destruct l as [|x [|y l]]; simpl; [lia | lia |].
  intros Hnd E. exfalso. apply NoDup_cons in Hnd as [Hx _]. apply Hx.
  apply last_Some_elem_of. rewrite <- (last_cons_cons x y l), E, reverse_cons.
  apply last_snoc.
Qed.

Lemma filter_all {A} (P : A → Prop) `{∀ x, Decision (P x)} (l : list A) :
  length (filter P l) = length l → Forall P l.
Proof.
  induction l as [|x l IH]; [constructor|].
  rewrite filter_cons. destruct (decide (P x)) as [Hx|Hx]; simpl.
  - intros [= E]. constructor; [done | by apply IH].
  - intros E. pose proof (length_filter P l). lia.
Qed.

Lemma filter_whole {A} (P : A → Prop) `{∀ x, Decision (P x)} (l : list A) :
  Forall P l → filter P l = l.
Proof.
  induction 1 as [|x l Hx _ IH]; [done|].
  rewrite filter_cons_True by done. by rewrite IH.
Qed.

Lemma fmap_inj_on {A B} (f : A → B) (l1 l2 : list A) :
  (∀ x y, x ∈ l1 → y ∈ l2 → f x = f y → x = y) → f <$> l1 = f <$> l2 → l1 = l2.
Proof.
  revert l2. induction l1 as [|x l1 IH]; intros [|y l2] Hinj E; try done.
  simpl in E. injection E as Exy E. f_equal.
  - apply Hinj; [left | left | done].
  - apply IH; [|done]. intros a b Ha Hb. apply Hinj; by right.
Qed.

Lemma NoDup_fmap_elem {A B} (f : A → B) (l : list A) (x y : A) :
  NoDup (f <$> l) → x ∈ l → y ∈ l → f x = f y → x = y.
Proof.
  induction l as [|z l IH]; simpl; intros Hnd Hx Hy E.
  - by apply elem_of_nil in Hx.
  - apply NoDup_cons in Hnd as [Hz Hnd].
    apply elem_of_cons in Hx as [->|Hx]; apply elem_of_cons in Hy as [->|Hy].
    + done.
    + destruct Hz. rewrite E. apply list_elem_of_fmap. eauto.
    + destruct Hz. rewrite <- E. apply list_elem_of_fmap. eauto.
    + by apply IH.
Qed.

Lemma one_of_each {A} (f : A → Z) (l : list A) :
  (∀ p, length (filter (λ x, f x = p) l) ≤ 1) → NoDup (f <$> l).
Proof.
  induction l as [|x l IH]; intros Hone; [constructor|].
  simpl. apply NoDup_cons. split.
  - intros (y & E & Hy)%list_elem_of_fmap.
    specialize (Hone (f x)). rewrite filter_cons_True in Hone by done.
    assert (Hin : y ∈ filter (λ z, f z = f x) l) by (by apply list_elem_of_filter).
    destruct (filter _ l); [by apply elem_of_nil in Hin | simpl in Hone; lia].
  - apply IH. intros p. specialize (Hone p). rewrite filter_cons in Hone.
    destruct (decide (f x = p)); simpl in Hone; lia.
Qed.

(** Two lists with the same entries, both strictly increasing in rank, are
    the same list. *)
Lemma strictly_sorted_unique {A} (rank : A → Z) (l1 l2 : list A) :
  StronglySorted (λ x y, (rank x < rank y)%Z) l1 →
  StronglySorted (λ x y, (rank x < rank y)%Z) l2 →
  l1 ≡ₚ l2 → l1 = l2.
Proof.
  intros H1. revert l2. induction H1 as [|a l1 Hl1 IH Ha]; intros l2 H2 Hp.
  - by apply Permutation_nil_l in Hp.
  - destruct H2 as [|b l2 Hl2 Hb].
    { by apply Permutation_nil_r in Hp. }
    assert (a = b) as <-.
    { assert (Hin1 : a ∈ b :: l2) by (rewrite <- Hp; left).
      assert (Hin2 : b ∈ a :: l1) by (rewrite Hp; left).
      apply elem_of_cons in Hin1 as [?|Hin1]; [done|].
      apply elem_of_cons in Hin2 as [?|Hin2]; [done|].
      rewrite Forall_forall in Ha, Hb.
      specialize (Ha b Hin2). specialize (Hb a Hin1). lia. }
    f_equal. apply IH; [done|]. by apply Permutation_cons_inv in Hp.
Qed.

Lemma sorted_rev {A} (R : A → A → Prop) (l : list A) :
  StronglySorted R l → StronglySorted (flip R) (reverse l).
Proof.
  induction 1 as [|x l Hl IH Hx]; [constructor|].
  rewrite reverse_cons.
  apply StronglySorted_app_2; [|done | repeat constructor].
  intros a b Ha Hb%list_elem_of_singleton. subst b. unfold flip.
  apply (proj1 (elem_of_reverse _ _)) in Ha.
  rewrite Forall_forall in Hx. by apply Hx.
Qed.

Lemma sorted_strict {A} (rank : A → Z) (l : list A) :
  NoDup (map rank l) →
  StronglySorted (λ x y, (rank x <= rank y)%Z) l →
  StronglySorted (λ x y, (rank x < rank y)%Z) l.
Proof.
  intros Hnd H. induction H as [|x l Hl IH Hx]; [constructor|].
  simpl in Hnd. apply NoDup_cons in Hnd as [Hx' Hnd].
  constructor; [by apply IH|].
  rewrite Forall_forall in Hx |- *. intros y Hy. specialize (Hx y Hy).
  assert (rank x ≠ rank y); [|lia].
  intros E. apply Hx'. rewrite E. apply list_elem_of_fmap.
  exists y. done.
Qed.

Lemma sorted_impl {A} (R R' : A → A → Prop) (l : list A) :
  (∀ x y, R x y → R' x y) → StronglySorted R l → StronglySorted R' l.
Proof.
  intros HR. induction 1 as [|x l Hl IH Hx]; constructor; [done|].
  eapply Forall_impl; [exact Hx | auto].
Qed.

(** *** The sweeps *)

Lemma invoked_app (m : string) (l1 l2 : list Effect) :
  invoked m (l1 ++ l2) = invoked m l1 ++ invoked m l2.
Proof. apply omap_app. Qed.

(** What runs beside a method: it is put together from steps that add to
    the trace without entering the method. *)
Section Aside.
Variable method : string.

Lemma aside_ret {A} (x : A) : aside method (ret x).
Proof. intros w. exists []. by rewrite app_nil_r. Qed.

Lemma aside_throw {A} (message : string) : aside method (throw (A := A) message).
Proof. intros w. exists []. by rewrite app_nil_r. Qed.

Lemma aside_gets {A} (f : AgentWorld → A) : aside method (gets f).
Proof. intros w. exists []. by rewrite app_nil_r. Qed.

Lemma aside_outcome (outcome : Run unit) :
  settles outcome → aside method (λ w, (outcome, w)).
Proof. intros Hs w. exists []. by rewrite app_nil_r. Qed.

Lemma aside_bind {A B} (m : M AgentWorld A) (k : A → M AgentWorld B) :
  aside method m → (∀ x, aside method (k x)) → aside method (bind m k).
Proof.
  intros Hm Hk w. unfold bind.
  destruct (Hm w) as (new & Htr & Hinv & Hid & Hfuel).
  destruct (m w) as [[x|message|] w1]; simpl in *; [|by exists new|done].
  destruct (Hk x w1) as (new' & Htr' & Hinv' & Hid' & Hfuel').
  exists (new ++ new'). rewrite Htr', Htr, <- app_assoc, invoked_app, Hinv, Hinv'.
  split; [done|]. split; [done|]. split; [congruence | done].
Qed.

Lemma aside_try_catch {A} (m : M AgentWorld A) (h : string → M AgentWorld A) :
  aside method m → (∀ message, aside method (h message)) → aside method (try_catch m h).
Proof.
  intros Hm Hh w. unfold try_catch.
  destruct (Hm w) as (new & Htr & Hinv & Hid & Hfuel).
  destruct (m w) as [[x|message|] w1]; simpl in *; [by exists new| |done].
  destruct (Hh message w1) as (new' & Htr' & Hinv' & Hid' & Hfuel').
  exists (new ++ new'). rewrite Htr', Htr, <- app_assoc, invoked_app, Hinv, Hinv'.
  split; [done|]. split; [done|]. split; [congruence | done].
Qed.

Lemma aside_effect (e : Effect) : invoked method [e] = [] → aside method (effect e).
Proof. intros He w. by exists [e]. Qed.

Lemma aside_update (f : BaseAgent → BaseAgent) :
  (∀ a, agent_id (f a) = agent_id a) → aside method (update_self f).
Proof. intros Hf w. exists []. simpl. by rewrite app_nil_r. Qed.

Lemma aside_log (level : LogLevel) (message : string) :
  aside method (Agent.log level message).
Proof. apply aside_bind; [apply aside_gets|]. intros name. by apply aside_effect. Qed.

Lemma aside_enter (other : string) :
  String.eqb other method = false → aside method (enter other).
Proof.
  intros Hne. apply aside_bind; [apply aside_gets|]. intros i.
  apply aside_effect. unfold invoked. simpl. by rewrite Hne.
Qed.

Lemma aside_times (n : nat) (m : M AgentWorld unit) :
  aside method m → aside method (times n m).
Proof.
  intros Hm. induction n as [|n IH]; simpl; [apply aside_ret|].
  by apply aside_bind.
Qed.

Lemma aside_collect {A} (n : nat) (m : M AgentWorld A) :
  aside method m → aside method (collect n m).
Proof.
  intros Hm. induction n as [|n IH]; simpl; [apply aside_ret|].
  apply aside_bind; [done|]. intros x. apply aside_bind; [done|]. intros l.
  apply aside_ret.
Qed.

Lemma aside_for_each {A} (l : list A) (body : A → M AgentWorld unit) :
  (∀ x, aside method (body x)) → aside method (for_each l body).
Proof.
  intros Hbody. induction l as [|x l IH]; simpl; [apply aside_ret|].
  by apply aside_bind.
Qed.

Lemma aside_bystander (hooks : Hooks) (e : SuperCodeEvent) :
  aside method (bystander hooks e).
Proof.
  intros w. exists []. unfold bystander. simpl. rewrite app_nil_r.
  by destruct (bystanders hooks (trace w) e).
Qed.

Lemma aside_announces (hooks : Hooks) (sup : string) (e : SuperCodeEvent) :
  aside method (announces hooks sup e).
Proof.
  unfold announces. apply aside_bind; [|intros _; apply aside_bystander].
  destruct e; try apply aside_ret; by apply aside_times, aside_effect.
Qed.

Lemma aside_emitEvent (hear : Subscribers) (e : SuperCodeEvent) :
  aside method (hear e) → aside method (emitEvent hear e).
Proof. intros Hh. apply aside_bind; [by apply aside_effect | done]. Qed.

Lemma aside_stop_resumes (shutdown : Run unit) (hear : Subscribers) :
  settles shutdown → (∀ i, aside method (hear (agent_stopped i))) →
  aside method (stop_resumes shutdown hear).
Proof.
  intros Hs Hh. apply aside_try_catch; [|intros message; apply aside_log].
  apply aside_bind; [by apply aside_outcome|]. intros _.
  apply aside_bind; [by apply aside_update|]. intros _.
  apply aside_bind; [apply aside_gets|]. intros i.
  apply aside_bind; [by apply aside_emitEvent|]. intros _. apply aside_log.
Qed.

End Aside.

(** The listeners of the supervisor call [stop()] and enter no [start()]. *)
Lemma aside_hears (hooks : Hooks) (sup : string) (e : SuperCodeEvent) :
  hooks_settle hooks → aside "start" (hears hooks sup e).
Proof.
  intros Hs. destruct e; try apply aside_announces.
  unfold hears. apply aside_bind.
  { apply aside_collect. unfold recovery_begins.
    apply aside_bind; [by apply aside_effect|]. intros _.
    apply aside_bind; [apply aside_gets|]. intros name.
    apply aside_bind; [by apply aside_effect|]. intros _.
    unfold stop_enters.
    apply aside_bind; [by apply aside_enter|]. intros _.
    apply aside_bind; [apply aside_gets|]. intros st.
    destruct (bool_decide (st = stopped)).
    - apply aside_bind; [apply aside_log|]. intros _. apply aside_ret.
    - apply aside_bind; [apply aside_log|]. intros _.
      apply aside_bind; [by apply aside_enter|]. intros _. apply aside_ret. }
  intros entered. apply aside_bind; [apply aside_gets|]. intros thrown.
  apply aside_bind.
  - apply aside_for_each. intros [|]; [|apply aside_ret].
    apply aside_stop_resumes; [apply Hs|]. intros i. apply aside_announces.
  - intros _. destruct thrown; [apply aside_throw | apply aside_ret].
Qed.

(** A method that enters itself and then runs what is beside it. *)
Lemma entered_trace {A} (method : string) (m : M AgentWorld A) (w : AgentWorld) :
  aside method m →
  ∃ new, trace (snd (bind (enter method) (λ _, m) w)) = trace w ++ new
         ∧ invoked method new = [agent_id (self w)]
         ∧ agent_id (self (snd (bind (enter method) (λ _, m) w))) = agent_id (self w)
         ∧ fst (bind (enter method) (λ _, m) w) ≠ OutOfFuel.
Proof.
  intros Hm.
  assert (E : bind (enter method) (λ _, m) w
              = m {| self := self w;
                     trace := trace w ++ [Invoke (agent_id (self w)) method] |}) by done.
  rewrite E.
  destruct (Hm {| self := self w; trace := trace w ++ [Invoke (agent_id (self w)) method] |})
    as (new & Htr & Hinv & Hid & Hfuel). simpl in *.
  exists ([Invoke (agent_id (self w)) method] ++ new).
  rewrite Htr, <- app_assoc. split; [done|].
  split; [|done]. rewrite invoked_app, Hinv. unfold invoked. simpl.
  by rewrite String.eqb_refl.
Qed.

(** [start()] and [stop()] add to the trace, enter themselves once, and end
    when the hooks end. *)
Lemma start_trace (w : AgentWorld) (initialize : Run unit) (hear : Subscribers) (now : Z) :
  settles initialize → (∀ e, aside "start" (hear e)) →
  ∃ new, trace (snd (start initialize hear now w)) = trace w ++ new
         ∧ invoked "start" new = [agent_id (self w)]
         ∧ agent_id (self (snd (start initialize hear now w))) = agent_id (self w)
         ∧ fst (start initialize hear now w) ≠ OutOfFuel.
Proof.
  intros Hs Hh. apply (entered_trace "start").
  apply aside_bind; [apply aside_gets|]. intros st.
  destruct (bool_decide (st = running)); [apply aside_log|].
  apply aside_try_catch.
  - apply aside_bind; [apply aside_log|]. intros _.
    apply aside_bind; [by apply aside_update|]. intros _.
    apply aside_bind; [by apply aside_update|]. intros _.
    apply aside_bind.
    { apply aside_bind; [by apply aside_enter | intros _; by apply aside_outcome]. }
    intros _. apply aside_bind; [apply aside_gets|]. intros i.
    apply aside_bind; [by apply aside_emitEvent|]. intros _. apply aside_log.
  - intros message.
    apply aside_bind; [by apply aside_update|]. intros _.
    apply aside_bind; [apply aside_log|]. intros _.
    apply aside_bind; [apply aside_gets|]. intros i.
    apply aside_bind; [by apply aside_emitEvent|]. intros _. apply aside_throw.
Qed.

Lemma stop_trace (w : AgentWorld) (shutdown : Run unit) (hear : Subscribers) :
  settles shutdown → (∀ i, aside "stop" (hear (agent_stopped i))) →
  ∃ new, trace (snd (stop shutdown hear w)) = trace w ++ new
         ∧ invoked "stop" new = [agent_id (self w)]
         ∧ agent_id (self (snd (stop shutdown hear w))) = agent_id (self w)
         ∧ fst (stop shutdown hear w) ≠ OutOfFuel.
Proof.
  intros Hs Hh.
  assert (Hrest : aside "stop"
            (let! st := gets (λ w, status (self w)) in
             let! entered :=
               (if bool_decide (st = stopped)
                then Agent.log warn "Agent is already stopped" ;;; ret false
                else Agent.log info "Stopping agent..." ;;; enter "shutdown" ;;; ret true) in
             if entered : bool then stop_resumes shutdown hear else ret tt)).
  { apply aside_bind; [apply aside_gets|]. intros st. apply aside_bind.
    - destruct (bool_decide (st = stopped)).
      + apply aside_bind; [apply aside_log|]. intros _. apply aside_ret.
      + apply aside_bind; [apply aside_log|]. intros _.
        apply aside_bind; [by apply aside_enter|]. intros _. apply aside_ret.
    - intros [|]; [by apply aside_stop_resumes | apply aside_ret]. }
  destruct (entered_trace "stop" _ w Hrest) as (new & Htr & Hinv & Hid & Hfuel).
  assert (E : stop shutdown hear w
              = bind (enter "stop")
                  (λ _, let! st := gets (λ w, status (self w)) in
                        let! entered :=
                          (if bool_decide (st = stopped)
                           then Agent.log warn "Agent is already stopped" ;;; ret false
                           else Agent.log info "Stopping agent..." ;;; enter "shutdown" ;;;
                                ret true) in
                        if entered : bool then stop_resumes shutdown hear else ret tt) w).
  { unfold stop, stop_enters, enter, Agent.log, bind, gets, effect, modify, ret. simpl.
    by destruct (bool_decide (status (self w) = stopped)). }
  rewrite E. exists new. auto.
Qed.

Lemma guarded_round (method complaint : string) (m : M AgentWorld unit)
    (i : SubAgentInfo) (s : SupervisorAgent) :
  (∀ w, self w = agent i →
        ∃ new, trace (snd (m w)) = trace w ++ new
               ∧ invoked method new = [agent_id (self w)]
               ∧ agent_id (self (snd (m w))) = agent_id (self w)
               ∧ fst (m w) ≠ OutOfFuel) →
  ∃ s' new, guarded m complaint i s = (Returns tt, s')
            ∧ log s' = log s ++ new
            ∧ invoked method new = [key i]
            ∧ map key (subAgents s') = map key (subAgents s).
Proof.
  intros Hm. unfold guarded, try_catch, on_agent.
  destruct (Hm {| self := agent i; trace := log s |} eq_refl)
    as (new & Htr & Hinv & Hid & Hfuel).
  destruct (m {| self := agent i; trace := log s |}) as [r w] eqn:E. simpl in *.
  assert (Hkeys : map key (sub_update (agent_id (agent i)) (set_agent (self w)) (subAgents s))
                  = map key (subAgents s)).
  { unfold sub_update. rewrite <- list_fmap_compose. apply list_fmap_ext.
    intros _ x _. simpl. destruct (String.eqb_spec (key x) (agent_id (agent i))); [|done].
    unfold key at 1. simpl. by rewrite Hid. }
  destruct r as [[]|msg|]; [| |done].
  - eexists _, new. repeat split; done.
  - eexists _, (new ++ _). unfold say, modify, with_log, with_subAgents. simpl.
    split; [done|]. rewrite Htr, <- app_assoc. split; [done|].
    rewrite invoked_app, Hinv. done.
Qed.

Lemma sweep_rounds (method : string) (body : SubAgentInfo → M SupervisorAgent unit)
    (l : list SubAgentInfo) :
  (∀ i s, ∃ s' new, body i s = (Returns tt, s')
                    ∧ log s' = log s ++ new
                    ∧ invoked method new = [key i]
                    ∧ map key (subAgents s') = map key (subAgents s)) →
  ∀ s, ∃ s' new, for_each l body s = (Returns tt, s')
                 ∧ log s' = log s ++ new
                 ∧ invoked method new = map key l
                 ∧ map key (subAgents s') = map key (subAgents s).
Proof.
  intros Hbody. induction l as [|i l IH]; intros s.
  - exists s, []. by rewrite app_nil_r.
  - simpl. unfold bind at 1.
    destruct (Hbody i s) as (s1 & new1 & -> & Hlog1 & Hinv1 & Hk1).
    destruct (IH s1) as (s2 & new2 & -> & Hlog2 & Hinv2 & Hk2).
    exists s2, (new1 ++ new2). split; [done|].
    rewrite Hlog2, Hlog1, <- app_assoc. split; [done|].
    rewrite invoked_app, Hinv1, Hinv2. split; [done | congruence].
Qed.

Lemma startAllAgents_run (hooks : Hooks) (now : Z) (s : SupervisorAgent) :
  hooks_settle hooks →
  ∃ s' new, startAllAgents hooks now s = (Returns tt, s')
            ∧ log s' = log s ++ new
            ∧ invoked "start" new
              = map key (sort (λ a b, priority b - priority a)%Z
                           (filter (λ a, attached a = true) (subAgents s))).
Proof.
  intros Hs. unfold startAllAgents.
  unfold bind at 1. unfold say at 1. unfold modify at 1.
  unfold bind at 1. unfold gets at 1.
  set (s0 := with_log _ s).
  set (agents := sort _ (filter _ (subAgents s0))).
  unfold bind at 1. unfold gets at 1.
  unfold bind at 1.
  destruct (sweep_rounds "start"
              (λ i, try_catch
                      (on_agent (agent i)
                         (start (initialize_of hooks (key i))
                            (hears hooks (agent_name (base s0))) now))
                      (λ _, say error_level ("Failed to start " +:+ agent_name (agent i))))
              agents) with (s := s0) as (s1 & new & -> & Hlog & Hinv & _).
  { intros i s'.
    apply (guarded_round "start" "Failed to start "
             (start (initialize_of hooks (key i)) (hears hooks (agent_name (base s0))) now)
             i s').
    intros w _. apply start_trace; [apply Hs|]. intros e. by apply aside_hears. }
  unfold say, modify. eexists _, _. split; [done|].
  unfold with_log at 1. simpl. rewrite Hlog. subst s0. unfold with_log at 1. simpl.
  rewrite <- !app_assoc. split; [done|].
  rewrite !invoked_app, Hinv. simpl. by rewrite app_nil_r.
Qed.

Lemma startAllAgents_order (hooks : Hooks) (now : Z) (s : SupervisorAgent) :
  hooks_settle hooks →
  fst (startAllAgents hooks now s) = Returns tt
  ∧ start_order hooks now s
    = map key (sort (λ a b, priority b - priority a)%Z
                 (filter (λ a, attached a = true) (subAgents s))).
Proof.
  intros Hs. unfold start_order.
  destruct (startAllAgents_run hooks now s Hs) as (s' & new & -> & Hlog & Hinv).
  simpl. by rewrite Hlog, drop_app_length.
Qed.

Lemma shutdown_run (hooks : Hooks) (s : SupervisorAgent) :
  hooks_settle hooks →
  ∃ s' new, shutdown hooks s = (Returns tt, s')
            ∧ log s' = log s ++ new
            ∧ subAgents s' = []
            ∧ invoked "stop" new
              = map key (sort (λ a b, priority a - priority b)%Z (subAgents s)).
Proof.
  intros Hs. unfold shutdown.
  unfold bind at 1. unfold say at 1. unfold modify at 1.
  unfold bind at 1. unfold gets at 1.
  set (s0 := with_log _ s).
  set (agents := sort _ (subAgents s0)).
  unfold bind at 1. unfold gets at 1.
  unfold bind at 1.
  destruct (sweep_rounds "stop"
              (λ i, try_catch
                      (on_agent (agent i)
                         (stop (shutdown_of hooks (key i))
                            (hears hooks (agent_name (base s0)))))
                      (λ _, say error_level ("Error stopping " +:+ agent_name (agent i))))
              agents) with (s := s0) as (s1 & new & -> & Hlog & Hinv & _).
  { intros i s'.
    apply (guarded_round "stop" "Error stopping "
             (stop (shutdown_of hooks (key i)) (hears hooks (agent_name (base s0)))) i s').
    intros w _. apply stop_trace; [apply Hs|]. intros j. apply aside_announces. }
  unfold bind, say, modify. eexists _, _. split; [done|].
  unfold with_log at 1. simpl. unfold with_subAgents. simpl.
  rewrite Hlog. subst s0. unfold with_log at 1. simpl.
  rewrite <- !app_assoc. split; [done|]. split; [done|].
  rewrite !invoked_app, Hinv. simpl. by rewrite app_nil_r.
Qed.

Lemma shutdown_order (hooks : Hooks) (s : SupervisorAgent) :
  hooks_settle hooks →
  fst (shutdown hooks s) = Returns tt
  ∧ subAgents (snd (shutdown hooks s)) = []
  ∧ stop_order hooks s
    = map key (sort (λ a b, priority a - priority b)%Z (subAgents s)).
Proof.
  intros Hs. unfold stop_order.
  destruct (shutdown_run hooks s Hs) as (s' & new & -> & Hlog & Hclear & Hinv).
  simpl. by rewrite Hlog, drop_app_length.
Qed.

Lemma sorted_descending (l : list SubAgentInfo) :
  StronglySorted (λ a b, (- priority a <= - priority b)%Z)
    (sort (λ a b, priority b - priority a)%Z l).
Proof. apply sort_sorted. intros x y. lia. Qed.

Lemma sorted_ascending (l : list SubAgentInfo) :
  StronglySorted (λ a b, (priority a <= priority b)%Z)
    (sort (λ a b, priority a - priority b)%Z l).
Proof. apply sort_sorted. intros x y. lia. Qed.

Lemma start_sweep (hooks : Hooks) (now : Z) (s : SupervisorAgent) :
  hooks_settle hooks →
  sweep (start_order hooks now s) (filter (λ a, attached a = true) (subAgents s)) Z.ge.
Proof.
  intros Hs. destruct (startAllAgents_order hooks now s Hs) as [_ Ho].
  eexists. split; [exact Ho|]. split; [apply sort_perm|].
  eapply sorted_impl; [|apply sorted_descending]. simpl. intros x y. lia.
Qed.

Lemma stop_sweep (hooks : Hooks) (s : SupervisorAgent) :
  hooks_settle hooks → sweep (stop_order hooks s) (subAgents s) Z.le.
Proof.
  intros Hs. destruct (shutdown_order hooks s Hs) as (_ & _ & Ho).
  eexists. split; [exact Ho|]. split; [apply sort_perm | apply sorted_ascending].
Qed.

(** C6 (as worded) fails on the agents that src/index.ts registers first:
    the two agents of priority 10 are started and stopped in the same
    order, so the stop order is not the start order reversed. *)
Lemma sweeps_as_specified_counterexample :
  start_order calm 0 three = ["obs"; "sec"; "mod"]
  ∧ stop_order calm three = ["mod"; "obs"; "sec"]
  ∧ ¬ sweeps_as_specified calm 0 three.
Proof.
  split; [by vm_compute|]. split; [by vm_compute|].
  intros (_ & _ & _ & H). vm_compute in H. discriminate H.
Qed.

(** C6 (as amended). When every hook ends, [startAllAgents] returns and has
    started the attached agents and no others, each once, by descending
    priority, whether or not hooks throw; [shutdown] returns and has stopped
    every registered agent, attached or not, each once, by ascending
    priority, and the table is empty. In both sweeps the agents of one
    priority come in the order of their registration. On a table that holds
    one entry for each id, the stop order is the start order reversed if and
    only if all agents are attached and no two have the same priority. *)
Theorem sweeps_by_priority (hooks : Hooks) (now : Z) (s : SupervisorAgent) :
  hooks_settle hooks →
  fst (startAllAgents hooks now s) = Returns tt
  ∧ in_turn (start_order hooks now s)
            (filter (λ a, attached a = true) (subAgents s)) Z.ge
  ∧ fst (shutdown hooks s) = Returns tt
  ∧ in_turn (stop_order hooks s) (subAgents s) Z.le
  ∧ subAgents (snd (shutdown hooks s)) = []
  ∧ (NoDup (map key (subAgents s)) →
     stop_order hooks s = reverse (start_order hooks now s)
     ↔ Forall (λ a, attached a = true) (subAgents s)
       ∧ NoDup (map priority (subAgents s))).
Proof.
  intros Hs.
  destruct (startAllAgents_order hooks now s Hs) as [Hr1 Ho1].
  destruct (shutdown_order hooks s Hs) as (Hr2 & Hclear & Ho2).
  split; [done|]. split.
  { eexists. split; [exact Ho1|]. split; [apply sort_perm|]. split.
    - eapply sorted_impl; [|apply sorted_descending]. simpl. intros x y. lia.
    - intros p. apply descending_stable. }
  split; [done|]. split.
  { eexists. split; [exact Ho2|]. split; [apply sort_perm|]. split.
    - apply sorted_ascending.
    - intros p. apply ascending_stable. }
  split; [done|].
  intros Hkeys. rewrite Ho1, Ho2, <- fmap_reverse.
  set (l := subAgents s) in *. split.
  - intros E.
    assert (Hall : Forall (λ a, attached a = true) l).
    { apply (filter_all (λ a, attached a = true)). apply (f_equal length) in E.
      rewrite !length_fmap, length_reverse in E.
      rewrite <- (Permutation_length (sort_perm (λ a b, priority b - priority a)%Z
                                        (filter (λ a, attached a = true) l))).
      rewrite <- E. apply Permutation_length, sort_perm. }
    split; [done|]. rewrite (filter_whole _ l Hall) in E.
    apply fmap_inj_on in E.
    + apply one_of_each. intros p. apply reverse_self_short.
      * apply NoDup_filter. by apply NoDup_fmap_1 in Hkeys.
      * rewrite <- (ascending_stable p l) at 1. rewrite E.
        rewrite <- (descending_stable p l).
        generalize (sort (λ a b, priority b - priority a)%Z l). intros m.
        induction m as [|x m IH]; [done|].
        rewrite reverse_cons, filter_app, IH, (filter_cons _ x m), (filter_cons _ x []).
        rewrite filter_nil.
        destruct (decide (priority x = p)); [by rewrite reverse_cons | by rewrite app_nil_r].
    + intros x y Hx Hy. apply (NoDup_fmap_elem key l); [done | |].
      * by rewrite sort_perm in Hx.
      * by rewrite reverse_Permutation, sort_perm in Hy.
  - intros [Hall Hnd]. f_equal. rewrite (filter_whole _ l Hall).
    apply (strictly_sorted_unique priority).
    + apply sorted_strict; [|apply sorted_ascending]. by rewrite sort_perm.
    + apply sorted_strict.
      * by rewrite reverse_Permutation, sort_perm.
      * eapply sorted_impl; [|apply sorted_rev, sorted_descending].
        unfold flip. simpl. intros x y. lia.
    + by rewrite reverse_Permutation, !sort_perm.
Qed.

Lemma sweeps_by_priority_witness :
  hooks_settle rough
  ∧ fst (startAllAgents rough 0 three) = Returns tt
  ∧ in_turn (start_order rough 0 three)
            (filter (λ a, attached a = true) (subAgents three)) Z.ge
  ∧ fst (shutdown rough three) = Returns tt
  ∧ in_turn (stop_order rough three) (subAgents three) Z.le
  ∧ subAgents (snd (shutdown rough three)) = []
  ∧ (NoDup (map key (subAgents three)) →
     stop_order rough three = reverse (start_order rough 0 three)
     ↔ Forall (λ a, attached a = true) (subAgents three)
       ∧ NoDup (map priority (subAgents three))).
Proof.
  assert (Hs : hooks_settle rough).
  { intros i. unfold settles, rough. simpl. split; [|done].
    by destruct (String.eqb i "obs"). }
  split; [exact Hs|]. exact (sweeps_by_priority rough 0 three Hs).
Defined.

(** *** Routing *)

Lemma find_first_such {A} (f : A → bool) (l : list A) (x : A) :
  List.find f l = Some x ↔ first_such (λ y, f y = true) l x.
Proof.
  split.
  - induction l as [|y l IH]; simpl; [done|].
    destruct (f y) eqn:Hy.
    + intros [= <-]. exists [], l. split; [done|]. split; [done|].
      intros z Hz. by apply elem_of_nil in Hz.
    + intros (l1 & l2 & -> & Hx & Hl1)%IH. exists (y :: l1), l2.
      split; [done|]. split; [done|].
      intros z [->|Hz]%elem_of_cons; [congruence | by apply Hl1].
  - intros (l1 & l2 & -> & Hx & Hl1). induction l1 as [|y l1 IH]; simpl.
    + by rewrite Hx.
    + destruct (f y) eqn:Hy.
      * destruct (Hl1 y); [left | done].
      * apply IH. intros z Hz. apply Hl1. by right.
Qed.

Lemma find_none {A} (f : A → bool) (l : list A) :
  (∀ y, y ∈ l → f y ≠ true) → List.find f l = None.
Proof.
  induction l as [|y l IH]; intros H; simpl; [done|].
  destruct (f y) eqn:Hy.
  - destruct (H y); [left | done].
  - apply IH. intros z Hz. apply H. by right.
Qed.

Lemma first_such_ext {A} (P Q : A → Prop) (l : list A) (x : A) :
  (∀ y, P y ↔ Q y) → first_such P l x → first_such Q l x.
Proof.
  intros HPQ (l1 & l2 & -> & Hx & Hl1). exists l1, l2.
  split; [done|]. split; [by apply HPQ|]. intros y Hy ?%HPQ. by apply (Hl1 y).
Qed.

Lemma typeToAgent_present (ty : string) : present (typeToAgent ty) = typeToAgent ty.
Proof.
  unfold typeToAgent. repeat (destruct (String.eqb ty _); [done|]). done.
Qed.

Lemma agentName_wanted (task : Task) (i : SubAgentInfo) :
  wanted task i ↔
  ∃ name, agentName task = Some name
          ∧ String.eqb (agent_name (agent i)) name && attached i = true.
Proof.
  unfold wanted, agentName. split.
  - intros (ty & name & Hty & Hname & Hn & Ha). exists name.
    rewrite Hty. simpl. destruct (String.eqb_spec ty "") as [->|_]; [done|].
    rewrite typeToAgent_present. split; [done|].
    apply andb_true_iff. split; [by apply String.eqb_eq | done].
  - intros (name & Hname & [Hn Ha]%andb_true_iff).
    destruct (task_type task) as [ty|]; [|done]. simpl in Hname.
    destruct (String.eqb ty ""); [done|]. rewrite typeToAgent_present in Hname.
    exists ty, name. repeat split; try done. by apply String.eqb_eq.
Qed.

Lemma routeTask_wanted (task : Task) (l : list SubAgentInfo) (i : SubAgentInfo) :
  first_such (wanted task) l i → routeTask task l = Some i.
Proof.
  intros Hi. unfold routeTask.
  assert (Hw : wanted task i) by (by destruct Hi as (? & ? & _ & ? & _)).
  apply agentName_wanted in Hw as (name & Hname & _).
  fold (agentName task). rewrite Hname.
  rewrite (proj2 (find_first_such _ l i)); [done|].
  eapply first_such_ext; [|exact Hi]. intros y. rewrite agentName_wanted.
  split; [|eauto]. intros (name' & Hn' & ?). congruence.
Qed.

Lemma routeTask_unwanted (task : Task) (l : list SubAgentInfo) :
  (∀ i, i ∈ l → ¬ wanted task i) →
  routeTask task l
  = List.find (λ i, attached i && bool_decide (getStatus (agent i) = running)) l.
Proof.
  intros Hno. unfold routeTask. fold (agentName task).
  destruct (agentName task) as [name|] eqn:Hname; [|done].
  rewrite find_none; [done|].
  intros y Hy Hf. apply (Hno y Hy). apply agentName_wanted. eauto.
Qed.

Lemma available_test (i : SubAgentInfo) :
  available i ↔ attached i && bool_decide (getStatus (agent i) = running) = true.
Proof.
  unfold available, getStatus. rewrite andb_true_iff, bool_decide_eq_true. done.
Qed.

Lemma processTask_named (task : Task) (s : SupervisorAgent) (a : string)
    (i : SubAgentInfo) :
  present (task_agentId task) = Some a →
  sub_get a (subAgents s) = Some i → attached i = true →
  fst (processTask task s) = Returns (SendRequest a (task_data task)).
Proof.
  intros Ha Hget Hatt. unfold processTask. rewrite Ha.
  unfold bind, gets. by rewrite Hget, Hatt.
Qed.

(** C7. [processTask] leaves the supervisor as it is. A task that names a
    target is sent to it when the table holds an attached agent under that
    id, and fails with "not found or not attached" otherwise. A task
    without target goes to the first attached agent that bears the name the
    table gives for its type; when there is none, to the first attached
    agent that is running; and when there is none either it fails with "No
    suitable agent found". *)
Theorem processTask_routing (task : Task) (s : SupervisorAgent) :
  snd (processTask task s) = s
  ∧ match present (task_agentId task) with
    | Some a =>
        ((∃ i, sub_get a (subAgents s) = Some i ∧ attached i = true) →
         fst (processTask task s) = Returns (SendRequest a (task_data task)))
        ∧ ((¬ ∃ i, sub_get a (subAgents s) = Some i ∧ attached i = true) →
           fst (processTask task s)
           = Throws ("Agent " +:+ a +:+ " not found or not attached"))
    | None =>
        (∀ i, first_such (wanted task) (subAgents s) i →
              fst (processTask task s)
              = Returns (SendRequest (agent_id (agent i)) (task_data task)))
        ∧ ((∀ i, i ∈ subAgents s → ¬ wanted task i) →
           ∀ i, first_such available (subAgents s) i →
                fst (processTask task s)
                = Returns (SendRequest (agent_id (agent i)) (task_data task)))
        ∧ ((∀ i, i ∈ subAgents s → ¬ wanted task i ∧ ¬ available i) →
           fst (processTask task s) = Throws "No suitable agent found for task")
    end.
Proof.
  unfold processTask. destruct (present (task_agentId task)) as [a|].
  - unfold bind, gets. destruct (sub_get a (subAgents s)) as [i|] eqn:Hget.
    + destruct (attached i) eqn:Hatt; simpl.
      * split; [done|]. split; [done|]. intros []. eauto.
      * split; [done|]. split; [|done]. intros (i' & [= <-] & ?). congruence.
    + simpl. split; [done|]. split; [|done]. by intros (i' & ? & ?).
  - unfold bind, gets. split.
    { by destruct (routeTask task (subAgents s)). }
    split; [|split].
    + intros i Hi. by rewrite (routeTask_wanted _ _ _ Hi).
    + intros Hno i Hi. rewrite (routeTask_unwanted _ _ Hno).
      rewrite (proj2 (find_first_such _ _ i)); [done|].
      eapply first_such_ext; [|exact Hi]. apply available_test.
    + intros Hno. rewrite routeTask_unwanted by (intros i Hi; by apply Hno).
      rewrite find_none; [done|].
      intros y Hy Hf. apply (Hno y Hy). by apply available_test.
Qed.

(** *** Registration *)

Lemma sub_get_set_eq (info : SubAgentInfo) (l : list SubAgentInfo) :
  sub_get (key info) (sub_set info l) = Some info.
Proof.
  unfold sub_get. induction l as [|x l IH]; simpl.
  - by rewrite String.eqb_refl.
  - destruct (String.eqb_spec (key x) (key info)) as [E|Hne]; simpl.
    + by rewrite String.eqb_refl.
    + by destruct (String.eqb_spec (key x) (key info)).
Qed.

Lemma sub_get_set_ne (info : SubAgentInfo) (l : list SubAgentInfo) (j : string) :
  j ≠ key info → sub_get j (sub_set info l) = sub_get j l.
Proof.
  intros Hj. unfold sub_get. induction l as [|x l IH]; simpl.
  - by destruct (String.eqb_spec (key info) j).
  - destruct (String.eqb_spec (key x) (key info)) as [E|Hne]; simpl.
    + destruct (String.eqb_spec (key info) j); [done|].
      by destruct (String.eqb_spec (key x) j); [congruence|].
    + by rewrite IH.
Qed.

Lemma sub_get_elem (j : string) (l : list SubAgentInfo) (info : SubAgentInfo) :
  sub_get j l = Some info → info ∈ l ∧ key info = j.
Proof.
  unfold sub_get. intros [Hin Hk]%List.find_some.
  split; [by apply list_elem_of_In | by apply String.eqb_eq].
Qed.

Lemma sweep_member (ids : list string) (l : list SubAgentInfo)
    (by_priority : Z → Z → Prop) (info : SubAgentInfo) :
  sweep ids l by_priority → info ∈ l → key info ∈ ids.
Proof.
  intros (agents & -> & Hp & _) Hin. apply list_elem_of_fmap.
  exists info. split; [done|]. by rewrite Hp.
Qed.

(** C10. After [registerAgent(agent, priority)] the table holds, under the
    id of the agent, a record that is attached and carries the priority
    given (5 when none is given), whatever it held under that id before;
    the other entries are as they were. A task that names the agent is
    sent to it, and the agent is among those that the next start sweep
    starts and that the next shutdown stops. *)
Theorem registerAgent_attached (a : BaseAgent) (p : option Z) (s : SupervisorAgent)
    (hooks : Hooks) (now : Z) (task : Task) :
  agent_id a ≠ "" → hooks_settle hooks → task_agentId task = Some (agent_id a) →
  let s' := snd (registerAgent a p s) in
  fst (registerAgent a p s) = Returns tt
  ∧ sub_get (agent_id a) (subAgents s')
    = Some {| agent := a; attached := true; priority := default 5%Z p |}
  ∧ (∀ j, j ≠ agent_id a → sub_get j (subAgents s') = sub_get j (subAgents s))
  ∧ fst (processTask task s') = Returns (SendRequest (agent_id a) (task_data task))
  ∧ agent_id a ∈ start_order hooks now s'
  ∧ agent_id a ∈ stop_order hooks s'.
Proof.
  intros Hid Hs Htask s'.
  set (info := {| agent := a; attached := true; priority := default 5%Z p |}).
  assert (Htable : subAgents s' = sub_set info (subAgents s)) by done.
  assert (Hget : sub_get (agent_id a) (subAgents s') = Some info).
  { rewrite Htable. apply (sub_get_set_eq info). }
  split; [done|]. split; [done|]. split.
  { intros j Hj. rewrite Htable. by apply sub_get_set_ne. }
  destruct (sub_get_elem _ _ _ Hget) as [Hin _].
  split; [|split].
  - apply (processTask_named task s' (agent_id a) info); [|done..].
    rewrite Htask. simpl. by destruct (String.eqb_spec (agent_id a) "").
  - apply (sweep_member _ _ _ info (start_sweep hooks now s' Hs)).
    by apply list_elem_of_filter.
  - by apply (sweep_member _ _ _ info (stop_sweep hooks s' Hs)).
Qed.

Lemma registerAgent_attached_witness :
  sub_get "sec" (subAgents secDetached)
    = Some {| agent := mkAgent "sec" "SecurityAgent" idle; attached := false;
              priority := 10 |}
  ∧ sub_get "sec"
      (subAgents (snd (registerAgent (mkAgent "sec" "SecurityAgent" idle) None secDetached)))
    = Some {| agent := mkAgent "sec" "SecurityAgent" idle; attached := true;
              priority := 5 |}
  ∧ "sec" ∈ start_order calm 0
              (snd (registerAgent (mkAgent "sec" "SecurityAgent" idle) None secDetached)).
Proof.
  split; [by vm_compute|].
  assert (Hs : hooks_settle calm) by (by intros i).
  destruct (registerAgent_attached (mkAgent "sec" "SecurityAgent" idle) None secDetached
              calm 0 {| task_type := None; task_agentId := Some "sec"; task_data := VNull |})
    as (_ & Hget & _ & _ & Hstart & _); [done..|].
  split; [exact Hget | exact Hstart].
Defined.

End SupervisorProofs.

Module WorkflowProofs.
Import Js Workflow.

(** *** A step writes to the context only *)

Lemma with_context_same (e : WorkflowExecution) : with_context (context e) e = e.
Proof. by destruct e. Qed.

Lemma context_only_ret {A} (a : A) : context_only (ret a).
Proof. intros e. exists (context e). by rewrite with_context_same. Qed.

Lemma context_only_throw {A} (msg : string) : context_only (@throw _ A msg).
Proof. intros e. exists (context e). by rewrite with_context_same. Qed.

Lemma context_only_diverge {A} : context_only (@diverge _ A).
Proof. intros e. exists (context e). by rewrite with_context_same. Qed.

Lemma context_only_gets {A} (f : WorkflowExecution → A) : context_only (gets f).
Proof. intros e. exists (context e). by rewrite with_context_same. Qed.

Lemma context_only_pure {A} (r : Run A) : context_only (λ e, (r, e)).
Proof. intros e. exists (context e). by rewrite with_context_same. Qed.

Lemma context_only_set (k : string) (v : JsVal) : context_only (modify (set_context k v)).
Proof. intros e. by exists (obj_set k v (context e)). Qed.

Lemma context_only_bind {A B} (m : M WorkflowExecution A) (k : A → M WorkflowExecution B) :
  context_only m → (∀ a, context_only (k a)) → context_only (bind m k).
Proof.
  intros Hm Hk e. unfold bind. destruct (Hm e) as [c Hc].
  destruct (m e) as [[a|msg|] e1]; simpl in Hc; subst e1; [|by exists c..].
  destruct (Hk a (with_context c e)) as [c' Hc']. exists c'. by rewrite Hc'.
Qed.

Lemma loopItems_context_only (exec : WorkflowStep → M WorkflowExecution JsVal)
    (wfs : gmap string WorkflowDefinition) (step : WorkflowStep) (items : list JsVal) :
  (∀ inner, context_only (exec inner)) →
  ∀ acc, context_only (loopItems exec wfs step items acc).
Proof.
  intros Hexec. induction items as [|item items IH]; intros acc; simpl.
  - apply context_only_ret.
  - apply context_only_bind; [apply context_only_set|]. intros _.
    apply context_only_bind; [apply context_only_gets|]. intros wid.
    destruct (match wfs !! wid with Some _ => _ | None => _ end); [|apply IH].
    apply context_only_bind; [apply Hexec|]. intros result. apply IH.
Qed.

Lemma executeStep_context_only (depth : nat) (env : Env)
    (wfs : gmap string WorkflowDefinition) (step : WorkflowStep) :
  context_only (executeStep depth env wfs step).
Proof.
  revert step. induction depth as [|depth IH]; intros step; simpl.
  - apply context_only_diverge.
  - destruct (step_type step).
    + apply context_only_bind; [apply context_only_gets|]. intros p.
      apply context_only_pure.
    + apply context_only_bind; [apply context_only_gets|]. intros p.
      apply context_only_pure.
    + apply context_only_bind; [apply context_only_gets|]. intros c.
      apply context_only_ret.
    + apply context_only_gets.
    + unfold executeLoopStep. destruct (obj_read "items" (config step));
        try apply context_only_throw.
      apply context_only_bind; [apply context_only_gets|]. intros items.
      destruct (iterate items) as [visited|]; [|apply context_only_throw].
      apply context_only_bind; [by apply loopItems_context_only|]. intros collected.
      apply context_only_ret.
    + apply context_only_throw.
Qed.

(** *** Cancellation *)

Lemma beginStep_not_running (l : list WorkflowStep) (cur : option string)
    (e : WorkflowExecution) :
  status e ≠ running → beginStep l cur e = None.
Proof.
  intros He. unfold beginStep. destruct (present cur); [|done].
  by rewrite bool_decide_eq_false_2.
Qed.

Lemma stepLoop_not_running (fuel depth : nat) (env : Env)
    (wfs : gmap string WorkflowDefinition) (l : list WorkflowStep)
    (cur : option string) (e : WorkflowExecution) :
  status e ≠ running → stepLoop (S fuel) depth env wfs l cur e = (Returns tt, e).
Proof. intros He. simpl. by rewrite beginStep_not_running. Qed.

Lemma afterStep_failed (env : Env) (step : WorkflowStep) (outcome : Run JsVal)
    (e : WorkflowExecution) :
  status e = failed → status (snd (afterStep env step outcome e)) = failed.
Proof.
  intros He. destruct outcome as [result|msg|]; simpl; [| |done].
  - unfold bind, modify, gets. simpl. destruct (next step) as [|i|ids]; simpl; [done| |done].
    by destruct (String.eqb i "").
  - unfold bind, modify. simpl. destruct (next step) as [|i|ids]; simpl; [done| |done].
    by destruct (String.eqb i "").
Qed.

(** C8. [cancelExecution(id)] returns true exactly when the map holds under
    [id] an execution that is running. It then marks that execution failed,
    appends the cancellation message to its errors, sets its end time and
    takes it out of the running set, and writes nothing else; the step loop
    begins no further step of it, neither at once nor after the step in
    flight, which may have written to the context, has ended. For a missing execution and for an execution in
    another status it returns false and changes nothing. *)
Theorem cancelExecution_spec (i : string) (now : Z) (s : WorkflowPlannerAgent) :
  let r := cancelExecution i now s in
  match executions_get i s with
  | Some e =>
      if bool_decide (status e = running)
      then fst r = Returns true
           ∧ executions_get i (snd r) = Some (cancelled now e)
           ∧ status (cancelled now e) = failed
           ∧ errors (cancelled now e) = errors e ++ ["Cancelled by user"]
           ∧ endTime (cancelled now e) = Some now
           ∧ results (cancelled now e) = results e
           ∧ context (cancelled now e) = context e
           ∧ (i ∉ runningExecutions (snd r))
           ∧ (∀ j, j ≠ i → objects (snd r) !! j = objects s !! j)
           ∧ (∀ l cur, beginStep l cur (cancelled now e) = None)
           ∧ (∀ fuel depth env wfs l cur,
                stepLoop (S fuel) depth env wfs l cur (cancelled now e)
                = (Returns tt, cancelled now e))
           ∧ (∀ c env step outcome l cur,
                beginStep l cur
                  (snd (afterStep env step outcome (with_context c (cancelled now e))))
                = None)
      else fst r = Returns false ∧ snd r = s
  | None => fst r = Returns false ∧ snd r = s
  end.
Proof.
  unfold cancelExecution, bind, gets. simpl.
  destruct (executions_get i s) as [e|] eqn:Hget; [|done].
  case_bool_decide as Hrun; [|done].
  unfold executions_get in Hget. case_bool_decide as Hin; [|done].
  unfold on_execution, modify, say, effect, modify, with_objects, with_running, ret.
  simpl. rewrite Hget. simpl.
  repeat (progress (rewrite ?lookup_insert_eq; simpl)).
  split; [done|]. split.
  { unfold executions_get. simpl. rewrite bool_decide_eq_true_2 by done.
    by rewrite lookup_insert_eq. }
  split; [done|]. split; [done|]. split; [done|]. split; [done|]. split; [done|].
  split.
  { intros [_ Hn]%elem_of_difference. apply Hn. by apply elem_of_singleton. }
  split.
  { intros j Hj. by rewrite !lookup_insert_ne. }
  split; [|split].
  - intros l cur. by apply beginStep_not_running.
  - intros. by apply stepLoop_not_running.
  - intros. apply beginStep_not_running.
    by rewrite afterStep_failed.
Qed.

(** *** Branching *)

(** With an expression in the field [condition] of the step, the branch
    depends on it: the first id when it is truthy, the second when not. It
    is evaluated once the result of the step is recorded. *)
Lemma branch_on_condition_field (env : Env) (step : WorkflowStep) (source : string)
    (ids : list string) (result : JsVal) (e : WorkflowExecution) :
  next step = next_pair ids → condition step = Some source → source ≠ "" →
  fst (afterStep env step (Returns result) e)
  = Returns (Continue
               (if truthy (evaluateCondition env source
                             (set_result (step_id step) result e))
                then ids !! 0 else ids !! 1)).
Proof.
  intros Hnext Hcond Hsrc. simpl. unfold bind, modify, gets. simpl.
  rewrite Hnext, Hcond. simpl. by destruct (String.eqb_spec source "").
Qed.

(** C1 (what the code does instead). A condition step keeps its expression
    in [config.condition]: running the step evaluates it and records the
    value. Choosing the branch evaluates the field [condition] of the step,
    and ["true"] when that field is absent; so for a step that has its
    expression in the configuration only, the first id of the pair is
    followed whatever the expression evaluates to. *)
Theorem stored_condition_not_consulted (env : Env) (wfs : gmap string WorkflowDefinition)
    (step : WorkflowStep) (source : string) (ids : list string) (depth : nat) :
  step_type step = condition_step →
  obj_get "condition" (config step) = Some (VStr source) →
  condition step = None →
  next step = next_pair ids →
  (∀ c r, jsEval env "true" c r = Some (VBool true)) →
  (∀ e, executeStep (S depth) env wfs step e
        = (Returns (evaluateCondition env source e), e))
  ∧ (∀ result e, fst (afterStep env step (Returns result) e)
                 = Returns (Continue (ids !! 0))).
Proof.
  intros Hty Hcfg Hcond Hnext Htrue. split.
  - intros e. simpl. rewrite Hty. unfold gets, obj_read. by rewrite Hcfg.
  - intros result e. simpl. unfold bind, modify, gets. simpl.
    rewrite Hnext, Hcond. simpl. unfold evaluateCondition. by rewrite Htrue.
Qed.

(** *** Failing forward *)

Section Rounds.
Variables (fuel depth : nat) (env : Env) (wfs : gmap string WorkflowDefinition).
Variables (l : list WorkflowStep) (step : WorkflowStep) (e : WorkflowExecution).
Hypothesis Hid : step_id step ≠ "".
Hypothesis Hrunning : status e = running.
Hypothesis Hstep : stepMap_get l (step_id step) = Some step.

Lemma beginStep_running :
  beginStep l (Some (step_id step)) e = Some (step, set_currentStep (step_id step) e).
Proof.
  unfold beginStep. simpl. destruct (String.eqb_spec (step_id step) ""); [done|].
  rewrite bool_decide_eq_true_2 by done. by rewrite Hstep.
Qed.

(** A step that succeeds and has one successor hands over to it. *)
Lemma round_success (j : string) :
  succeeds depth env wfs step → next step = next_id j → j ≠ "" →
  ∃ v c, stepLoop (S fuel) depth env wfs l (Some (step_id step)) e
         = stepLoop fuel depth env wfs l (Some j)
             (set_result (step_id step) v
                (with_context c (set_currentStep (step_id step) e))).
Proof.
  intros Hok Hnext Hj. simpl. rewrite beginStep_running.
  destruct (Hok (set_currentStep (step_id step) e)) as [v Hv].
  destruct (executeStep_context_only depth env wfs step
              (set_currentStep (step_id step) e)) as [c Hc].
  destruct (executeStep depth env wfs step _) as [r e2]. simpl in Hv, Hc. subst r e2.
  exists v, c. unfold bind, modify. simpl. rewrite Hnext.
  by destruct (String.eqb_spec j "").
Qed.

(** The rounds of a run at hand: the step ends the way it does on the
    execution that the loop gives it. *)
Lemma step_run_frame (outcome : Run JsVal) (e' : WorkflowExecution) :
  step_run depth env wfs step e outcome e' →
  status e' = running ∧ results e' = results e ∧ errors e' = errors e.
Proof.
  unfold step_run. intros Hrun.
  destruct (executeStep_context_only depth env wfs step
              (set_currentStep (step_id step) e)) as [c Hc].
  rewrite Hrun in Hc. simpl in Hc. by subst e'.
Qed.

Lemma round_returns (j : string) (v : JsVal) (e' : WorkflowExecution) :
  step_run depth env wfs step e (Returns v) e' → next step = next_id j → j ≠ "" →
  stepLoop (S fuel) depth env wfs l (Some (step_id step)) e
  = stepLoop fuel depth env wfs l (Some j) (set_result (step_id step) v e').
Proof.
  unfold step_run. intros Hrun Hnext Hj. simpl. rewrite beginStep_running, Hrun.
  unfold bind, modify. simpl. rewrite Hnext. by destruct (String.eqb_spec j "").
Qed.

Lemma round_throws (j message : string) (e' : WorkflowExecution) :
  step_run depth env wfs step e (Throws message) e' → next step = next_id j → j ≠ "" →
  stepLoop (S fuel) depth env wfs l (Some (step_id step)) e
  = stepLoop fuel depth env wfs l (Some j)
      (push_error ("Step " +:+ step_name step +:+ ": " +:+ message) e').
Proof.
  unfold step_run. intros Hrun Hnext Hj. simpl. rewrite beginStep_running, Hrun.
  unfold bind, modify. simpl. rewrite Hnext. by destruct (String.eqb_spec j "").
Qed.

Lemma round_ends (v : JsVal) (e' : WorkflowExecution) :
  step_run depth env wfs step e (Returns v) e' → next step = next_absent →
  stepLoop (S fuel) depth env wfs l (Some (step_id step)) e
  = (Returns tt, set_result (step_id step) v e').
Proof.
  unfold step_run. intros Hrun Hnext. simpl. rewrite beginStep_running, Hrun.
  unfold bind, modify. simpl. by rewrite Hnext.
Qed.

End Rounds.

Section FailForward.
Variables (depth : nat) (env : Env) (wfs : gmap string WorkflowDefinition).
Variables A B C : WorkflowStep.
Hypothesis HA : step_id A ≠ "".
Hypothesis HB : step_id B ≠ "".
Hypothesis HC : step_id C ≠ "".
Hypothesis HAB : step_id A ≠ step_id B.
Hypothesis HAC : step_id A ≠ step_id C.
Hypothesis HBC : step_id B ≠ step_id C.
Hypothesis nextA : next A = next_id (step_id B).
Hypothesis nextB : next B = next_id (step_id C).
Hypothesis nextC : next C = next_absent.

Lemma stepMap_three :
  stepMap_get [A; B; C] (step_id A) = Some A
  ∧ stepMap_get [A; B; C] (step_id B) = Some B
  ∧ stepMap_get [A; B; C] (step_id C) = Some C.
Proof.
  unfold stepMap_get. simpl.
  rewrite !String.eqb_refl.
  rewrite (proj2 (String.eqb_neq (step_id C) (step_id A))) by done.
  rewrite (proj2 (String.eqb_neq (step_id B) (step_id A))) by done.
  rewrite (proj2 (String.eqb_neq (step_id C) (step_id B))) by done.
  done.
Qed.

Lemma stepLoop_three (fuel : nat) (e eA eB eC : WorkflowExecution) (vA vC : JsVal)
    (message : string) :
  status e = running →
  step_run depth env wfs A e (Returns vA) eA →
  step_run depth env wfs B (set_result (step_id A) vA eA) (Throws message) eB →
  step_run depth env wfs C
    (push_error ("Step " +:+ step_name B +:+ ": " +:+ message) eB) (Returns vC) eC →
  stepLoop (S (S (S fuel))) depth env wfs [A; B; C] (Some (step_id A)) e
  = (Returns tt, set_result (step_id C) vC eC)
  ∧ status eC = running
  ∧ results eC = obj_set (step_id A) vA (results e)
  ∧ errors eC = errors e ++ ["Step " +:+ step_name B +:+ ": " +:+ message].
Proof.
  intros Hrun rA rB rC.
  destruct stepMap_three as (HmA & HmB & HmC).
  destruct (step_run_frame depth env wfs A e Hrun _ _ rA) as (HsA & HrA & HeA).
  destruct (step_run_frame depth env wfs B (set_result (step_id A) vA eA) HsA _ _ rB)
    as (HsB & HrB & HeB).
  destruct (step_run_frame depth env wfs C
              (push_error ("Step " +:+ step_name B +:+ ": " +:+ message) eB) HsB _ _ rC)
    as (HsC & HrC & HeC).
  rewrite (round_returns (S (S fuel)) depth env wfs [A; B; C] A e HA Hrun HmA
             (step_id B) vA eA rA nextA HB).
  rewrite (round_throws (S fuel) depth env wfs [A; B; C] B
             (set_result (step_id A) vA eA) HB HsA HmB
             (step_id C) message eB rB nextB HC).
  rewrite (round_ends fuel depth env wfs [A; B; C] C
             (push_error ("Step " +:+ step_name B +:+ ": " +:+ message) eB)
             HC HsB HmC vC eC rC nextC).
  split; [done|]. split; [done|]. simpl in *.
  rewrite HrC, HrB, HeC, HeB. by rewrite HrA, HeA.
Qed.

End FailForward.

(** The keys of an object to which two keys were written. *)
Lemma obj_set_two (a c k : string) (va vc : JsVal) :
  a ≠ c →
  is_Some (obj_get k (obj_set c vc (obj_set a va []))) ↔ k = a ∨ k = c.
Proof.
  intros Hac. simpl. rewrite (proj2 (String.eqb_neq a c)) by done. simpl.
  destruct (String.eqb_spec a k) as [->|Ha].
  - split; [by left | by eexists].
  - destruct (String.eqb_spec c k) as [->|Hc].
    + split; [by right | by eexists].
    + split; [by intros [? ?] | by intros [->| ->]].
Qed.

(** *** A run from launch to end *)

Lemma executeWorkflow_starts (uuid : string) (now : Z) (w : WorkflowDefinition)
    (wid : string) (ctx : JsObj) (s : WorkflowPlannerAgent) :
  workflows s !! wid = Some w → attached w = true → enabled w = true →
  ∃ s1, executeWorkflow uuid now wid ctx s
        = (Returns (w, newExecution uuid now w wid ctx), s1)
        ∧ objects s1 !! uuid = Some (newExecution uuid now w wid ctx)
        ∧ workflows s1 = workflows s.
Proof.
  intros Hw Hatt Hen. unfold executeWorkflow, bind, gets. rewrite Hw, Hatt, Hen.
  simpl. eexists. split; [done|]. simpl. by rewrite lookup_insert_eq.
Qed.

Lemma runWorkflow_completes (fuel depth : nat) (env : Env) (later : Z)
    (w : WorkflowDefinition) (i : string) (s : WorkflowPlannerAgent)
    (e0 ef : WorkflowExecution) :
  objects s !! i = Some e0 →
  stepLoop fuel depth env (workflows s) (steps w) (step_id <$> head (steps w)) e0
    = (Returns tt, ef) →
  status ef = running →
  ∃ s', runWorkflow fuel depth env later w i s = (Returns tt, s')
        ∧ objects s' !! i = Some (set_endTime later (set_status completed ef)).
Proof.
  intros Hobj Hloop Hrun. unfold runWorkflow.
  unfold bind at 1. unfold gets at 1.
  unfold bind at 1. unfold on_execution at 1. rewrite Hobj, Hloop.
  unfold bind, on_execution, gets, modify, effect, say, modify, with_objects,
    with_running, ret.
  simpl. repeat (progress (rewrite ?lookup_insert_eq; simpl)). rewrite Hrun.
  simpl. repeat (progress (rewrite ?lookup_insert_eq; simpl)).
  eexists. split; [done|]. simpl. by rewrite lookup_insert_eq.
Qed.

(** C5. A workflow of three steps A, B, C, with distinct ids that are not
    empty, A leading to B, B to C and C nowhere, A and C not bearing the id
    [__proto__], which names no property of the results. In a run in which
    A returns, B then throws on the execution that A left, and C then
    returns on the execution that B left, the run ends with status
    completed, with one error, which is that of B, and with results under
    the ids of A and of C and under no other key, so under that of B
    neither. *)
Theorem step_failure_fails_forward (fuel depth : nat) (env : Env)
    (s : WorkflowPlannerAgent) (w : WorkflowDefinition) (A B C : WorkflowStep)
    (uuid : string) (now later : Z) (ctx : JsObj)
    (vA vC : JsVal) (message : string) (eA eB eC : WorkflowExecution) :
  workflows s !! wf_id w = Some w → attached w = true → enabled w = true →
  steps w = [A; B; C] →
  step_id A ≠ "" → step_id B ≠ "" → step_id C ≠ "" →
  step_id A ≠ step_id B → step_id A ≠ step_id C → step_id B ≠ step_id C →
  step_id A ≠ "__proto__" → step_id C ≠ "__proto__" →
  next A = next_id (step_id B) → next B = next_id (step_id C) → next C = next_absent →
  step_run depth env (workflows s) A (newExecution uuid now w (wf_id w) ctx)
    (Returns vA) eA →
  step_run depth env (workflows s) B (set_result (step_id A) vA eA) (Throws message) eB →
  step_run depth env (workflows s) C
    (push_error ("Step " +:+ step_name B +:+ ": " +:+ message) eB) (Returns vC) eC →
  3 ≤ fuel →
  fst (executeWorkflow_run fuel depth env uuid now later (wf_id w) ctx s) = Returns tt
  ∧ ∃ e,
      execution_after (executeWorkflow_run fuel depth env uuid now later (wf_id w) ctx)
        uuid s = Some e
      ∧ status e = completed
      ∧ errors e = ["Step " +:+ step_name B +:+ ": " +:+ message]
      ∧ (∀ k, is_Some (obj_get k (results e)) ↔ k = step_id A ∨ k = step_id C)
      ∧ obj_get (step_id B) (results e) = None.
Proof.
  intros Hw Hatt Hen Hsteps HA HB HC HAB HAC HBC _ _ nA nB nC rA rB rC Hfuel.
  destruct fuel as [|[|[|fuel]]]; [lia..|].
  destruct (executeWorkflow_starts uuid now w (wf_id w) ctx s Hw Hatt Hen)
    as (s1 & Hstart & Hobj & Hwfs).
  destruct (stepLoop_three depth env (workflows s) A B C HA HB HC HAB HAC HBC
              nA nB nC fuel (newExecution uuid now w (wf_id w) ctx) eA eB eC vA vC message)
    as (Hloop & Hrun & Hres & Herr); [done..|].
  destruct (runWorkflow_completes (S (S (S fuel))) depth env later w uuid s1
              (newExecution uuid now w (wf_id w) ctx) (set_result (step_id C) vC eC) Hobj)
    as (s2 & Hdone & Hfinal); [|done|].
  { rewrite Hwfs, Hsteps. exact Hloop. }
  assert (Hall : executeWorkflow_run (S (S (S fuel))) depth env uuid now later
                   (wf_id w) ctx s = (Returns tt, s2)).
  { unfold executeWorkflow_run. unfold bind at 1.
    rewrite Hstart. unfold try_catch. by rewrite Hdone. }
  unfold execution_after. rewrite Hall. simpl.
  split; [done|]. eexists. split; [exact Hfinal|].
  split; [done|]. split; [done|].
  assert (Hkeys : ∀ k, is_Some (obj_get k (results (set_endTime later
                                  (set_status completed (set_result (step_id C) vC eC)))))
                       ↔ k = step_id A ∨ k = step_id C).
  { intros k. cbn [results set_endTime set_status set_result]. rewrite Hres.
    by apply obj_set_two. }
  split; [exact Hkeys|].
  destruct (obj_get (step_id B) _) eqn:E; [|done].
  destruct (proj1 (Hkeys (step_id B))) as [?|?]; [by rewrite E | congruence..].
Qed.

Lemma step_failure_fails_forward_witness :
  fst (executeWorkflow_run 3 1 toolless "x1" 0 9 (wf_id abc) [] abcPlanner) = Returns tt
  ∧ ∃ e,
      execution_after (executeWorkflow_run 3 1 toolless "x1" 0 9 (wf_id abc) [])
        "x1" abcPlanner = Some e
      ∧ status e = completed
      ∧ errors e = ["Step " +:+ "Second" +:+ ": " +:+ Agent.timeout_message "ToolsManagerAgent"]
      ∧ (∀ k, is_Some (obj_get k (results e)) ↔ k = "A" ∨ k = "C")
      ∧ obj_get "B" (results e) = None.
Proof.
  apply (step_failure_fails_forward 3 1 toolless abcPlanner abc
           (mkStep "A" "First" agent_step [("task", VStr "a")] (next_id "B"))
           (mkStep "B" "Second" tool_step [("toolId", VStr "b")] (next_id "C"))
           (mkStep "C" "Third" function_step [("functionId", VStr "c")] next_absent)
           "x1" 0 9 []
           (VObj [("task", VStr "a"); ("context", VObj [])])
           (VObj [("success", VBool true)])
           (Agent.timeout_message "ToolsManagerAgent")
           (set_currentStep "A" (newExecution "x1" 0 abc "abc" []))
           (set_currentStep "B"
              (set_result "A" (VObj [("task", VStr "a"); ("context", VObj [])])
                 (set_currentStep "A" (newExecution "x1" 0 abc "abc" []))))
           (set_currentStep "C"
              (push_error ("Step " +:+ "Second" +:+ ": "
                           +:+ Agent.timeout_message "ToolsManagerAgent")
                 (set_currentStep "B"
                    (set_result "A" (VObj [("task", VStr "a"); ("context", VObj [])])
                       (set_currentStep "A" (newExecution "x1" 0 abc "abc" []))))))); try done.
Defined.

(** The run of "git-operations" on a context whose [status] is the empty
    string, every request being answered: the condition step records
    [false], and the run goes on with "diff", the first id of the pair. *)
Example gitOperations_clean_tree :
  ∃ e, execution_after
         (executeWorkflow_run 10 3 obliging "x1" 0 9 "git-operations" [("status", VStr "")])
         "x1" planner = Some e
       ∧ obj_get "check" (results e) = Some (VBool false)
       ∧ map fst (results e) = ["status"; "check"; "diff"; "done"]
       ∧ status e = completed.
Proof. eexists. split; [by vm_compute|]. by vm_compute. Qed.

Lemma stored_condition_not_consulted_witness :
  (∀ e, executeStep 1 obliging (workflows planner)
          (mkStep "check" "Check for Changes" condition_step
             [("condition", VStr "context.status.length > 0")] (next_pair ["diff"; "done"])) e
        = (Returns (evaluateCondition obliging "context.status.length > 0" e), e))
  ∧ (∀ result e,
       fst (afterStep obliging
              (mkStep "check" "Check for Changes" condition_step
                 [("condition", VStr "context.status.length > 0")]
                 (next_pair ["diff"; "done"]))
              (Returns result) e)
       = Returns (Continue (Some "diff"))).
Proof.
  apply (stored_condition_not_consulted obliging (workflows planner)
           (mkStep "check" "Check for Changes" condition_step
              [("condition", VStr "context.status.length > 0")] (next_pair ["diff"; "done"]))
           "context.status.length > 0" ["diff"; "done"] 0); done.
Defined.

(** A paused execution is not cancelled. *)
Example cancel_paused :
  let s1 := snd (executeWorkflow "x1" 0 "git-operations" [] planner) in
  let s2 := snd (pauseExecution "x1" s1) in
  status <$> executions_get "x1" s2 = Some paused
  ∧ fst (cancelExecution "x1" 5 s2) = Returns false
  ∧ status <$> executions_get "x1" (snd (cancelExecution "x1" 5 s2)) = Some paused.
Proof. by vm_compute. Qed.

End WorkflowProofs.

Module BusProofs.
Import Bus.

(** *** Bounded histories *)

(** Keeping the last [n] entries and then appending is, as far as the last
    [n] entries go, appending. *)
Lemma drop_excess_app {A} (n : nat) (l r : list A) :
  drop (length (drop (length l - n) l ++ r) - n) (drop (length l - n) l ++ r)
  = drop (length (l ++ r) - n) (l ++ r).
Proof.
  rewrite !length_app, length_drop.
  destruct (decide (length l ≤ n)) as [Hle|Hgt].
  - replace (length l - n) with 0 by lia. simpl.
    by replace (length l - 0 + length r - n) with (length l + length r - n) by lia.
  - replace (length l - (length l - n) + length r - n) with (length r) by lia.
    replace (length l + length r - n) with ((length l - n) + length r) by lia.
    rewrite <- drop_drop. f_equal. rewrite drop_app_le by lia. done.
Qed.

Lemma slice_last {A} (n : Z) (l : list A) :
  (0 < n)%Z → slice (- n) l = drop (length l - Z.to_nat n) l.
Proof.
  intros Hn. unfold slice. rewrite (proj2 (Z.ltb_lt _ _)) by lia. f_equal. lia.
Qed.

Lemma slice_first {A} (n : Z) (l : list A) :
  (n < 0)%Z → slice (- n) l = drop (Z.to_nat (- n)) l.
Proof.
  intros Hn. unfold slice. rewrite (proj2 (Z.ltb_ge _ _)) by lia.
  destruct (decide (- n <= Z.of_nat (length l))%Z) as [Hle|Hgt].
  - by rewrite Z.min_l by lia.
  - rewrite Z.min_r by lia. rewrite Nat2Z.id.
    rewrite !drop_ge; [done | lia | lia].
Qed.

Section History.
Context {Event : Type} (type_of : Event → string) (listeners : string → Event → Run unit).

(** The history is written before any listener runs. *)
Lemma emitEvent_history (e : Event) (b : EventBus Event) :
  eventHistory (snd (emitEvent type_of listeners e b))
  = (if bool_decide (maxHistorySize < length (eventHistory b ++ [e]))
     then shift (eventHistory b ++ [e]) else eventHistory b ++ [e]).
Proof.
  unfold emitEvent, emit, bind, modify, gets, ret, with_history. simpl.
  case_bool_decide; simpl;
    destruct (listeners (type_of e) e); simpl; try done;
    destruct (listeners "*" e); done.
Qed.

(** X1. Whatever the listeners do, the history of a bus that held at most
    1000 events holds the events that were emitted, in the order of
    emission, the most recent 1000 of them: the older ones are dropped from
    the front, one for each event emitted beyond the bound. *)
Theorem eventHistory_most_recent (es : list Event) (b : EventBus Event) :
  length (eventHistory b) ≤ maxHistorySize →
  eventHistory (emitAll type_of listeners es b)
  = drop (length (eventHistory b ++ es) - maxHistorySize) (eventHistory b ++ es)
  ∧ length (eventHistory (emitAll type_of listeners es b)) ≤ maxHistorySize.
Proof.
  revert b. induction es as [|e es IH]; intros b Hlen.
  - simpl. rewrite app_nil_r. replace (length (eventHistory b) - maxHistorySize) with 0 by lia.
    by rewrite drop_0.
  - change (emitAll type_of listeners (e :: es) b)
      with (emitAll type_of listeners es (snd (emitEvent type_of listeners e b))).
    set (b1 := snd (emitEvent type_of listeners e b)).
    assert (H1 : eventHistory b1
                 = drop (length (eventHistory b ++ [e]) - maxHistorySize)
                     (eventHistory b ++ [e])).
    { subst b1. rewrite emitEvent_history. rewrite length_app. simpl.
      case_bool_decide as Hfull.
      - unfold shift. f_equal. lia.
      - replace (length (eventHistory b) + 1 - maxHistorySize) with 0 by lia. done. }
    assert (Hlen1 : length (eventHistory b1) ≤ maxHistorySize).
    { rewrite H1, length_drop, length_app. simpl. lia. }
    destruct (IH b1 Hlen1) as [IH1 IH2]. split; [|done].
    rewrite IH1, H1. rewrite drop_excess_app.
    by rewrite <- app_assoc.
Qed.

(** X2. [getHistory] without a limit returns the whole history, and so does
    it with the limit 0; with a limit above 0 it returns the last [limit]
    events, all of them when there are fewer; with a limit below 0 it
    returns the history without its first [-limit] events. *)
Theorem getHistory_limit (limit : Z) (b : EventBus Event) :
  getHistory None b = eventHistory b
  ∧ getHistory (Some 0%Z) b = eventHistory b
  ∧ ((0 < limit)%Z →
       getHistory (Some limit) b
       = drop (length (eventHistory b) - Z.to_nat limit) (eventHistory b)
       ∧ length (getHistory (Some limit) b)
         = Z.to_nat limit `min` length (eventHistory b))
  ∧ ((limit < 0)%Z →
       getHistory (Some limit) b = drop (Z.to_nat (- limit)) (eventHistory b)).
Proof.
  split; [done|]. split; [done|]. split.
  - intros Hpos. unfold getHistory.
    rewrite (proj2 (Z.eqb_neq _ _)) by lia. rewrite slice_last by done.
    split; [done|]. rewrite length_drop. lia.
  - intros Hneg. unfold getHistory.
    rewrite (proj2 (Z.eqb_neq _ _)) by lia. by rewrite slice_first.
Qed.

End History.

(** Three events on a bus whose listeners throw. *)
Lemma eventHistory_most_recent_witness :
  eventHistory (emitAll (λ _ : nat, "tick") (λ _ _, Throws "deaf") [1; 2; 3]
                  {| eventHistory := []; wire := [] |})
  = [1; 2; 3].
Proof.
  apply (eventHistory_most_recent (λ _ : nat, "tick") (λ _ _, Throws "deaf") [1; 2; 3]
           {| eventHistory := []; wire := [] |}).
  unfold maxHistorySize. simpl. lia.
Defined.

End BusProofs.

Module LoggerProofs.
Import Js Agent Logger.

Lemma shouldLog_severity (l : LogLevel) (g : Logger) :
  shouldLog l g = true ↔ severity (logLevel g) ≤ severity l.
Proof.
  unfold shouldLog. destruct (logLevel g), l; vm_compute; split; intros; try done; lia.
Qed.

Lemma log_logs (c : Call) (g : Logger) :
  logs (snd (log c g))
  = (if bool_decide (severity (logLevel g) ≤ severity (call_level c))
     then let l := logs g ++ [entry_of (traceId g) c] in
          if bool_decide (maxLogs < length l) then Bus.shift l else l
     else logs g)
  ∧ logLevel (snd (log c g)) = logLevel g
  ∧ traceId (snd (log c g)) = traceId g.
Proof.
  unfold log, bind, gets, modify, ret. simpl.
  case_bool_decide as Hsev.
  - apply shouldLog_severity in Hsev. rewrite Hsev. simpl.
    case_bool_decide; done.
  - destruct (shouldLog (call_level c) g) eqn:E.
    + by apply shouldLog_severity in E.
    + done.
Qed.

(** X3. On a log of at most 10000 entries, a call below the level of the
    logger leaves the log as it is; the others are appended in the order of
    the calls, and the log holds the most recent 10000 entries. [fatal] is
    logged at every level. *)
Theorem log_keeps_severe (cs : list Call) (g : Logger) :
  length (logs g) ≤ maxLogs →
  let kept :=
    logs g ++ map (entry_of (traceId g))
                (filter (λ c, severity (logLevel g) ≤ severity (call_level c)) cs) in
  logs (logAll cs g) = drop (length kept - maxLogs) kept
  ∧ length (logs (logAll cs g)) ≤ maxLogs
  ∧ ∀ c, call_level c = fatal → shouldLog (call_level c) g = true.
Proof.
  intros Hlen kept. split; [|split].
  3: { intros c Hc. apply shouldLog_severity. rewrite Hc. destruct (logLevel g); simpl; lia. }
  all: subst kept; revert g Hlen; induction cs as [|c cs IH]; intros g Hlen.
  - simpl. rewrite app_nil_r. replace (length (logs g) - maxLogs) with 0 by lia.
    by rewrite drop_0.
  - change (logAll (c :: cs) g) with (logAll cs (snd (log c g))).
    destruct (log_logs c g) as (Hl & Hlev & Htr).
    set (g1 := snd (log c g)) in *.
    rewrite filter_cons. destruct (decide (severity (logLevel g) ≤ severity (call_level c)))
      as [Hsev|Hsev].
    + rewrite bool_decide_eq_true_2 in Hl by done. simpl in Hl.
      assert (H1 : logs g1 = drop (length (logs g ++ [entry_of (traceId g) c]) - maxLogs)
                               (logs g ++ [entry_of (traceId g) c])).
      { rewrite Hl. case_bool_decide as Hfull; rewrite length_app in *; simpl in *.
        - unfold Bus.shift. f_equal. lia.
        - replace (length (logs g) + 1 - maxLogs) with 0 by lia. done. }
      assert (Hlen1 : length (logs g1) ≤ maxLogs).
      { rewrite H1, length_drop, length_app. simpl. lia. }
      rewrite (IH g1 Hlen1). rewrite Hlev, Htr, H1.
      rewrite BusProofs.drop_excess_app. by rewrite <- app_assoc.
    + rewrite bool_decide_eq_false_2 in Hl by done.
      assert (Hlen1 : length (logs g1) ≤ maxLogs) by (rewrite Hl; done).
      rewrite (IH g1 Hlen1). by rewrite Hlev, Htr, Hl.
  - simpl. done.
  - change (logAll (c :: cs) g) with (logAll cs (snd (log c g))).
    destruct (log_logs c g) as (Hl & Hlev & Htr).
    apply IH. rewrite Hl. case_bool_decide; [|done]. simpl.
    case_bool_decide as Hfull.
    + unfold Bus.shift. rewrite length_drop. rewrite length_app in *. simpl in *. lia.
    + lia.
Qed.

Lemma log_keeps_severe_witness :
  logs (logAll [mkCall debug "a"; mkCall error_level "b"] blank)
  = [entry_of None (mkCall error_level "b")].
Proof.
  apply (log_keeps_severe [mkCall debug "a"; mkCall error_level "b"] blank).
  simpl. lia.
Defined.

Lemma slice_sublist {A} (k : Z) (l : list A) : sublist (Bus.slice k l) l.
Proof. unfold Bus.slice. apply sublist_drop. Qed.

Lemma limit_sublist (limit : option Z) (l : list LogEntry) :
  sublist (match limit with
           | Some n => if (n =? 0)%Z then l else Bus.slice (- n) l
           | None => l
           end) l.
Proof.
  destruct limit as [n|]; [|done]. destruct (n =? 0)%Z; [done | apply slice_sublist].
Qed.

(** X4. [getLogs] returns entries of the log in the order of the log, each
    one of the level and of the source asked for, a source that is the empty
    string asking for nothing; with a limit above 0 at most that many, and
    with the limit 0 or without limit every entry that is asked for. *)
Theorem getLogs_selection (options : Options) (g : Logger) :
  sublist (getLogs options g) (logs g)
  ∧ (∀ e, e ∈ getLogs options g → asked options e)
  ∧ (∀ n, opt_limit options = Some n → (0 < n)%Z →
          length (getLogs options g) ≤ Z.to_nat n)
  ∧ (opt_limit options = None ∨ opt_limit options = Some 0%Z →
     ∀ e, e ∈ logs g → asked options e → e ∈ getLogs options g).
Proof.
  unfold getLogs, asked.
  set (byLevel := match opt_level options with
                  | Some l => filter (λ e, level e = l) (logs g)
                  | None => logs g
                  end).
  set (bySource := match present (opt_source options) with
                   | Some s => filter (λ e, source e = s) byLevel
                   | None => byLevel
                   end).
  assert (Hlevel : ∀ e, e ∈ byLevel ↔
                        e ∈ logs g ∧ ∀ l, opt_level options = Some l → level e = l).
  { intros e. subst byLevel. destruct (opt_level options) as [l|].
    - rewrite list_elem_of_filter. split.
      + intros [E Hin]. split; [done|]. by intros ? [= <-].
      + intros [Hin E]. split; [by apply E | done].
    - split; [by intros ? | by intros [? _]]. }
  assert (Hsource : ∀ e, e ∈ bySource ↔
                         e ∈ byLevel ∧ ∀ s, opt_source options = Some s → s ≠ "" → source e = s).
  { intros e. subst bySource. unfold present.
    destruct (opt_source options) as [s|]; [destruct (String.eqb_spec s "") as [->|Hs]|].
    - split; [|by intros [? _]]. intros Hin. split; [done|]. by intros ? [= <-].
    - rewrite list_elem_of_filter. split.
      + intros [E Hin]. split; [done|]. by intros ? [= <-].
      + intros [Hin E]. split; [by apply E | done].
    - split; [by intros ? | by intros [? _]]. }
  assert (Hsub : sublist bySource (logs g)).
  { transitivity byLevel.
    - subst bySource. destruct (present (opt_source options)); [apply sublist_filter | done].
    - subst byLevel. destruct (opt_level options); [apply sublist_filter | done]. }
  split; [|split; [|split]].
  - transitivity bySource; [apply limit_sublist | done].
  - intros e Hin.
    assert (Hin' : e ∈ bySource).
    { eapply elem_of_sublist; [exact Hin | apply limit_sublist]. }
    apply Hsource in Hin' as [Hin' Hs]. apply Hlevel in Hin' as [_ Hl]. done.
  - intros n -> Hn. rewrite (proj2 (Z.eqb_neq _ _)) by lia.
    rewrite BusProofs.slice_last by done. rewrite length_drop. lia.
  - intros Hlim e Hin [Hl Hs].
    assert (Hin' : e ∈ bySource) by (apply Hsource; split; [apply Hlevel|]; done).
    by destruct Hlim as [-> | ->].
Qed.

End LoggerProofs.

Module MessagingProofs.
Import Js Agent Messaging.

(** *** [start] *)

(** X5. [start()] on an agent that is running logs a warning and does
    nothing else. On any other agent it sets the status to running and the
    start time before it runs the [initialize] hook. When the hook returns,
    the started event is given to the bus, whose listeners run; when they
    return, the success is logged and the call returns. When the hook
    throws, or a listener of the started event does, the status becomes
    error, the failure is logged and the error event is given to the bus
    with the message; the listeners of that event run, and the call throws:
    the same error when they return, and theirs when one of them throws.
    The start time stays set. *)
Theorem start_lifecycle (w : AgentWorld) (initialize : Run unit) (hear : Subscribers)
    (now : Z) :
  let i := agent_id (self w) in
  let n := agent_name (self w) in
  let r := start initialize hear now w in
  let failing (message : string) (w1 : AgentWorld) :=
    let i1 := agent_id (self w1) in
    let heard :=
      hear (agent_error i1 message)
           {| self := set_status error (self w1);
              trace := trace w1
                       ++ [Log error_level (agent_name (self w1))
                             ("Failed to start agent: " +:+ message);
                           Emit (agent_error i1 message)] |} in
    match fst heard with
    | Returns _ => r = (Throws message, snd heard)
    | Throws message' => r = (Throws message', snd heard)
    | OutOfFuel => fst r = OutOfFuel
    end in
  if bool_decide (status (self w) = running)
  then r = (Returns tt,
            {| self := self w;
               trace := trace w ++ [Invoke i "start"; Log warn n "Agent is already running"] |})
  else
    let begun :=
      {| self := set_startTime now (set_status running (self w));
         trace := trace w ++ [Invoke i "start"; Log info n "Starting agent...";
                              Invoke i "initialize"] |} in
    match initialize with
    | Returns _ =>
        let heard :=
          hear (agent_started i)
               {| self := self begun; trace := trace begun ++ [Emit (agent_started i)] |} in
        match fst heard with
        | Returns _ =>
            r = (Returns tt,
                 {| self := self (snd heard);
                    trace := trace (snd heard)
                             ++ [Log info (agent_name (self (snd heard)))
                                   "Agent started successfully"] |})
        | Throws message => failing message (snd heard)
        | OutOfFuel => fst r = OutOfFuel
        end
    | Throws message => failing message begun
    | OutOfFuel => fst r = OutOfFuel
    end.
Proof.
  destruct w as [a tr]. simpl.
  unfold start, enter, log, hook, emitEvent, effect, update_self, try_catch, bind,
    gets, modify, throw. simpl.
  case_bool_decide as Hst; simpl.
  - by rewrite <- !app_assoc.
  - destruct initialize as [[]|message|]; simpl; [| |done].
    + rewrite <- !app_assoc. simpl.
      destruct (hear (agent_started _) _) as [[[]|message|] w1]; simpl; [done| |done].
      rewrite <- !app_assoc. simpl.
      destruct (hear (agent_error _ _) _) as [[[]|message'|] w2]; simpl; done.
    + rewrite <- !app_assoc. simpl.
      destruct (hear (agent_error _ _) _) as [[[]|message'|] w2]; simpl; done.
Qed.

(** *** The answer to a request *)

Lemma handler_listeners (selfId r : string) (m : AgentMessage) (w : RequestWorld)
    (l : string * Listener) :
  l ∈ listeners (handler selfId r m w) → l ∈ listeners w.
Proof.
  unfold handler. destruct (matches r (content m)); [|done]. simpl.
  unfold off. by intros [_ ?]%list_elem_of_filter.
Qed.

Lemma dispatch_listeners (selfId : string) (m : AgentMessage) (ls : list (string * Listener))
    (l : string * Listener) :
  ∀ w, l ∈ listeners (foldl (dispatch selfId m) w ls) → l ∈ listeners w.
Proof.
  induction ls as [|[ev x] ls IH]; intros w Hin; [done|].
  simpl in Hin. apply IH in Hin. destruct x as [a|r]; simpl in Hin; [done|].
  destruct (String.eqb ev (channel (msg_to m))); [|done].
  by eapply handler_listeners.
Qed.

(** A message for this agent that carries the id of a request takes the
    handler of that request off the bus, whatever the state of its promise. *)
Lemma deliver_deregisters (selfId rid : string) (m : AgentMessage) (w : RequestWorld) :
  msg_to m = selfId → matches rid (content m) = true →
  ¬ registered selfId rid (deliver selfId m w).
Proof.
  intros Hto Hm. unfold deliver, registered.
  assert (Hgen : ∀ ls w0,
            (channel selfId, RequestHandler rid) ∈ listeners w0 →
            (∀ l, l ∈ listeners w0 → l ∈ ls ∨ l ≠ (channel selfId, RequestHandler rid)) →
            (channel selfId, RequestHandler rid) ∉ listeners (foldl (dispatch selfId m) w0 ls)).
  { induction ls as [|[ev x] ls IH]; intros w0 Hin Hcov.
    - destruct (Hcov _ Hin) as [H|H]; [by apply elem_of_nil in H | done].
    - simpl.
      set (w1 := dispatch selfId m w0 (ev, x)).
      destruct (decide ((channel selfId, RequestHandler rid) ∈ listeners w1)) as [Hin1|Hout1].
      + apply IH; [done|]. intros l Hl.
        assert (Hl0 : l ∈ listeners w0).
        { subst w1. destruct x as [a|r]; simpl in Hl; [done|].
          destruct (String.eqb ev (channel (msg_to m))); [|done].
          by eapply handler_listeners. }
        destruct (Hcov l Hl0) as [[->|H]%elem_of_cons|H]; [|by left|by right].
        right. intros E. injection E as -> ->.
        subst w1. simpl in Hin1, Hl. rewrite Hto, String.eqb_refl in Hin1.
        unfold handler in Hin1. rewrite Hm in Hin1. simpl in Hin1.
        unfold off in Hin1. by apply list_elem_of_filter in Hin1 as [? _].
      + intros Hin'. apply Hout1. by eapply dispatch_listeners. }
  intros Hin.
  assert (Hin0 : (channel selfId, RequestHandler rid) ∈ listeners w).
  { by eapply dispatch_listeners. }
  revert Hin. apply Hgen; [done|]. intros l Hl. by left.
Qed.

(** The state of a request that nothing answered when its 30 seconds are
    over. *)
Lemma run_timed_out (selfId to rid : string) (body : JsVal)
    (w : RequestWorld) (hs : list Happening) (t : Z) :
  matches rid body = false →
  (∀ m, Deliver m ∈ hs → matches rid (content m) = false) →
  (clock w + 30000 ≤ t)%Z →
  outcome rid (run selfId (hs ++ [Advance t]) (sendRequest selfId to body rid w))
  = Some (Rejected (timeout_message to)).
Proof.
  intros Hbody Hno Ht.
  destruct (AgentProofs.sendRequest_posted selfId rid to body w Hbody) as (Hreg0 & _ & Hun0).
  destruct (AgentProofs.run_unanswered selfId rid to (clock w + 30000) (hs ++ [Advance t])
              (sendRequest selfId to body rid w)) as [Hreg (q & Hq & Hto & Hst)].
  - intros m [Hm|Hm]%elem_of_app; [by apply Hno|].
    by apply list_elem_of_singleton in Hm.
  - exact Hreg0.
  - exact Hun0.
  - unfold outcome. rewrite Hq. simpl.
    destruct Hst as [[Htm Hp]|[_ ->]]; [|done].
    exfalso. unfold run in Hq. rewrite foldl_app in Hq. simpl in Hq.
    unfold advance in Hq. simpl in Hq. rewrite lookup_fmap in Hq.
    destruct (requests _ !! rid) as [q0|]; [|done]. simpl in Hq.
    injection Hq as <-. unfold fire in Htm.
    destruct (timer q0) as [d0| |] eqn:E; [|by rewrite E in Htm..].
    destruct (d0 <=? t)%Z eqn:Hle; [done|]. rewrite E in Htm.
    injection Htm as ->. apply Z.leb_gt in Hle. lia.
Qed.

(** X6. The round trip of a request whose content is neither [null] nor
    [undefined] (reading the request id of such a content throws in every
    handler of a request that is on the channel of the receiver, and with
    it [sendRequest]). The agent that receives the request of
    [sendRequest] answers it through [handleMessage]: with a response
    that carries the result when its [processTask] returns, with an error
    message that carries the message of the error when it throws. Either
    message is addressed to the requester and, once delivered, settles the
    promise of the request (resolved with the result, rejected with the
    message) and takes the handler of the request off the bus. When
    [processTask] never settles, nothing is sent. *)
Theorem request_reply_round_trip (requester rid uuid : string) (body : JsVal) (now : Z)
    (processTask : JsVal → M AgentWorld JsVal) (aw : AgentWorld) (w : RequestWorld) :
  nullish body = false →
  matches rid body = false →
  let receiver := agent_id (self aw) in
  let req := request_message requester receiver body rid (clock w) in
  let w1 := sendRequest requester receiver body rid w in
  let aw1 := snd (log debug ("Received message from " +:+ requester) aw) in
  match fst (handleMessage processTask uuid now req aw) with
  | Returns (Some reply) =>
      msg_to reply = requester
      ∧ outcome rid (run requester [Deliver reply] w1)
        = settlement (fst (processTask body aw1))
      ∧ settlement (fst (processTask body aw1)) ≠ None
      ∧ ¬ registered requester rid (run requester [Deliver reply] w1)
  | Returns None => False
  | Throws _ => False
  | OutOfFuel => fst (processTask body aw1) = OutOfFuel
  end.
Proof.
  intros _ Hbody receiver req w1 aw1.
  assert (Hlog : log debug ("Received message from " +:+ msg_from req) aw
                 = (Returns tt, aw1)) by done.
  unfold handleMessage. unfold bind at 1. rewrite Hlog.
  rewrite bool_decide_eq_true_2 by done.
  unfold try_catch, bind. change (content req) with body.
  destruct (processTask body aw1) as [[v|msg|] aw2]; simpl; [| |done].
  - set (reply := sendResponse _ _ _ _ _ _).
    assert (Hto : msg_to reply = requester) by done.
    assert (Hm : matches rid (content reply) = true).
    { subst reply. simpl. unfold matches, obj_read. simpl. by rewrite String.eqb_refl. }
    destruct (AgentProofs.sendRequest_answered requester rid reply Hto Hm
                receiver body w Hbody) as [Hreg Hout].
    split; [done|]. split; [exact Hout|]. split; [done | exact Hreg].
  - set (reply := sendError _ _ _ _ _ _).
    assert (Hto : msg_to reply = requester) by done.
    assert (Hm : matches rid (content reply) = true).
    { subst reply. simpl. unfold matches, obj_read. simpl. by rewrite String.eqb_refl. }
    destruct (AgentProofs.sendRequest_answered requester rid reply Hto Hm
                receiver body w Hbody) as [Hreg Hout].
    split; [done|]. split; [exact Hout|]. split; [done | exact Hreg].
Qed.

Lemma request_reply_round_trip_witness :
  let receiver := agent_id (self (world (mkAgent "tools" "ToolsManagerAgent" running))) in
  let req := request_message "me" receiver (VStr "hi") "r1" (clock quiet) in
  let w1 := sendRequest "me" receiver (VStr "hi") "r1" quiet in
  let aw1 := snd (log debug ("Received message from " +:+ "me")
                    (world (mkAgent "tools" "ToolsManagerAgent" running))) in
  match fst (handleMessage (λ _, throw "no such tool") "u1" 7 req
               (world (mkAgent "tools" "ToolsManagerAgent" running))) with
  | Returns (Some reply) =>
      msg_to reply = "me"
      ∧ outcome "r1" (run "me" [Deliver reply] w1)
        = settlement (fst (throw (A := JsVal) "no such tool" aw1))
      ∧ settlement (fst (throw (A := JsVal) "no such tool" aw1)) ≠ None
      ∧ ¬ registered "me" "r1" (run "me" [Deliver reply] w1)
  | Returns None => False
  | Throws _ => False
  | OutOfFuel => fst (throw (A := JsVal) "no such tool" aw1) = OutOfFuel
  end.
Proof.
  apply (request_reply_round_trip "me" "r1" "u1" (VStr "hi") 7 (λ _, throw "no such tool")
           (world (mkAgent "tools" "ToolsManagerAgent" running)) quiet).
  - reflexivity.
  - reflexivity.
Defined.

(** X7. A reply that comes after the timeout. When the 30 seconds of a
    request are over without an answer and a message that carries its id is
    delivered afterwards, the promise stays rejected with the timeout
    failure, and the handler of the request, which the timeout had left on
    the bus, is taken off. *)
Theorem late_reply_deregisters (selfId to rid : string) (body : JsVal)
    (w : RequestWorld) (hs : list Happening) (t : Z) (m : AgentMessage) :
  matches rid body = false →
  (∀ m', Deliver m' ∈ hs → matches rid (content m') = false) →
  (clock w + 30000 ≤ t)%Z →
  msg_to m = selfId → matches rid (content m) = true →
  let w' := run selfId (hs ++ [Advance t; Deliver m]) (sendRequest selfId to body rid w) in
  outcome rid w' = Some (Rejected (timeout_message to))
  ∧ ¬ registered selfId rid w'.
Proof.
  intros Hbody Hno Ht Hto Hm. simpl.
  replace (hs ++ [Advance t; Deliver m]) with ((hs ++ [Advance t]) ++ [Deliver m])
    by (by rewrite <- app_assoc).
  assert (Happ : ∀ w0, run selfId ((hs ++ [Advance t]) ++ [Deliver m]) w0
                       = react selfId (Deliver m) (run selfId (hs ++ [Advance t]) w0)).
  { intros w0. unfold run. by rewrite foldl_app. }
  rewrite Happ. split.
  - apply (AgentProofs.react_settled selfId rid (Deliver m)); [done|].
    by apply run_timed_out.
  - by apply deliver_deregisters.
Qed.

Lemma late_reply_deregisters_witness :
  let w' := run "me" ([] ++ [Advance 30000; Deliver (reply "me" "r1" response "data" VNull)])
              (sendRequest "me" "ghost" (VStr "hi") "r1" quiet) in
  outcome "r1" w' = Some (Rejected (timeout_message "ghost"))
  ∧ ¬ registered "me" "r1" w'.
Proof.
  apply (late_reply_deregisters "me" "ghost" "r1" (VStr "hi") quiet [] 30000
           (reply "me" "r1" response "data" VNull)).
  - reflexivity.
  - intros m Hm. by apply elem_of_nil in Hm.
  - simpl. lia.
  - reflexivity.
  - reflexivity.
Defined.

End MessagingProofs.

Module MetricsProofs.
Import Agent Metrics.

Lemma count_metrics (c : Counting) (now : Z) (a : BaseAgent) :
  let m := metrics a in
  let m' := metrics (count c now a) in
  (tasksCompleted m' = tasksCompleted m + (if decide (c = Completed) then 1 else 0)
   ∧ errorCount m' = errorCount m + (if decide (c = Failed) then 1 else 0)
   ∧ tasksInProgress m'
     = tasksInProgress m + (if decide (c = Started) then 1 else -1)
   ∧ lastActivity m' = now
   ∧ uptime m' = uptime m)%Z.
Proof. destruct c; simpl; repeat split; lia. Qed.

(** X8. The counters of an agent after any sequence of calls of
    [taskStarted], [taskCompleted] and [taskFailed]: the tasks completed and
    the errors grow by the number of calls of [taskCompleted] and of
    [taskFailed], and the tasks in progress are those started less those
    completed or failed. Nothing keeps that number from going below zero:
    the three counters together grow by the number of tasks started. *)
Theorem metrics_accounting (cs : list (Counting * Z)) (a : BaseAgent) :
  let m := metrics a in
  let m' := metrics (countAll cs a) in
  (tasksCompleted m' = tasksCompleted m + calls Completed cs
   ∧ errorCount m' = errorCount m + calls Failed cs
   ∧ tasksInProgress m'
     = tasksInProgress m + calls Started cs - calls Completed cs - calls Failed cs
   ∧ tasksInProgress m' + tasksCompleted m' + errorCount m'
     = tasksInProgress m + tasksCompleted m + errorCount m + calls Started cs)%Z.
Proof.
  simpl. revert a. induction cs as [|[c now] cs IH]; intros a.
  - unfold calls. simpl. lia.
  - change (countAll ((c, now) :: cs) a) with (countAll cs (count c now a)).
    destruct (IH (count c now a)) as (H1 & H2 & H3 & _).
    destruct (count_metrics c now a) as (E1 & E2 & E3 & _).
    rewrite H1, H2, H3, E1, E2, E3. unfold calls.
    rewrite !filter_cons. simpl.
    destruct c; simpl;
      repeat (destruct (decide _) as [?|?]; try done); simpl length; lia.
Qed.

End MetricsProofs.

Module SupervisionProofs.
Import Js Agent Supervisor Supervision.

(** *** The table *)

Lemma sub_set_keys (info : SubAgentInfo) (l : list SubAgentInfo) :
  map key (sub_set info l)
  = (if bool_decide (key info ∈ map key l) then map key l else map key l ++ [key info]).
Proof.
  induction l as [|x l IH]; simpl.
  - done.
  - destruct (String.eqb_spec (key x) (key info)) as [E|Hne]; simpl.
    + rewrite bool_decide_eq_true_2 by (rewrite E; left). by rewrite E.
    + rewrite IH. case_bool_decide as Hin.
      * by rewrite bool_decide_eq_true_2 by (by right).
      * rewrite bool_decide_eq_false_2; [done|].
        intros [?|?]%elem_of_cons; congruence.
Qed.

Lemma sub_get_none (i : string) (l : list SubAgentInfo) :
  sub_get i l = None ↔ i ∉ map key l.
Proof.
  unfold sub_get. induction l as [|x l IH]; simpl.
  - split; [intros _; apply not_elem_of_nil | done].
  - destruct (String.eqb_spec (key x) i) as [E|Hne].
    + split; [done|]. intros Hn. destruct Hn. rewrite E. left.
    + rewrite IH. split.
      * intros Hn [?|?]%elem_of_cons; [congruence | done].
      * intros Hn Hin. apply Hn. by right.
Qed.

Lemma sub_get_keyed (l : list SubAgentInfo) (info : SubAgentInfo) :
  NoDup (map key l) → info ∈ l → sub_get (key info) l = Some info.
Proof.
  unfold sub_get. induction l as [|x l IH]; intros Hk Hin.
  - by apply elem_of_nil in Hin.
  - simpl in *. apply NoDup_cons in Hk as [Hx Hk].
    apply elem_of_cons in Hin as [->|Hin].
    + by rewrite String.eqb_refl.
    + destruct (String.eqb_spec (key x) (key info)) as [E|_]; [|auto].
      exfalso. apply Hx. rewrite E. apply list_elem_of_fmap. eauto.
Qed.

Lemma sub_delete_absent (i : string) (l : list SubAgentInfo) :
  i ∉ map key l → sub_delete i l = l.
Proof.
  unfold sub_delete. induction l as [|x l IH]; intros Hi; [done|].
  simpl in Hi. apply not_elem_of_cons in Hi as [Hne Hi].
  rewrite filter_cons_True by done. by rewrite IH.
Qed.

Lemma sub_delete_set (info : SubAgentInfo) (l : list SubAgentInfo) :
  key info ∉ map key l → sub_delete (key info) (sub_set info l) = l.
Proof.
  unfold sub_delete. induction l as [|x l IH]; intros Hi; simpl.
  - by rewrite filter_cons_False by (intros H; by apply H).
  - simpl in Hi. apply not_elem_of_cons in Hi as [Hne Hi].
    destruct (String.eqb_spec (key x) (key info)) as [E|_]; [congruence|].
    rewrite filter_cons_True by done. by rewrite IH.
Qed.

Lemma sub_get_delete (i j : string) (l : list SubAgentInfo) :
  sub_get j (sub_delete i l) = (if decide (j = i) then None else sub_get j l).
Proof.
  unfold sub_get, sub_delete. induction l as [|x l IH]; simpl.
  - by destruct (decide (j = i)).
  - destruct (decide (key x = i)) as [E|Hne].
    + rewrite filter_cons_False by (intros H; by apply H). rewrite IH.
      destruct (decide (j = i)) as [->|Hj]; [done|].
      by destruct (String.eqb_spec (key x) j); [congruence|].
    + rewrite filter_cons_True by done. simpl. rewrite IH.
      destruct (String.eqb_spec (key x) j) as [E|_]; [|done].
      by destruct (decide (j = i)); [congruence|].
Qed.

Lemma sub_get_update (i j : string) (f : SubAgentInfo → SubAgentInfo)
    (l : list SubAgentInfo) :
  (∀ x, key x = i → key (f x) = i) →
  sub_get j (sub_update i f l) = (if decide (j = i) then f <$> sub_get j l else sub_get j l).
Proof.
  intros Hf. unfold sub_get, sub_update. induction l as [|x l IH]; simpl.
  - by destruct (decide (j = i)).
  - destruct (String.eqb_spec (key x) i) as [E|Hne].
    + rewrite (Hf x E). destruct (String.eqb_spec i j) as [E'|Hne'].
      * subst j. rewrite decide_True by done.
        by rewrite (proj2 (String.eqb_eq (key x) i)) by done.
      * rewrite IH. rewrite !decide_False by congruence.
        by rewrite (proj2 (String.eqb_neq (key x) j)) by congruence.
    + destruct (String.eqb_spec (key x) j) as [E'|Hne'].
      * by rewrite decide_False by congruence.
      * rewrite IH. done.
Qed.

Lemma sub_update_keys (i : string) (f : SubAgentInfo → SubAgentInfo)
    (l : list SubAgentInfo) :
  (∀ x, key x = i → key (f x) = i) → map key (sub_update i f l) = map key l.
Proof.
  intros Hf. unfold sub_update. rewrite <- list_fmap_compose. apply list_fmap_ext.
  intros _ x _. simpl. destruct (String.eqb_spec (key x) i) as [E|]; [|done].
  by rewrite (Hf x E).
Qed.

Lemma sub_update_elem (i : string) (f : SubAgentInfo → SubAgentInfo)
    (l : list SubAgentInfo) (y : SubAgentInfo) :
  y ∈ sub_update i f l →
  ∃ x, x ∈ l ∧ y = (if String.eqb (key x) i then f x else x).
Proof.
  unfold sub_update. intros (x & -> & Hx)%list_elem_of_fmap. eauto.
Qed.

(** Attaching again what was attached before it was detached. *)
Lemma sub_update_round_trip (i : string) (l : list SubAgentInfo) :
  (∀ x, x ∈ l → key x = i → attached x = true) →
  sub_update i (set_attached true) (sub_update i (set_attached false) l) = l.
Proof.
  intros Hatt. unfold sub_update. rewrite <- list_fmap_compose.
  rewrite <- (list_fmap_id l) at 2. apply list_fmap_ext. intros _ x Hx%list_elem_of_lookup_2.
  simpl. destruct (String.eqb_spec (key x) i) as [E|Hne].
  - unfold key at 1. simpl. fold (key x). rewrite E, String.eqb_refl.
    destruct x as [a att p]. unfold set_attached. simpl.
    f_equal. symmetry. by apply (Hatt _ Hx).
  - by destruct (String.eqb_spec (key x) i).
Qed.

(** X9. [registerAgent] keeps the table in the order of first registration:
    an agent whose id is in the table takes the place of the entry under that
    id, and the number of agents stays; an agent whose id is new comes last,
    and the number grows by one. The table stays a table with one entry for
    each id. *)
Theorem registerAgent_keeps_order (a : BaseAgent) (p : option Z) (s : SupervisorAgent) :
  let s' := snd (registerAgent a p s) in
  map key (subAgents s')
  = (if bool_decide (agent_id a ∈ map key (subAgents s))
     then map key (subAgents s)
     else map key (subAgents s) ++ [agent_id a])
  ∧ totalAgents (getSummary s')
    = (if bool_decide (agent_id a ∈ map key (subAgents s))
       then totalAgents (getSummary s)
       else S (totalAgents (getSummary s)))
  ∧ (keyed s → keyed s').
Proof.
  intros s'.
  set (info := {| agent := a; attached := true; priority := default 5%Z p |}).
  assert (Hkeys : map key (subAgents s')
                  = (if bool_decide (agent_id a ∈ map key (subAgents s))
                     then map key (subAgents s)
                     else map key (subAgents s) ++ [agent_id a])).
  { apply (sub_set_keys info). }
  split; [exact Hkeys|]. split.
  - unfold getSummary. cbn [totalAgents].
    rewrite <- (length_map key (subAgents s')), <- (length_map key (subAgents s)), Hkeys.
    case_bool_decide; [done|]. rewrite length_app. simpl. lia.
  - unfold keyed. rewrite Hkeys. intros Hk. case_bool_decide as Hin; [done|].
    apply NoDup_app. split; [done|]. split; [|apply NoDup_singleton].
    intros x Hx ->%list_elem_of_singleton. done.
Qed.

(** X10. [unregisterAgent] takes the entry of an id out of the table and
    leaves the others, in their order; for an id that is not in the table it
    does nothing, not even log. Registering an agent under a new id and
    unregistering that id gives the table back. *)
Theorem unregisterAgent_round_trip (a : BaseAgent) (p : option Z) (i : string)
    (s : SupervisorAgent) :
  getAgent i (snd (unregisterAgent i s)) = None
  ∧ (∀ j, j ≠ i → getAgent j (snd (unregisterAgent i s)) = getAgent j s)
  ∧ sublist (subAgents (snd (unregisterAgent i s))) (subAgents s)
  ∧ (getAgent i s = None → unregisterAgent i s = (Returns tt, s))
  ∧ (getAgent (agent_id a) s = None →
     subAgents (snd (unregisterAgent (agent_id a) (snd (registerAgent a p s))))
     = subAgents s).
Proof.
  assert (Hun : ∀ j s0, subAgents (snd (unregisterAgent j s0)) = sub_delete j (subAgents s0)).
  { intros j s0. unfold unregisterAgent, bind, gets.
    destruct (sub_get j (subAgents s0)) as [x|] eqn:E; simpl; [done|].
    symmetry. apply sub_delete_absent. by apply sub_get_none. }
  assert (Hnone : ∀ j s0, getAgent j s0 = None ↔ j ∉ map key (subAgents s0)).
  { intros j s0. unfold getAgent. rewrite <- sub_get_none.
    destruct (sub_get j (subAgents s0)); done. }
  split; [|split; [|split; [|split]]].
  - unfold getAgent. rewrite Hun, sub_get_delete. by rewrite decide_True.
  - intros j Hj. unfold getAgent. rewrite Hun, sub_get_delete. by rewrite decide_False.
  - rewrite Hun. apply sublist_filter.
  - unfold getAgent. intros Hg. unfold unregisterAgent, bind, gets.
    by destruct (sub_get i (subAgents s)).
  - intros Hg%Hnone. rewrite Hun.
    set (info := {| agent := a; attached := true; priority := default 5%Z p |}).
    apply (sub_delete_set info). done.
Qed.

(** *** Detaching *)

Lemma detach_table (i : string) (s : SupervisorAgent) :
  subAgents (snd (detachAgent i s)) = sub_update i (set_attached false) (subAgents s).
Proof.
  unfold detachAgent, bind, gets.
  destruct (sub_get i (subAgents s)) as [x|] eqn:E; simpl; [done|].
  apply sub_get_none in E. unfold sub_update.
  rewrite <- (list_fmap_id (subAgents s)) at 1. apply list_fmap_ext.
  intros _ x Hx%list_elem_of_lookup_2. simpl.
  destruct (String.eqb_spec (key x) i) as [<-|]; [|done].
  destruct E. apply list_elem_of_fmap. eauto.
Qed.

Lemma attach_table (i : string) (s : SupervisorAgent) :
  subAgents (snd (attachAgent i s)) = sub_update i (set_attached true) (subAgents s).
Proof.
  unfold attachAgent, bind, gets.
  destruct (sub_get i (subAgents s)) as [x|] eqn:E; simpl; [done|].
  apply sub_get_none in E. unfold sub_update.
  rewrite <- (list_fmap_id (subAgents s)) at 1. apply list_fmap_ext.
  intros _ x Hx%list_elem_of_lookup_2. simpl.
  destruct (String.eqb_spec (key x) i) as [<-|]; [|done].
  destruct E. apply list_elem_of_fmap. eauto.
Qed.

(** X11. [detachAgent] on an id that is not in the table returns false and
    changes nothing. On an id of the table it returns true; afterwards a
    task that names the id is refused, the start sweep leaves the agent out,
    the shutdown still stops it, and [attachAgent] gives back the table as
    it was when the agent was attached before. *)
Theorem detachAgent_effect (i : string) (s : SupervisorAgent) (hooks : Hooks) (now : Z)
    (task : Task) :
  hooks_settle hooks → keyed s → task_agentId task = Some i → i ≠ "" →
  match sub_get i (subAgents s) with
  | None => detachAgent i s = (Returns false, s)
  | Some entry =>
      let s' := snd (detachAgent i s) in
      fst (detachAgent i s) = Returns true
      ∧ fst (processTask task s')
        = Throws ("Agent " +:+ i +:+ " not found or not attached")
      ∧ (i ∉ start_order hooks now s')
      ∧ i ∈ stop_order hooks s'
      ∧ fst (attachAgent i s') = Returns true
      ∧ (attached entry = true → subAgents (snd (attachAgent i s')) = subAgents s)
  end.
Proof.
  intros Hs Hk Htask Hi.
  destruct (sub_get i (subAgents s)) as [info|] eqn:Hget.
  2: { unfold detachAgent, bind, gets. by rewrite Hget. }
  simpl.
  assert (Hkey : ∀ x, key (set_attached false x) = key x) by done.
  assert (Hget' : sub_get i (subAgents (snd (detachAgent i s)))
                  = Some (set_attached false info)).
  { rewrite detach_table, sub_get_update by done. rewrite decide_True by done.
    by rewrite Hget. }
  split; [|split; [|split; [|split; [|split]]]].
  - unfold detachAgent, bind, gets. by rewrite Hget.
  - unfold processTask. rewrite Htask. simpl.
    destruct (String.eqb_spec i ""); [done|].
    unfold bind, gets. by rewrite Hget'.
  - destruct (SupervisorProofs.startAllAgents_order hooks now (snd (detachAgent i s)) Hs)
      as [_ ->].
    intros (x & Hx & Hin)%list_elem_of_fmap.
    rewrite SupervisorProofs.sort_perm in Hin.
    apply list_elem_of_filter in Hin as [Hatt Hin].
    rewrite detach_table in Hin.
    apply sub_update_elem in Hin as (y & Hy & ->).
    destruct (String.eqb_spec (key y) i) as [E|Hne]; [done|].
    congruence.
  - destruct (SupervisorProofs.sub_get_elem _ _ _ Hget') as [Hin Hk'].
    pose proof (SupervisorProofs.sweep_member _ _ _ _
                  (SupervisorProofs.stop_sweep hooks (snd (detachAgent i s)) Hs) Hin) as H.
    by rewrite Hk' in H.
  - unfold attachAgent, bind, gets. by rewrite Hget'.
  - intros Hatt. rewrite attach_table, detach_table.
    apply sub_update_round_trip. intros x Hx Hkx.
    assert (x = info) as ->; [|done].
    pose proof (sub_get_keyed _ _ Hk Hx) as Hgx. rewrite Hkx, Hget in Hgx. congruence.
Qed.

Lemma detachAgent_effect_witness :
  match sub_get "sec" (subAgents three) with
  | None => detachAgent "sec" three = (Returns false, three)
  | Some entry =>
      let s' := snd (detachAgent "sec" three) in
      fst (detachAgent "sec" three) = Returns true
      ∧ fst (processTask {| task_type := None; task_agentId := Some "sec";
                            task_data := VNull |} s')
        = Throws ("Agent " +:+ "sec" +:+ " not found or not attached")
      ∧ ("sec" ∉ start_order calm 0 s')
      ∧ "sec" ∈ stop_order calm s'
      ∧ fst (attachAgent "sec" s') = Returns true
      ∧ (attached entry = true → subAgents (snd (attachAgent "sec" s')) = subAgents three)
  end.
Proof.
  apply (detachAgent_effect "sec" three calm 0
           {| task_type := None; task_agentId := Some "sec"; task_data := VNull |}).
  - intros i. by split.
  - unfold keyed. apply (bool_decide_unpack _). by vm_compute.
  - reflexivity.
  - done.
Defined.

(** *** The states after the start sweep *)

Section Recovery.
Variables (hooks : Hooks) (sup : string).
Hypothesis Hquiet : bystanders_return hooks.

Lemma times_effect (n : nat) (x : Effect) (w : AgentWorld) :
  times n (effect x) w
  = (Returns tt, {| self := self w; trace := trace w ++ replicate n x |}).
Proof.
  revert w. induction n as [|n IH]; intros w; simpl.
  - unfold ret. rewrite app_nil_r. by destruct w.
  - unfold bind, effect at 1, modify. rewrite IH. simpl. by rewrite <- app_assoc.
Qed.

(** The listeners of the started and of the stopped event return and leave
    the agent as it is. *)
Lemma announces_returns (e : SuperCodeEvent) (w : AgentWorld) :
  ∃ tr, announces hooks sup e w = (Returns tt, {| self := self w; trace := tr |}).
Proof.
  unfold announces, bind, bystander.
  destruct e; rewrite ?times_effect; unfold ret; simpl; rewrite Hquiet; eauto.
  all: destruct w; eauto.
Qed.

(** Each listener of the error event calls [stop()], which goes up to the
    [shutdown] hook, on an agent that is not stopped. *)
Lemma recovery_collect (i message : string) (n : nat) (w : AgentWorld) :
  status (self w) ≠ stopped →
  ∃ tr, collect n (recovery_begins sup i message) w
        = (Returns (replicate n true), {| self := self w; trace := tr |}).
Proof.
  intros Hst. revert w Hst. induction n as [|n IH]; intros w Hst; simpl.
  - exists (trace w). unfold ret. by destruct w.
  - unfold bind at 1.
    assert (E : ∃ tr, recovery_begins sup i message w
                      = (Returns true, {| self := self w; trace := tr |})).
    { unfold recovery_begins, stop_enters, enter, Agent.log, bind, gets, effect, modify, ret.
      simpl. rewrite bool_decide_eq_false_2 by done. eauto. }
    destruct E as [tr1 ->].
    destruct (IH {| self := self w; trace := tr1 |} Hst) as [tr2 E2].
    unfold bind. rewrite E2. eauto.
Qed.

(** A call of [stop()] that goes on after the hook: the agent is stopped
    when the hook returned, and as it was when not. *)
Lemma stop_resumes_self (shutdown : Run unit) (w : AgentWorld) :
  ∃ r tr, stop_resumes shutdown (announces hooks sup) w
          = (r, {| self := match shutdown with
                           | Returns _ => set_status stopped (self w)
                           | _ => self w
                           end;
                   trace := tr |})
          ∧ ∀ message, r ≠ Throws message.
Proof.
  unfold stop_resumes, try_catch. unfold bind at 1.
  destruct shutdown as [[]|message|].
  - unfold bind at 1. unfold update_self, modify. unfold bind at 1. unfold gets.
    unfold emitEvent. unfold bind at 1 2. unfold effect at 1, modify.
    destruct (announces_returns (agent_stopped (agent_id (self w)))
                {| self := set_status stopped (self w);
                   trace := trace w ++ [Emit (agent_stopped (agent_id (self w)))] |})
      as [tr E].
    simpl in *. rewrite E. unfold Agent.log, bind, gets, effect, modify. simpl. eauto.
  - unfold Agent.log, bind, gets, effect, modify. simpl. eauto.
  - exists OutOfFuel, (trace w). split; [by destruct w | done].
Qed.

Lemma resumes_self (shutdown : Run unit) (n : nat) (w : AgentWorld) :
  ∃ r tr, for_each (replicate n true)
            (λ called, if called : bool
                       then stop_resumes shutdown (announces hooks sup)
                       else ret tt) w
          = (r, {| self := match n, shutdown with
                           | S _, Returns _ => set_status stopped (self w)
                           | _, _ => self w
                           end;
                   trace := tr |})
          ∧ ∀ message, r ≠ Throws message.
Proof.
  revert w. induction n as [|n IH]; intros w; simpl.
  - exists (Returns tt), (trace w). split; [by destruct w | done].
  - unfold bind at 1.
    destruct (stop_resumes_self shutdown w) as (r1 & tr1 & -> & Hr1).
    destruct r1 as [[]|message|]; [|by destruct (Hr1 message)|].
    + destruct (IH {| self := match shutdown with
                              | Returns _ => set_status stopped (self w)
                              | _ => self w
                              end; trace := tr1 |}) as (r2 & tr2 & -> & Hr2).
      exists r2, tr2. split; [|done]. f_equal. simpl.
      destruct n, shutdown; done.
    + by exists OutOfFuel, tr1.
Qed.

(** The listeners of the error event: the agent is stopped when there is
    a listener of the supervisor and the [shutdown] hook returns. *)
Lemma hears_error_self (i message : string) (w : AgentWorld) :
  status (self w) ≠ stopped →
  ∃ r tr, hears hooks sup (agent_error i message) w
          = (r, {| self := match subscriptions hooks, shutdown_of hooks i with
                           | S _, Returns _ => set_status stopped (self w)
                           | _, _ => self w
                           end;
                   trace := tr |})
          ∧ ∀ message', r ≠ Throws message'.
Proof.
  intros Hst. unfold hears. unfold bind at 1.
  destruct (recovery_collect i message (subscriptions hooks) w Hst) as [tr1 ->].
  unfold bind at 1. unfold gets at 1. unfold bind at 1.
  destruct (resumes_self (shutdown_of hooks i) (subscriptions hooks)
              {| self := self w; trace := tr1 |}) as (r2 & tr2 & -> & Hr2).
  rewrite Hquiet. destruct r2 as [[]|message'|]; [|by destruct (Hr2 message')|].
  - exists (Returns tt), tr2. done.
  - exists OutOfFuel, tr2. done.
Qed.

(** The agent after [start()], whatever was done before. *)
Lemma start_agent (now : Z) (a : BaseAgent) (tr : list Effect) :
  self (snd (start (initialize_of hooks (agent_id a)) (hears hooks sup) now
               {| self := a; trace := tr |}))
  = (if bool_decide (status a = running) then a
     else match initialize_of hooks (agent_id a) with
          | Throws _ =>
              match subscriptions hooks, shutdown_of hooks (agent_id a) with
              | S _, Returns _ =>
                  set_status stopped
                    (set_status error (set_startTime now (set_status running a)))
              | _, _ => set_status error (set_startTime now (set_status running a))
              end
          | _ => set_startTime now (set_status running a)
          end).
Proof.
  remember (hears hooks sup) as hear eqn:Hhear.
  unfold start, enter, Agent.log, hook, emitEvent, effect, update_self, try_catch, bind,
    gets, modify, throw. simpl.
  case_bool_decide as Hrun; [done|].
  destruct (initialize_of hooks (agent_id a)) as [[]|message|]; simpl; [| |done].
  - subst hear.
    match goal with
    | |- context [hears hooks sup ?e ?w] =>
        destruct (announces_returns e w) as [tr1 E]; change (hears hooks sup e w)
          with (announces hooks sup e w); rewrite E
    end.
    done.
  - subst hear.
    match goal with
    | |- context [hears hooks sup (agent_error ?i ?m) ?w] =>
        destruct (hears_error_self i m w) as (r & tr1 & E & Hr); [done|]; rewrite E
    end.
    simpl.
    destruct r as [[]|message'|]; [|by destruct (Hr message')|];
      simpl; by destruct (subscriptions hooks), (shutdown_of hooks (agent_id a)).
Qed.

End Recovery.

Lemma started_status (hooks : Hooks) (sup : string) (now : Z) (info : SubAgentInfo) :
  bystanders_return hooks →
  agent_id (started hooks sup now info) = key info
  ∧ agent_name (started hooks sup now info) = agent_name (agent info)
  ∧ status (started hooks sup now info)
    = (if bool_decide (status (agent info) = running) then running
       else match initialize_of hooks (key info) with
            | Throws _ =>
                match subscriptions hooks, shutdown_of hooks (key info) with
                | S _, Returns _ => stopped
                | _, _ => error
                end
            | _ => running
            end).
Proof.
  intros Hquiet. unfold started, world, key.
  rewrite (start_agent hooks sup Hquiet now (agent info) []).
  case_bool_decide as Hrun; [done|].
  destruct (initialize_of hooks (agent_id (agent info))) as [[]|message|]; try done.
  by destruct (subscriptions hooks), (shutdown_of hooks (agent_id (agent info))).
Qed.

(** One round of the start sweep writes the agent it started to the table. *)
Lemma start_round (hooks : Hooks) (sup : string) (now : Z) (i : SubAgentInfo)
    (s : SupervisorAgent) :
  hooks_settle hooks → bystanders_return hooks →
  ∃ s', guarded (start (initialize_of hooks (key i)) (hears hooks sup) now)
          "Failed to start " i s
        = (Returns tt, s')
        ∧ subAgents s'
          = sub_update (key i) (set_agent (started hooks sup now i)) (subAgents s).
Proof.
  intros Hs Hquiet. unfold guarded, try_catch, on_agent.
  assert (Hself : self (snd (start (initialize_of hooks (key i)) (hears hooks sup) now
                               {| self := agent i; trace := log s |}))
                  = started hooks sup now i).
  { unfold started, world, key.
    by rewrite !(start_agent hooks sup Hquiet now (agent i)). }
  destruct (SupervisorProofs.start_trace {| self := agent i; trace := log s |}
              (initialize_of hooks (key i)) (hears hooks sup) now)
    as (new & _ & _ & _ & Hfuel); [apply Hs | |].
  { intros e. by apply SupervisorProofs.aside_hears. }
  destruct (start (initialize_of hooks (key i)) (hears hooks sup) now
              {| self := agent i; trace := log s |})
    as [r w] eqn:E. simpl in *.
  rewrite Hself.
  destruct r as [[]|msg|]; [| |done].
  - eexists. split; [done|]. done.
  - eexists. split; [done|]. done.
Qed.

Lemma start_rounds (hooks : Hooks) (sup : string) (now : Z) (l : list SubAgentInfo) :
  hooks_settle hooks → bystanders_return hooks →
  ∀ s, ∃ s',
    for_each l
      (λ i, try_catch
              (on_agent (agent i) (start (initialize_of hooks (key i)) (hears hooks sup) now))
              (λ _, say error_level ("Failed to start " +:+ agent_name (agent i)))) s
    = (Returns tt, s')
    ∧ subAgents s'
      = foldl (λ t i, sub_update (key i) (set_agent (started hooks sup now i)) t)
          (subAgents s) l.
Proof.
  intros Hs Hquiet. induction l as [|i l IH]; intros s.
  - by exists s.
  - simpl. unfold bind at 1.
    destruct (start_round hooks sup now i s) as (s1 & Hround & Htable); [done..|].
    unfold guarded in Hround. rewrite Hround.
    destruct (IH s1) as (s2 & -> & Htable2).
    exists s2. split; [done|]. by rewrite Htable2, Htable.
Qed.

Section Written.
Variables (hooks : Hooks) (sup : string) (now : Z).
Hypothesis Hquiet : bystanders_return hooks.

Local Abbreviation write := (written hooks sup now).

Lemma write_key (i x : SubAgentInfo) :
  key x = key i → key (set_agent (started hooks sup now i) x) = key i.
Proof. intros _. unfold key at 1. simpl. by apply started_status. Qed.

Lemma written_out (l : list SubAgentInfo) (j : string) :
  j ∉ map key l → ∀ t, sub_get j (foldl write t l) = sub_get j t.
Proof.
  induction l as [|x l IH]; intros Hj t; [done|].
  simpl in Hj. apply not_elem_of_cons in Hj as [Hne Hj].
  simpl. rewrite (IH Hj). unfold written.
  rewrite sub_get_update by apply write_key. by rewrite decide_False.
Qed.

Lemma written_in (l : list SubAgentInfo) (i : SubAgentInfo) :
  NoDup (map key l) → i ∈ l →
  ∀ t, sub_get (key i) (foldl write t l)
       = set_agent (started hooks sup now i) <$> sub_get (key i) t.
Proof.
  induction l as [|x l IH]; intros Hk Hin t.
  - by apply elem_of_nil in Hin.
  - simpl in Hk. apply NoDup_cons in Hk as [Hx Hk]. simpl.
    apply elem_of_cons in Hin as [->|Hin].
    + rewrite written_out by done. unfold written.
      rewrite sub_get_update by apply write_key. by rewrite decide_True.
    + rewrite (IH Hk Hin). unfold written at 1.
      rewrite sub_get_update by apply write_key.
      rewrite decide_False; [done|]. intros E. apply Hx. rewrite <- E.
      apply list_elem_of_fmap. eauto.
Qed.

End Written.

(** X12. The start sweep on a table with one entry for each id, when the
    hooks end and no listener of the bus other than those of the
    supervisor throws: it returns and leaves every entry in the table,
    attached as it was and with its priority. An agent that was detached
    is as it was. An agent that was attached is running when it was
    running before or when its [initialize] hook returned. When the hook
    threw, each listener of the error event that the supervisor installed
    has called [stop()] on the agent: the agent is stopped when the
    supervisor had been initialized and the [shutdown] hook returned, and
    in the state error when the supervisor had not been initialized or the
    [shutdown] hook threw as well. *)
Theorem startAllAgents_statuses (hooks : Hooks) (now : Z) (s : SupervisorAgent)
    (info : SubAgentInfo) :
  hooks_settle hooks → bystanders_return hooks → keyed s → info ∈ subAgents s →
  let s' := snd (startAllAgents hooks now s) in
  fst (startAllAgents hooks now s) = Returns tt
  ∧ ∃ info', sub_get (key info) (subAgents s') = Some info'
      ∧ attached info' = attached info
      ∧ priority info' = priority info
      ∧ agent_name (agent info') = agent_name (agent info)
      ∧ (attached info = false → info' = info)
      ∧ (attached info = true →
         status (agent info')
         = (if bool_decide (status (agent info) = running) then running
            else match initialize_of hooks (key info) with
                 | Throws _ =>
                     match subscriptions hooks, shutdown_of hooks (key info) with
                     | S _, Returns _ => stopped
                     | _, _ => error
                     end
                 | _ => running
                 end)).
Proof.
  intros Hs Hquiet Hk Hin. simpl.
  set (sup := agent_name (base s)).
  set (l := sort (λ a b, priority b - priority a)%Z
              (filter (λ a, attached a = true) (subAgents s))).
  assert (Hl : l ≡ₚ filter (λ a, attached a = true) (subAgents s))
    by apply SupervisorProofs.sort_perm.
  assert (Hsub : ∀ x, x ∈ l ↔ x ∈ subAgents s ∧ attached x = true).
  { intros x. rewrite Hl, list_elem_of_filter. tauto. }
  assert (Hkl : NoDup (map key l)).
  { rewrite Hl. eapply sublist_NoDup; [exact Hk|].
    apply fmap_sublist, sublist_filter. }
  assert (Hrun : ∃ s', startAllAgents hooks now s = (Returns tt, s')
                       ∧ subAgents s'
                         = foldl (λ t i, sub_update (key i)
                                           (set_agent (started hooks sup now i)) t)
                             (subAgents s) l).
  { unfold startAllAgents. unfold bind at 1. unfold say at 1. unfold modify at 1.
    unfold bind at 1. unfold gets at 1. simpl. fold l.
    unfold bind at 1. unfold gets at 1. simpl. fold sup.
    unfold bind at 1.
    destruct (start_rounds hooks sup now l Hs Hquiet
                (with_log (λ l0, l0 ++ [Log Agent.info sup
                                          "🚀 Starting all sub-agents..."]) s))
      as (s1 & -> & Htable).
    eexists. split; [done|]. done. }
  destruct Hrun as (s' & Hrun & Htable). rewrite Hrun. simpl.
  split; [done|].
  pose proof (sub_get_keyed _ _ Hk Hin) as Hget.
  destruct (attached info) eqn:Hatt.
  - exists (set_agent (started hooks sup now info) info).
    rewrite Htable.
    rewrite (written_in hooks sup now Hquiet l info Hkl) by (by apply Hsub).
    rewrite Hget. simpl.
    destruct (started_status hooks sup now info Hquiet) as (_ & Hname & Hst).
    repeat split; try done.
  - exists info. rewrite Htable.
    rewrite (written_out hooks sup now Hquiet l (key info)).
    + repeat split; done.
    + intros (x & Hkx & Hx)%list_elem_of_fmap.
      apply Hsub in Hx as [Hx Hax].
      pose proof (sub_get_keyed _ _ Hk Hx) as Hgx. rewrite <- Hkx, Hget in Hgx.
      congruence.
Qed.

Lemma startAllAgents_statuses_witness :
  let s' := snd (startAllAgents rough 0 three) in
  fst (startAllAgents rough 0 three) = Returns tt
  ∧ ∃ info', sub_get "obs" (subAgents s') = Some info'
      ∧ attached info' = true
      ∧ priority info' = 10%Z
      ∧ agent_name (agent info') = "ObservabilityAgent"
      ∧ (true = false →
         info' = {| agent := mkAgent "obs" "ObservabilityAgent" idle; attached := true;
                    priority := 10 |})
      ∧ (true = true → status (agent info') = stopped).
Proof.
  apply (startAllAgents_statuses rough 0 three
           {| agent := mkAgent "obs" "ObservabilityAgent" idle; attached := true;
              priority := 10 |}).
  - intros i. simpl. by destruct (String.eqb i "obs").
  - intros done e. reflexivity.
  - unfold keyed. apply (bool_decide_unpack _). by vm_compute.
  - vm_compute. left.
Defined.

(** *** The queue *)

Lemma processTask_frame (task : Task) (s : SupervisorAgent) :
  snd (processTask task s) = s.
Proof.
  unfold processTask, bind, gets, ret, throw.
  destruct (present (task_agentId task)); simpl.
  - destruct (sub_get _ _) as [i|]; [destruct (attached i)|]; done.
  - by destruct (routeTask task (subAgents s)).
Qed.

Lemma processTask_table (task : Task) (s1 s2 : SupervisorAgent) :
  subAgents s1 = subAgents s2 → fst (processTask task s1) = fst (processTask task s2).
Proof.
  intros E. unfold processTask, bind, gets, ret, throw.
  destruct (present (task_agentId task)); simpl; rewrite E.
  - destruct (sub_get _ _) as [i|]; [destruct (attached i)|]; done.
  - by destruct (routeTask task (subAgents s2)).
Qed.

Lemma tick_idle (request : string → JsVal → Run JsVal) (s : SupervisorAgent) :
  isProcessing s = true ∨ taskQueue s = [] → tick request s = (Returns None, s).
Proof.
  intros H. unfold tick, bind, gets. simpl.
  destruct H as [-> | ->]; [done|]. simpl. by rewrite orb_true_r.
Qed.

Lemma tick_step (request : string → JsVal → Run JsVal) (s : SupervisorAgent)
    (t : Task) (q : list Task) :
  (∀ to body, request to body ≠ OutOfFuel) →
  isProcessing s = false → taskQueue s = t :: q →
  tick request s = (Returns (Some (t, verdict request s t)), with_queue (λ _, q) s).
Proof.
  intros Hreq Hidle Hq. unfold tick. unfold bind at 1. unfold gets at 1.
  unfold bind at 1. unfold gets at 1. rewrite Hidle, Hq. simpl.
  unfold bind at 1. unfold modify at 1. unfold bind at 1. unfold modify at 1.
  set (s1 := with_queue Bus.shift (with_processing true s)).
  assert (Htable : subAgents s1 = subAgents s) by done.
  unfold bind at 1. unfold try_catch, bind at 1.
  pose proof (processTask_frame t s1) as Hframe.
  pose proof (processTask_table t s1 s Htable) as Hsame.
  unfold verdict. rewrite <- Hsame.
  destruct (processTask t s1) as [r s2]. simpl in Hframe, Hsame |- *. subst s2.
  assert (Hfinal : with_processing false s1 = with_queue (λ _, q) s).
  { subst s1. destruct s. unfold with_processing, with_queue, Bus.shift. simpl in *.
    by rewrite Hidle, Hq. }
  destruct r as [[to body]|msg|]; simpl.
  - unfold bind. specialize (Hreq to body).
    destruct (request to body) as [v|msg|]; simpl; [| |done].
    + unfold modify, ret. by rewrite Hfinal.
    + unfold modify, ret. by rewrite Hfinal.
  - unfold bind, modify, ret. simpl. by rewrite Hfinal.
  - exfalso. unfold processTask, bind, gets, ret, throw in Hsame.
    destruct (present (task_agentId t)); simpl in Hsame.
    + destruct (sub_get _ _) as [i|]; [destruct (attached i)|]; done.
    + by destruct (routeTask t (subAgents s)).
Qed.

(** X13. The processor takes the queued tasks one at a time, the oldest
    first: when every request ends, [n] runs of its callback settle the
    promises of the first [n] tasks of the queue, in the order in which they
    were queued, each as [processTask] routes it on the table, and leave the
    rest of the queue and the table as they were. A run that finds the
    processor busy or the queue empty does nothing. *)
Theorem queue_fifo (request : string → JsVal → Run JsVal) (s : SupervisorAgent) (n : nat) :
  (∀ to body, request to body ≠ OutOfFuel) → isProcessing s = false →
  (∃ s', ticks n request s
         = (Returns (map (λ t, (t, verdict request s t)) (take n (taskQueue s))), s')
         ∧ taskQueue s' = drop n (taskQueue s)
         ∧ isProcessing s' = false
         ∧ subAgents s' = subAgents s
         ∧ log s' = log s)
  ∧ (∀ s0, isProcessing s0 = true ∨ taskQueue s0 = [] →
           tick request s0 = (Returns None, s0)).
Proof.
  intros Hreq Hidle. split; [|intros s0; apply tick_idle].
  revert s Hidle. induction n as [|n IH]; intros s Hidle.
  - exists s. by rewrite take_0, drop_0.
  - simpl ticks. unfold bind at 1.
    destruct (taskQueue s) as [|t q] eqn:Hq.
    + rewrite tick_idle by (by right).
      destruct (IH s Hidle) as (s' & Ht & Hq' & Hi' & Htab & Hlog).
      unfold bind at 1. rewrite Ht. unfold ret. simpl.
      rewrite Hq in *. rewrite take_nil in *. simpl. rewrite drop_nil in *.
      exists s'. repeat split; done.
    + rewrite (tick_step request s t q Hreq Hidle Hq).
      set (s1 := with_queue (λ _, q) s).
      destruct (IH s1) as (s' & Ht & Hq' & Hi' & Htab & Hlog); [done|].
      unfold bind at 1. rewrite Ht. unfold ret. simpl.
      exists s'. split; [|repeat split; done].
      f_equal. f_equal. f_equal. apply list_fmap_ext. intros _ x _. f_equal.
      unfold verdict. by rewrite (processTask_table x s1 s).
Qed.

Lemma queue_fifo_witness :
  (∃ s', ticks 1 (λ _ _, Returns VNull)
           (snd (queueTask {| task_type := Some "security"; task_agentId := None;
                              task_data := VNull |} None three))
         = (Returns (map (λ t, (t, verdict (λ _ _, Returns VNull)
                                  (snd (queueTask {| task_type := Some "security";
                                                     task_agentId := None;
                                                     task_data := VNull |} None three)) t))
                       (take 1 (taskQueue
                                  (snd (queueTask {| task_type := Some "security";
                                                     task_agentId := None;
                                                     task_data := VNull |} None three))))),
            s')
         ∧ taskQueue s'
           = drop 1 (taskQueue (snd (queueTask {| task_type := Some "security";
                                                  task_agentId := None;
                                                  task_data := VNull |} None three)))
         ∧ isProcessing s' = false
         ∧ subAgents s'
           = subAgents (snd (queueTask {| task_type := Some "security";
                                          task_agentId := None;
                                          task_data := VNull |} None three))
         ∧ log s'
           = log (snd (queueTask {| task_type := Some "security"; task_agentId := None;
                                    task_data := VNull |} None three)))
  ∧ (∀ s0, isProcessing s0 = true ∨ taskQueue s0 = [] →
           tick (λ _ _, Returns VNull) s0 = (Returns None, s0)).
Proof.
  apply (queue_fifo (λ _ _, Returns VNull)
           (snd (queueTask {| task_type := Some "security"; task_agentId := None;
                              task_data := VNull |} None three)) 1).
  - done.
  - reflexivity.
Defined.

(** X14. A task that is queued without the second argument is processed
    without the [agentId] it carries: the processor routes it by its type,
    and settles its promise with the answer of the agent so found, or
    rejects it when no agent is suitable. *)
Theorem queueTask_routes_by_type (task : Task) (request : string → JsVal → Run JsVal)
    (s : SupervisorAgent) :
  (∀ to body, request to body ≠ OutOfFuel) →
  isProcessing s = false → taskQueue s = [] →
  fst (tick request (snd (queueTask task None s)))
  = Returns (Some (addressed task None,
                   match routeTask task (subAgents s) with
                   | Some i =>
                       match request (agent_id (agent i)) (task_data task) with
                       | Throws message => Rejected message
                       | Returns result => Resolved result
                       | OutOfFuel => Pending
                       end
                   | None => Rejected "No suitable agent found for task"
                   end)).
Proof.
  intros Hreq Hidle Hq.
  rewrite (tick_step request (snd (queueTask task None s)) (addressed task None) []
             Hreq).
  - simpl. f_equal. f_equal. f_equal. unfold verdict, processTask. simpl.
    unfold bind, gets, ret, throw. simpl.
    change (routeTask (addressed task None) (subAgents s))
      with (routeTask task (subAgents s)).
    by destruct (routeTask task (subAgents s)).
  - done.
  - simpl. by rewrite Hq.
Qed.

Lemma queueTask_routes_by_type_witness :
  fst (tick (λ _ _, Returns VNull)
         (snd (queueTask {| task_type := Some "security"; task_agentId := Some "obs";
                            task_data := VStr "scan" |} None three)))
  = Returns (Some (addressed {| task_type := Some "security"; task_agentId := Some "obs";
                                task_data := VStr "scan" |} None,
                   match routeTask {| task_type := Some "security";
                                      task_agentId := Some "obs";
                                      task_data := VStr "scan" |} (subAgents three) with
                   | Some i =>
                       match (λ _ _ : _, Returns VNull) (agent_id (agent i)) (VStr "scan") with
                       | Throws message => Rejected message
                       | Returns result => Resolved result
                       | OutOfFuel => Pending
                       end
                   | None => Rejected "No suitable agent found for task"
                   end)).
Proof.
  apply (queueTask_routes_by_type
           {| task_type := Some "security"; task_agentId := Some "obs";
              task_data := VStr "scan" |} (λ _ _, Returns VNull) three); done.
Defined.

(** *** The broadcast *)

Lemma send_each_all (holding : string → bool) (messages : list AgentMessage) :
  (∀ m, m ∈ messages → nullish (content m) && holding (msg_to m) = false) →
  send_each holding messages = (Returns tt, messages).
Proof.
  induction messages as [|m messages IH]; intros Hno; [done|].
  simpl. rewrite (Hno m) by left. rewrite IH; [done|].
  intros x Hx. apply Hno. by right.
Qed.

Lemma send_each_stops (holding : string → bool) (before after : list AgentMessage)
    (m : AgentMessage) :
  (∀ x, x ∈ before → nullish (content x) && holding (msg_to x) = false) →
  nullish (content m) && holding (msg_to m) = true →
  send_each holding (before ++ m :: after)
  = (Throws (cannot_read (content m) "requestId"), before ++ [m]).
Proof.
  intros Hno Hm. induction before as [|x before IH]; simpl.
  - by rewrite Hm.
  - rewrite (Hno x) by left. rewrite IH; [done|].
    intros y Hy. apply Hno. by right.
Qed.

Lemma announcements_to (message : JsVal) (uuid : nat → string) (now : Z)
    (s : SupervisorAgent) :
  map msg_to (announcements message uuid now s)
  = map key (filter (λ info, attached info = true) (subAgents s)).
Proof. unfold announcements. rewrite fmap_imap. unfold compose. simpl. apply imap_const. Qed.

Lemma announcements_content (message : JsVal) (uuid : nat → string) (now : Z)
    (s : SupervisorAgent) (m : AgentMessage) :
  m ∈ announcements message uuid now s →
  msg_type m = event ∧ content m = message ∧ msg_from m = agent_id (base s).
Proof. by intros (k & x & -> & _)%elem_of_lookup_imap. Qed.

Lemma send_each_sent (holding : string → bool) (messages : list AgentMessage)
    (m : AgentMessage) :
  m ∈ snd (send_each holding messages) → m ∈ messages.
Proof.
  induction messages as [|x messages IH]; simpl; [done|].
  destruct (nullish (content x) && holding (msg_to x)); simpl.
  - intros ->%list_elem_of_singleton. left.
  - destruct (send_each holding messages) as [r sent]. simpl in *.
    intros [->|Hm]%elem_of_cons; [left | right; by apply IH].
Qed.

(** X15. [broadcast] gives one message of type event, with the content it
    was called with, to the bus for each attached agent of the table, in
    the order of the table, and none for a detached one; [handleMessage] of
    the agent that receives one logs the arrival and does nothing else: it
    does not run [processTask] and it sends nothing in return. When the
    content is neither [null] nor [undefined], or no attached agent has the
    handler of a request on its channel, every attached agent is sent its
    message and the call returns. When the content is [null] or
    [undefined], the call throws at the first attached agent that has such
    a handler: the agents before it and that agent were sent their message,
    the agents after it were not. *)
Theorem broadcast_unanswered (holding : string → bool) (message : JsVal)
    (uuid : nat → string) (now : Z) (s : SupervisorAgent) :
  let recipients := map key (filter (λ info, attached info = true) (subAgents s)) in
  let r := broadcast holding message uuid now s in
  (∀ m, m ∈ snd r →
        msg_type m = event ∧ content m = message ∧ msg_from m = agent_id (base s)
        ∧ ∀ processTask u t aw,
            Messaging.handleMessage processTask u t m aw
            = (Returns None,
               snd (Agent.log debug ("Received message from " +:+ agent_id (base s)) aw)))
  ∧ (nullish message = false ∨ (∀ i, i ∈ recipients → holding i = false) →
     fst r = Returns tt ∧ map msg_to (snd r) = recipients)
  ∧ (∀ before i after,
       nullish message = true → recipients = before ++ i :: after →
       holding i = true → (∀ j, j ∈ before → holding j = false) →
       fst r = Throws (cannot_read message "requestId")
       ∧ map msg_to (snd r) = before ++ [i]).
Proof.
  intros recipients r.
  pose proof (announcements_to message uuid now s) as Hto.
  pose proof (announcements_content message uuid now s) as Hcontent.
  fold recipients in Hto. unfold broadcast in r.
  split; [|split].
  - intros m Hm%send_each_sent. destruct (Hcontent m Hm) as (Hty & Hc & Hfrom).
    split; [done|]. split; [done|]. split; [done|].
    intros processTask u t aw. unfold Messaging.handleMessage, bind.
    rewrite Hfrom, Hty. simpl. done.
  - intros Hfine. subst r. rewrite send_each_all; [done|].
    intros m Hm. destruct (Hcontent m Hm) as (_ & Hc & _). rewrite Hc.
    destruct Hfine as [-> | Hnone]; [done|].
    rewrite (Hnone (msg_to m)); [by rewrite andb_false_r|].
    rewrite <- Hto. apply list_elem_of_fmap. eauto.
  - intros before i after Hnull Hsplit Hi Hbefore.
    rewrite Hsplit in Hto.
    apply fmap_app_inv in Hto as (ms1 & rest & Hms1 & Hrest & Hall).
    symmetry in Hrest. apply fmap_cons_inv in Hrest as (m & ms2 & Hm & Hms2 & ->).
    assert (Hcm : content m = message).
    { apply Hcontent. rewrite Hall. apply elem_of_app. right. left. }
    subst r. rewrite Hall, (send_each_stops holding ms1 ms2 m).
    + simpl. rewrite Hcm. split; [done|].
      rewrite fmap_app. simpl. by rewrite <- Hms1, <- Hm.
    + intros x Hx. rewrite (Hbefore (msg_to x)); [by rewrite andb_false_r|].
      rewrite Hms1. apply list_elem_of_fmap. eauto.
    + by rewrite Hcm, Hnull, <- Hm, Hi.
Qed.

End SupervisionProofs.

Module ControlProofs.
Import Js Workflow Control.

(** *** Launching *)

Lemma with_workflows_same (s : WorkflowPlannerAgent) :
  with_workflows (λ _, workflows s) s = s.
Proof. by destruct s. Qed.

Lemma detach_workflows (wid : string) (s : WorkflowPlannerAgent) :
  workflows (snd (detachWorkflow wid s)) = alter (set_attached false) wid (workflows s).
Proof.
  unfold detachWorkflow, bind, gets, getWorkflow.
  destruct (workflows s !! wid) eqn:E; simpl; [done|].
  symmetry. apply map_eq. intros j. destruct (decide (j = wid)) as [->|Hne].
  - by rewrite lookup_alter_eq, E.
  - by rewrite lookup_alter_ne.
Qed.

(** X17. A workflow that was detached cannot be executed until it is
    attached again: after [detachWorkflow] returned true, [executeWorkflow]
    throws "Workflow not available" and changes nothing, and
    [attachWorkflow] gives back the agent as it was when the workflow was
    attached before. After [unregisterWorkflow], [executeWorkflow] throws
    "Workflow not found". For an id that names no workflow the three methods
    return false and change nothing. *)
Theorem detachWorkflow_blocks (uuid : string) (now : Z) (wid : string) (ctx : JsObj)
    (s : WorkflowPlannerAgent) :
  match workflows s !! wid with
  | None =>
      detachWorkflow wid s = (Returns false, s)
      ∧ attachWorkflow wid s = (Returns false, s)
      ∧ unregisterWorkflow wid s = (Returns false, s)
  | Some w =>
      let s1 := snd (detachWorkflow wid s) in
      let s2 := snd (unregisterWorkflow wid s) in
      fst (detachWorkflow wid s) = Returns true
      ∧ executeWorkflow uuid now wid ctx s1
        = (Throws ("Workflow not available: " +:+ wid), s1)
      ∧ fst (attachWorkflow wid s1) = Returns true
      ∧ (attached w = true → snd (attachWorkflow wid s1) = s)
      ∧ fst (unregisterWorkflow wid s) = Returns true
      ∧ executeWorkflow uuid now wid ctx s2 = (Throws ("Workflow not found: " +:+ wid), s2)
  end.
Proof.
  destruct (workflows s !! wid) as [w|] eqn:E.
  - simpl.
    assert (H1 : workflows (snd (detachWorkflow wid s)) !! wid = Some (set_attached false w)).
    { rewrite detach_workflows, lookup_alter_eq, E. done. }
    split; [|split; [|split; [|split; [|split]]]].
    + unfold detachWorkflow, bind, gets, getWorkflow. by rewrite E.
    + unfold executeWorkflow, bind, gets. by rewrite H1.
    + unfold attachWorkflow, bind, gets, getWorkflow. by rewrite H1.
    + intros Hatt. unfold attachWorkflow, bind, gets, getWorkflow. rewrite H1.
      unfold detachWorkflow, bind, gets, getWorkflow, modify, ret, with_workflows.
      rewrite E. simpl. destruct s as [wfs objs ex run em]. simpl in *. f_equal.
      apply map_eq. intros j. destruct (decide (j = wid)) as [->|Hne].
      * rewrite !lookup_alter_eq, E. simpl. destruct w. simpl in *. by subst.
      * by rewrite !lookup_alter_ne.
    + unfold unregisterWorkflow, bind, gets, modify, ret. by rewrite E.
    + unfold executeWorkflow, bind, gets.
      unfold unregisterWorkflow, bind, gets, modify, ret. simpl.
      by rewrite lookup_delete_eq.
  - split; [|split].
    + unfold detachWorkflow, bind, gets, getWorkflow. by rewrite E.
    + unfold attachWorkflow, bind, gets, getWorkflow. by rewrite E.
    + unfold unregisterWorkflow, bind, gets, modify, ret. rewrite E. simpl.
      f_equal. destruct s as [wfs objs ex run em]. unfold with_workflows. simpl in *.
      f_equal. by apply delete_id.
Qed.

(** *** The end of a run *)

Lemma runWorkflow_finish (fuel depth : nat) (env : Env) (later : Z)
    (w : WorkflowDefinition) (i : string) :
  runWorkflow fuel depth env later w i
  = (let! wfs := gets workflows in
     on_execution i (stepLoop fuel depth env wfs (steps w) (step_id <$> head (steps w))) ;;;
     finish later w i).
Proof. done. Qed.

Lemma executions_get_objects (i : string) (s : WorkflowPlannerAgent) (e : WorkflowExecution) :
  executions_get i s = Some e → i ∈ executions s ∧ objects s !! i = Some e.
Proof. unfold executions_get. by case_bool_decide. Qed.

(** The lines after the loop, on an execution that is not running. *)
Lemma finish_stopped (later : Z) (w : WorkflowDefinition) (i : string)
    (s : WorkflowPlannerAgent) (e : WorkflowExecution) :
  objects s !! i = Some e → status e ≠ running →
  ∃ s', finish later w i s = (Returns tt, s')
        ∧ objects s' = <[i := set_endTime later e]> (objects s)
        ∧ runningExecutions s' = runningExecutions s ∖ {[i]}
        ∧ executions s' = executions s
        ∧ workflows s' = workflows s
        ∧ emitted s'
          = emitted s ++ [Agent.Log Agent.info "WorkflowPlannerAgent"
                            ("Workflow " +:+ match status e with
                                             | pending => "pending"
                                             | running => "running"
                                             | completed => "completed"
                                             | failed => "failed"
                                             | paused => "paused"
                                             end +:+ ": " +:+ wf_name w)].
Proof.
  intros Hobj Hst. unfold finish.
  unfold bind, on_execution, gets, modify, effect, say, effect, modify, ret,
    with_objects, with_running. simpl.
  rewrite Hobj. simpl. rewrite bool_decide_eq_false_2 by done. simpl.
  repeat (progress (rewrite ?lookup_insert_eq; simpl)).
  eexists. split; [done|]. simpl.
  rewrite !insert_insert_eq. done.
Qed.

(** The lines after the loop, on an execution that is still running. *)
Lemma finish_running (later : Z) (w : WorkflowDefinition) (i : string)
    (s : WorkflowPlannerAgent) (e : WorkflowExecution) :
  objects s !! i = Some e → status e = running →
  ∃ s', finish later w i s = (Returns tt, s')
        ∧ objects s' = <[i := set_endTime later (set_status completed e)]> (objects s)
        ∧ runningExecutions s' = runningExecutions s ∖ {[i]}
        ∧ executions s' = executions s
        ∧ workflows s' = workflows s
        ∧ emitted s'
          = emitted s ++ [Agent.Emit (Agent.workflow_completed (wf_id w) i);
                          Agent.Log Agent.info "WorkflowPlannerAgent"
                            ("Workflow completed: " +:+ wf_name w)].
Proof.
  intros Hobj Hst. unfold finish.
  unfold bind, on_execution, gets, modify, effect, say, effect, modify, ret,
    with_objects, with_running. simpl.
  rewrite Hobj. simpl. rewrite bool_decide_eq_true_2 by done. simpl.
  repeat (progress (rewrite ?lookup_insert_eq; simpl)).
  eexists. split; [done|]. simpl.
  rewrite !insert_insert_eq, <- app_assoc. done.
Qed.

(** A run whose loop ends on [ef]. *)
Lemma runWorkflow_ends (fuel depth : nat) (env : Env) (later : Z)
    (w : WorkflowDefinition) (i : string) (s : WorkflowPlannerAgent)
    (e0 ef : WorkflowExecution) :
  objects s !! i = Some e0 →
  stepLoop fuel depth env (workflows s) (steps w) (step_id <$> head (steps w)) e0
    = (Returns tt, ef) →
  runWorkflow fuel depth env later w i s
  = finish later w i (with_objects <[i := ef]> s).
Proof.
  intros Hobj Hloop. rewrite runWorkflow_finish.
  unfold bind at 1. unfold gets at 1. unfold bind at 1. unfold on_execution at 1.
  by rewrite Hobj, Hloop.
Qed.

(** *** The launch *)

Lemma on_execution_run {A} (i : string) (m : M WorkflowExecution A)
    (s : WorkflowPlannerAgent) (e : WorkflowExecution) :
  objects s !! i = Some e →
  on_execution i m s = (fst (m e), with_objects <[i := snd (m e)]> s).
Proof. intros Hobj. unfold on_execution. rewrite Hobj. by destruct (m e). Qed.

Lemma for_each_context_only {A} (l : list A) (body : A → M WorkflowExecution unit) :
  (∀ x, context_only (body x)) → context_only (Supervisor.for_each l body).
Proof.
  intros Hbody. induction l as [|x l IH]; simpl.
  - apply WorkflowProofs.context_only_ret.
  - by apply WorkflowProofs.context_only_bind.
Qed.

(** The beginning of a step writes to the context only and does not throw. *)
Lemma stepBegins_context_only (depth : nat) (wfs : gmap string WorkflowDefinition)
    (step : WorkflowStep) :
  context_only (stepBegins depth wfs step).
Proof.
  revert step. induction depth as [|depth IH]; intros step; simpl.
  - apply WorkflowProofs.context_only_diverge.
  - destruct (step_type step); try apply WorkflowProofs.context_only_ret.
    destruct (obj_read "items" (config step)); try apply WorkflowProofs.context_only_ret.
    apply WorkflowProofs.context_only_bind; [apply WorkflowProofs.context_only_gets|].
    intros items. destruct (iterate items) as [l|]; [|apply WorkflowProofs.context_only_ret].
    apply WorkflowProofs.context_only_bind; [apply WorkflowProofs.context_only_gets|].
    intros wid.
    destruct (match wfs !! wid with Some _ => _ | None => _ end) as [inner|].
    + destruct l as [|item l]; [apply WorkflowProofs.context_only_ret|].
      apply WorkflowProofs.context_only_bind; [apply WorkflowProofs.context_only_set|].
      intros _. apply IH.
    + apply for_each_context_only. intros item. apply WorkflowProofs.context_only_set.
Qed.

Lemma for_each_set_returns (l : list JsVal) (e : WorkflowExecution) :
  fst (Supervisor.for_each l (λ item, modify (set_context "currentItem" item)) e)
  = Returns tt.
Proof.
  revert e. induction l as [|item l IH]; intros e; [done|].
  simpl. unfold bind, modify. simpl. apply IH.
Qed.

Lemma stepBegins_no_throw (depth : nat) (wfs : gmap string WorkflowDefinition)
    (step : WorkflowStep) (e : WorkflowExecution) (message : string) :
  fst (stepBegins depth wfs step e) ≠ Throws message.
Proof.
  revert step e. induction depth as [|depth IH]; intros step e; simpl; [done|].
  destruct (step_type step); try done.
  destruct (obj_read "items" (config step)); try done.
  unfold bind, gets. simpl.
  destruct (iterate (resolveValue s e)) as [l|]; [|done].
  destruct (match wfs !! workflowId e with Some _ => _ | None => _ end) as [inner|].
  - destruct l as [|item l]; [done|]. unfold modify. simpl. apply IH.
  - by rewrite for_each_set_returns.
Qed.

(** The first step of a workflow is in the map of its steps under its id. *)
Lemma stepMap_get_head (l : list WorkflowStep) (x : WorkflowStep) :
  head l = Some x → ∃ step, stepMap_get l (step_id x) = Some step.
Proof.
  intros Hx. unfold stepMap_get.
  destruct (List.find _ (reverse l)) as [step|] eqn:E; [eauto|].
  exfalso. pose proof (List.find_none _ _ E x) as Hnone. simpl in Hnone.
  rewrite String.eqb_refl in Hnone. discriminate Hnone.
  apply list_elem_of_In, elem_of_reverse. destruct l; [done|].
  injection Hx as ->. left.
Qed.

(** X16. [executeWorkflow] on an id that names no workflow throws "Workflow
    not found", and on a workflow that is detached or disabled "Workflow not
    available"; in both cases the agent is as it was: no execution is made
    and no event is emitted. On a workflow that is attached and enabled it
    makes an execution, stores it under its id, counts it among the running
    ones, emits the started event and calls [runWorkflow], which runs up to
    its first [await] before the method reaches its [return]; the
    workflows and the other executions are as they were. When the workflow
    has no first step with an id that is not empty, the loop is not entered
    and the run is over by then: the execution that is returned is
    completed and has its end time, it is not among the running ones, and
    the completed event was emitted after the started one. Otherwise the
    first step has begun: the execution that is returned is running and
    stands at the first step, it is among the running ones, and nothing
    but the context was written, and that by a loop step only. *)
Theorem executeWorkflow_availability (depth : nat) (uuid : string) (now later : Z)
    (wid : string) (ctx : JsObj) (s : WorkflowPlannerAgent) :
  let r := executeWorkflow_returns (S depth) uuid now later wid ctx s in
  match workflows s !! wid with
  | None => r = (Throws ("Workflow not found: " +:+ wid), s)
  | Some w =>
      if attached w && enabled w
      then
        let e0 := newExecution uuid now w wid ctx in
        let started :=
          [Agent.Emit (Agent.workflow_started wid uuid);
           Agent.Log Agent.info "WorkflowPlannerAgent"
             ("Started workflow: " +:+ wf_name w +:+ " (" +:+ uuid +:+ ")")] in
        workflows (snd r) = workflows s
        ∧ (∀ j, j ≠ uuid → executions_get j (snd r) = executions_get j s)
        ∧ match present (step_id <$> head (steps w)) with
          | None =>
              let e1 := set_endTime later (set_status completed e0) in
              fst r = Returns e1
              ∧ executions_get uuid (snd r) = Some e1
              ∧ (uuid ∉ runningExecutions (snd r))
              ∧ emitted (snd r)
                = emitted s ++ started
                  ++ [Agent.Emit (Agent.workflow_completed (wf_id w) uuid);
                      Agent.Log Agent.info "WorkflowPlannerAgent"
                        ("Workflow completed: " +:+ wf_name w)]
          | Some i =>
              ∃ step, stepMap_get (steps w) i = Some step
                ∧ status e0 = running
                ∧ currentStep e0 = Some i
                ∧ let begun := stepBegins (S depth) (workflows s) step e0 in
                  (step_type step ≠ loop_step → begun = (Returns tt, e0))
                  ∧ (∃ c, snd begun = with_context c e0)
                  ∧ uuid ∈ runningExecutions (snd r)
                  ∧ emitted (snd r) = emitted s ++ started
                  ∧ match fst begun with
                    | Returns _ =>
                        fst r = Returns (snd begun)
                        ∧ executions_get uuid (snd r) = Some (snd begun)
                    | Throws _ => False
                    | OutOfFuel => fst r = OutOfFuel
                    end
          end
      else r = (Throws ("Workflow not available: " +:+ wid), s)
  end.
Proof.
  intros r.
  destruct (workflows s !! wid) as [w|] eqn:Hw.
  2: { subst r. unfold executeWorkflow_returns, executeWorkflow, bind, gets.
       by rewrite Hw. }
  destruct (attached w) eqn:Hatt, (enabled w) eqn:Hen; cbn [andb].
  2-4: subst r; unfold executeWorkflow_returns, executeWorkflow, bind, gets;
       by rewrite Hw, Hatt, Hen.
  cbv zeta.
  set (e0 := newExecution uuid now w wid ctx).
  pose (s1 := {| workflows := workflows s;
                 objects := <[uuid := e0]> (objects s);
                 executions := {[uuid]} ∪ executions s;
                 runningExecutions := {[uuid]} ∪ runningExecutions s;
                 emitted := (emitted s ++ [Agent.Emit (Agent.workflow_started wid uuid)])
                            ++ [Agent.Log Agent.info "WorkflowPlannerAgent"
                                  ("Started workflow: " +:+ wf_name w +:+ " ("
                                   +:+ uuid +:+ ")")] |}).
  assert (Hstart : executeWorkflow uuid now wid ctx s = (Returns (w, e0), s1)).
  { unfold executeWorkflow, bind, gets. by rewrite Hw, Hatt, Hen. }
  assert (Hobj1 : objects s1 !! uuid = Some e0) by (simpl; by rewrite lookup_insert_eq).
  pose (s2 := with_objects <[uuid := e0]> s1).
  assert (Hobj2 : objects s2 !! uuid = Some e0) by (simpl; by rewrite lookup_insert_eq).
  assert (Hlaunch : launch (S depth) later w uuid s1
                    = match beginStep (steps w) (step_id <$> head (steps w)) e0 with
                      | Some (step, e1) =>
                          on_execution uuid
                            (modify (λ _, e1) ;;;
                             stepBegins (S depth) (workflows s) step) s2
                      | None => finish later w uuid s2
                      end).
  { unfold launch. unfold bind at 1. unfold gets at 1. unfold bind at 1.
    rewrite (on_execution_run uuid _ s1 e0 Hobj1). unfold gets. cbn [fst snd].
    by destruct (beginStep _ _ e0) as [[step e1]|]. }
  assert (Hr : r = bind (launch (S depth) later w uuid)
                     (λ _, on_execution uuid (gets (λ e, e))) s1).
  { subst r. unfold executeWorkflow_returns. unfold bind at 1. by rewrite Hstart. }
  unfold bind at 1 in Hr. rewrite Hlaunch in Hr.
  clearbody r.
  assert (Hother : ∀ (s' : WorkflowPlannerAgent) j,
            j ≠ uuid → executions s' = executions s1 →
            (∀ k, k ≠ uuid → objects s' !! k = objects s !! k) →
            executions_get j s' = executions_get j s).
  { intros s' j Hj Hex Hobjs. unfold executions_get. rewrite Hex, (Hobjs j Hj). simpl.
    rewrite (bool_decide_ext (j ∈ {[uuid]} ∪ executions s) (j ∈ executions s)); [done|].
    rewrite elem_of_union, elem_of_singleton. split; [|by right].
    intros [?|?]; [congruence | done]. }
  unfold beginStep in Hr.
  destruct (present (step_id <$> head (steps w))) as [i|] eqn:Hfirst.
  - (* The first step begins. *)
    assert (Hhead : ∃ x, head (steps w) = Some x ∧ step_id x = i).
    { destruct (head (steps w)) as [x|]; [|done]. simpl in Hfirst.
      destruct (String.eqb (step_id x) ""); [done|]. injection Hfirst as <-. eauto. }
    destruct Hhead as (x & Hx & Hi).
    destruct (stepMap_get_head (steps w) x Hx) as [step Hstep]. rewrite Hi in Hstep.
    rewrite bool_decide_eq_true_2 in Hr by done. rewrite Hstep in Hr.
    assert (Hcur : set_currentStep i e0 = e0).
    { subst e0. unfold newExecution, set_currentStep. simpl. by rewrite Hx, <- Hi. }
    rewrite Hcur in Hr.
    rewrite (on_execution_run uuid _ s2 e0 Hobj2) in Hr.
    assert (Hm : (modify (λ _ : WorkflowExecution, e0) ;;;
                  stepBegins (S depth) (workflows s) step) e0
                 = stepBegins (S depth) (workflows s) step e0) by done.
    rewrite Hm in Hr.
    destruct (stepBegins_context_only (S depth) (workflows s) step e0) as [c Hc].
    pose proof (stepBegins_no_throw (S depth) (workflows s) step e0) as Hno.
    assert (Hplain : step_type step ≠ loop_step →
                     stepBegins (S depth) (workflows s) step e0 = (Returns tt, e0)).
    { intros Hty. simpl. by destruct (step_type step). }
    destruct (stepBegins (S depth) (workflows s) step e0) as [rb eb] eqn:Hbegun.
    cbn [fst snd] in *.
    pose (s3 := with_objects <[uuid := eb]> s2).
    destruct rb as [[]|message|].
    + rewrite (on_execution_run uuid _ s3 eb) in Hr by (simpl; by rewrite lookup_insert_eq).
      rewrite Hr. cbn [fst snd]. split; [done|]. split.
      { intros j Hj. apply Hother; [done | done |].
        intros k Hk. simpl. by rewrite !lookup_insert_ne. }
      exists step. rewrite Hbegun. cbn [fst snd]. split; [done|]. split; [done|].
      split; [by rewrite <- Hcur|].
      split; [done|]. split; [by exists c|].
      split; [simpl; apply elem_of_union; left; by apply elem_of_singleton|].
      split; [simpl; by rewrite <- app_assoc|].
      split; [done|]. unfold executions_get. simpl.
      rewrite bool_decide_eq_true_2
        by (apply elem_of_union; left; by apply elem_of_singleton).
      by rewrite lookup_insert_eq.
    + by destruct (Hno message).
    + rewrite Hr. cbn [fst snd]. split; [done|]. split.
      { intros j Hj. apply Hother; [done | done |].
        intros k Hk. simpl. by rewrite !lookup_insert_ne. }
      exists step. rewrite Hbegun. cbn [fst snd]. split; [done|]. split; [done|].
      split; [by rewrite <- Hcur|].
      split; [done|]. split; [by exists c|].
      split; [simpl; apply elem_of_union; left; by apply elem_of_singleton|].
      split; [simpl; by rewrite <- app_assoc|]. done.
  - (* The loop is not entered. *)
    destruct (finish_running later w uuid s2 e0 Hobj2)
      as (s3 & Hfin & Hobjs & Hrunning & Hex & Hwfs & Hem); [done|].
    rewrite Hfin in Hr.
    rewrite (on_execution_run uuid _ s3 (set_endTime later (set_status completed e0)))
      in Hr by (rewrite Hobjs; by rewrite lookup_insert_eq).
    rewrite Hr. cbn [fst snd gets]. split; [done|]. split.
    { intros j Hj. apply Hother; [done | done |].
      intros k Hk. simpl. rewrite lookup_insert_ne by done. rewrite Hobjs.
      simpl. by rewrite !lookup_insert_ne. }
    split; [done|]. split.
    { unfold executions_get. simpl. rewrite Hex. simpl.
      rewrite bool_decide_eq_true_2
        by (apply elem_of_union; left; by apply elem_of_singleton).
      by rewrite lookup_insert_eq. }
    split.
    { simpl. rewrite Hrunning. intros [_ Hn]%elem_of_difference. apply Hn.
      by apply elem_of_singleton. }
    simpl. rewrite Hem. simpl. by rewrite <- !app_assoc.
Qed.

(** A workflow without steps is completed when [executeWorkflow] returns;
    "abc" stands at its first step then. *)
Example executeWorkflow_idle :
  let r := executeWorkflow_returns 1 "x1" 0 9 "idle" [] (snd (registerWorkflow idle planner)) in
  fst r = Returns (set_endTime 9 (set_status completed (newExecution "x1" 0 idle "idle" [])))
  ∧ omap (λ x, match x with Agent.Emit e => Some e | _ => None end) (emitted (snd r))
    = [Agent.workflow_started "idle" "x1"; Agent.workflow_completed "idle" "x1"].
Proof. by vm_compute. Qed.

Example executeWorkflow_abc :
  let r := executeWorkflow_returns 1 "x1" 0 9 "abc" [] abcPlanner in
  fst r = Returns (newExecution "x1" 0 abc "abc" [])
  ∧ omap (λ x, match x with Agent.Emit e => Some e | _ => None end) (emitted (snd r))
    = [Agent.workflow_started "abc" "x1"].
Proof. by vm_compute. Qed.

(** *** Pausing and resuming *)

Lemma afterStep_not_running (env : Env) (step : WorkflowStep) (outcome : Run JsVal)
    (e : WorkflowExecution) :
  status e ≠ running → status (snd (afterStep env step outcome e)) ≠ running.
Proof.
  intros Hst. destruct outcome as [v|msg|]; simpl; [| |done].
  - unfold bind, modify, gets, ret. simpl.
    destruct (next step) as [|j|ids]; simpl; [done| |done].
    by destruct (String.eqb j "").
  - unfold bind, modify, ret. simpl.
    destruct (next step) as [|j|ids]; simpl; [done| |done].
    by destruct (String.eqb j "").
Qed.

(** X18. [pauseExecution] on a running execution returns true and sets the
    status paused. From then on the run does not begin another step: the
    step that is under way ends and is recorded, the loop is left at its
    next test, and the lines after the loop set the end time, take the
    execution off the running ones and log the end, without the completed
    event. A paused execution can be neither paused nor cancelled:
    both calls return false and change nothing. *)
Theorem pauseExecution_stops_run (i : string) (s : WorkflowPlannerAgent)
    (e : WorkflowExecution) (w : WorkflowDefinition) (fuel depth : nat) (env : Env)
    (now later : Z) :
  executions_get i s = Some e → status e = running →
  let s1 := snd (pauseExecution i s) in
  fst (pauseExecution i s) = Returns true
  ∧ executions_get i s1 = Some (set_status paused e)
  ∧ (∀ c step outcome l cur,
       beginStep l cur
         (snd (afterStep env step outcome (with_context c (set_status paused e))))
       = None)
  ∧ (∀ wfs l cur e', status e' ≠ running →
       stepLoop (S fuel) depth env wfs l cur e' = (Returns tt, e'))
  ∧ (∃ s2, finish later w i s1 = (Returns tt, s2)
           ∧ executions_get i s2 = Some (set_endTime later (set_status paused e))
           ∧ (i ∉ runningExecutions s2)
           ∧ emitted s2
             = emitted s1 ++ [Agent.Log Agent.info "WorkflowPlannerAgent"
                                ("Workflow paused: " +:+ wf_name w)])
  ∧ cancelExecution i now s1 = (Returns false, s1)
  ∧ pauseExecution i s1 = (Returns false, s1).
Proof.
  intros Hget Hrun.
  destruct (executions_get_objects i s e Hget) as [Hin Hobj].
  assert (Hs1 : pauseExecution i s
                = (Returns true,
                   snd (say Agent.info ("Paused execution: " +:+ i)
                          (with_objects <[i := set_status paused e]> s)))).
  { unfold pauseExecution, bind, gets. rewrite Hget.
    rewrite bool_decide_eq_true_2 by done.
    unfold on_execution, modify, say, effect, modify, ret. simpl. by rewrite Hobj. }
  rewrite Hs1. simpl.
  set (s1 := {| workflows := workflows s |}).
  assert (Hobj1 : objects s1 !! i = Some (set_status paused e))
    by (subst s1; simpl; by rewrite lookup_insert_eq).
  assert (Hget1 : executions_get i s1 = Some (set_status paused e)).
  { unfold executions_get. subst s1. simpl. rewrite bool_decide_eq_true_2 by done.
    by rewrite lookup_insert_eq. }
  split; [done|]. split; [done|]. split; [|split; [|split; [|split]]].
  - intros. apply WorkflowProofs.beginStep_not_running.
    by apply afterStep_not_running.
  - intros. by apply WorkflowProofs.stepLoop_not_running.
  - destruct (finish_stopped later w i s1 (set_status paused e) Hobj1)
      as (s2 & Hfin & Hobjs & Hrunning & Hex & _ & Hem); [done|].
    exists s2. split; [done|]. split; [|split; [|done]].
    + unfold executions_get. rewrite Hex, Hobjs.
      rewrite bool_decide_eq_true_2 by done. by rewrite lookup_insert_eq.
    + rewrite Hrunning. intros [_ Hn]%elem_of_difference. apply Hn.
      by apply elem_of_singleton.
  - unfold cancelExecution, bind, gets. rewrite Hget1. done.
  - unfold pauseExecution, bind, gets. rewrite Hget1. done.
Qed.

Lemma pauseExecution_stops_run_witness :
  let s := snd (executeWorkflow "x1" 0 "abc" [] abcPlanner) in
  let e := newExecution "x1" 0 abc "abc" [] in
  let s1 := snd (pauseExecution "x1" s) in
  fst (pauseExecution "x1" s) = Returns true
  ∧ executions_get "x1" s1 = Some (set_status paused e)
  ∧ (∀ c step outcome l cur,
       beginStep l cur
         (snd (afterStep obliging step outcome (with_context c (set_status paused e))))
       = None)
  ∧ (∀ wfs l cur e', status e' ≠ running →
       stepLoop (S 0) 1 obliging wfs l cur e' = (Returns tt, e'))
  ∧ (∃ s2, finish 9 abc "x1" s1 = (Returns tt, s2)
           ∧ executions_get "x1" s2 = Some (set_endTime 9 (set_status paused e))
           ∧ ("x1" ∉ runningExecutions s2)
           ∧ emitted s2
             = emitted s1 ++ [Agent.Log Agent.info "WorkflowPlannerAgent"
                                ("Workflow paused: " +:+ wf_name abc)])
  ∧ cancelExecution "x1" 5 s1 = (Returns false, s1)
  ∧ pauseExecution "x1" s1 = (Returns false, s1).
Proof.
  apply (pauseExecution_stops_run "x1" (snd (executeWorkflow "x1" 0 "abc" [] abcPlanner))
           (newExecution "x1" 0 abc "abc" []) abc 0 1 obliging 5 9).
  - by vm_compute.
  - done.
Defined.

(** X19. [resumeExecution] on a paused execution returns true, sets the
    status running and launches a run of the workflow. That run starts at
    the first step of the workflow, not at the step at which the execution
    stood, and works on the results and errors gathered so far; when its
    loop ends with the execution still running, the execution is completed
    and the completed event is emitted. The call does not count the
    execution among the running ones. On an execution that is not paused,
    or on an id without execution, it returns false and changes nothing. *)
Theorem resumeExecution_restarts (fuel depth : nat) (env : Env) (later : Z) (i : string)
    (s : WorkflowPlannerAgent) (e ef : WorkflowExecution) (w : WorkflowDefinition) :
  executions_get i s = Some e → status e = paused →
  workflows s !! workflowId e = Some w →
  stepLoop fuel depth env (workflows s) (steps w) (step_id <$> head (steps w))
    (set_status running e) = (Returns tt, ef) →
  status ef = running →
  runningExecutions (snd (resumeExecution i s)) = runningExecutions s
  ∧ executions_get i (snd (resumeExecution i s)) = Some (set_status running e)
  ∧ ∃ s', resumeExecution_run fuel depth env later i s = (Returns true, s')
          ∧ executions_get i s' = Some (set_endTime later (set_status completed ef))
          ∧ (i ∉ runningExecutions s')
          ∧ Agent.Emit (Agent.workflow_completed (wf_id w) i) ∈ emitted s'
          ∧ ∀ j s0, (∀ e0, executions_get j s0 = Some e0 → status e0 ≠ paused) →
                    resumeExecution j s0 = (Returns (false, None), s0)
                    ∧ resumeExecution_run fuel depth env later j s0 = (Returns false, s0).
Proof.
  intros Hget Hpaused Hw Hloop Hrun.
  assert (Hrefused : ∀ j s0, (∀ e0, executions_get j s0 = Some e0 → status e0 ≠ paused) →
                             resumeExecution j s0 = (Returns (false, None), s0)
                             ∧ resumeExecution_run fuel depth env later j s0
                               = (Returns false, s0)).
  { intros j s0 Hnot.
    assert (E : resumeExecution j s0 = (Returns (false, None), s0)).
    { unfold resumeExecution, bind, gets.
      destruct (executions_get j s0) as [e0|] eqn:Hj; [|done].
      by rewrite bool_decide_eq_false_2 by (by apply Hnot). }
    split; [done|]. unfold resumeExecution_run, bind. by rewrite E. }
  destruct (executions_get_objects i s e Hget) as [Hin Hobj].
  set (s1 := snd (say Agent.info ("Resumed execution: " +:+ i)
                    (with_objects <[i := set_status running e]> s))).
  assert (Hres : resumeExecution i s = (Returns (true, Some w), s1)).
  { unfold resumeExecution, bind, gets. rewrite Hget.
    rewrite bool_decide_eq_true_2 by done.
    unfold on_execution, modify, say, effect, modify, ret, getWorkflow. simpl.
    rewrite Hobj. simpl. by rewrite Hw. }
  assert (Hobj1 : objects s1 !! i = Some (set_status running e))
    by (subst s1; simpl; by rewrite lookup_insert_eq).
  rewrite Hres. simpl fst. simpl snd. split; [done|]. split.
  { unfold executions_get. subst s1. simpl. rewrite bool_decide_eq_true_2 by done.
    by rewrite lookup_insert_eq. }
  unfold resumeExecution_run. unfold bind at 1. rewrite Hres.
  unfold bind at 1.
  rewrite (runWorkflow_ends fuel depth env later w i s1 (set_status running e) ef Hobj1)
    by exact Hloop.
  set (s2 := with_objects <[i := ef]> s1).
  destruct (finish_running later w i s2 ef) as (s3 & -> & Hobjs & Hrunning & Hex & _ & Hem);
    [subst s2; simpl; by rewrite lookup_insert_eq | done |].
  exists s3. unfold ret. split; [done|]. split; [|split; [|split]].
  - unfold executions_get. rewrite Hex, Hobjs.
    rewrite bool_decide_eq_true_2 by done. by rewrite lookup_insert_eq.
  - rewrite Hrunning. intros [_ Hn]%elem_of_difference. apply Hn.
    by apply elem_of_singleton.
  - rewrite Hem. apply elem_of_app. right. left.
  - exact Hrefused.
Qed.

Lemma resumeExecution_restarts_witness :
  runningExecutions (snd (resumeExecution "x1" pausedAbc)) = runningExecutions pausedAbc
  ∧ executions_get "x1" (snd (resumeExecution "x1" pausedAbc))
    = Some (set_status running (set_status paused (newExecution "x1" 0 abc "abc" [])))
  ∧ ∃ s', resumeExecution_run 3 1 obliging 9 "x1" pausedAbc = (Returns true, s')
          ∧ executions_get "x1" s'
            = Some (set_endTime 9
                      (set_status completed
                         (snd (stepLoop 3 1 obliging (workflows pausedAbc) (steps abc)
                                 (Some "A")
                                 (set_status running
                                    (set_status paused (newExecution "x1" 0 abc "abc" [])))))))
          ∧ ("x1" ∉ runningExecutions s')
          ∧ Agent.Emit (Agent.workflow_completed (wf_id abc) "x1") ∈ emitted s'
          ∧ ∀ j s0, (∀ e0, executions_get j s0 = Some e0 → status e0 ≠ paused) →
                    resumeExecution j s0 = (Returns (false, None), s0)
                    ∧ resumeExecution_run 3 1 obliging 9 j s0 = (Returns false, s0).
Proof.
  apply (resumeExecution_restarts 3 1 obliging 9 "x1" pausedAbc
           (set_status paused (newExecution "x1" 0 abc "abc" []))
           (snd (stepLoop 3 1 obliging (workflows pausedAbc) (steps abc) (Some "A")
                   (set_status running
                      (set_status paused (newExecution "x1" 0 abc "abc" [])))))
           abc).
  - by vm_compute.
  - done.
  - by vm_compute.
  - by vm_compute.
  - by vm_compute.
Defined.

(** *** Steps that lead nowhere, and steps that lead to themselves *)



(** X21. The loop has no guard against a cycle: when a step that succeeds
    names itself as the next one, the loop goes from the step to the step
    for as long as the execution is running, and no number of rounds sees
    it end. *)
Theorem self_loop_never_ends (depth : nat) (env : Env) (wfs : gmap string WorkflowDefinition)
    (l : list WorkflowStep) (A : WorkflowStep) (fuel : nat) (e : WorkflowExecution) :
  step_id A ≠ "" → stepMap_get l (step_id A) = Some A →
  next A = next_id (step_id A) →
  succeeds depth env wfs A →
  status e = running →
  fst (stepLoop fuel depth env wfs l (Some (step_id A)) e) = OutOfFuel.
Proof.
  intros HA HmA Hnext Hok. revert e. induction fuel as [|fuel IH]; intros e Hrun; [done|].
  destruct (WorkflowProofs.round_success fuel depth env wfs l A e HA Hrun HmA
              (step_id A) Hok Hnext HA) as (v & c & ->).
  by apply IH.
Qed.

Lemma self_loop_never_ends_witness :
  fst (stepLoop 50 1 obliging (workflows planner) (steps again) (Some "A")
         (newExecution "x1" 0 again "again" []))
  = OutOfFuel.
Proof.
  apply (self_loop_never_ends 1 obliging (workflows planner) (steps again)
           (mkStep "A" "Once more" agent_step [("task", VStr "a")] (next_id "A")) 50
           (newExecution "x1" 0 again "again" [])); try done.
  intros e. by eexists.
Defined.

(** *** Paths and parameters *)

Lemma append_empty (s : string) : s +:+ "" = s.
Proof.
  induction s as [|c s IH]; [done|].
  change (String c (s +:+ "") = String c s). by rewrite IH.
Qed.

Lemma append_assoc (s1 s2 s3 : string) : (s1 +:+ s2) +:+ s3 = s1 +:+ (s2 +:+ s3).
Proof.
  induction s1 as [|c s1 IH]; [done|].
  change (String c ((s1 +:+ s2) +:+ s3) = String c (s1 +:+ (s2 +:+ s3))). by rewrite IH.
Qed.

Lemma split_dot_free (s : string) :
  dot_free s → ∀ cur, split_dot s cur = [cur +:+ s].
Proof.
  unfold dot_free. induction s as [|c s IH]; intros Hfree cur; simpl.
  - by rewrite append_empty.
  - simpl in Hfree. apply Forall_cons in Hfree as [Hc Hfree].
    rewrite (proj2 (Ascii.eqb_neq c "."%char)) by done.
    rewrite (IH Hfree). rewrite append_assoc. done.
Qed.

Lemma split_dot_part (p rest : string) :
  dot_free p → ∀ cur, split_dot (p +:+ "." +:+ rest) cur = (cur +:+ p) :: split_dot rest "".
Proof.
  unfold dot_free. induction p as [|c p IH]; intros Hfree cur.
  - change ("" +:+ "." +:+ rest) with (String "."%char rest). simpl.
    by rewrite append_empty.
  - change (String c p +:+ "." +:+ rest) with (String c (p +:+ "." +:+ rest)).
    simpl in Hfree. apply Forall_cons in Hfree as [Hc Hfree]. simpl.
    rewrite (proj2 (Ascii.eqb_neq c "."%char)) by done.
    rewrite (IH Hfree). rewrite append_assoc. done.
Qed.

(** Splitting at the dots a path that was put together with dots gives its
    parts. *)
Lemma split_dot_join (parts : list string) :
  Forall dot_free parts → parts ≠ [] → split_dot (join_dot parts) "" = parts.
Proof.
  induction parts as [|p [|q ps] IH]; intros Hfree Hne; [done| |].
  - apply Forall_cons in Hfree as [Hp _]. simpl. by rewrite split_dot_free.
  - apply Forall_cons in Hfree as [Hp Hfree].
    change (join_dot (p :: q :: ps)) with (p +:+ "." +:+ join_dot (q :: ps)).
    rewrite split_dot_part by done. simpl append. f_equal. by apply IH.
Qed.

Lemma walk_own_path (parts : list string) :
  ∀ v r, own_path parts v = Some r → walk parts v = r.
Proof.
  induction parts as [|p ps IH]; intros v r Hp; simpl in *; [congruence|].
  destruct v as [| | | | |items|fields]; try done. simpl.
  unfold obj_read. destruct (obj_get p fields) as [x|]; [|done]. simpl. by apply IH.
Qed.

(** X22. A path resolves to the value that its parts lead to: for parts
    without dots, [resolveValue] on "context", or on "results", followed by
    the parts, each after a dot, is the value found by reading the parts one
    after the other as own properties, starting from the context, or from
    the results, of the execution. *)
Theorem resolveValue_own_path (parts : list string) (e : WorkflowExecution) (v : JsVal) :
  Forall dot_free parts →
  (own_path parts (VObj (context e)) = Some v →
   resolveValue (join_dot ("context" :: parts)) e = v)
  ∧ (own_path parts (VObj (results e)) = Some v →
     resolveValue (join_dot ("results" :: parts)) e = v).
Proof.
  intros Hfree.
  assert (Hc : dot_free "context") by (unfold dot_free; simpl; repeat constructor; done).
  assert (Hr : dot_free "results") by (unfold dot_free; simpl; repeat constructor; done).
  split; intros Hp; unfold resolveValue.
  - rewrite split_dot_join; [|by constructor|done].
    apply walk_own_path. simpl. exact Hp.
  - rewrite split_dot_join; [|by constructor|done].
    apply walk_own_path. simpl. exact Hp.
Qed.

Lemma resolveValue_own_path_witness :
  (own_path ["user"; "name"]
     (VObj (context (newExecution "x1" 0 abc "abc"
                       [("user", VObj [("name", VStr "ada")])])))
   = Some (VStr "ada") →
   resolveValue (join_dot ("context" :: ["user"; "name"]))
     (newExecution "x1" 0 abc "abc" [("user", VObj [("name", VStr "ada")])])
   = VStr "ada")
  ∧ (own_path ["user"; "name"]
       (VObj (results (newExecution "x1" 0 abc "abc"
                         [("user", VObj [("name", VStr "ada")])])))
     = Some (VStr "ada") →
     resolveValue (join_dot ("results" :: ["user"; "name"]))
       (newExecution "x1" 0 abc "abc" [("user", VObj [("name", VStr "ada")])])
     = VStr "ada").
Proof.
  apply (resolveValue_own_path ["user"; "name"]
           (newExecution "x1" 0 abc "abc" [("user", VObj [("name", VStr "ada")])])
           (VStr "ada")).
  unfold dot_free. simpl. repeat constructor; done.
Defined.




End ControlProofs.

Module TodoListProofs.
Import Todo TodoList.

(** *** The map of todos *)

Lemma todo_get_elem (i : string) (l : list TodoItem) (t : TodoItem) :
  todo_get i l = Some t → t ∈ l ∧ item_id t = i.
Proof.
  unfold todo_get. intros [Hin Hk]%List.find_some.
  split; [by apply list_elem_of_In | by apply String.eqb_eq].
Qed.

Lemma todo_get_none (i : string) (l : list TodoItem) :
  todo_get i l = None ↔ i ∉ map item_id l.
Proof.
  unfold todo_get. induction l as [|x l IH]; simpl.
  - split; [intros _; apply not_elem_of_nil | done].
  - destruct (String.eqb_spec (item_id x) i) as [E|Hne].
    + split; [done|]. intros Hn. destruct Hn. rewrite E. left.
    + rewrite IH. split.
      * intros Hn [?|?]%elem_of_cons; [congruence | done].
      * intros Hn Hin. apply Hn. by right.
Qed.

Lemma todo_get_keyed (l : list TodoItem) (t : TodoItem) :
  NoDup (map item_id l) → t ∈ l → todo_get (item_id t) l = Some t.
Proof.
  unfold todo_get. induction l as [|x l IH]; intros Hk Hin.
  - by apply elem_of_nil in Hin.
  - simpl in *. apply NoDup_cons in Hk as [Hx Hk].
    apply elem_of_cons in Hin as [->|Hin].
    + by rewrite String.eqb_refl.
    + destruct (String.eqb_spec (item_id x) (item_id t)) as [E|_]; [|auto].
      exfalso. apply Hx. rewrite E. apply list_elem_of_fmap. eauto.
Qed.

Lemma todo_set_ids (t : TodoItem) (l : list TodoItem) :
  map item_id (todo_set t l)
  = (if bool_decide (item_id t ∈ map item_id l)
     then map item_id l else map item_id l ++ [item_id t]).
Proof.
  induction l as [|x l IH]; simpl; [done|].
  destruct (String.eqb_spec (item_id x) (item_id t)) as [E|Hne]; simpl.
  - rewrite bool_decide_eq_true_2 by (rewrite E; left). by rewrite E.
  - rewrite IH. case_bool_decide as Hin.
    + by rewrite bool_decide_eq_true_2 by (by right).
    + rewrite bool_decide_eq_false_2; [done|].
      intros [?|?]%elem_of_cons; congruence.
Qed.

Lemma todo_set_keyed (t : TodoItem) (l : list TodoItem) :
  NoDup (map item_id l) → NoDup (map item_id (todo_set t l)).
Proof.
  intros Hk. rewrite todo_set_ids. case_bool_decide as Hin; [done|].
  apply NoDup_app. split; [done|]. split; [|apply NoDup_singleton].
  intros x Hx ->%list_elem_of_singleton. done.
Qed.

Lemma todo_get_set_eq (t : TodoItem) (l : list TodoItem) :
  todo_get (item_id t) (todo_set t l) = Some t.
Proof.
  unfold todo_get. induction l as [|x l IH]; simpl.
  - by rewrite String.eqb_refl.
  - destruct (String.eqb_spec (item_id x) (item_id t)) as [E|Hne]; simpl.
    + by rewrite String.eqb_refl.
    + by destruct (String.eqb_spec (item_id x) (item_id t)).
Qed.

Lemma todo_get_set_ne (t : TodoItem) (l : list TodoItem) (j : string) :
  j ≠ item_id t → todo_get j (todo_set t l) = todo_get j l.
Proof.
  intros Hj. unfold todo_get. induction l as [|x l IH]; simpl.
  - by destruct (String.eqb_spec (item_id t) j).
  - destruct (String.eqb_spec (item_id x) (item_id t)) as [E|Hne]; simpl.
    + destruct (String.eqb_spec (item_id t) j); [done|].
      by destruct (String.eqb_spec (item_id x) j); [congruence|].
    + by rewrite IH.
Qed.

Lemma todo_get_delete (i j : string) (l : list TodoItem) :
  todo_get j (todo_delete i l) = (if decide (j = i) then None else todo_get j l).
Proof.
  unfold todo_get, todo_delete. induction l as [|x l IH]; simpl.
  - by destruct (decide (j = i)).
  - destruct (decide (item_id x = i)) as [E|Hne].
    + rewrite filter_cons_False by (intros H; by apply H). rewrite IH.
      destruct (decide (j = i)) as [->|Hj]; [done|].
      by destruct (String.eqb_spec (item_id x) j); [congruence|].
    + rewrite filter_cons_True by done. simpl. rewrite IH.
      destruct (String.eqb_spec (item_id x) j) as [E|_]; [|done].
      by destruct (decide (j = i)); [congruence|].
Qed.

Lemma todo_delete_absent (i : string) (l : list TodoItem) :
  i ∉ map item_id l → todo_delete i l = l.
Proof.
  unfold todo_delete. induction l as [|x l IH]; intros Hi; [done|].
  simpl in Hi. apply not_elem_of_cons in Hi as [Hne Hi].
  rewrite filter_cons_True by done. by rewrite IH.
Qed.

(** A todo written over the one that is stored under its id takes its
    place. *)
Lemma todo_set_replace (pre post : list TodoItem) (t u : TodoItem) :
  item_id u = item_id t → item_id t ∉ map item_id pre →
  todo_set u (pre ++ t :: post) = pre ++ u :: post.
Proof.
  intros E. induction pre as [|x pre IH]; intros Hfresh; simpl.
  - by rewrite E, String.eqb_refl.
  - simpl in Hfresh. apply not_elem_of_cons in Hfresh as [Hne Hfresh].
    destruct (String.eqb_spec (item_id x) (item_id u)) as [E'|_]; [congruence|].
    by rewrite IH.
Qed.

Lemma todo_get_middle (pre post : list TodoItem) (t : TodoItem) :
  item_id t ∉ map item_id pre → todo_get (item_id t) (pre ++ t :: post) = Some t.
Proof.
  unfold todo_get. induction pre as [|x pre IH]; intros Hfresh; simpl.
  - by rewrite String.eqb_refl.
  - simpl in Hfresh. apply not_elem_of_cons in Hfresh as [Hne Hfresh].
    destruct (String.eqb_spec (item_id x) (item_id t)) as [E'|_]; [congruence|].
    by apply IH.
Qed.

(** *** The writers, run *)

Lemma addTodo_run (item : Partial) (uuid : string) (now : Z) (w : TodoWorld) :
  addTodo item uuid now w
  = (Returns (made item uuid now),
     {| todos := todo_set (made item uuid now) (todos w);
        log := log w ++ [Agent.Log Agent.info "TodoManagerAgent"
                           ("Added todo: " +:+ title (made item uuid now))] |}).
Proof. done. Qed.

Lemma updateTodo_run (i : string) (updates : Partial) (now : Z) (w : TodoWorld) :
  updateTodo i updates now w
  = match todo_get i (todos w) with
    | Some existing =>
        (Returns (Some (merged existing updates i now)),
         {| todos := todo_set (merged existing updates i now) (todos w);
            log := log w ++ [Agent.Log Agent.info "TodoManagerAgent"
                               ("Updated todo: "
                                +:+ title (merged existing updates i now))] |})
    | None => (Returns None, w)
    end.
Proof.
  unfold updateTodo, bind, gets. by destruct (todo_get i (todos w)).
Qed.

Lemma deleteTodo_run (i : string) (w : TodoWorld) :
  deleteTodo i w
  = (Returns (bool_decide (is_Some (todo_get i (todos w)))),
     {| todos := todo_delete i (todos w); log := log w |}).
Proof. done. Qed.

Lemma updateTodo_ids (i : string) (updates : Partial) (now : Z) (w : TodoWorld) :
  map item_id (todos (snd (updateTodo i updates now w))) = map item_id (todos w).
Proof.
  rewrite updateTodo_run. destruct (todo_get i (todos w)) as [t|] eqn:E; [|done].
  simpl. rewrite todo_set_ids. simpl.
  apply todo_get_elem in E as [Hin <-].
  rewrite bool_decide_eq_true_2; [done|]. apply list_elem_of_fmap. eauto.
Qed.

(** *** Reminders *)

Lemma reminded_id (now stamp : Z) (t : TodoItem) : item_id (reminded now stamp t) = item_id t.
Proof. unfold reminded. by destruct (decide _). Qed.

Lemma reminded_not_due (now stamp : Z) (t : TodoItem) : ¬ due now (reminded now stamp t).
Proof.
  unfold reminded. destruct (decide (due now t)) as [Hd|Hn]; [|done].
  intros [_ (r & Hr & _)]. done.
Qed.

Lemma remind_not_due (now stamp : Z) (t : TodoItem) (w : TodoWorld) :
  ¬ due now t → remind now stamp t w = (Returns tt, w).
Proof.
  unfold remind, due. intros Hn. destruct (reminder t) as [r|]; [|done].
  case_bool_decide as Hs; simpl; [|done].
  destruct (Z.leb_spec r now); [|done].
  exfalso. apply Hn. split; [done|]. by exists r.
Qed.

Lemma remind_due (now stamp : Z) (t : TodoItem) (pre post : list TodoItem)
    (lg : list Agent.Effect) :
  due now t → item_id t ∉ map item_id pre →
  remind now stamp t {| todos := pre ++ t :: post; log := lg |}
  = (Returns tt,
     {| todos := pre ++ reminded now stamp t :: post; log := lg ++ announced now t |}).
Proof.
  intros Hdue Hfresh. unfold reminded, announced.
  rewrite !decide_True by done.
  destruct Hdue as [Hs (r & Hr & Hle)].
  unfold remind. rewrite Hr. rewrite bool_decide_eq_true_2 by done.
  rewrite (proj2 (Z.leb_le r now)) by done. simpl.
  unfold bind at 1. unfold say at 1. unfold modify at 1.
  unfold bind at 1. rewrite updateTodo_run. simpl todos.
  rewrite todo_get_middle by done. simpl.
  rewrite (todo_set_replace pre post t) by done.
  unfold ret. by rewrite <- app_assoc.
Qed.

Lemma reminders_loop (now stamp : Z) (l : list TodoItem) :
  ∀ pre lg, NoDup (map item_id (pre ++ l)) →
    Supervisor.for_each l (remind now stamp) {| todos := pre ++ l; log := lg |}
    = (Returns tt,
       {| todos := pre ++ map (reminded now stamp) l;
          log := lg ++ concat (map (announced now) l) |}).
Proof.
  induction l as [|t l IH]; intros pre lg Hk.
  - simpl. by rewrite !app_nil_r.
  - assert (Hfresh : item_id t ∉ map item_id pre).
    { rewrite map_app in Hk. apply NoDup_app in Hk as (_ & Hdis & _).
      intros Hin. apply (Hdis _ Hin). left. }
    assert (Hk' : NoDup (map item_id ((pre ++ [reminded now stamp t]) ++ l))).
    { rewrite <- app_assoc. simpl. rewrite map_app. simpl. rewrite reminded_id.
      by rewrite map_app in Hk. }
    simpl Supervisor.for_each. unfold bind at 1.
    destruct (decide (due now t)) as [Hd|Hn].
    + rewrite remind_due by done.
      rewrite (cons_middle (reminded now stamp t) pre l), app_assoc.
      rewrite (IH _ _ Hk'). simpl. rewrite <- !app_assoc. done.
    + rewrite remind_not_due by done.
      assert (E : reminded now stamp t = t) by (unfold reminded; by rewrite decide_False).
      rewrite E in Hk'.
      rewrite (cons_middle t pre l), app_assoc.
      rewrite (IH _ _ Hk'). simpl. rewrite E.
      unfold announced at 2. rewrite decide_False by done. simpl.
      rewrite <- !app_assoc. done.
Qed.

(** X24. [checkReminders] on a map with one todo for each id: every todo
    that is not completed and whose reminder is at or before the present
    loses its reminder and gets a new update time, in its place in the map;
    every other todo is left as it is. For each such todo the reminder and
    the update are logged, in the order of the map. Afterwards no todo has a
    reminder that is due, and a second call does nothing. *)
Theorem checkReminders_clears (now stamp : Z) (w : TodoWorld) :
  keyed w →
  let w' := snd (checkReminders now stamp w) in
  fst (checkReminders now stamp w) = Returns tt
  ∧ todos w' = map (reminded now stamp) (todos w)
  ∧ log w' = log w ++ concat (map (announced now) (todos w))
  ∧ (∀ t, t ∈ todos w' → ¬ due now t)
  ∧ (∀ t, t ∈ todos w → ¬ due now t → t ∈ todos w')
  ∧ (∀ stamp', checkReminders now stamp' w' = (Returns tt, w')).
Proof.
  intros Hk.
  assert (Hrun : checkReminders now stamp w
                 = (Returns tt,
                    {| todos := map (reminded now stamp) (todos w);
                       log := log w ++ concat (map (announced now) (todos w)) |})).
  { unfold checkReminders, bind, gets. destruct w as [l lg]. simpl.
    apply (reminders_loop now stamp l [] lg). exact Hk. }
  rewrite Hrun. simpl. split; [done|]. split; [done|]. split; [done|].
  split; [|split].
  - intros t (x & -> & _)%list_elem_of_fmap. apply reminded_not_due.
  - intros t Hin Hn. apply list_elem_of_fmap. exists t. split; [|done].
    unfold reminded. by rewrite decide_False.
  - intros stamp'. unfold checkReminders, bind, gets. simpl.
    set (l := map (reminded now stamp) (todos w)).
    set (w' := {| todos := l |}).
    assert (Hquiet : ∀ l0, (∀ t, t ∈ l0 → ¬ due now t) →
                           Supervisor.for_each l0 (remind now stamp') w' = (Returns tt, w')).
    { induction l0 as [|t l0 IH]; intros Hl0; [done|].
      simpl. unfold bind. rewrite remind_not_due by (apply Hl0; left).
      apply IH. intros t' Ht'. apply Hl0. by right. }
    apply Hquiet. subst l. intros t (x & -> & _)%list_elem_of_fmap.
    apply reminded_not_due.
Qed.

Lemma checkReminders_clears_witness :
  let w' := snd (checkReminders 20 21 desk) in
  fst (checkReminders 20 21 desk) = Returns tt
  ∧ todos w' = map (reminded 20 21) (todos desk)
  ∧ log w' = log desk ++ concat (map (announced 20) (todos desk))
  ∧ (∀ t, t ∈ todos w' → ¬ due 20 t)
  ∧ (∀ t, t ∈ todos desk → ¬ due 20 t → t ∈ todos w')
  ∧ (∀ stamp', checkReminders 20 stamp' w' = (Returns tt, w')).
Proof.
  apply (checkReminders_clears 20 21 desk).
  unfold keyed. apply (bool_decide_unpack _). by vm_compute.
Defined.

(** *** The writers keep the map a map *)

(** X25. The writers of the todo list keep the map a map, with one todo for
    each id: [addTodo] writes the new todo in the place of the one that has
    its id, or at the end when the id is new; [updateTodo] keeps the ids and
    their order, whatever id the updates carry; [deleteTodo] takes todos
    out and keeps the order of the others; [checkReminders] keeps the ids
    and their order; after [addSubtask] the map still holds one todo for
    each id. *)
Theorem todos_stay_keyed (w : TodoWorld) :
  keyed w →
  (∀ item uuid now,
     keyed (snd (addTodo item uuid now w))
     ∧ map item_id (todos (snd (addTodo item uuid now w)))
       = (if bool_decide (item_id (made item uuid now) ∈ map item_id (todos w))
          then map item_id (todos w)
          else map item_id (todos w) ++ [item_id (made item uuid now)]))
  ∧ (∀ i updates now,
       map item_id (todos (snd (updateTodo i updates now w))) = map item_id (todos w))
  ∧ (∀ i, keyed (snd (deleteTodo i w))
          ∧ sublist (todos (snd (deleteTodo i w))) (todos w))
  ∧ (∀ now stamp,
       map item_id (todos (snd (checkReminders now stamp w))) = map item_id (todos w))
  ∧ (∀ parent_id subtask uuid now later,
       keyed (snd (addSubtask parent_id subtask uuid now later w))).
Proof.
  intros Hk. split; [|split; [|split; [|split]]].
  - intros. rewrite addTodo_run. unfold keyed. cbn [snd todos].
    split; [by apply todo_set_keyed | apply todo_set_ids].
  - intros. apply updateTodo_ids.
  - intros i. rewrite deleteTodo_run. unfold keyed. simpl. split.
    + eapply sublist_NoDup; [exact Hk|]. apply fmap_sublist, sublist_filter.
    + apply sublist_filter.
  - intros now stamp.
    destruct (checkReminders_clears now stamp w Hk) as (_ & -> & _).
    rewrite <- list_fmap_compose. apply list_fmap_ext. intros _ t _.
    apply reminded_id.
  - intros parent_id subtask uuid now later.
    unfold addSubtask. unfold bind at 1. unfold gets at 1.
    destruct (todo_get parent_id (todos w)) as [parent|]; [|done].
    unfold bind at 1. rewrite addTodo_run. unfold bind at 1.
    set (w1 := {| todos := todo_set _ (todos w) |}).
    assert (Hk1 : keyed w1) by (unfold keyed; simpl; by apply todo_set_keyed).
    unfold keyed.
    destruct (updateTodo parent_id _ later w1) as [r w2] eqn:E.
    assert (Hids : map item_id (todos w2) = map item_id (todos w1)).
    { replace w2 with (snd (updateTodo parent_id
                              (with_subtasks (default [] (subtasks parent)
                                              ++ [item_id (made (under parent_id subtask)
                                                             uuid now)])) later w1))
        by (by rewrite E).
      apply updateTodo_ids. }
    destruct r as [x| |]; simpl; rewrite ?Hids; try exact Hk1.
    all: rewrite updateTodo_run in E; destruct (todo_get parent_id (todos w1)); done.
Qed.

Lemma todos_stay_keyed_witness :
  (∀ item uuid now,
     keyed (snd (addTodo item uuid now desk))
     ∧ map item_id (todos (snd (addTodo item uuid now desk)))
       = (if bool_decide (item_id (made item uuid now) ∈ map item_id (todos desk))
          then map item_id (todos desk)
          else map item_id (todos desk) ++ [item_id (made item uuid now)]))
  ∧ (∀ i updates now,
       map item_id (todos (snd (updateTodo i updates now desk))) = map item_id (todos desk))
  ∧ (∀ i, keyed (snd (deleteTodo i desk))
          ∧ sublist (todos (snd (deleteTodo i desk))) (todos desk))
  ∧ (∀ now stamp,
       map item_id (todos (snd (checkReminders now stamp desk))) = map item_id (todos desk))
  ∧ (∀ parent_id subtask uuid now later,
       keyed (snd (addSubtask parent_id subtask uuid now later desk))).
Proof.
  apply (todos_stay_keyed desk).
  unfold keyed. apply (bool_decide_unpack _). by vm_compute.
Defined.

(** *** The queries *)

Section SortedBy.
Context {A : Type} (compare : A → A → Z) (R : A → A → Prop).
Hypothesis compare_R : ∀ x y, (compare x y <= 0)%Z ↔ R x y.
Hypothesis R_total : ∀ x y, R x y ∨ R y x.
Hypothesis R_trans : ∀ x y z, R x y → R y z → R x z.

Lemma sort_insert_sorted_by (x : A) (l : list A) :
  StronglySorted R l → StronglySorted R (Supervisor.sort_insert compare x l).
Proof.
  induction 1 as [|y l Hl IH Hy]; simpl.
  - repeat constructor.
  - destruct (compare x y <=? 0)%Z eqn:Hc.
    + apply Z.leb_le, compare_R in Hc. constructor; [by constructor|].
      constructor; [done|]. eapply Forall_impl; [exact Hy|]. simpl. eauto.
    + apply Z.leb_gt in Hc.
      assert (R y x).
      { destruct (R_total x y) as [Hxy|?]; [|done]. apply compare_R in Hxy. lia. }
      constructor; [done|].
      rewrite (SupervisorProofs.sort_insert_perm compare). by constructor.
Qed.

Lemma sort_sorted_by (l : list A) : StronglySorted R (Supervisor.sort compare l).
Proof.
  induction l as [|x l IH]; simpl; [constructor | by apply sort_insert_sorted_by].
Qed.

End SortedBy.

Lemma priorityOrder_inj (p q : TodoPriority) : priorityOrder p = priorityOrder q → p = q.
Proof. by destruct p, q. Qed.

Lemma compare_before (a b : TodoItem) : (compare a b <= 0)%Z ↔ before a b.
Proof.
  unfold compare, before.
  destruct (Z.eqb_spec (priorityOrder (priority a) - priorityOrder (priority b)) 0)
    as [E|Hne]; simpl.
  - assert (Hp : priority a = priority b) by (apply priorityOrder_inj; lia).
    destruct (dueDate a), (dueDate b); split; intros H;
      first [ lia | tauto | by (right; split; [done | lia])
            | by (destruct H as [?|[_ ?]]; lia) ].
  - split.
    + intros H. left. lia.
    + intros [H|[Hp _]]; [lia|]. rewrite Hp in Hne. lia.
Qed.

Lemma before_total (a b : TodoItem) : before a b ∨ before b a.
Proof.
  unfold before.
  destruct (Z.lt_total (priorityOrder (priority a)) (priorityOrder (priority b)))
    as [?|[E%priorityOrder_inj|?]]; [tauto | | tauto].
  destruct (dueDate a) as [x|], (dueDate b) as [y|].
  - destruct (Z.le_ge_cases x y); [left | right]; right; split; done.
  - left. by right.
  - right. by right.
  - left. by right.
Qed.

Lemma before_trans (a b c : TodoItem) : before a b → before b c → before a c.
Proof.
  unfold before. intros [Hab|[Eab Hab]] [Hbc|[Ebc Hbc]].
  - left. lia.
  - left. rewrite <- Ebc. done.
  - left. rewrite Eab. done.
  - right. split; [congruence|].
    destruct (dueDate a), (dueDate b), (dueDate c); try done. lia.
Qed.

Lemma select_elem (filters : Filters) (l : list TodoItem) (t : TodoItem) :
  t ∈ select filters l ↔ t ∈ l ∧ asked filters t.
Proof.
  unfold select, asked. destruct filters as [fs fp ft]. simpl.
  assert (H3 : ∀ l0 : list TodoItem, t ∈ match Js.present ft with
                         | Some tag => filter (λ x : TodoItem, tag ∈ tags x) l0
                         | None => l0
                         end
                     ↔ t ∈ l0 ∧ (∀ tag, ft = Some tag → tag ≠ "" → tag ∈ tags t)).
  { intros l0. unfold Js.present.
    destruct ft as [tag|]; [destruct (String.eqb_spec tag "") as [->|Hne]|].
    - split; [|by intros [? _]]. intros ?. split; [done|]. by intros ? [= <-] ?.
    - rewrite list_elem_of_filter. split.
      + intros [? ?]. split; [done|]. by intros ? [= <-] _.
      + intros [? H]. split; [by apply H | done].
    - split; [|by intros [? _]]. intros ?. split; [done|]. by intros ? [=]. }
  assert (H2 : ∀ l0 : list TodoItem, t ∈ match fp with
                         | Some p => filter (λ x : TodoItem, priority x = p) l0
                         | None => l0
                         end
                     ↔ t ∈ l0 ∧ (∀ p, fp = Some p → priority t = p)).
  { intros l0. destruct fp as [p|].
    - rewrite list_elem_of_filter. split.
      + intros [? ?]. split; [done|]. by intros ? [= <-].
      + intros [? H]. split; [by apply H | done].
    - split; [|by intros [? _]]. intros ?. split; [done|]. by intros ? [=]. }
  assert (H1 : t ∈ match fs with
                   | Some s => filter (λ x : TodoItem, status x = s) l
                   | None => l
                   end
               ↔ t ∈ l ∧ (∀ s, fs = Some s → status t = s)).
  { destruct fs as [s|].
    - rewrite list_elem_of_filter. split.
      + intros [? ?]. split; [done|]. by intros ? [= <-].
      + intros [? H]. split; [by apply H | done].
    - split; [|by intros [? _]]. intros ?. split; [done|]. by intros ? [=]. }
  rewrite H3, H2, H1. tauto.
Qed.

Lemma getTodos_elem (filters : Filters) (w : TodoWorld) (t : TodoItem) :
  t ∈ getTodos filters w ↔ t ∈ todos w ∧ asked filters t.
Proof.
  unfold getTodos. rewrite (SupervisorProofs.sort_perm compare). apply select_elem.
Qed.

(** X26. [getTodos] gives the todos of the map that the filters ask for,
    each as often as the map holds it: with a status or a priority those
    that have it, with a tag that is not the empty string those that carry
    it. They come with the more urgent priority first (critical, high,
    medium, low); within one priority the earlier due date first and the
    todos without a due date last. *)
Theorem getTodos_sorted (filters : Filters) (w : TodoWorld) :
  getTodos filters w ≡ₚ select filters (todos w)
  ∧ (∀ t, t ∈ getTodos filters w ↔ t ∈ todos w ∧ asked filters t)
  ∧ StronglySorted before (getTodos filters w)
  ∧ (∀ t, t ∈ getPendingTodos w ↔ t ∈ todos w ∧ status t = pending).
Proof.
  split; [|split; [|split]].
  - apply SupervisorProofs.sort_perm.
  - apply getTodos_elem.
  - apply sort_sorted_by.
    + apply compare_before.
    + apply before_total.
    + apply before_trans.
  - intros t. unfold getPendingTodos. rewrite getTodos_elem. unfold asked. simpl.
    split.
    + intros (Hin & Hs & _). split; [done|]. by apply Hs.
    + intros (Hin & Hs). repeat split; try done. by intros ? [= <-].
Qed.

(** *** One todo, from [addTodo] to [deleteTodo] *)

Lemma getOverdueTodos_elem (now : Z) (w : TodoWorld) (t : TodoItem) :
  t ∈ getOverdueTodos now w
  ↔ t ∈ todos w ∧ status t ≠ completed ∧ ∃ d, dueDate t = Some d ∧ (d < now)%Z.
Proof.
  unfold getOverdueTodos, is_overdue. rewrite list_elem_of_filter.
  destruct (dueDate t) as [d|].
  - rewrite andb_true_iff, bool_decide_eq_true, Z.ltb_lt. split.
    + intros [[? ?] ?]. split; [done|]. split; [done|]. by exists d.
    + intros (? & ? & d' & [= <-] & ?). done.
  - split; [by intros [? _] | by intros (_ & _ & ? & ? & _)].
Qed.

(** X27. The life of one todo in a map with one todo for each id.
    [addTodo] returns the todo it made and stores it under its id; the
    todos under the other ids stay. [updateTodo] on that id returns and
    stores the merge of the todo and the updates, under the same id and
    with the new update time. [completeTodo] leaves it completed, with the
    completion date, and then no todo with that id is among the pending or
    the overdue ones. [deleteTodo] returns true and the id is gone; after
    that [updateTodo] returns null and changes nothing, and [deleteTodo]
    returns false. *)
Theorem todo_round_trip (item : Partial) (uuid : string) (now : Z) (w : TodoWorld) :
  keyed w →
  let t := made item uuid now in
  let i := item_id t in
  let w1 := snd (addTodo item uuid now w) in
  (fst (addTodo item uuid now w) = Returns t
   ∧ todo_get i (todos w1) = Some t
   ∧ ∀ j, j ≠ i → todo_get j (todos w1) = todo_get j (todos w))
  ∧ (∀ updates later,
       let r := updateTodo i updates later w1 in
       fst r = Returns (Some (merged t updates i later))
       ∧ todo_get i (todos (snd r)) = Some (merged t updates i later)
       ∧ ∀ j, j ≠ i → todo_get j (todos (snd r)) = todo_get j (todos w))
  ∧ (∀ date later,
       let w2 := snd (completeTodo i date later w1) in
       (∃ c, todo_get i (todos w2) = Some c
             ∧ status c = completed ∧ completedAt c = Some date)
       ∧ (∀ x, x ∈ getPendingTodos w2 → item_id x ≠ i)
       ∧ (∀ time x, x ∈ getOverdueTodos time w2 → item_id x ≠ i))
  ∧ (let r := deleteTodo i w1 in
     fst r = Returns true
     ∧ todo_get i (todos (snd r)) = None
     ∧ (∀ j, j ≠ i → todo_get j (todos (snd r)) = todo_get j (todos w))
     ∧ (∀ updates later, updateTodo i updates later (snd r) = (Returns None, snd r))
     ∧ deleteTodo i (snd r) = (Returns false, snd r)).
Proof.
  intros Hk t i w1.
  assert (Hw1 : todos w1 = todo_set t (todos w)) by (subst w1; by rewrite addTodo_run).
  assert (Hget : todo_get i (todos w1) = Some t) by (rewrite Hw1; apply todo_get_set_eq).
  assert (Hothers : ∀ j, j ≠ i → todo_get j (todos w1) = todo_get j (todos w)).
  { intros j Hj. rewrite Hw1. by apply todo_get_set_ne. }
  assert (Hk1 : keyed w1) by (unfold keyed; rewrite Hw1; by apply todo_set_keyed).
  assert (Hupd : ∀ updates later,
             let r := updateTodo i updates later w1 in
             fst r = Returns (Some (merged t updates i later))
             ∧ todos (snd r) = todo_set (merged t updates i later) (todos w1)).
  { intros updates later. cbv zeta. rewrite updateTodo_run, Hget. done. }
  split; [|split; [|split]].
  - split; [by rewrite addTodo_run|]. done.
  - intros updates later r. destruct (Hupd updates later) as [Hr Hw2].
    split; [done|]. fold r in Hw2. rewrite Hw2. split.
    + apply (todo_get_set_eq (merged t updates i later)).
    + intros j Hj. rewrite todo_get_set_ne by done. by apply Hothers.
  - intros date later w2. unfold completeTodo in w2.
    destruct (Hupd (completion date) later) as [_ Hw2]. fold w2 in Hw2.
    set (c := merged t (completion date) i later) in *.
    assert (Hc : todo_get i (todos w2) = Some c).
    { rewrite Hw2. apply (todo_get_set_eq c). }
    assert (Hk2 : NoDup (map item_id (todos w2))).
    { rewrite Hw2. by apply todo_set_keyed. }
    assert (Hone : ∀ x, x ∈ todos w2 → item_id x = i → x = c).
    { intros x Hx Hi. pose proof (todo_get_keyed _ _ Hk2 Hx) as Hgx.
      rewrite Hi, Hc in Hgx. by injection Hgx. }
    split; [by exists c|]. split.
    + intros x Hx Hi. apply getTodos_elem in Hx as (Hin & Hs & _).
      rewrite (Hone x Hin Hi) in Hs. by specialize (Hs pending eq_refl).
    + intros time x Hx Hi. apply getOverdueTodos_elem in Hx as (Hin & Hs & _).
      rewrite (Hone x Hin Hi) in Hs. by apply Hs.
  - cbv zeta. rewrite deleteTodo_run, Hget. cbn [fst snd todos].
    split; [by rewrite bool_decide_eq_true_2|].
    assert (Hgone : todo_get i (todo_delete i (todos w1)) = None).
    { rewrite todo_get_delete. by rewrite decide_True. }
    split; [done|]. split.
    + intros j Hj. rewrite todo_get_delete, decide_False by done. by apply Hothers.
    + split.
      * intros updates later. rewrite updateTodo_run. cbn [todos]. by rewrite Hgone.
      * rewrite deleteTodo_run. cbn [todos log]. rewrite Hgone.
        rewrite bool_decide_eq_false_2 by (by intros [? ?]).
        rewrite (todo_delete_absent i (todo_delete i (todos w1)));
          [done | by apply todo_get_none].
Qed.

Lemma todo_round_trip_witness :
  let t := made nothing "u1" 7 in
  let i := item_id t in
  let w1 := snd (addTodo nothing "u1" 7 desk) in
  (fst (addTodo nothing "u1" 7 desk) = Returns t
   ∧ todo_get i (todos w1) = Some t
   ∧ ∀ j, j ≠ i → todo_get j (todos w1) = todo_get j (todos desk))
  ∧ (∀ updates later,
       let r := updateTodo i updates later w1 in
       fst r = Returns (Some (merged t updates i later))
       ∧ todo_get i (todos (snd r)) = Some (merged t updates i later)
       ∧ ∀ j, j ≠ i → todo_get j (todos (snd r)) = todo_get j (todos desk))
  ∧ (∀ date later,
       let w2 := snd (completeTodo i date later w1) in
       (∃ c, todo_get i (todos w2) = Some c
             ∧ status c = completed ∧ completedAt c = Some date)
       ∧ (∀ x, x ∈ getPendingTodos w2 → item_id x ≠ i)
       ∧ (∀ time x, x ∈ getOverdueTodos time w2 → item_id x ≠ i))
  ∧ (let r := deleteTodo i w1 in
     fst r = Returns true
     ∧ todo_get i (todos (snd r)) = None
     ∧ (∀ j, j ≠ i → todo_get j (todos (snd r)) = todo_get j (todos desk))
     ∧ (∀ updates later, updateTodo i updates later (snd r) = (Returns None, snd r))
     ∧ deleteTodo i (snd r) = (Returns false, snd r)).
Proof.
  apply (todo_round_trip nothing "u1" 7 desk).
  unfold keyed. apply (bool_decide_unpack _). by vm_compute.
Defined.

(** *** Subtasks *)

Lemma omap_agree {A B} (f g : A → option B) (l : list A) :
  (∀ x, x ∈ l → f x = g x) → omap f l = omap g l.
Proof.
  induction l as [|x l IH]; intros Hfg; [done|].
  cbn [omap list_omap]. rewrite (Hfg x) by left.
  rewrite IH; [done|]. intros y Hy. apply Hfg. by right.
Qed.

Lemma updateTodo_returns (i : string) (updates : Partial) (now : Z) (w : TodoWorld) :
  ∃ r, fst (updateTodo i updates now w) = Returns r.
Proof. rewrite updateTodo_run. destruct (todo_get i (todos w)); eauto. Qed.

Lemma addSubtask_run (parent_id : string) (subtask : Partial) (uuid : string)
    (now later : Z) (w : TodoWorld) (parent : TodoItem) :
  todo_get parent_id (todos w) = Some parent →
  addSubtask parent_id subtask uuid now later w
  = (Returns (Some (made (under parent_id subtask) uuid now)),
     snd (updateTodo parent_id
            (with_subtasks (default [] (subtasks parent)
                            ++ [item_id (made (under parent_id subtask) uuid now)]))
            later (snd (addTodo (under parent_id subtask) uuid now w)))).
Proof.
  intros Hp. unfold addSubtask. unfold bind at 1. unfold gets at 1. rewrite Hp.
  unfold bind at 1. rewrite addTodo_run. unfold bind at 1. cbn [snd].
  match goal with |- context [updateTodo ?i ?u ?l ?x] =>
    destruct (updateTodo_returns i u l x) as [r Hr];
    destruct (updateTodo i u l x) as [r' w2] end.
  simpl in Hr. by rewrite Hr.
Qed.

(** X28. [addSubtask] under an id that the map does not hold returns null
    and changes nothing, and [getSubtasks] of such an id is empty. Under
    the id of a stored parent it returns the new todo, which names the
    parent. When the id of the new todo is not yet in the map, the new todo
    is stored under it, the parent is stored with that id added at the end
    of its subtasks, and the other todos stay; when the parent listed
    neither itself nor that id, [getSubtasks] of the parent gives what it
    gave before and then the new todo. *)
Theorem addSubtask_links (parent_id : string) (subtask : Partial) (uuid : string)
    (now later : Z) (w : TodoWorld) :
  let child := made (under parent_id subtask) uuid now in
  let r := addSubtask parent_id subtask uuid now later w in
  match todo_get parent_id (todos w) with
  | None => r = (Returns None, w) ∧ getSubtasks parent_id w = []
  | Some parent =>
      let ids := default [] (subtasks parent) in
      fst r = Returns (Some child)
      ∧ parentId child = Some parent_id
      ∧ (item_id child ∉ map item_id (todos w) →
           todo_get (item_id child) (todos (snd r)) = Some child
           ∧ todo_get parent_id (todos (snd r))
             = Some (merged parent (with_subtasks (ids ++ [item_id child])) parent_id later)
           ∧ (∀ j, j ≠ item_id child → j ≠ parent_id →
                   todo_get j (todos (snd r)) = todo_get j (todos w))
           ∧ (parent_id ∉ ids → item_id child ∉ ids →
                getSubtasks parent_id (snd r) = getSubtasks parent_id w ++ [child]))
  end.
Proof.
  intros child r. destruct (todo_get parent_id (todos w)) as [parent|] eqn:Hp.
  - intros ids. subst r. rewrite (addSubtask_run _ _ _ _ _ _ parent Hp).
    fold child. cbn [fst snd]. split; [done|]. split; [done|]. intros Hfresh.
    rewrite addTodo_run. fold child. cbn [snd].
    assert (Hne : parent_id ≠ item_id child).
    { intros E. apply Hfresh. apply todo_get_elem in Hp as [Hin Hid].
      rewrite <- E, <- Hid. apply list_elem_of_fmap. eauto. }
    rewrite updateTodo_run. cbn [todos].
    rewrite (todo_get_set_ne child (todos w) parent_id Hne), Hp. cbn [snd todos].
    fold ids.
    set (parent' := merged parent (with_subtasks (ids ++ [item_id child])) parent_id later).
    assert (Hget : ∀ j, todo_get j (todo_set parent' (todo_set child (todos w)))
                        = if decide (j = parent_id) then Some parent'
                          else if decide (j = item_id child) then Some child
                               else todo_get j (todos w)).
    { intros j. destruct (decide (j = parent_id)) as [->|Hj].
      - apply (todo_get_set_eq parent').
      - rewrite (todo_get_set_ne parent') by done.
        destruct (decide (j = item_id child)) as [->|Hj'].
        + apply todo_get_set_eq.
        + by apply todo_get_set_ne. }
    split; [|split; [|split]].
    + rewrite Hget. rewrite decide_False by done. by rewrite decide_True.
    + rewrite Hget. by rewrite decide_True.
    + intros j Hj Hj'. rewrite Hget. by rewrite !decide_False.
    + intros Hself Hnew. unfold getSubtasks. cbn [todos]. rewrite Hget, Hp.
      rewrite decide_True by done. cbn [parent' merged subtasks with_subtasks p_subtasks default id].
      replace (match subtasks parent with
               | Some ids0 => omap (λ i, todo_get i (todos w)) ids0
               | None => []
               end) with (omap (λ i, todo_get i (todos w)) ids)
        by (subst ids; by destruct (subtasks parent)).
      rewrite omap_app. cbn [omap list_omap]. rewrite Hget.
      rewrite decide_False by done. rewrite decide_True by done.
      f_equal. apply omap_agree. intros j Hj. rewrite Hget.
      rewrite !decide_False; [done | by intros -> | by intros ->].
  - subst r. unfold addSubtask, bind, gets, getSubtasks. by rewrite Hp.
Qed.

(** *** Statistics *)

Lemma status_counts (l : list TodoItem) :
  length (filter (λ t, status t = pending) l)
  + length (filter (λ t, status t = in_progress) l)
  + length (filter (λ t, status t = completed) l)
  + length (filter (λ t, status t = cancelled) l) = length l.
Proof.
  induction l as [|t l IH]; [done|]. rewrite !filter_cons.
  destruct (status t); simpl; lia.
Qed.

Lemma priority_counts (l : list TodoItem) :
  length (filter (λ t, priority t = low) l)
  + length (filter (λ t, priority t = medium) l)
  + length (filter (λ t, priority t = high) l)
  + length (filter (λ t, priority t = critical) l) = length l.
Proof.
  induction l as [|t l IH]; [done|]. rewrite !filter_cons.
  destruct (priority t); simpl; lia.
Qed.

Lemma exclusive_counts {A} (P Q R : A → Prop) `{∀ x, Decision (P x)}
    `{∀ x, Decision (Q x)} `{∀ x, Decision (R x)} (l : list A) :
  (∀ x, P x → Q x → False) → (∀ x, P x → R x → False) → (∀ x, Q x → R x → False) →
  length (filter P l) + length (filter Q l) + length (filter R l) ≤ length l.
Proof.
  intros HPQ HPR HQR. induction l as [|x l IH]; [done|]. rewrite !filter_cons.
  destruct (decide (P x)), (decide (Q x)), (decide (R x)); simpl;
    try lia; exfalso; eauto.
Qed.

Lemma tally_fields (today tomorrow : Z) (acc : Stats) (t : TodoItem) :
  let s := tally today tomorrow acc t in
  total s = total acc
  ∧ byStatus s = bump (status t) (byStatus acc)
  ∧ byPriority s = bump (priority t) (byPriority acc)
  ∧ overdue s = overdue acc + (if is_overdue today t then 1 else 0)
  ∧ dueToday s
    = dueToday acc
      + (if bool_decide (status t ≠ completed) && due_today today tomorrow t then 1 else 0)
  ∧ completedToday s
    = completedToday acc + (if completed_on today tomorrow t then 1 else 0).
Proof.
  unfold tally, is_overdue, due_today, completed_on.
  destruct (dueDate t) as [d|], (completedAt t) as [c|];
    try destruct (bool_decide (status t ≠ completed)); simpl;
    repeat match goal with
           | |- context [(?a <? ?b)%Z] => destruct (Z.ltb_spec a b); simpl
           | |- context [(?a <=? ?b)%Z] => destruct (Z.leb_spec a b); simpl
           end;
    repeat split; lia.
Qed.

Lemma tally_fold (today tomorrow : Z) (l : list TodoItem) :
  ∀ acc,
    let s := foldl (tally today tomorrow) acc l in
    total s = total acc
    ∧ (∀ st, byStatus s st = byStatus acc st + length (filter (λ t, status t = st) l))
    ∧ (∀ p, byPriority s p = byPriority acc p + length (filter (λ t, priority t = p) l))
    ∧ overdue s = overdue acc + length (filter (λ t, is_overdue today t = true) l)
    ∧ dueToday s
      = dueToday acc
        + length (filter (λ t, status t ≠ completed)
                    (filter (λ t, due_today today tomorrow t = true) l))
    ∧ completedToday s
      = completedToday acc
        + length (filter (λ t, completed_on today tomorrow t = true) l).
Proof.
  induction l as [|t l IH]; intros acc.
  - simpl. repeat split; intros; lia.
  - cbn [foldl]. cbv zeta.
    destruct (IH (tally today tomorrow acc t)) as (Ht & Hs & Hp & Ho & Hd & Hc).
    destruct (tally_fields today tomorrow acc t) as (Ft & Fs & Fp & Fo & Fd & Fc).
    rewrite Ht, Ho, Hd, Hc, Ft, Fo, Fd, Fc. clear Ht Ho Hd Hc Ft Fo Fd Fc.
    split; [done|]. split; [|split; [|split; [|split]]].
    + intros st. rewrite Hs, Fs, filter_cons. unfold bump.
      destruct (decide (st = status t)) as [->|Hne].
      * rewrite decide_True by done. simpl. lia.
      * rewrite decide_False by done. lia.
    + intros p. rewrite Hp, Fp, filter_cons. unfold bump.
      destruct (decide (p = priority t)) as [->|Hne].
      * rewrite decide_True by done. simpl. lia.
      * rewrite decide_False by done. lia.
    + rewrite filter_cons. destruct (is_overdue today t).
      * rewrite decide_True by done. simpl. lia.
      * rewrite decide_False by done. lia.
    + rewrite (filter_cons _ t). destruct (due_today today tomorrow t).
      * rewrite decide_True by done. rewrite (filter_cons _ t).
        destruct (decide (status t ≠ completed)) as [Hst|Hst].
        -- rewrite bool_decide_eq_true_2 by done. simpl. lia.
        -- rewrite bool_decide_eq_false_2 by done. simpl. lia.
      * rewrite decide_False by done. rewrite andb_false_r. lia.
    + rewrite filter_cons. destruct (completed_on today tomorrow t).
      * rewrite decide_True by done. simpl. lia.
      * rewrite decide_False by done. lia.
Qed.

(** X29. [getStats] counts each todo of the map once under its status and
    once under its priority, so the four counts by status and the four
    counts by priority each add up to the total. The count of overdue todos
    is that of the todos that were overdue at the start of the day, the
    count of todos due today that of the todos due today that are not
    completed, and the count of todos completed today that of the todos
    whose completion date is on the day. A todo is counted at most once
    among the overdue ones, those due today and those of status completed:
    the count of overdue todos, the count of todos due today and the count
    by status of the completed todos are together at most the total. (The
    count of todos completed today is not one of the three: a todo whose
    completion date is on the day can be of another status, and overdue.) *)
Theorem getStats_totals (today tomorrow : Z) (w : TodoWorld) :
  let s := getStats today tomorrow w in
  total s = length (todos w)
  ∧ (∀ st, byStatus s st = length (filter (λ t, status t = st) (todos w)))
  ∧ (∀ p, byPriority s p = length (filter (λ t, priority t = p) (todos w)))
  ∧ byStatus s pending + byStatus s in_progress + byStatus s completed
    + byStatus s cancelled = total s
  ∧ byPriority s low + byPriority s medium + byPriority s high
    + byPriority s critical = total s
  ∧ overdue s = length (getOverdueTodos today w)
  ∧ dueToday s
    = length (filter (λ t, status t ≠ completed) (getTodayTodos today tomorrow w))
  ∧ completedToday s
    = length (filter (λ t, completed_on today tomorrow t = true) (todos w))
  ∧ overdue s + dueToday s + byStatus s completed ≤ total s.
Proof.
  intros s. subst s. unfold getStats.
  match goal with |- context [foldl _ ?acc _] =>
    destruct (tally_fold today tomorrow (todos w) acc) as (Ht & Hs & Hp & Ho & Hd & Hc)
  end.
  cbn [total byStatus byPriority overdue dueToday completedToday] in *.
  rewrite Ht, Ho, Hd, Hc, !Hs, !Hp. simpl.
  split; [done|]. split; [done|]. split; [done|].
  split; [apply status_counts|]. split; [apply priority_counts|].
  split; [done|]. split; [done|]. split; [done|].
  rewrite list_filter_filter.
  apply (exclusive_counts (λ t, is_overdue today t = true)
           (λ t, status t ≠ completed ∧ due_today today tomorrow t = true)
           (λ t, status t = completed)).
  - intros x Ho' [_ Hd']. unfold is_overdue, due_today in *.
    destruct (dueDate x) as [d|]; [|done].
    apply andb_true_iff in Ho' as [_ ?%Z.ltb_lt].
    apply andb_true_iff in Hd' as [?%Z.leb_le _]. lia.
  - intros x Ho' Hs'. unfold is_overdue in Ho'.
    destruct (dueDate x) as [d|]; [|done].
    apply andb_true_iff in Ho' as [?%bool_decide_eq_true _]. done.
  - by intros x [? _] ?.
Qed.

End TodoListProofs.

Module PlannerProofs.
Import Todo Planner.

(** *** The map of planner tasks *)

Lemma map_set_ids (t : PlannerTask) (l : list PlannerTask) :
  task_id t ∈ map task_id l → map task_id (map_set t l) = map task_id l.
Proof.
  induction l as [|x l IH]; simpl; intros Hin.
  - by apply elem_of_nil in Hin.
  - destruct (String.eqb_spec (task_id x) (task_id t)) as [E|Hne]; simpl.
    + by rewrite E.
    + apply elem_of_cons in Hin as [?|Hin]; [congruence|]. by rewrite IH.
Qed.

Lemma map_get_set_eq (t : PlannerTask) (l : list PlannerTask) :
  map_get (task_id t) (map_set t l) = Some t.
Proof.
  unfold map_get. induction l as [|x l IH]; simpl.
  - by rewrite String.eqb_refl.
  - destruct (String.eqb_spec (task_id x) (task_id t)) as [E|Hne]; simpl.
    + by rewrite String.eqb_refl.
    + by destruct (String.eqb_spec (task_id x) (task_id t)).
Qed.

Lemma map_get_set_ne (t : PlannerTask) (l : list PlannerTask) (j : string) :
  j ≠ task_id t → map_get j (map_set t l) = map_get j l.
Proof.
  intros Hj. unfold map_get. induction l as [|x l IH]; simpl.
  - by destruct (String.eqb_spec (task_id t) j).
  - destruct (String.eqb_spec (task_id x) (task_id t)) as [E|Hne]; simpl.
    + destruct (String.eqb_spec (task_id t) j); [done|].
      by destruct (String.eqb_spec (task_id x) j); [congruence|].
    + by rewrite IH.
Qed.

Lemma getTaskDependencies_elem (self : TodoManagerAgent) (t d : PlannerTask) :
  keyed (tasks self) → t ∈ tasks self →
  d ∈ getTaskDependencies (task_id t) self
  ↔ d ∈ tasks self ∧ task_id d ∈ dependencies t.
Proof.
  intros Hk Ht. unfold getTaskDependencies.
  rewrite (TodoProofs.map_get_keyed _ _ Hk Ht). rewrite list_elem_of_omap. split.
  - intros (i & Hi & Hget). apply TodoProofs.map_get_elem in Hget as [Hd Hid].
    split; [done|]. by rewrite Hid.
  - intros [Hd Hdep]. exists (task_id d). split; [done|].
    by apply TodoProofs.map_get_keyed.
Qed.

(** X30. The queries on the planner tasks, for a map with one task for each
    id. [getTaskDependencies] of a stored task gives the stored tasks whose
    ids the task lists as dependencies, and leaves out the ids that name no
    task; for an id that names no task it gives nothing. [getDependentTasks]
    is its converse: a task is among the dependencies of another exactly
    when the other is among its dependents. In the order that
    [autoScheduleTasks] returns, each pending task that
    [getTaskDependencies] gives for a task of the order comes before that
    task. [updatePlannerTask] on an id that names no task returns null and
    changes nothing; on a stored task it returns the merge of the task and
    the updates and stores it under the same id, in the same place, the
    other tasks staying as they were. *)
Theorem planner_queries (self : TodoManagerAgent) :
  keyed (tasks self) →
  (∀ t d, t ∈ tasks self →
          (d ∈ getTaskDependencies (task_id t) self
           ↔ d ∈ tasks self ∧ task_id d ∈ dependencies t))
  ∧ (∀ i, map_get i (tasks self) = None → getTaskDependencies i self = [])
  ∧ (∀ t d, t ∈ tasks self → d ∈ tasks self →
            (d ∈ getTaskDependencies (task_id t) self
             ↔ t ∈ getDependentTasks (task_id d) self))
  ∧ (∃ order, autoScheduleTasks self = (Returns order, self)
              ∧ ∀ i t d, order !! i = Some t →
                         d ∈ getTaskDependencies (task_id t) self →
                         task_status d = pending →
                         ∃ j, j < i ∧ order !! j = Some d)
  ∧ (∀ i updates,
       match map_get i (tasks self) with
       | None => updatePlannerTask i updates self = (Returns None, self)
       | Some t =>
           let r := updatePlannerTask i updates self in
           fst r = Returns (Some (merged t updates i))
           ∧ map task_id (tasks (snd r)) = map task_id (tasks self)
           ∧ map_get i (tasks (snd r)) = Some (merged t updates i)
           ∧ (∀ j, j ≠ i → map_get j (tasks (snd r)) = map_get j (tasks self))
           ∧ todos (snd r) = todos self
       end).
Proof.
  intros Hk. split; [|split; [|split; [|split]]].
  - intros t d Ht. by apply getTaskDependencies_elem.
  - intros i Hi. unfold getTaskDependencies. by rewrite Hi.
  - intros t d Ht Hd. rewrite getTaskDependencies_elem by done.
    unfold getDependentTasks. rewrite list_elem_of_filter. tauto.
  - destruct (TodoProofs.autoScheduleTasks_spec self Hk) as (order & pf & Hrun & HI & _).
    exists order. split; [done|]. intros i t d Hi Hd Hs.
    destruct (inv_scheduled _ _ _ HI i t Hi) as (Ht & _ & Hbefore).
    apply getTaskDependencies_elem in Hd as [Hd Hdep]; [|done..].
    assert (HdP : task_id d ∈ map task_id (pending_tasks (tasks self))).
    { apply list_elem_of_fmap. exists d. split; [done|]. by apply list_elem_of_filter. }
    specialize (Hbefore _ Hdep HdP).
    apply list_elem_of_fmap in Hbefore as (y & Hy & Hin).
    apply elem_of_take in Hin as (j & Hj & Hlt).
    exists j. split; [done|].
    destruct (inv_scheduled _ _ _ HI j y Hj) as (Hyin & _ & _).
    pose proof (TodoProofs.map_get_keyed _ _ Hk Hyin) as Hgy.
    rewrite <- Hy, (TodoProofs.map_get_keyed _ _ Hk Hd) in Hgy.
    injection Hgy as <-. done.
  - intros i updates. unfold updatePlannerTask, bind, tasks_get, gets.
    destruct (map_get i (tasks self)) as [t|] eqn:Hget; [|done].
    unfold tasks_set, modify, ret. cbn [fst snd tasks todos].
    apply TodoProofs.map_get_elem in Hget as [Hin Hid].
    split; [done|]. split; [|split; [|split]].
    + apply map_set_ids. cbn [merged task_id]. rewrite <- Hid.
      apply list_elem_of_fmap. eauto.
    + apply (map_get_set_eq (merged t updates i)).
    + intros j Hj. by apply map_get_set_ne.
    + done.
Qed.

Lemma planner_queries_witness :
  (∀ t d, t ∈ tasks chain3 →
          (d ∈ getTaskDependencies (task_id t) chain3
           ↔ d ∈ tasks chain3 ∧ task_id d ∈ dependencies t))
  ∧ (∀ i, map_get i (tasks chain3) = None → getTaskDependencies i chain3 = [])
  ∧ (∀ t d, t ∈ tasks chain3 → d ∈ tasks chain3 →
            (d ∈ getTaskDependencies (task_id t) chain3
             ↔ t ∈ getDependentTasks (task_id d) chain3))
  ∧ (∃ order, autoScheduleTasks chain3 = (Returns order, chain3)
              ∧ ∀ i t d, order !! i = Some t →
                         d ∈ getTaskDependencies (task_id t) chain3 →
                         task_status d = pending →
                         ∃ j, j < i ∧ order !! j = Some d)
  ∧ (∀ i updates,
       match map_get i (tasks chain3) with
       | None => updatePlannerTask i updates chain3 = (Returns None, chain3)
       | Some t =>
           let r := updatePlannerTask i updates chain3 in
           fst r = Returns (Some (merged t updates i))
           ∧ map task_id (tasks (snd r)) = map task_id (tasks chain3)
           ∧ map_get i (tasks (snd r)) = Some (merged t updates i)
           ∧ (∀ j, j ≠ i → map_get j (tasks (snd r)) = map_get j (tasks chain3))
           ∧ todos (snd r) = todos chain3
       end).
Proof.
  apply (planner_queries chain3).
  unfold keyed. apply (bool_decide_unpack _). by vm_compute.
Defined.

End PlannerProofs.
